(** * Value log and write-ahead log of badger (value.go)

    A shallow embedding of the record codec, the replayer, the writer, the
    reader and the garbage collector's bookkeeping of [value.go], with the
    properties its specification states about them.

    Conventions.
    - Go's fixed-width integers are [Z] with the wrap-around written out
      ([wrap32], [wrap64]); a byte is a [Z] in [0, 256).
    - A Go slice is a [list]; the capacity of a slice is taken equal to its
      length, so a slice expression fails exactly when it is out of range of
      the length or has its bounds crossed.
    - A run-time panic (failed [y.AssertTrue], slice out of range, nil
      dereference) is the outcome [Panic]; an [error] value is [Err].
    - Locks, atomics and trace calls are not modelled: every function here is
      the single-threaded reading of its source.
    - System calls on an open descriptor (write, sync, truncate, mmap) are
      taken to succeed. *)

From Stdlib Require Import ZArith Lia Bool.
From stdpp Require Import base list gmap sorting.

Local Open Scope Z_scope.

(** ** Machine integers and bytes *)

Abbreviation byte := Z.

Definition wrap8 (x : Z) : Z := x mod 256.
Definition wrap32 (x : Z) : Z := x mod 4294967296.
Definition wrap64 (x : Z) : Z := x mod 18446744073709551616.

(** [math.MaxUint32]. *)
Definition MaxUint32 : Z := 4294967295.

(** [len(s)] as a Go [int]. *)
Definition len {A} (s : list A) : Z := Z.of_nat (length s).

(** [binary.BigEndian.PutUint32] and [binary.BigEndian.Uint32] (the latter is
    also [y.BytesToU32]). *)
Definition PutUint32 (x : Z) : list byte :=
  [ (x / 16777216) mod 256; (x / 65536) mod 256; (x / 256) mod 256; x mod 256 ].

Definition BytesToU32 (b : list byte) : option Z :=
  match b with
  | b0 :: b1 :: b2 :: b3 :: _ => Some (((b0 * 256 + b1) * 256 + b2) * 256 + b3)
  | _ => None
  end.

(** [binary.BigEndian.PutUint64]. *)
Definition PutUint64 (x : Z) : list byte :=
  PutUint32 (x / 4294967296) ++ PutUint32 (x mod 4294967296).

(** ** Outcomes *)

Inductive error : Type :=
  | io_EOF
  | io_ErrUnexpectedEOF
  | errStop
  | errTruncate
  | errDeleteVlogFile
  | ErrReplayNeeded
  | ErrTruncateNeeded
  | ErrRetry
  | ErrEOF
  | ErrChecksumMismatch
  | ErrNoRewrite
  | ErrTxnTooBig
  | ErrSizeExceeded      (* "Request size offset %d is bigger than maximum offset %d" *)
  | ErrInvalidOffset     (* "Invalid value pointer offset: ..." *)
  | ErrInvalidRead       (* "Invalid read: Len: ..." *)
  | ErrCipher            (* aes.NewCipher rejected the key *)
  | ErrVarintOverflow    (* binary: varint overflows a 64-bit integer *)
  | ErrFidNotFound       (* "Unable to find fid: %d" *)
  | ErrRemove            (* os.Remove failed *)
  | ErrExist             (* the file to create exists already *)
  | ErrEmptyValue        (* "Empty value: ..." *)
  | ErrWrapped (e : error) (* errFile / y.Wrapf around another error *)
  | ErrHandler (code : Z)  (* an error of the caller's own *).

Inductive result (A : Type) : Type :=
  | Ok (a : A)
  | Err (e : error)
  | Panic.
Arguments Ok {A} a.
Arguments Err {A} e.
Arguments Panic {A}.

Global Instance result_ret : MRet result := fun A a => Ok a.

Global Instance result_bind : MBind result := fun A B k r =>
  match r with
  | Ok a => k a
  | Err e => Err e
  | Panic => Panic
  end.

(** [y.AssertTrue]. *)
Definition AssertTrue (b : bool) : result unit :=
  if b then Ok tt else Panic.

(** ** Slices *)

(** [s[lo:hi]]: panics unless [0 <= lo <= hi <= len(s)]. *)
Definition slice {A} (s : list A) (lo hi : Z) : result (list A) :=
  if (0 <=? lo) && (lo <=? hi) && (hi <=? len s)
  then Ok (take (Z.to_nat (hi - lo)) (drop (Z.to_nat lo) s))
  else Panic.

(** [s[lo:]]. *)
Definition slice_from {A} (s : list A) (lo : Z) : result (list A) :=
  slice s lo (len s).

(** [s[:hi]]. *)
Definition slice_to {A} (s : list A) (hi : Z) : result (list A) :=
  slice s 0 hi.

(** ** Constants of value.go *)

Definition bitDelete : byte := 1.
Definition bitValuePointer : byte := 2.
Definition bitDiscardEarlierVersions : byte := 4.
Definition bitMergeEntry : byte := 8.
Definition bitTxn : byte := 64.
Definition bitFinTxn : byte := 128.

Definition discardStatsFlushThreshold : Z := 100.
Definition lfHeaderSize : Z := 20.

Inductive fileType : Type := vlogFile | walFile.

Global Instance fileType_eq_dec : EqDecision fileType.
Proof. solve_decision. Defined.

(** [crc32.Size]. *)
Definition crc32_Size : Z := 4.

(** [options.FileLoadingMode]. *)
Inductive FileLoadingMode : Type := FileIO | LoadToRAM | MemoryMap.

Global Instance FileLoadingMode_eq_dec : EqDecision FileLoadingMode.
Proof. solve_decision. Defined.

(** ** Data *)

(** [header] of structs.go: the fields the record header carries. *)
Record header : Type := mkHeader {
  klen : Z;        (* uint32 *)
  vlen : Z;        (* uint32 *)
  expiresAt : Z;   (* uint64 *)
  h_meta : byte;
  h_userMeta : byte
}.

(** [Entry]: the fields value.go reads and writes. *)
Record Entry : Type := mkEntry {
  Key : list byte;
  Value : list byte;
  UserMeta : byte;
  ExpiresAt : Z;   (* uint64 *)
  meta : byte;
  offset : Z;      (* uint32 *)
  skipVlog : bool;
  hlen : Z
}.

Definition set_meta (e : Entry) (m : byte) : Entry :=
  mkEntry (Key e) (Value e) (UserMeta e) (ExpiresAt e) m (offset e) (skipVlog e) (hlen e).

Record valuePointer : Type := mkVP {
  Fid : Z;      (* uint32 *)
  Offset : Z;   (* uint32 *)
  Len : Z       (* uint32 *)
}.

Definition zeroVP : valuePointer := mkVP 0 0 0.

(** [pb.DataKey]: the fields used. *)
Record DataKey : Type := mkDataKey {
  KeyId : Z;
  Data : list byte
}.

(** [y.ValueStruct]. *)
Record ValueStruct : Type := mkVS {
  vs_Meta : byte;
  vs_UserMeta : byte;
  vs_ExpiresAt : Z;
  vs_Value : list byte;
  vs_Version : Z
}.

(** [logFile].  The descriptor [fd] is the file's contents, kept in the
    [disk] of the value log under the key [(fileType, fid)]; [fmapLen] is
    [len(lf.fmap)], the bytes of the map being those of the file. *)
Record logFile : Type := mkLogFile {
  fid : Z;
  lf_fileType : fileType;
  loadingMode : FileLoadingMode;
  dataKey : option DataKey;
  baseIV : list byte;
  fmapLen : Z;
  lf_size : Z
}.

(** ** Collaborators outside value.go

    The header codec of structs.go, the CRC-32C of hash/crc32, the AES-CTR
    key stream behind [y.XORBlockStream] and [y.XORBlockAllocate], and
    [y.ParseTs] are used by value.go but declared elsewhere: they are taken
    as an interface.  [aes_ctr key iv] is [None] when [aes.NewCipher] rejects
    the key and otherwise the key stream, byte by byte. *)
Class Externals : Type := {
  maxHeaderSize : Z;
  header_Encode : header -> list byte;
  header_Decode : list byte -> result (header * Z);
  header_DecodeFrom : list byte -> result (header * Z);
  crc32c : list byte -> Z;
  aes_ctr : list byte -> list byte -> option (nat -> byte);
  ParseTs : list byte -> Z
}.

(** [hash.Sum32()] of a Castagnoli hash that was fed [bs]. *)
Definition Sum32 `{Externals} (bs : list byte) : Z := wrap32 (crc32c bs).

(** The XOR of [src] with a key stream, position by position. *)
Fixpoint xor_stream (ks : nat -> byte) (i : nat) (src : list byte) : list byte :=
  match src with
  | [] => []
  | b :: rest => Z.lxor b (ks i) :: xor_stream ks (S i) rest
  end.

(** [y.XORBlockAllocate(src, key, iv)]; [y.XORBlockStream] writes the same
    bytes to its writer. *)
Definition XORBlock `{Externals} (src key iv : list byte) : result (list byte) :=
  match aes_ctr key iv with
  | Some ks => Ok (xor_stream ks 0 src)
  | None => Err ErrCipher
  end.

(** ** Record codec *)

Definition encryptionEnabled (lf : logFile) : bool :=
  match dataKey lf with Some _ => true | None => false end.

Definition keyID (lf : logFile) : Z :=
  match dataKey lf with Some dk => KeyId dk | None => 0 end.

(** [generateIV]: the 12 bytes of the base IV followed by the offset. *)
Definition generateIV (lf : logFile) (off : Z) : result (list byte) :=
  _ ← AssertTrue (Z.min 12 (len (baseIV lf)) =? 12);
  Ok (take 12 (baseIV lf) ++ PutUint32 off).

Definition dataKey_Data (lf : logFile) : result (list byte) :=
  match dataKey lf with Some dk => Ok (Data dk) | None => Panic end.

Definition decryptKV `{Externals} (lf : logFile) (buf : list byte) (off : Z)
  : result (list byte) :=
  iv ← generateIV lf off;
  key ← dataKey_Data lf;
  XORBlock buf key iv.

Definition entry_header (e : Entry) : header :=
  {| klen := wrap32 (len (Key e));
     vlen := wrap32 (len (Value e));
     expiresAt := ExpiresAt e;
     h_meta := meta e;
     h_userMeta := UserMeta e |}.

(** [encodeEntry]: the buffer after the call (bytes already appended stay in
    it when the cipher fails) and the returned length or error. *)
Definition encodeEntry `{Externals} (lf : logFile) (e : Entry) (buf : list byte)
    (off : Z) : list byte * result Z :=
  let h := entry_header e in
  let headerEnc := header_Encode h in
  let sz := len headerEnc in
  if maxHeaderSize <? sz then (buf, Panic) else
  let buf1 := buf ++ headerEnc in
  let hashed1 := headerEnc in
  let body :=
    if encryptionEnabled lf then
      let eBuf := Key e ++ Value e in
      iv ← generateIV lf off;
      key ← dataKey_Data lf;
      XORBlock eBuf key iv
    else Ok (Key e ++ Value e) in
  match body with
  | Ok kv =>
      let buf2 := buf1 ++ kv in
      let hashed2 := hashed1 ++ kv in
      let crcBuf := PutUint32 (Sum32 hashed2) in
      (buf2 ++ crcBuf, Ok (sz + len (Key e) + len (Value e) + len crcBuf))
  | Err err => (buf1, Err (ErrWrapped err))
  | Panic => (buf1, Panic)
  end.

Definition decodeEntry `{Externals} (lf : logFile) (buf : list byte) (off : Z)
  : result Entry :=
  '(h, hl) ← header_Decode buf;
  kv0 ← slice_from buf hl;
  kv ← (if encryptionEnabled lf then decryptKV lf kv0 off else Ok kv0);
  k ← slice_to kv (klen h);
  v ← slice kv (klen h) (wrap32 (klen h + vlen h));
  Ok {| Key := k; Value := v; UserMeta := h_userMeta h; ExpiresAt := expiresAt h;
        meta := h_meta h; offset := off; skipVlog := false; hlen := 0 |}.

(** [io.ReadFull(r, buf)] with [len(buf) = n] over the remaining input [rd]:
    the bytes read and the rest of the input. *)
Definition ReadFull (rd : list byte) (n : Z) : result (list byte * list byte) :=
  if n <=? len rd then Ok (take (Z.to_nat n) rd, drop (Z.to_nat n) rd)
  else if len rd =? 0 then Err io_EOF
  else Err io_ErrUnexpectedEOF.

(** [if err == io.EOF { err = errTruncate }]. *)
Definition eof_to_truncate {A} (r : result A) : result A :=
  match r with
  | Err io_EOF => Err errTruncate
  | _ => r
  end.

(** [safeRead.Entry]: reads one record from the input [rd] (what the
    [bufio.Reader] still has to deliver); returns the entry and the rest of
    the input.  The scratch buffers [r.k] and [r.v] are resized but never
    read, they are left out. *)
Definition safeRead_Entry `{Externals} (lf : logFile) (recordOffset : Z)
    (rd : list byte) : result (Entry * list byte) :=
  '(h, hl) ← header_DecodeFrom rd;
  if 65536 <? klen h then Err errTruncate else
  let hashed1 := take (Z.to_nat hl) rd in
  let rd1 := drop (Z.to_nat hl) rd in
  '(buf0, rd2) ← eof_to_truncate (ReadFull rd1 (wrap32 (klen h + vlen h)));
  let hashed2 := hashed1 ++ buf0 in
  buf ← (if encryptionEnabled lf then decryptKV lf buf0 recordOffset else Ok buf0);
  k ← slice_to buf (klen h);
  v ← slice_from buf (klen h);
  '(crcBuf, rd3) ← eof_to_truncate (ReadFull rd2 crc32_Size);
  match BytesToU32 crcBuf with
  | None => Panic
  | Some crc =>
      if negb (crc =? Sum32 hashed2) then Err errTruncate else
      Ok ({| Key := k; Value := v; UserMeta := h_userMeta h;
             ExpiresAt := expiresAt h; meta := h_meta h;
             offset := recordOffset; skipVlog := false; hlen := hl |}, rd3)
  end.

(** ** A concrete set of collaborators

    Used to evaluate the model on concrete inputs; the theorems below hold
    for every [Externals] that satisfies the laws they name. *)

Module Varint.

(** [binary.MaxVarintLen64]. *)
Definition MaxVarintLen64 : Z := 10.

(** [binary.PutUvarint]: seven bits at a time, low bits first; the loop runs
    at most nine times on a 64-bit value, [fuel] bounds it. *)
Fixpoint PutUvarint_loop (fuel : nat) (x : Z) : list byte :=
  match fuel with
  | O => [wrap8 x]
  | S f =>
      if 128 <=? x
      then Z.lor (wrap8 x) 128 :: PutUvarint_loop f (Z.shiftr x 7)
      else [wrap8 x]
  end.

Definition PutUvarint (x : Z) : list byte := PutUvarint_loop 10 x.

(** [binary.Uvarint]: the value and the number of bytes read ([0] when the
    buffer is too small, negative on overflow). *)
Fixpoint Uvarint_loop (buf : list byte) (i x s : Z) : Z * Z :=
  match buf with
  | [] => (0, 0)
  | b :: rest =>
      if i =? MaxVarintLen64 then (0, - (i + 1))
      else if b <? 128 then
        if (i =? MaxVarintLen64 - 1) && (1 <? b) then (0, - (i + 1))
        else (Z.lor x (wrap64 (Z.shiftl b s)), i + 1)
      else Uvarint_loop rest (i + 1) (Z.lor x (wrap64 (Z.shiftl (Z.land b 127) s))) (s + 7)
  end.

Definition Uvarint (buf : list byte) : Z * Z := Uvarint_loop buf 0 0 0.

(** [binary.ReadUvarint] over the remaining input: the value and the rest. *)
Fixpoint ReadUvarint_loop (fuel : nat) (rd : list byte) (i x s : Z)
  : result (Z * list byte) :=
  match fuel with
  | O => Err ErrVarintOverflow
  | S f =>
      match rd with
      | [] => if 0 <? i then Err io_ErrUnexpectedEOF else Err io_EOF
      | b :: rest =>
          if b <? 128 then
            if (i =? MaxVarintLen64 - 1) && (1 <? b) then Err ErrVarintOverflow
            else Ok (Z.lor x (wrap64 (Z.shiftl b s)), rest)
          else ReadUvarint_loop f rest (i + 1)
                 (Z.lor x (wrap64 (Z.shiftl (Z.land b 127) s))) (s + 7)
      end
  end.

Definition ReadUvarint (rd : list byte) : result (Z * list byte) :=
  ReadUvarint_loop 10 rd 0 0 0.

(** Modelled from the spec: [maxHeaderSize] and the header codec
    ([header.Encode], [header.Decode], [header.DecodeFrom]) are declared in
    structs.go, which is not among the sources; the spec asks for a
    variable-length encoding of klen, vlen, expires_at, meta and user_meta,
    the same everywhere, and for an exported bound on its size.  Here: the
    two meta bytes, then klen, vlen and expires_at as unsigned varints. *)
Definition maxHeaderSize : Z := 22.

Definition Encode (h : header) : list byte :=
  [h_meta h; h_userMeta h]
    ++ PutUvarint (klen h) ++ PutUvarint (vlen h) ++ PutUvarint (expiresAt h).

Definition Decode (buf : list byte) : result (header * Z) :=
  match buf with
  | m :: um :: _ =>
      let index := 2 in
      b1 ← slice_from buf index;
      let '(kl, count1) := Uvarint b1 in
      let index := index + count1 in
      b2 ← slice_from buf index;
      let '(vl, count2) := Uvarint b2 in
      let index := index + count2 in
      b3 ← slice_from buf index;
      let '(ex, count3) := Uvarint b3 in
      Ok ({| klen := wrap32 kl; vlen := wrap32 vl; expiresAt := ex;
             h_meta := m; h_userMeta := um |}, index + count3)
  | _ => Panic
  end.

Definition DecodeFrom (rd : list byte) : result (header * Z) :=
  match rd with
  | [] => Err io_EOF
  | m :: rd1 =>
      match rd1 with
      | [] => Err io_EOF
      | um :: rd2 =>
          '(kl, rd3) ← ReadUvarint rd2;
          '(vl, rd4) ← ReadUvarint rd3;
          '(ex, rd5) ← ReadUvarint rd4;
          Ok ({| klen := wrap32 kl; vlen := wrap32 vl; expiresAt := ex;
                 h_meta := m; h_userMeta := um |}, len rd - len rd5)
      end
  end.

End Varint.

Module Crc.

(** CRC-32C (Castagnoli), bit by bit: reflected polynomial [0x82F63B78],
    initial value and final XOR [0xFFFFFFFF]. *)
Definition poly : Z := 2197175160.

Fixpoint shift_bits (n : nat) (c : Z) : Z :=
  match n with
  | O => c
  | S k =>
      shift_bits k
        (if Z.testbit c 0 then Z.lxor (Z.shiftr c 1) poly else Z.shiftr c 1)
  end.

Definition update (c : Z) (b : byte) : Z := shift_bits 8 (Z.lxor c b).

Definition checksum (bs : list byte) : Z :=
  Z.lxor (fold_left update bs 4294967295) 4294967295.

End Crc.

Module TestCipher.

(** A key stream for examples: defined, like AES, only for keys of 16, 24
    or 32 bytes; byte [i] mixes the key, the IV and the position. *)
Definition valid_key (key : list byte) : bool :=
  (len key =? 16) || (len key =? 24) || (len key =? 32).

Definition keystream (key iv : list byte) : option (nat -> byte) :=
  if valid_key key
  then Some (fun i =>
    wrap8 (nth (i mod length key) key 0 + 31 * nth (i mod 16) iv 0 + Z.of_nat i + 7))
  else None.

End TestCipher.

(** Modelled from the spec: [y.ParseTs] is declared in package y, which is
    not among the sources; the spec gives it as the last 8 bytes of the key,
    big-endian. *)
Definition parse_ts (key : list byte) : Z :=
  fold_left (fun acc b => acc * 256 + b) (drop (length key - 8) key) 0.

Definition concreteExt : Externals := {|
  maxHeaderSize := Varint.maxHeaderSize;
  header_Encode := Varint.Encode;
  header_Decode := Varint.Decode;
  header_DecodeFrom := Varint.DecodeFrom;
  crc32c := Crc.checksum;
  aes_ctr := TestCipher.keystream;
  ParseTs := parse_ts
|}.

(** ** Well-formed data and the laws asked of the header codec *)

Definition is_byte (b : Z) : Prop := 0 <= b < 256.

Definition wf_header (h : header) : Prop :=
  0 <= klen h < 4294967296 /\ 0 <= vlen h < 4294967296 /\
  0 <= expiresAt h < 18446744073709551616 /\
  is_byte (h_meta h) /\ is_byte (h_userMeta h).

(** The fixed-width fields of an entry are within their Go types. *)
Definition wf_entry (e : Entry) : Prop :=
  0 <= ExpiresAt e < 18446744073709551616 /\
  is_byte (meta e) /\ is_byte (UserMeta e).

(** What value.go relies on from structs.go: an encoded header fits the
    [maxHeaderSize] array, decodes to itself whatever follows it, both from a
    buffer and from a reader, and an exhausted reader reports [io.EOF]. *)
Class HeaderCodecLaws (E : Externals) : Prop := {
  Encode_size : forall h, wf_header h -> len (header_Encode h) <= maxHeaderSize;
  Decode_Encode : forall h rest, wf_header h ->
    header_Decode (header_Encode h ++ rest) = Ok (h, len (header_Encode h));
  DecodeFrom_Encode : forall h rest, wf_header h ->
    header_DecodeFrom (header_Encode h ++ rest) = Ok (h, len (header_Encode h));
  DecodeFrom_nil : header_DecodeFrom [] = Err io_EOF
}.

(** The cipher of [lf] can be set up for a record at [off]: nothing to do
    without a data key; with one, the base IV has its 12 bytes and AES
    accepts the key. *)
Definition cipher_ready `{Externals} (lf : logFile) (off : Z) : Prop :=
  match dataKey lf with
  | None => True
  | Some dk =>
      12 <= len (baseIV lf) /\
      is_Some (aes_ctr (Data dk) (take 12 (baseIV lf) ++ PutUint32 off))
  end.

(** Two entries agree on what a record stores. *)
Definition same_record (d e : Entry) : Prop :=
  Key d = Key e /\ Value d = Value e /\ meta d = meta e /\
  UserMeta d = UserMeta e /\ ExpiresAt d = ExpiresAt e.

(** The bytes [encodeEntry] appends for [e] at [off]. *)
Definition record_bytes `{Externals} (lf : logFile) (e : Entry) (off : Z) : list byte :=
  (encodeEntry lf e [] off).1.

(** [ENC] of the spec (§4.1): the identity without a data key, the XOR with
    the AES-CTR key stream of [(data_key, base_iv ‖ be_u32(off))] with one. *)
Definition ENC `{Externals} (lf : logFile) (off : Z) (x : list byte) : list byte :=
  match dataKey lf with
  | None => x
  | Some dk =>
      match aes_ctr (Data dk) (take 12 (baseIV lf) ++ PutUint32 off) with
      | Some ks => xor_stream ks 0 x
      | None => x
      end
  end.

(** ** The value log and its files *)

Global Instance fileType_countable : Countable fileType.
Proof.
  refine (inj_countable' (fun t => match t with vlogFile => true | walFile => false end)
                         (fun b => if b then vlogFile else walFile) _).
  now intros [].
Defined.

(** The options value.go consults. *)
Record Options : Type := mkOptions {
  InMemory : bool;
  ReadOnly : bool;
  Truncate : bool;
  SyncWrites : bool;
  VerifyValueChecksum : bool;
  ValueLogFileSize : Z;       (* int64 *)
  ValueLogMaxEntries : Z;     (* uint32 *)
  ValueLogLoadingMode : FileLoadingMode;
  maxBatchCount : Z;
  maxBatchSize : Z
}.

Record logWrapper : Type := mkLogWrapper {
  filesMap : gmap Z logFile;
  maxFid : Z;                 (* uint32 *)
  writableOffset : Z;         (* uint32 *)
  numEntriesWritten : Z;      (* uint32 *)
  numActiveIterators : Z;     (* int32 *)
  filesToBeDeleted : list Z
}.

(** [valueLog], with what it reaches through its pointers: the directory
    ([disk], the contents of each file under its type and fid, which is what
    [fpath] maps to a name), the discard statistics, the WAL cleaner's
    channel, [db.logRotates] and the number of base IVs drawn so far. *)
Record valueLog : Type := mkValueLog {
  vlog : logWrapper;
  wal : logWrapper;
  opt : Options;
  disk : gmap (fileType * Z) (list byte);
  lfDiscardStats : gmap Z Z;
  delChan : list Z;
  logRotates : Z;             (* int32 *)
  ivDrawn : Z
}.

Definition wrap_int32 (x : Z) : Z := (x + 2147483648) mod 4294967296 - 2147483648.

Definition lw_of (ft : fileType) (vl : valueLog) : logWrapper :=
  match ft with vlogFile => vlog vl | walFile => wal vl end.

Definition set_lw (ft : fileType) (lw : logWrapper) (vl : valueLog) : valueLog :=
  match ft with
  | vlogFile => mkValueLog lw (wal vl) (opt vl) (disk vl) (lfDiscardStats vl)
                  (delChan vl) (logRotates vl) (ivDrawn vl)
  | walFile => mkValueLog (vlog vl) lw (opt vl) (disk vl) (lfDiscardStats vl)
                  (delChan vl) (logRotates vl) (ivDrawn vl)
  end.

Definition set_opt (o : Options) (vl : valueLog) : valueLog :=
  mkValueLog (vlog vl) (wal vl) o (disk vl) (lfDiscardStats vl)
    (delChan vl) (logRotates vl) (ivDrawn vl).

Definition set_disk (d : gmap (fileType * Z) (list byte)) (vl : valueLog) : valueLog :=
  mkValueLog (vlog vl) (wal vl) (opt vl) d (lfDiscardStats vl)
    (delChan vl) (logRotates vl) (ivDrawn vl).

Definition set_lfDiscardStats (m : gmap Z Z) (vl : valueLog) : valueLog :=
  mkValueLog (vlog vl) (wal vl) (opt vl) (disk vl) m
    (delChan vl) (logRotates vl) (ivDrawn vl).

Definition set_delChan (c : list Z) (vl : valueLog) : valueLog :=
  mkValueLog (vlog vl) (wal vl) (opt vl) (disk vl) (lfDiscardStats vl)
    c (logRotates vl) (ivDrawn vl).

Definition set_logRotates (n : Z) (vl : valueLog) : valueLog :=
  mkValueLog (vlog vl) (wal vl) (opt vl) (disk vl) (lfDiscardStats vl)
    (delChan vl) n (ivDrawn vl).

Definition set_ivDrawn (n : Z) (vl : valueLog) : valueLog :=
  mkValueLog (vlog vl) (wal vl) (opt vl) (disk vl) (lfDiscardStats vl)
    (delChan vl) (logRotates vl) n.

Definition set_filesMap (m : gmap Z logFile) (lw : logWrapper) : logWrapper :=
  mkLogWrapper m (maxFid lw) (writableOffset lw) (numEntriesWritten lw)
    (numActiveIterators lw) (filesToBeDeleted lw).

Definition set_writableOffset (o : Z) (lw : logWrapper) : logWrapper :=
  mkLogWrapper (filesMap lw) (maxFid lw) o (numEntriesWritten lw)
    (numActiveIterators lw) (filesToBeDeleted lw).

Definition set_numEntriesWritten (n : Z) (lw : logWrapper) : logWrapper :=
  mkLogWrapper (filesMap lw) (maxFid lw) (writableOffset lw) n
    (numActiveIterators lw) (filesToBeDeleted lw).

Definition set_numActiveIterators (n : Z) (lw : logWrapper) : logWrapper :=
  mkLogWrapper (filesMap lw) (maxFid lw) (writableOffset lw) (numEntriesWritten lw)
    n (filesToBeDeleted lw).

Definition set_filesToBeDeleted (l : list Z) (lw : logWrapper) : logWrapper :=
  mkLogWrapper (filesMap lw) (maxFid lw) (writableOffset lw) (numEntriesWritten lw)
    (numActiveIterators lw) l.

Definition set_size (n : Z) (lf : logFile) : logFile :=
  mkLogFile (fid lf) (lf_fileType lf) (loadingMode lf) (dataKey lf) (baseIV lf)
    (fmapLen lf) n.

Definition set_fmapLen (n : Z) (lf : logFile) : logFile :=
  mkLogFile (fid lf) (lf_fileType lf) (loadingMode lf) (dataKey lf) (baseIV lf)
    n (lf_size lf).

(** The file behind [lf.fd]: its key in the directory and its contents. *)
Definition fkey (lf : logFile) : fileType * Z := (lf_fileType lf, fid lf).

Definition fd_content (vl : valueLog) (lf : logFile) : result (list byte) :=
  match disk vl !! fkey lf with
  | Some c => Ok c
  | None => Panic
  end.

(** A [*logFile] is shared between the files map and whoever holds it: a
    change to the file is stored back under its fid. *)
Definition store_lf (lf : logFile) (vl : valueLog) : valueLog :=
  let lw := lw_of (lf_fileType lf) vl in
  set_lw (lf_fileType lf) (set_filesMap (<[fid lf := lf]> (filesMap lw)) lw) vl.

(** [fd.Truncate(n)]: cuts, or extends with zero bytes. *)
Definition truncate_to (n : Z) (c : list byte) : list byte :=
  take (Z.to_nat n) c ++ replicate (Z.to_nat n - length c) 0.

(** ** A state-and-error monad for the code that threads the value log *)

Definition M (S A : Type) : Type := S -> S * result A.

Global Instance M_ret {S} : MRet (M S) := fun A a s => (s, Ok a).

Global Instance M_bind {S} : MBind (M S) := fun A B k m s =>
  match m s with
  | (s', Ok a) => k a s'
  | (s', Err e) => (s', Err e)
  | (s', Panic) => (s', Panic)
  end.

Definition get_st {S} : M S S := fun s => (s, Ok s).
Definition put_st {S} (s : S) : M S unit := fun _ => (s, Ok tt).
Definition modify_st {S} (f : S -> S) : M S unit := fun s => (f s, Ok tt).
Definition lift {S A} (r : result A) : M S A := fun s => (s, r).
Definition fail {S A} (e : error) : M S A := fun s => (s, Err e).
Definition assertM {S} (b : bool) : M S unit := lift (AssertTrue b).

(** [y.Wrapf] and [errFile] around whatever error [m] returns. *)
Definition wrap_err {S A} (m : M S A) : M S A := fun s =>
  match m s with
  | (s', Err e) => (s', Err (ErrWrapped e))
  | r => r
  end.

(** ** Collaborators of the value log: the DB and the key registry *)

Class DBInterface : Type := {
  (** state of the LSM tree *)
  LSM : Type;
  (** [db.get] *)
  db_get : LSM -> list byte -> result ValueStruct;
  (** [db.batchSet]: goes through the DB's write path, hence through the
      value log as well *)
  db_batchSet : list Entry -> M (LSM * valueLog) unit;
  (** [db.shouldWriteValueToLSM] *)
  shouldWriteValueToLSM : Entry -> bool;
  (** [db.getPersistedHead], at the time of the call *)
  getPersistedHead : result valuePointer;
  (** [registry.latestDataKey] *)
  latestDataKey : result (option DataKey);
  (** [cryptorand.Read] of 12 bytes, by the number of earlier draws *)
  cryptorand_Read : Z -> list byte;
  (** [isDeletedOrExpired], at the time of the call *)
  isDeletedOrExpired : byte -> Z -> bool;
  (** [badgerMove] *)
  badgerMove : list byte;
  (** [valuePointer.Decode] *)
  vp_Decode : list byte -> result valuePointer;
  (** [Entry.estimateSize(threshold)] *)
  estimateSize : Entry -> Z
}.

(** ** Operations on log files *)

Section Files.
Context `{E : Externals} `{D : DBInterface}.

Definition lw_offset (lw : logWrapper) : Z := writableOffset lw.

(** [fd.Stat().Size()]. *)
Definition fd_size (lf : logFile) : M valueLog Z := fun vl =>
  (vl, c ← fd_content vl lf; Ok (len c)).

(** A change of the file's contents through its descriptor. *)
Definition fd_update (lf : logFile) (f : list byte -> list byte) : M valueLog unit :=
  fun vl =>
    match disk vl !! fkey lf with
    | Some c => (set_disk (<[fkey lf := f c]> (disk vl)) vl, Ok tt)
    | None => (vl, Panic)
    end.

Definition lf_mmap (sz : Z) (lf : logFile) : logFile :=
  if negb (bool_decide (loadingMode lf = MemoryMap)) then lf
  else if bool_decide (lf_fileType lf = walFile) then lf
  else set_fmapLen sz lf.

Definition lf_munmap (lf : logFile) : logFile :=
  if negb (bool_decide (loadingMode lf = MemoryMap)) || (fmapLen lf =? 0) then lf
  else set_fmapLen 0 lf.

(** [logFile.init]. *)
Definition lf_init (lf : logFile) : M valueLog logFile :=
  sz ← fd_size lf;
  if sz =? 0 then mret lf else
  _ ← assertM (sz <=? MaxUint32);
  let lf1 := lf_mmap sz (set_size (wrap32 sz) lf) in
  _ ← modify_st (store_lf lf1);
  mret lf1.

(** [logFile.bootstrap]: empties the file and writes the 20-byte header. *)
Definition bootstrap (lf : logFile) : M valueLog logFile :=
  _ ← fd_update lf (fun _ => []);
  dk ← wrap_err (lift latestDataKey);
  vl ← get_st;
  let iv := take 12 (cryptorand_Read (ivDrawn vl) ++ replicate 12 0) in
  _ ← modify_st (set_ivDrawn (ivDrawn vl + 1));
  let lf1 := mkLogFile (fid lf) (lf_fileType lf) (loadingMode lf) dk iv
               (fmapLen lf) (lf_size lf) in
  let buf := PutUint64 (keyID lf1) ++ iv in
  _ ← modify_st (store_lf lf1);
  _ ← fd_update lf1 (fun _ => buf);
  mret lf1.

(** [purgeOldFiles] and [walCleaner.dropBefore]: the fid of the persisted
    head is sent to the cleaner. *)
Definition purgeOldFiles : M valueLog unit := fun vl =>
  match getPersistedHead with
  | Ok head => (set_delChan (delChan vl ++ [Fid head]) vl, Ok tt)
  | _ => (vl, Ok tt)
  end.

(** [createLogFile]. *)
Definition createLogFile (fid0 : Z) (ft : fileType) : M valueLog logFile :=
  vl ← get_st;
  let lf := {| fid := fid0; lf_fileType := ft;
               loadingMode := if bool_decide (ft = walFile) then FileIO
                              else ValueLogLoadingMode (opt vl);
               dataKey := None; baseIV := []; fmapLen := 0; lf_size := 0 |} in
  match disk vl !! fkey lf with
  | Some _ => fail (ErrWrapped ErrExist)
  | None =>
      _ ← modify_st (set_disk (<[fkey lf := []]> (disk vl)));
      lf1 ← (fun s =>
               match bootstrap lf s with
               | (s', Ok l) => (s', Ok l)
               | (s', r) => (set_disk (delete (fkey lf) (disk s')) s', r)
               end);
      let lf2 := lf_mmap (2 * ValueLogFileSize (opt vl)) lf1 in
      _ ← modify_st (fun s =>
             let lw := lw_of ft s in
             set_lw ft (set_filesMap (<[fid0 := lf2]> (filesMap lw)) lw) s);
      s ← get_st;
      _ ← assertM ((fid0 =? 0) || (maxFid (lw_of ft s) <? fid0));
      _ ← modify_st (fun s =>
             let lw := lw_of ft s in
             set_lw ft
               (mkLogWrapper (filesMap lw) fid0 lfHeaderSize 0
                  (numActiveIterators lw) (filesToBeDeleted lw)) s);
      _ ← purgeOldFiles;
      mret lf2
  end.

(** [logFile.doneWriting]. *)
Definition doneWriting (lf : logFile) (off : Z) : M valueLog logFile :=
  let lf1 := lf_munmap lf in
  _ ← modify_st (store_lf lf1);
  _ ← fd_update lf1 (truncate_to off);
  wrap_err (lf_init lf1).

(** [logWrapper.rotateFile], for the wrapper of type [ft]. *)
Definition rotateFile (ft : fileType) (lf : logFile) : M valueLog logFile :=
  vl ← get_st;
  let lw := lw_of ft vl in
  let off := lw_offset lw in
  let newid := wrap32 (maxFid lw + 1) in
  _ ← assertM (negb (off =? 0));
  _ ← assertM (fid lf =? maxFid lw);
  _ ← doneWriting lf off;
  _ ← assertM (0 <? newid);
  newlf ← createLogFile newid (lf_fileType lf);
  _ ← (if bool_decide (lf_fileType lf = walFile)
       then modify_st (fun s => set_logRotates (wrap_int32 (logRotates s + 1)) s)
       else mret tt);
  mret newlf.

(** [logWrapper.getCurrentFile]. *)
Definition getCurrentFile (lw : logWrapper) : option logFile :=
  filesMap lw !! maxFid lw.

(** [valueLog.deleteLogFile]: unmaps, closes and removes the file. *)
Definition deleteLogFile (olf : option logFile) : M valueLog unit :=
  match olf with
  | None => mret tt
  | Some lf => fun vl =>
      match disk vl !! fkey lf with
      | Some _ => (set_disk (delete (fkey lf) (disk vl)) vl, Ok tt)
      | None => (vl, Err ErrRemove)
      end
  end.

End Files.

(** ** Replay *)

(** [strconv.ParseUint(s, 10, 64)]: decimal digits only, at least one, and a
    value below 2^64. *)
Definition is_digit (b : byte) : bool := (48 <=? b) && (b <=? 57).

Definition ParseUint (s : list byte) : option Z :=
  match s with
  | [] => None
  | _ =>
      if forallb is_digit s then
        let v := fold_left (fun acc b => acc * 10 + (b - 48)) s 0 in
        if v <? 18446744073709551616 then Some v else None
      else None
  end.

Section Replay.
Context `{E : Externals} `{D : DBInterface}.

(** The state a replay threads: the caller's own and the value log. *)
Context {St : Type}.

(** [logEntry]: the caller's handler. *)
Definition logEntry : Type := Entry -> valuePointer -> M St unit.

(** The loop of [iterate].  [rd] is what the reader has left, [fuel] bounds
    the number of records (every record takes at least the four bytes of
    its checksum, so the length of [rd] plus one is enough); [None] means the
    fuel ran out. *)
Fixpoint iterate_loop (fuel : nat) (lf : logFile) (fn : logEntry) (rd : list byte)
    (recordOffset lastCommit validEndOffset : Z) (s : St) : option (St * result Z) :=
  match fuel with
  | O => None
  | S fuel' =>
      match safeRead_Entry lf recordOffset rd with
      | Err io_EOF => Some (s, Ok validEndOffset)
      | Err io_ErrUnexpectedEOF => Some (s, Ok validEndOffset)
      | Err errTruncate => Some (s, Ok validEndOffset)
      | Err err => Some (s, Err err)
      | Panic => Some (s, Panic)
      | Ok (e, rd') =>
          let vpLen := wrap32 (hlen e + len (Key e) + len (Value e) + crc32_Size) in
          let recordOffset' := wrap32 (recordOffset + vpLen) in
          let vp := {| Fid := fid lf; Offset := offset e; Len := vpLen |} in
          (* the switch: [None] is "break loop", otherwise the new
             lastCommit and validEndOffset *)
          let sw : option (Z * Z) :=
            if 0 <? Z.land (meta e) bitTxn then
              let txnTs := ParseTs (Key e) in
              let lastCommit1 := if lastCommit =? 0 then txnTs else lastCommit in
              if negb (lastCommit1 =? txnTs) then None
              else Some (lastCommit1, validEndOffset)
            else if 0 <? Z.land (meta e) bitFinTxn then
              match ParseUint (Value e) with
              | None => None
              | Some txnTs =>
                  if negb (lastCommit =? txnTs) then None
                  else Some (0, recordOffset')
              end
            else
              if negb (lastCommit =? 0) then None
              else Some (lastCommit, recordOffset')
          in
          match sw with
          | None => Some (s, Ok validEndOffset)
          | Some (lastCommit', validEndOffset') =>
              match fn e vp s with
              | (s', Ok _) =>
                  iterate_loop fuel' lf fn rd' recordOffset' lastCommit' validEndOffset' s'
              | (s', Err errStop) => Some (s', Ok validEndOffset')
              | (s', Err err) => Some (s', Err (ErrWrapped err))
              | (s', Panic) => Some (s', Panic)
              end
          end
      end
  end.

(** [valueLog.iterate]. *)
Definition iterate (vl : valueLog) (lf : logFile) (off : Z) (fn : logEntry) (s : St)
  : option (St * result Z) :=
  match fd_content vl lf with
  | Ok c =>
      let fsize := len c in
      let off := if off =? 0 then lfHeaderSize else off in
      if off =? fsize then Some (s, Ok off)
      else if ReadOnly (opt vl) then Some (s, Err ErrReplayNeeded)
      else
        let rd := drop (Z.to_nat off) c in
        iterate_loop (S (length rd)) lf fn rd off 0 off s
  | Err e => Some (s, Err e)
  | Panic => Some (s, Panic)
  end.

(** [valueLog.replayLog]: the caller's state, the value log and the error
    returned. *)
Definition replayLog (lf : logFile) (off : Z) (replayFn : logEntry) (s : St)
    (vl : valueLog) : option (St * valueLog * result unit) :=
  match AssertTrue (bool_decide (lf_fileType lf = walFile)), fd_content vl lf with
  | Ok _, Ok c =>
      let fsize := len c in
      match iterate vl lf off replayFn s with
      | None => None
      | Some (s', Ok endOffset) =>
          if endOffset =? fsize then Some (s', vl, Ok tt)
          else if negb (Truncate (opt vl)) then Some (s', vl, Err ErrTruncateNeeded)
          else if endOffset <=? lfHeaderSize then
            if negb (fid lf =? maxFid (wal vl)) then Some (s', vl, Err errDeleteVlogFile)
            else
              match bootstrap lf vl with
              | (vl', Ok _) => Some (s', vl', Ok tt)
              | (vl', Err e) => Some (s', vl', Err e)
              | (vl', Panic) => Some (s', vl', Panic)
              end
          else
            match fd_update lf (truncate_to endOffset) vl with
            | (vl', Ok _) => Some (s', vl', Ok tt)
            | (vl', Err e) => Some (s', vl', Err e)
            | (vl', Panic) => Some (s', vl', Panic)
            end
      | Some (s', Err e) => Some (s', vl, Err (ErrWrapped e))
      | Some (s', Panic) => Some (s', vl, Panic)
      end
  | Panic, _ => Some (s, vl, Panic)
  | Err e, _ => Some (s, vl, Err e)
  | _, Err e => Some (s, vl, Err e)
  | _, Panic => Some (s, vl, Panic)
  end.

End Replay.

(** ** Reading a value *)

Section Reader.
Context `{E : Externals}.

(** The bytes of the memory map of [lf]: those of the file, zero beyond. *)
Definition fmap_bytes (vl : valueLog) (lf : logFile) : result (list byte) :=
  c ← fd_content vl lf;
  Ok (take (Z.to_nat (fmapLen lf)) (c ++ replicate (Z.to_nat (fmapLen lf) - length c) 0)).

(** [logFile.read]. *)
Definition lf_read (vl : valueLog) (lf : logFile) (p : valuePointer) : result (list byte) :=
  let off := Offset p in
  if bool_decide (loadingMode lf = FileIO) then
    c ← fd_content vl lf;
    if (Len p <=? 0) || (off + Len p <=? len c)
    then Ok (take (Z.to_nat (Len p)) (drop (Z.to_nat off) c))
    else Err io_EOF
  else
    let sz := fmapLen lf in
    let valsz := Len p in
    let lfsz := lf_size lf in
    if (sz <=? off) || (sz <? wrap32 (off + valsz)) || (lfsz <? wrap32 (off + valsz))
    then Err ErrEOF
    else m ← fmap_bytes vl lf; slice m off (wrap32 (off + valsz)).

(** [valueLog.getFileRLocked]. *)
Definition getFileRLocked (vl : valueLog) (vp : valuePointer) : result logFile :=
  match filesMap (vlog vl) !! Fid vp with
  | None => Err ErrRetry
  | Some ret =>
      if (Fid vp =? maxFid (vlog vl)) && (lw_offset (vlog vl) <=? Offset vp)
      then Err ErrInvalidOffset
      else Ok ret
  end.

(** [valueLog.readValueBytes]. *)
Definition readValueBytes (vl : valueLog) (vp : valuePointer)
  : result (list byte * logFile) :=
  lf ← getFileRLocked vl vp;
  buf ← lf_read vl lf vp;
  Ok (buf, lf).

(** [valueLog.Read]: the value bytes (the unlock callback is not modelled). *)
Definition Read (vl : valueLog) (vp : valuePointer) : result (list byte) :=
  '(buf, lf) ← readValueBytes vl vp;
  _ ← (if VerifyValueChecksum (opt vl) then
         body ← slice_to buf (len buf - crc32_Size);
         checksum ← slice_from buf (len buf - crc32_Size);
         match BytesToU32 checksum with
         | None => Panic
         | Some c =>
             if negb (Sum32 body =? c) then Err (ErrWrapped ErrChecksumMismatch)
             else Ok tt
         end
       else Ok tt);
  '(h, headerLen) ← header_Decode buf;
  kv0 ← slice_from buf headerLen;
  kv ← (if encryptionEnabled lf then decryptKV lf kv0 (Offset vp) else Ok kv0);
  if wrap32 (len kv) <? wrap32 (klen h + vlen h) then Err ErrInvalidRead
  else slice kv (klen h) (wrap32 (klen h + vlen h)).

End Reader.

(** ** Vocabulary for the claim about replay *)

Section ReplaySpec.
Context `{E : Externals}.

(** The length of the record of [e]: header, key, value, checksum. *)
Definition rec_len (e : Entry) : Z :=
  len (header_Encode (entry_header e)) + len (Key e) + len (Value e) + crc32_Size.

(** The records of [es] one after the other, the first one at [off]. *)
Fixpoint records (lf : logFile) (off : Z) (es : list Entry) : list byte :=
  match es with
  | [] => []
  | e :: rest => record_bytes lf e off ++ records lf (off + rec_len e) rest
  end.

(** Their length. *)
Fixpoint total_len (es : list Entry) : Z :=
  match es with
  | [] => 0
  | e :: rest => rec_len e + total_len rest
  end.

(** The entry [safeRead.Entry] makes of the record of [e] found at [off]. *)
Definition read_back (e : Entry) (off : Z) : Entry :=
  {| Key := Key e; Value := Value e; UserMeta := UserMeta e; ExpiresAt := ExpiresAt e;
     meta := meta e; offset := off; skipVlog := false;
     hlen := len (header_Encode (entry_header e)) |}.

(** What the handler is called with on the records of [es], in order. *)
Fixpoint deliveries (lf : logFile) (off : Z) (es : list Entry)
  : list (Entry * valuePointer) :=
  match es with
  | [] => []
  | e :: rest =>
      (read_back e off, {| Fid := fid lf; Offset := off; Len := rec_len e |})
        :: deliveries lf (off + rec_len e) rest
  end.

(** The handler run on a list of deliveries, errors ignored. *)
Definition run_handler {St : Type} (fn : @logEntry St)
    (ds : list (Entry * valuePointer)) (s : St) : St :=
  fold_left (fun s d => (fn d.1 d.2 s).1) ds s.

(** The three kinds of records [iterate] tells apart, in the order of its
    switch. *)
Definition is_txn (e : Entry) : bool := 0 <? Z.land (meta e) bitTxn.

Definition is_fin (e : Entry) : bool :=
  negb (is_txn e) && (0 <? Z.land (meta e) bitFinTxn).

Definition is_plain (e : Entry) : bool :=
  negb (is_txn e) && negb (0 <? Z.land (meta e) bitFinTxn).

(** Entries of the transaction with commit timestamp [t]. *)
Definition txn_entries (t : Z) (es : list Entry) : Prop :=
  Forall (fun e => is_txn e = true /\ ParseTs (Key e) = t) es.

(** A log of committed writes: entries outside any transaction, and
    transactions closed by the commit marker of their timestamp. *)
Inductive committed : list Entry -> Prop :=
  | committed_nil : committed []
  | committed_plain e rest :
      is_plain e = true -> committed rest -> committed (e :: rest)
  | committed_txn t es fin rest :
      es <> [] -> txn_entries t es ->
      is_fin fin = true -> ParseUint (Value fin) = Some t ->
      committed rest -> committed (es ++ fin :: rest).

(** An entry whose record [safeRead.Entry] accepts. *)
Definition readable (e : Entry) : Prop :=
  wf_entry e /\ len (Key e) <= 65536.

End ReplaySpec.

(** ** The writer *)

(** [request]: the entries of one transaction, and what [write] reports
    back (the wait group, the error slot and the reference count are left
    out). *)
Record request : Type := mkRequest {
  Entries : list Entry;
  Ptrs : list valuePointer;
  head : valuePointer
}.

(** The local variables of [write] next to the value log: the two buffers
    and the two current files. *)
Record writer : Type := mkWriter {
  w_vl : valueLog;
  wbuf : list byte;
  vbuf : list byte;
  curVlogF : option logFile;
  curWALF : option logFile
}.

Definition buf_of (ft : fileType) (w : writer) : list byte :=
  match ft with vlogFile => vbuf w | walFile => wbuf w end.

Definition cur_of (ft : fileType) (w : writer) : option logFile :=
  match ft with vlogFile => curVlogF w | walFile => curWALF w end.

Definition set_buf (ft : fileType) (b : list byte) (w : writer) : writer :=
  match ft with
  | vlogFile => mkWriter (w_vl w) (wbuf w) b (curVlogF w) (curWALF w)
  | walFile => mkWriter (w_vl w) b (vbuf w) (curVlogF w) (curWALF w)
  end.

Definition set_cur (ft : fileType) (lf : option logFile) (w : writer) : writer :=
  match ft with
  | vlogFile => mkWriter (w_vl w) (wbuf w) (vbuf w) lf (curWALF w)
  | walFile => mkWriter (w_vl w) (wbuf w) (vbuf w) (curVlogF w) lf
  end.

Definition set_vl (vl : valueLog) (w : writer) : writer :=
  mkWriter vl (wbuf w) (vbuf w) (curVlogF w) (curWALF w).

(** An operation on the value log, run from within [write]. *)
Definition on_vl {A} (m : M valueLog A) : M writer A := fun w =>
  let '(vl', r) := m (w_vl w) in (set_vl vl' w, r).

(** What the loop over the entries of one request carries along. *)
Record reqState : Type := mkReqState {
  r_Entries : list Entry;      (* the entries gone through, as left in memory *)
  r_Ptrs : list valuePointer;
  r_head : valuePointer;
  r_vlogWritten : Z;
  r_walWritten : Z
}.

Section Writer.
Context `{E : Externals} `{D : DBInterface}.

(** [estimateRequestSize]. *)
Definition estimateRequestSize (req : request) : Z :=
  fold_left
    (fun sz e => wrap64 (sz + wrap64 (maxHeaderSize + len (Key e) + len (Value e) + crc32_Size)))
    (Entries req) 0.

(** The loop of [validateWrites], from the running offset [vlogOffset]. *)
Fixpoint validateWrites_from (o : Options) (vlogOffset : Z) (reqs : list request)
  : result unit :=
  match reqs with
  | [] => Ok tt
  | req :: rest =>
      let sz := estimateRequestSize req in
      let estimatedVlogOffset := wrap64 (vlogOffset + sz) in
      if MaxUint32 <? estimatedVlogOffset then Err ErrSizeExceeded
      else if wrap64 (ValueLogFileSize o) <=? estimatedVlogOffset
      then validateWrites_from o 0 rest
      else validateWrites_from o estimatedVlogOffset rest
  end.

(** [valueLog.validateWrites]. *)
Definition validateWrites (vl : valueLog) (reqs : list request) : result unit :=
  validateWrites_from (opt vl) (lw_offset (wal vl)) reqs.

(** [flushBufToFile], for the buffer, the current file and the wrapper of
    type [ft]. *)
Definition flushBufToFile (ft : fileType) : M writer unit :=
  w ← get_st;
  let buf := buf_of ft w in
  if len buf =? 0 then mret tt else
  match cur_of ft w with
  | None => lift Panic
  | Some lf =>
      _ ← on_vl (fd_update lf (fun c => c ++ buf));
      let n := len buf in
      _ ← modify_st (set_buf ft []);
      w1 ← get_st;
      let lw := lw_of ft (w_vl w1) in
      _ ← assertM (writableOffset lw <? wrap32 (writableOffset lw + wrap32 n));
      let wo := wrap32 (writableOffset lw + wrap32 n) in
      let lf1 := set_size wo lf in
      _ ← on_vl (modify_st (fun vl => store_lf lf1 (set_lw ft (set_writableOffset wo lw) vl)));
      modify_st (set_cur ft (Some lf1))
  end.

Definition flushWrites : M writer unit :=
  _ ← flushBufToFile walFile;
  flushBufToFile vlogFile.

(** The rotation of the current file of type [ft] inside [toDisk]. *)
Definition rotate_cur (ft : fileType) : M writer unit :=
  w ← get_st;
  match cur_of ft w with
  | None => lift Panic
  | Some lf =>
      newlf ← on_vl (rotateFile ft lf);
      modify_st (set_cur ft (Some newlf))
  end.

Definition over_threshold (o : Options) (lw : logWrapper) : bool :=
  (wrap32 (ValueLogFileSize o) <? lw_offset lw)
  || (wrap32 (ValueLogMaxEntries o) <? numEntriesWritten lw).

Definition toDisk : M writer unit :=
  _ ← flushWrites;
  w ← get_st;
  _ ← (if over_threshold (opt (w_vl w)) (vlog (w_vl w)) then rotate_cur vlogFile
       else mret tt);
  w ← get_st;
  if over_threshold (opt (w_vl w)) (wal (w_vl w)) then rotate_cur walFile
  else mret tt.

(** [e.meta &^ (bitTxn | bitFinTxn)]. *)
Definition clear_txn_bits (m : byte) : byte := Z.ldiff m (Z.lor bitTxn bitFinTxn).

(** The encoding of [e] into the buffer of type [ft] at offset [off]: the
    call [cur.encodeEntry(e, &buf, off)]. *)
Definition encode_into (ft : fileType) (e : Entry) (off : Z) : M writer Z :=
  w ← get_st;
  match cur_of ft w with
  | None => lift Panic
  | Some lf =>
      let '(buf', r) := encodeEntry lf e (buf_of ft w) off in
      _ ← modify_st (set_buf ft buf');
      lift r
  end.

Definition cur_fid (ft : fileType) : M writer Z :=
  w ← get_st;
  match cur_of ft w with
  | None => lift Panic
  | Some lf => mret (fid lf)
  end.

(** The body of the loop over [b.Entries]. *)
Definition writeEntry (r : reqState) (e : Entry) : M writer reqState :=
  if skipVlog e then
    mret (mkReqState (r_Entries r ++ [e]) (r_Ptrs r ++ [zeroVP]) (r_head r)
            (r_vlogWritten r) (r_walWritten r))
  else
    (* Write the WAL first. *)
    w ← get_st;
    let wOffset := wrap32 (lw_offset (wal (w_vl w)) + wrap32 (len (wbuf w))) in
    l ← encode_into walFile e wOffset;
    wfid ← cur_fid walFile;
    let head1 := {| Fid := wfid; Offset := wOffset; Len := wrap32 l |} in
    w ← get_st;
    _ ← assertM (lw_offset (wal (w_vl w)) <=? Offset head1);
    let walWritten1 := r_walWritten r + 1 in
    _ ← (if ValueLogFileSize (opt (w_vl w)) <? len (wbuf w)
         then flushBufToFile walFile else mret tt);
    if shouldWriteValueToLSM e then
      mret (mkReqState (r_Entries r ++ [e]) (r_Ptrs r ++ [zeroVP]) head1
              (r_vlogWritten r) walWritten1)
    else
      w ← get_st;
      _ ← (if bool_decide (size (filesMap (vlog (w_vl w))) = 0%nat)
           then lf ← wrap_err (on_vl (createLogFile 0 vlogFile));
                modify_st (set_cur vlogFile (Some lf))
           else mret tt);
      let meta0 := meta e in
      let e1 := set_meta e (clear_txn_bits (meta e)) in
      pfid ← cur_fid vlogFile;
      w ← get_st;
      let pOffset := wrap32 (lw_offset (vlog (w_vl w)) + wrap32 (len (vbuf w))) in
      (* [e.meta = meta] comes before the error check; the entry is handed
         back only when there was no error *)
      plen ← encode_into vlogFile e1 pOffset;
      let e2 := set_meta e1 meta0 in
      let p := {| Fid := pfid; Offset := pOffset; Len := wrap32 plen |} in
      w ← get_st;
      _ ← (if ValueLogFileSize (opt (w_vl w)) <? len (vbuf w)
           then flushBufToFile vlogFile else mret tt);
      mret (mkReqState (r_Entries r ++ [e2]) (r_Ptrs r ++ [p]) head1
              (r_vlogWritten r + 1) walWritten1).

(** The loop over the entries of a request. *)
Fixpoint writeEntries (r : reqState) (es : list Entry) : M writer reqState :=
  match es with
  | [] => mret r
  | e :: rest => r1 ← writeEntry r e; writeEntries r1 rest
  end.

Definition add_numEntriesWritten (ft : fileType) (n : Z) : M writer unit :=
  on_vl (modify_st (fun vl =>
    let lw := lw_of ft vl in
    set_lw ft (set_numEntriesWritten (wrap32 (numEntriesWritten lw + wrap32 n)) lw) vl)).

Definition writeNow (w : writer) : bool :=
  let vl := w_vl w in
  let o := opt vl in
  (wrap32 (ValueLogFileSize o) <? wrap32 (lw_offset (wal vl) + wrap32 (len (wbuf w))))
  || (wrap32 (ValueLogMaxEntries o) <? numEntriesWritten (wal vl))
  || (wrap32 (ValueLogFileSize o) <? wrap32 (lw_offset (vlog vl) + wrap32 (len (vbuf w))))
  || (wrap32 (ValueLogMaxEntries o) <? numEntriesWritten (vlog vl)).

(** The body of the loop over the requests: one transaction. *)
Definition writeRequest (b : request) : M writer request :=
  r ← writeEntries (mkReqState [] [] (head b) 0 0) (Entries b);
  _ ← add_numEntriesWritten walFile (r_walWritten r);
  _ ← add_numEntriesWritten vlogFile (r_vlogWritten r);
  w ← get_st;
  _ ← (if writeNow w then toDisk else mret tt);
  mret (mkRequest (r_Entries r) (r_Ptrs r) (r_head r)).

Fixpoint writeRequests (reqs : list request) : M writer (list request) :=
  match reqs with
  | [] => mret []
  | b :: rest =>
      b' ← writeRequest b;
      rest' ← writeRequests rest;
      mret (b' :: rest')
  end.

(** [valueLog.write]: the value log afterwards and, when no error
    occurred, the requests with their pointers and heads filled in. *)
Definition write (reqs : list request) : M valueLog (list request) := fun vl =>
  if InMemory (opt vl) then (vl, Ok reqs) else
  match validateWrites vl reqs with
  | Err e => (vl, Err e)
  | Panic => (vl, Panic)
  | Ok _ =>
      let w0 := {| w_vl := vl; wbuf := []; vbuf := [];
                   curVlogF := getCurrentFile (vlog vl);
                   curWALF := getCurrentFile (wal vl) |} in
      let '(w1, r) := (reqs' ← writeRequests reqs; _ ← toDisk; mret reqs') w0 in
      (w_vl w1, r)
  end.

End Writer.

(** ** Vocabulary for the claims about the writer *)

(** The other of the two file types. *)
Definition other (ft : fileType) : fileType :=
  match ft with vlogFile => walFile | walFile => vlogFile end.

Section WriterSpec.
Context `{E : Externals} `{D : DBInterface}.

(** The worst-case encoded size of a request, on unbounded integers. *)
Definition worst_case_size (req : request) : Z :=
  foldr (fun e acc => (maxHeaderSize + len (Key e) + len (Value e) + crc32_Size) + acc)
    0 (Entries req).

(** The pre-validation in the spec's words (§4.3), on unbounded integers:
    from the running offset [off], each request adds its worst-case size;
    the batch is refused when that goes beyond [u32::MAX]; the running
    offset restarts at 0 when it reaches the rotation threshold [fileSize].
    [true]: the batch is accepted. *)
Fixpoint prevalidation_accepts (fileSize off : Z) (reqs : list request) : bool :=
  match reqs with
  | [] => true
  | req :: rest =>
      let est := off + worst_case_size req in
      if MaxUint32 <? est then false
      else prevalidation_accepts fileSize (if fileSize <=? est then 0 else est) rest
  end.

(** No request is so large that the 64-bit sums of the validation wrap. *)
Definition fits_uint64 (reqs : list request) : Prop :=
  Forall (fun req => worst_case_size req < 18446744069414584320) reqs.

(** The offset at which the next WAL record starts: what is on file plus
    what the buffer holds. *)
Definition wOffset (w : writer) : Z :=
  wrap32 (lw_offset (wal (w_vl w)) + wrap32 (len (wbuf w))).

(** The same for the next vlog record. *)
Definition pOffset (w : writer) : Z :=
  wrap32 (lw_offset (vlog (w_vl w)) + wrap32 (len (vbuf w))).

(** The WAL pointer of [e] when it is written from the writer state [w]:
    the fid of the current WAL file, the offset of its record, and the
    length [encodeEntry] returns for it. *)
Definition wal_pointer (w : writer) (e : Entry) : option valuePointer :=
  match curWALF w with
  | Some lf =>
      match (encodeEntry lf e (wbuf w) (wOffset w)).2 with
      | Ok l => Some {| Fid := fid lf; Offset := wOffset w; Len := wrap32 l |}
      | _ => None
      end
  | None => None
  end.

(** The length of the vlog record of [e]: its meta goes in with the
    transaction bits cleared. *)
Definition vlog_record_len (e : Entry) : Z :=
  len (header_Encode (entry_header (set_meta e (clear_txn_bits (meta e)))))
  + len (Key e) + len (Value e) + crc32_Size.

(** What [write] reports for an entry: the zero pointer when the entry
    skips the vlog or its value stays in the LSM tree, otherwise a pointer
    whose length is that of the vlog record. *)
Definition pointer_for (e : Entry) (p : valuePointer) : Prop :=
  (skipVlog e || shouldWriteValueToLSM e = true /\ p = zeroVP) \/
  (skipVlog e || shouldWriteValueToLSM e = false /\ Len p = vlog_record_len e).

(** The bytes of the log of type [ft] as the writer sees them: the current
    file followed by the buffer not yet flushed to it. *)
Definition stream (ft : fileType) (w : writer) : list byte :=
  match cur_of ft w with
  | Some lf => default [] (disk (w_vl w) !! fkey lf) ++ buf_of ft w
  | None => buf_of ft w
  end.

(** The current files of the writer are of the type of their wrapper. *)
Definition cur_typed (w : writer) : Prop :=
  forall ft lf, cur_of ft w = Some lf -> lf_fileType lf = ft.

End WriterSpec.

(** ** Vocabulary for what [write] leaves on file *)

(** Two descriptions of the same log file: same fid, type, cipher and
    loading mode (the size and the memory map may differ). *)
Definition like (lf' lf : logFile) : Prop :=
  fid lf' = fid lf /\ lf_fileType lf' = lf_fileType lf /\
  dataKey lf' = dataKey lf /\ baseIV lf' = baseIV lf /\
  loadingMode lf' = loadingMode lf.

(** The wrapper of type [ft] is ready for appending: its current file, when
    there is one, is of type [ft], has the largest fid, and is on disk with
    as many bytes as the writable offset says; without a current file the
    wrapper has no file at all. *)
Definition file_ready (ft : fileType) (vl : valueLog) : Prop :=
  match getCurrentFile (lw_of ft vl) with
  | Some lf =>
      lf_fileType lf = ft /\ fid lf = maxFid (lw_of ft vl) /\
      exists c, disk vl !! (ft, fid lf) = Some c /\
                len c = writableOffset (lw_of ft vl)
  | None => filesMap (lw_of ft vl) = ∅
  end.

(** The same for the current file [write] holds in its local variable;
    without one, nothing has been buffered either. *)
Definition cur_ok (ft : fileType) (w : writer) : Prop :=
  match cur_of ft w with
  | Some lf =>
      lf_fileType lf = ft /\ fid lf = maxFid (lw_of ft (w_vl w)) /\
      (exists lf', filesMap (lw_of ft (w_vl w)) !! fid lf = Some lf' /\ like lf' lf) /\
      (exists c, disk (w_vl w) !! (ft, fid lf) = Some c /\
                 len c = writableOffset (lw_of ft (w_vl w)))
  | None => filesMap (lw_of ft (w_vl w)) = ∅ /\ buf_of ft w = []
  end.

(** Where the next record of type [ft] goes: the bytes on file and the
    bytes buffered. *)
Definition used (ft : fileType) (w : writer) : Z :=
  writableOffset (lw_of ft (w_vl w)) + len (buf_of ft w).

(** The worst-case size of the record of [e], as [estimateRequestSize]
    counts it. *)
Definition entry_size `{Externals} (e : Entry) : Z :=
  maxHeaderSize + len (Key e) + len (Value e) + crc32_Size.

Definition entries_size `{Externals} (es : list Entry) : Z :=
  foldr (fun e acc => entry_size e + acc) 0 es.

(** Offsets and buffers stay within [b]. *)
Definition within (b : Z) (w : writer) : Prop :=
  forall ft, 0 <= writableOffset (lw_of ft (w_vl w)) /\
             writableOffset (lw_of ft (w_vl w)) + len (buf_of ft w) <= b.

(** What [write] keeps true between any two of its steps. *)
Definition winv (b : Z) (w : writer) : Prop :=
  cur_ok vlogFile w /\ cur_ok walFile w /\ within b w /\ 20 <= b /\
  ValueLogLoadingMode (opt (w_vl w)) = FileIO /\
  (forall lf, curVlogF w = Some lf -> loadingMode lf = FileIO).

(** The bytes of the vlog file [fid0] as [write] sees them: those on disk,
    and for the current file those of the buffer behind them. *)
Definition view (w : writer) (fid0 : Z) : list byte :=
  default [] (disk (w_vl w) !! (vlogFile, fid0)) ++
  match curVlogF w with
  | Some lf => if fid lf =? fid0 then vbuf w else []
  | None => []
  end.

(** The entry as it goes to the vlog. *)
Definition vlog_entry (e : Entry) : Entry := set_meta e (clear_txn_bits (meta e)).

(** The pointer [p] leads to the vlog record of [e]. *)
Definition points_to `{Externals} (w : writer) (p : valuePointer) (e : Entry) : Prop :=
  exists lf,
    filesMap (vlog (w_vl w)) !! Fid p = Some lf /\
    fid lf = Fid p /\ lf_fileType lf = vlogFile /\ loadingMode lf = FileIO /\
    Fid p <= maxFid (vlog (w_vl w)) /\
    cipher_ready lf (Offset p) /\
    0 <= Offset p /\ 0 < Len p /\ Offset p + Len p <= len (view w (Fid p)) /\
    take (Z.to_nat (Len p)) (drop (Z.to_nat (Offset p)) (view w (Fid p)))
      = record_bytes lf (vlog_entry e) (Offset p).

(** Every pointer that led to its record in [w] still does in [w']. *)
Definition extends `{Externals} (w w' : writer) : Prop :=
  forall p e, points_to w p e -> points_to w' p e.

(** The worst-case size of a batch. *)
Definition batch_size `{Externals} (reqs : list request) : Z :=
  foldr (fun b n => worst_case_size b + n) 0 reqs.

(** The entries of a batch that go to the logs, in the order [write] goes
    through them. *)
Definition kept (es : list Entry) : list Entry :=
  List.filter (fun e => negb (skipVlog e)) es.

Definition logged (reqs : list request) : list Entry :=
  kept (concat (map Entries reqs)).

(** The WAL as [write] sees it: [lf0] is still the current file of the
    wrapper and of [write], and its bytes, those on disk up to the writable
    offset and those buffered behind them, are [c0] followed by the records
    of [done]. *)
Definition wal_at `{Externals} (lf0 : logFile) (c0 : list byte) (done : list Entry)
    (w : writer) : Prop :=
  cur_typed w /\
  maxFid (wal (w_vl w)) = fid lf0 /\
  (exists lf', filesMap (wal (w_vl w)) !! fid lf0 = Some lf' /\ like lf' lf0) /\
  (exists lfw, curWALF w = Some lfw /\ like lfw lf0) /\
  (exists c, disk (w_vl w) !! (walFile, fid lf0) = Some c /\
             len c = writableOffset (wal (w_vl w)) /\
             c ++ wbuf w = c0 ++ records lf0 (len c0) done) /\
  len (records lf0 (len c0) done) = total_len done.

(** A step of [write] that leaves the WAL alone. *)
Definition wal_frame (w w' : writer) : Prop :=
  curWALF w' = curWALF w /\ wbuf w' = wbuf w /\
  wal (w_vl w') = wal (w_vl w) /\
  (forall f, disk (w_vl w') !! (walFile, f) = disk (w_vl w) !! (walFile, f)) /\
  opt (w_vl w') = opt (w_vl w) /\ cur_typed w'.

(** ** Garbage collection *)

(** [bytes.HasPrefix]. *)
Definition HasPrefix (s p : list byte) : bool :=
  bool_decide (take (length p) s = p).

(** [rand.Intn(n)] for a raw draw [r] of the generator. *)
Definition Intn (r : Z) (n : Z) : Z := r mod n.

(** [logWrapper.sortedFids]: the fids not pending deletion, ascending. *)
Definition sortedFids (lw : logWrapper) : list Z :=
  merge_sort Z.le
    (filter (fun fid0 => fid0 ∉ filesToBeDeleted lw) (elements (dom (filesMap lw)))).

(** [m[fid]] on a Go map of integers: zero when absent. *)
Definition discard_of (m : gmap Z Z) (fid0 : Z) : Z := default 0 (m !! fid0).

(** The candidate loop of [pickLog]. *)
Definition pick_candidate (m : gmap Z Z) (fids : list Z) : Z * Z :=
  fold_left
    (fun cand fid0 => if cand.2 <? discard_of m fid0 then (fid0, discard_of m fid0) else cand)
    fids (MaxUint32, 0).

(** [valueLog.pickLog], given the two raw draws of the random generator.
    The result lists [*logFile]s: [None] is a nil pointer. *)
Definition pickLog (vl : valueLog) (r1 r2 : Z) : list (option logFile) :=
  let fids := sortedFids (vlog vl) in
  if len fids <=? 1 then []
  else
    let candidate := pick_candidate (lfDiscardStats vl) fids in
    let files :=
      if negb (candidate.1 =? MaxUint32)
      then [filesMap (vlog vl) !! candidate.1] else [] in
    let idx := Intn r1 (len fids) in
    let idx := if 0 <? idx then Intn r2 (idx + 1) else idx in
    files ++ [filesMap (vlog vl) !! (default 0 (fids !! Z.to_nat idx))].

Section GC.
Context `{E : Externals} `{D : DBInterface}.

(** [discardEntry]. *)
Definition discardEntry (e : Entry) (vs : ValueStruct) (db : LSM) : bool :=
  if negb (vs_Version vs =? ParseTs (Key e)) then true
  else if isDeletedOrExpired (vs_Meta vs) (vs_ExpiresAt vs) then true
  else if Z.land (vs_Meta vs) bitValuePointer =? 0 then true
  else if 0 <? Z.land (vs_Meta vs) bitFinTxn then true
  else if HasPrefix (Key e) badgerMove then
    match db_get db (drop (length badgerMove) (Key e)) with
    | Ok avs => vs_Version avs =? 0
    | _ => false
    end
  else false.

Definition incrIteratorCount : M valueLog unit :=
  modify_st (fun vl =>
    set_lw vlogFile
      (set_numActiveIterators (wrap_int32 (numActiveIterators (vlog vl) + 1)) (vlog vl)) vl).

Definition iteratorCount (vl : valueLog) : Z := numActiveIterators (vlog vl).

(** The first loop of [decrIteratorCount]: collects the files to delete and
    takes them out of the files map. *)
Fixpoint collect_deleted (ids : list Z) (m : gmap Z logFile)
  : list (option logFile) * gmap Z logFile :=
  match ids with
  | [] => ([], m)
  | id :: rest =>
      let '(lfs, m') := collect_deleted rest (delete id m) in
      (m !! id :: lfs, m')
  end.

(** The second loop: deletes them, stopping at the first error. *)
Fixpoint delete_all (lfs : list (option logFile)) : M valueLog unit :=
  match lfs with
  | [] => mret tt
  | lf :: rest => _ ← deleteLogFile lf; delete_all rest
  end.

(** [valueLog.decrIteratorCount]. *)
Definition decrIteratorCount : M valueLog unit :=
  vl ← get_st;
  let num := wrap_int32 (numActiveIterators (vlog vl) - 1) in
  _ ← modify_st (set_lw vlogFile (set_numActiveIterators num (vlog vl)));
  if negb (num =? 0) then mret tt else
  vl ← get_st;
  let '(lfs, m') := collect_deleted (filesToBeDeleted (vlog vl)) (filesMap (vlog vl)) in
  _ ← modify_st (set_lw vlogFile
         (set_filesToBeDeleted [] (set_filesMap m' (vlog vl))));
  delete_all lfs.

(** What [rewrite] carries through its iteration: the LSM tree and the
    value log (both reached by [db.batchSet]), the batch [wb], its [size],
    and the two counters. *)
Record rewriteState : Type := mkRewriteState {
  rw_db : LSM;
  rw_vl : valueLog;
  rw_wb : list Entry;
  rw_size : Z;
  rw_count : Z;
  rw_moved : Z
}.

Definition rw_batchSet (es : list Entry) : M rewriteState unit := fun s =>
  let '((db', vl'), r) := db_batchSet es (rw_db s, rw_vl s) in
  (mkRewriteState db' vl' (rw_wb s) (rw_size s) (rw_count s) (rw_moved s), r).

(** The closure [fe] of [rewrite]. *)
Definition rewrite_fe (f : logFile) (e : Entry) : M rewriteState unit :=
  _ ← modify_st (fun s => mkRewriteState (rw_db s) (rw_vl s) (rw_wb s) (rw_size s)
                            (rw_count s + 1) (rw_moved s));
  s ← get_st;
  vs ← lift (db_get (rw_db s) (Key e));
  if discardEntry e vs (rw_db s) then mret tt else
  if len (vs_Value vs) =? 0 then fail ErrEmptyValue else
  vp ← lift (vp_Decode (vs_Value vs));
  if fid f <? Fid vp then mret tt else
  if offset e <? Offset vp then mret tt else
  if (Fid vp =? fid f) && (Offset vp =? offset e) then
    _ ← modify_st (fun s => mkRewriteState (rw_db s) (rw_vl s) (rw_wb s) (rw_size s)
                              (rw_count s) (rw_moved s + 1));
    let ne := {| Key := if HasPrefix (Key e) badgerMove then Key e
                        else badgerMove ++ Key e;
                 Value := Value e; UserMeta := UserMeta e; ExpiresAt := ExpiresAt e;
                 meta := 0; offset := 0; skipVlog := false; hlen := 0 |} in
    let es := estimateSize ne + len (Value e) in
    _ ← (if (maxBatchCount (opt (rw_vl s)) <=? len (rw_wb s) + 1)
            || (maxBatchSize (opt (rw_vl s)) <=? rw_size s + es)
         then _ ← rw_batchSet (rw_wb s);
              modify_st (fun s => mkRewriteState (rw_db s) (rw_vl s) [] 0
                                    (rw_count s) (rw_moved s))
         else mret tt);
    modify_st (fun s => mkRewriteState (rw_db s) (rw_vl s) (rw_wb s ++ [ne])
                          (rw_size s + es) (rw_count s) (rw_moved s))
  else mret tt.

(** The loop that submits [wb] in batches, halving the batch size on
    [ErrTxnTooBig].  [None]: out of fuel ([length wb + 12] rounds suffice). *)
Fixpoint rewrite_batches (fuel : nat) (wb : list Entry) (i batchSize : Z)
    (s : rewriteState) : option (rewriteState * result unit) :=
  match fuel with
  | O => None
  | S fuel' =>
      if negb (i <? len wb) then Some (s, Ok tt)
      else if batchSize =? 0 then Some (s, Err ErrNoRewrite)
      else
        let end_ := if len wb <? i + batchSize then len wb else i + batchSize in
        match slice wb i end_ with
        | Ok part =>
            match rw_batchSet part s with
            | (s', Ok _) => rewrite_batches fuel' wb (i + batchSize) batchSize s'
            | (s', Err ErrTxnTooBig) => rewrite_batches fuel' wb i (batchSize / 2) s'
            | (s', r) => Some (s', r)
            end
        | Err e0 => Some (s, Err e0)
        | Panic => Some (s, Panic)
        end
  end.

(** The end of [rewrite] ("Entries written to LSM. Remove the older file
    now."): out of the files map and deleted at once when no iterator is
    active, on the to-be-deleted list otherwise. *)
Definition rewrite_remove (f : logFile) : M valueLog unit :=
  vl ← get_st;
  match filesMap (vlog vl) !! fid f with
  | None => fail ErrFidNotFound
  | Some _ =>
      if iteratorCount vl =? 0 then
        _ ← modify_st (set_lw vlogFile
               (set_filesMap (delete (fid f) (filesMap (vlog vl))) (vlog vl)));
        deleteLogFile (Some f)
      else
        modify_st (set_lw vlogFile
          (set_filesToBeDeleted (filesToBeDeleted (vlog vl) ++ [fid f]) (vlog vl)))
  end.

(** [valueLog.rewrite]: the LSM tree and the value log afterwards, and the
    error returned. *)
Definition valueLog_rewrite (f0 : option logFile) (db : LSM) (vl : valueLog)
  : option (LSM * valueLog * result unit) :=
  match f0 with
  | None => Some (db, vl, Panic)
  | Some f =>
      if negb (wrap32 (fid f) <? maxFid (vlog vl)) then Some (db, vl, Panic) else
      let s0 := mkRewriteState db vl [] 0 0 0 in
      match iterate vl f 0 (fun e _ => rewrite_fe f e) s0 with
      | None => None
      | Some (s1, Ok _) =>
          match rewrite_batches (length (rw_wb s1) + 12) (rw_wb s1) 0 1024 s1 with
          | None => None
          | Some (s2, Ok _) =>
              let '(vl', r) := rewrite_remove f (rw_vl s2) in
              Some (rw_db s2, vl', r)
          | Some (s2, Err e0) => Some (rw_db s2, rw_vl s2, Err e0)
          | Some (s2, Panic) => Some (rw_db s2, rw_vl s2, Panic)
          end
      | Some (s1, Err e0) => Some (rw_db s1, rw_vl s1, Err e0)
      | Some (s1, Panic) => Some (rw_db s1, rw_vl s1, Panic)
      end
  end.

End GC.

(** ** Vocabulary for deferred deletion *)



(** ** The batch loop of [deleteMoveKeysFor] *)

Section MoveKeys.
Context `{D : DBInterface}.

(** The loop of [deleteMoveKeysFor] that submits the delete entries [res]
    found for a file, from index [i] and with the batch size [batchSize]
    (how the entries are found, by an iteration over the move keys of the
    LSM tree, is not modelled).  [None]: out of fuel. *)
Fixpoint deleteMove_batches (fuel : nat) (res : list Entry) (i batchSize : Z)
    (s : LSM * valueLog) : option ((LSM * valueLog) * result unit) :=
  match fuel with
  | O => None
  | S fuel' =>
      if negb (i <? len res) then Some (s, Ok tt)
      else
        let end_ := if len res <? i + batchSize then len res else i + batchSize in
        match slice res i end_ with
        | Ok part =>
            match db_batchSet part s with
            | (s', Ok _) => deleteMove_batches fuel' res (i + batchSize) batchSize s'
            | (s', Err ErrTxnTooBig) => deleteMove_batches fuel' res i (batchSize / 2) s'
            | (s', r) => Some (s', r)
            end
        | Err e0 => Some (s, Err e0)
        | Panic => Some (s, Panic)
        end
  end.

End MoveKeys.

(** ** [dropAll] *)

Section DropAll.
Context `{D : DBInterface}.

(** The loop of the closure [deleteAll] over the files [lfs], in the order
    in which the range over the files map hands them out; [count] is the
    counter of [dropAll], which the closure shares. *)
Fixpoint deleteAll_loop (lfs : list logFile) (count : Z) (vl : valueLog)
  : valueLog * (Z * result unit) :=
  match lfs with
  | [] => (vl, (count, Ok tt))
  | lf :: rest =>
      match deleteLogFile (Some lf) vl with
      | (vl', Ok _) => deleteAll_loop rest (count + 1) vl'
      | (vl', Err e) => (vl', (count, Err e))
      | (vl', Panic) => (vl', (count, Panic))
      end
  end.

(** The closure [deleteAll] on the wrapper of type [ft]: the files map is
    replaced by an empty one only when every file could be deleted. *)
Definition deleteAll (ft : fileType) (order : list logFile) (count : Z) (vl : valueLog)
  : valueLog * (Z * result unit) :=
  match deleteAll_loop order count vl with
  | (vl', (c, Ok _)) => (set_lw ft (set_filesMap ∅ (lw_of ft vl')) vl', (c, Ok tt))
  | r => r
  end.

(** [valueLog.dropAll]: the value log afterwards, the count and the error.
    [vorder] and [worder] are the orders in which the two ranges go through
    the files of the vlog and of the WAL. *)
Definition dropAll (vorder worder : list logFile) (vl : valueLog)
  : valueLog * (Z * result unit) :=
  if InMemory (opt vl) then (vl, (0, Ok tt)) else
  match deleteAll vlogFile vorder 0 vl with
  | (vl1, (c1, Ok _)) =>
      match deleteAll walFile worder c1 vl1 with
      | (vl2, (c2, Ok _)) =>
          if negb (bool_decide (size (filesMap (vlog vl2)) = 0%nat)) then (vl2, (c2, Panic))
          else if negb (bool_decide (size (filesMap (wal vl2)) = 0%nat))
          then (vl2, (c2, Panic))
          else
            match createLogFile 0 walFile vl2 with
            | (vl3, Ok _) =>
                (set_lw vlogFile
                   (mkLogWrapper ∅ 0 0 0 (numActiveIterators (vlog vl3))
                      (filesToBeDeleted (vlog vl3))) vl3,
                 (c2, Ok tt))
            | (vl3, Err e) => (vl3, (c2, Err e))
            | (vl3, Panic) => (vl3, (c2, Panic))
            end
      | r => r
      end
  | r => r
  end.

End DropAll.

(** ** The WAL cleaner *)

Section Cleaner.
Context `{E : Externals} `{D : DBInterface}.

(** The loop of [walCleaner] over the sorted fids: it ends at the first
    fid that is not below [hFid]; an error of [deleteLogFile] is only
    logged. *)
Fixpoint walCleaner_loop (hFid : Z) (fids : list Z) : M valueLog unit :=
  match fids with
  | [] => mret tt
  | fid0 :: rest =>
      if hFid <=? fid0 then mret tt
      else
        vl ← get_st;
        match filesMap (wal vl) !! fid0 with
        | None => lift Panic
        | Some lf =>
            _ ← assertM (bool_decide (lf_fileType lf = walFile));
            _ ← modify_st (fun s =>
                   set_lw walFile (set_filesMap (delete fid0 (filesMap (wal s))) (wal s)) s);
            _ ← (fun s => ((deleteLogFile (Some lf) s).1, Ok tt));
            walCleaner_loop hFid rest
        end
  end.

(** What [walCleaner] does with the next fid of [delChan]; with nothing to
    receive it waits, and the value log stays as it is. *)
Definition walCleaner_recv : M valueLog unit :=
  vl ← get_st;
  match delChan vl with
  | [] => mret tt
  | hFid :: queue =>
      _ ← modify_st (set_delChan queue);
      _ ← assertM (hFid <=? maxFid (wal vl));
      walCleaner_loop hFid (sortedFids (wal vl))
  end.

End Cleaner.

(** ** Opening a log file *)

(** [binary.BigEndian.Uint64]. *)
Definition Uint64 (b : list byte) : option Z :=
  match BytesToU32 b, BytesToU32 (drop 4 b) with
  | Some hi, Some lo => Some (hi * 4294967296 + lo)
  | _, _ => None
  end.

(** [logFile.open]: the size, and from a file that has its header the data
    key and the base IV.  [open_err] is the error [y.OpenExistingFile]
    returns for a file that is not there, [registry_dataKey] is
    [lf.registry.dataKey].  The log file is changed in place: the first
    component is the file as [open] leaves it, also when it fails. *)
Definition lf_open (open_err : error) (registry_dataKey : Z -> result (option DataKey))
    (lf : logFile) (vl : valueLog) : logFile * result unit :=
  match disk vl !! fkey lf with
  | None => (lf, Err (ErrWrapped open_err))
  | Some c =>
      let sz := len c in
      if negb (sz <=? MaxUint32) then (lf, Panic) else
      let lf1 := set_size (wrap32 sz) lf in
      if sz <? lfHeaderSize then (lf1, Ok tt)
      else
        let buf := take (Z.to_nat lfHeaderSize) c in
        match Uint64 (take 8 buf) with
        | None => (lf1, Panic)
        | Some keyID =>
            match registry_dataKey keyID with
            | Ok dk =>
                let lf2 := mkLogFile (fid lf1) (lf_fileType lf1) (loadingMode lf1) dk
                             (drop 8 buf) (fmapLen lf1) (lf_size lf1) in
                (lf2, AssertTrue (len (baseIV lf2) =? 12))
            | Err e => (lf1, Err (ErrWrapped e))
            | Panic => (lf1, Panic)
            end
        end
  end.

(** ** File names and the files map *)

Definition vlogSuffix : list byte := [46; 118; 108; 111; 103].   (* ".vlog" *)
Definition walSuffix : list byte := [46; 119; 97; 108].          (* ".wal" *)

(** [os.PathSeparator]. *)
Definition PathSeparator : byte := 47.

(** The decimal digits of [n], the most significant one first, in front of
    [acc]: the verb [%d]. *)
Fixpoint decimal (fuel : nat) (n : Z) (acc : list byte) : list byte :=
  match fuel with
  | O => acc
  | S fuel' =>
      let acc' := (48 + n mod 10) :: acc in
      if n <? 10 then acc' else decimal fuel' (n / 10) acc'
  end.

(** [fmt.Sprintf("%06d", fid)] for a [uint32]: its digits, ten at most,
    with zeros in front up to a width of six. *)
Definition Sprintf_06d (fid : Z) : list byte :=
  let ds := decimal 10 fid [] in
  replicate (6 - length ds) 48 ++ ds.

(** [vlogFilePath] and [walFilePath]. *)
Definition vlogFilePath (dirPath : list byte) (fid : Z) : list byte :=
  dirPath ++ [PathSeparator] ++ Sprintf_06d fid ++ vlogSuffix.

Definition walFilePath (dirPath : list byte) (fid : Z) : list byte :=
  dirPath ++ [PathSeparator] ++ Sprintf_06d fid ++ walSuffix.

(** [valueLog.fpath]. *)
Definition fpath (dirPath : list byte) (fid : Z) (ft : fileType) : list byte :=
  match ft with
  | vlogFile => vlogFilePath dirPath fid
  | walFile => walFilePath dirPath fid
  end.

(** [strings.HasSuffix]. *)
Definition HasSuffix (s suf : list byte) : bool :=
  (length suf <=? length s)%nat && bool_decide (drop (length s - length suf) s = suf).

(** The number a string of decimal digits stands for. *)
Definition dval (s : list byte) : Z := fold_left (fun acc b => acc * 10 + (b - 48)) s 0.

(** [strconv.ParseUint(s, 10, 32)]: decimal digits only, at least one, and
    a value below 2^32. *)
Definition ParseUint32 (s : list byte) : option Z :=
  match s with
  | [] => None
  | _ =>
      if forallb is_digit s then
        let v := fold_left (fun acc b => acc * 10 + (b - 48)) s 0 in
        if v <? 4294967296 then Some v else None
      else None
  end.

(** The errors of [populateFilesMap], which are made on the spot. *)
Inductive populateError : Type :=
  | ErrReadDir                                     (* "Unable to open log dir." *)
  | ErrParseLogId (name : list byte)               (* "Unable to parse log id." *)
  | ErrDuplicateLog (ft : fileType) (name : list byte)  (* "Duplicate ... file found." *).

Inductive populated : Type :=
  | PopOk
  | PopErr (e : populateError)
  | PopPanic.

(** The loop of [populateFilesMap] over the entries of the directory, with
    the two sets of ids found so far. *)
Fixpoint populate_loop (names : list (list byte)) (vfound wfound : gset Z)
    (vl : valueLog) : valueLog * populated :=
  match names with
  | [] =>
      if negb (bool_decide (size vfound = size (filesMap (vlog vl)))) then (vl, PopPanic)
      else if negb (bool_decide (size wfound = size (filesMap (wal vl)))) then (vl, PopPanic)
      else (vl, PopOk)
  | name :: rest =>
      let kind :=
        if HasSuffix name vlogSuffix then Some (vlogSuffix, vlogFile)
        else if HasSuffix name walSuffix then Some (walSuffix, walFile)
        else None in
      match kind with
      | None => populate_loop rest vfound wfound vl
      | Some (suffix, ft) =>
          match ParseUint32 (take (length name - length suffix) name) with
          | None => (vl, PopErr (ErrParseLogId name))
          | Some fid0 =>
              if bool_decide (ft = vlogFile) && bool_decide (fid0 ∈ vfound)
              then (vl, PopErr (ErrDuplicateLog vlogFile name))
              else if bool_decide (ft = walFile) && bool_decide (fid0 ∈ wfound)
              then (vl, PopErr (ErrDuplicateLog walFile name))
              else
                let vfound' := if bool_decide (ft = vlogFile) then {[fid0]} ∪ vfound
                               else vfound in
                let wfound' := if bool_decide (ft = walFile) then {[fid0]} ∪ wfound
                               else wfound in
                let lf := {| fid := fid0; lf_fileType := ft;
                             loadingMode := ValueLogLoadingMode (opt vl);
                             dataKey := None; baseIV := []; fmapLen := 0; lf_size := 0 |} in
                let lw := lw_of ft vl in
                let mx := if maxFid lw <? fid0 then fid0 else maxFid lw in
                populate_loop rest vfound' wfound'
                  (set_lw ft (mkLogWrapper (<[fid0 := lf]> (filesMap lw)) mx
                                (writableOffset lw) (numEntriesWritten lw)
                                (numActiveIterators lw) (filesToBeDeleted lw)) vl)
          end
      end
  end.

(** [valueLog.populateFilesMap]; [dir] is what [ioutil.ReadDir] returns,
    the names of the entries of the directory or nothing when it fails. *)
Definition populateFilesMap (dir : option (list (list byte))) (vl : valueLog)
  : valueLog * populated :=
  let vl0 := set_lw walFile (set_filesMap ∅ (wal vl))
               (set_lw vlogFile (set_filesMap ∅ (vlog vl)) vl) in
  match dir with
  | None => (vl0, PopErr ErrReadDir)
  | Some names => populate_loop names ∅ ∅ vl0
  end.

(** The name of the file of [fpath] within its directory. *)
Definition suffix_of (ft : fileType) : list byte :=
  match ft with vlogFile => vlogSuffix | walFile => walSuffix end.

Definition baseName (ft : fileType) (fid : Z) : list byte :=
  Sprintf_06d fid ++ suffix_of ft.

(** The names [populateFilesMap] takes for those of log files. *)
Definition is_log_name (name : list byte) : bool :=
  HasSuffix name vlogSuffix || HasSuffix name walSuffix.

(** The log file [populateFilesMap] makes for a name it has parsed. *)
Definition found_file (o : Options) (ft : fileType) (fid0 : Z) : logFile :=
  {| fid := fid0; lf_fileType := ft; loadingMode := ValueLogLoadingMode o;
     dataKey := None; baseIV := []; fmapLen := 0; lf_size := 0 |}.

(** ** Opening the value log *)

(** What [valueLog.open] returns: nothing, with the value head it has
    stored in the DB (none in memory mode), an error of
    [populateFilesMap] or another error, or a panic. *)
Inductive openError : Type :=
  | OpenPopulate (e : populateError)
  | OpenError (e : error).

Inductive opened : Type :=
  | OpenOk (vhead : option valuePointer)
  | OpenErr (e : openError)
  | OpenPanic.

Section OpenAll.
Context `{E : Externals} `{D : DBInterface}.
Context {St : Type}.

(** What the model takes from outside: the error of [y.OpenExistingFile]
    for a file that is not there, [lf.registry.dataKey] and
    [db.shouldEncrypt()]. *)
Variable open_err : error.
Variable registry_dataKey : Z -> result (option DataKey).
Variable shouldEncrypt : bool.

(** The closure [openLogFile] of [open]; the log file is the one of the
    files map, so that what [logFile.open] changes shows there. *)
Definition openLogFile (lf : logFile) : M valueLog logFile := fun vl =>
  match lf_open open_err registry_dataKey lf vl with
  | (lf', Ok _) => (store_lf lf' vl, Ok lf')
  | (lf', Err e) => (store_lf lf' vl, Err (ErrWrapped e))
  | (lf', Panic) => (store_lf lf' vl, Panic)
  end.

(** The closure [initLastFile] of [open], for the wrapper of type [ft]. *)
Definition initLastFile (ft : fileType) : M valueLog unit :=
  vl ← get_st;
  match filesMap (lw_of ft vl) !! maxFid (lw_of ft vl) with
  | None => lift Panic
  | Some last0 =>
      last ← (if negb (Bool.eqb (encryptionEnabled last0) shouldEncrypt) then
                let newid := wrap32 (maxFid (lw_of ft vl) + 1) in
                _ ← wrap_err (createLogFile newid (lf_fileType last0));
                vl1 ← get_st;
                match filesMap (lw_of ft vl1) !! newid with
                | None => lift Panic
                | Some l => mret l
                end
              else mret last0);
      lastOffset ← fd_size last;
      _ ← modify_st (fun s =>
             set_lw ft (set_writableOffset (wrap32 lastOffset) (lw_of ft s)) s);
      modify_st (store_lf (lf_mmap (2 * ValueLogFileSize (opt vl)) last))
  end.

(** The loop of [open] over the vlog files. *)
Fixpoint open_vlog_files (fids : list Z) : M valueLog unit :=
  match fids with
  | [] => mret tt
  | fid0 :: rest =>
      vl ← get_st;
      match filesMap (vlog vl) !! fid0 with
      | None => lift Panic
      | Some lf =>
          lf1 ← openLogFile lf;
          _ ← lf_init lf1;
          open_vlog_files rest
      end
  end.

(** The loop of [open] over the WAL files, which replays them from the
    value head [ptr] on; nothing when a replay runs out of fuel. *)
Fixpoint open_wal_files (fids : list Z) (ptr : valuePointer) (replayFn : @logEntry St)
    (s : St) (vl : valueLog) : option (St * valueLog * result unit) :=
  match fids with
  | [] => Some (s, vl, Ok tt)
  | fid0 :: rest =>
      match filesMap (wal vl) !! fid0 with
      | None => Some (s, vl, Panic)
      | Some lf =>
          match openLogFile lf vl with
          | (vl1, Ok lf1) =>
              if fid0 <? Fid ptr then open_wal_files rest ptr replayFn s vl1
              else
                let offset := if fid0 =? Fid ptr then wrap32 (Offset ptr + Len ptr) else 0 in
                match replayLog lf1 offset replayFn s vl1 with
                | None => None
                | Some (s', vl2, Ok _) => open_wal_files rest ptr replayFn s' vl2
                | Some (s', vl2, Err errDeleteVlogFile) =>
                    let vl3 := set_lw walFile
                                 (set_filesMap (delete fid0 (filesMap (wal vl2))) (wal vl2))
                                 vl2 in
                    match disk vl3 !! (walFile, fid lf1) with
                    | Some _ =>
                        open_wal_files rest ptr replayFn s'
                          (set_disk (delete (walFile, fid lf1) (disk vl3)) vl3)
                    | None => Some (s', vl3, Err (ErrWrapped ErrRemove))
                    end
                | Some (s', vl2, Err e) => Some (s', vl2, Err e)
                | Some (s', vl2, Panic) => Some (s', vl2, Panic)
                end
          | (vl1, Err e) => Some (s, vl1, Err e)
          | (vl1, Panic) => Some (s, vl1, Panic)
          end
      end
  end.

(** [open] from the creation of the WAL file 0 to [initLastFile] on the
    vlog files. *)
Definition open_vlogs : M valueLog unit :=
  vl ← get_st;
  _ ← (if bool_decide (size (filesMap (wal vl)) = 0%nat)
       then _ ← wrap_err (createLogFile 0 walFile); mret tt
       else mret tt);
  vl ← get_st;
  _ ← open_vlog_files (sortedFids (vlog vl));
  vl ← get_st;
  if bool_decide (size (filesMap (vlog vl)) = 0%nat) then mret tt
  else initLastFile vlogFile.

(** The end of [open]: [initLastFile] on the WAL files, the check that the
    last files of the two types agree on encryption, and the value head. *)
Definition open_finish : M valueLog valuePointer :=
  _ ← initLastFile walFile;
  vl ← get_st;
  _ ← (if bool_decide (size (filesMap (vlog vl)) = 0%nat) then mret tt
       else
         match getCurrentFile (vlog vl), getCurrentFile (wal vl) with
         | Some lv, Some lw =>
             assertM (Bool.eqb (encryptionEnabled lv) (encryptionEnabled lw))
         | _, _ => lift Panic
         end);
  mret {| Fid := maxFid (wal vl); Offset := wrap32 (writableOffset (wal vl)); Len := 0 |}.

(** [valueLog.open].  [dir] is what [ioutil.ReadDir] returns, [ptr] the
    value head, [replayFn] the handler of the replay with its state [s].
    The discard statistics that [open] fetches at its end go to the
    goroutine that collects them, and an error there is only logged: that
    step leaves the value log as it is. *)
Definition valueLog_open (dir : option (list (list byte))) (ptr : valuePointer)
    (replayFn : @logEntry St) (s : St) (vl : valueLog)
  : option (St * valueLog * opened) :=
  if InMemory (opt vl) then Some (s, vl, OpenOk None)
  else
    match populateFilesMap dir vl with
    | (vl1, PopPanic) => Some (s, vl1, OpenPanic)
    | (vl1, PopErr e) => Some (s, vl1, OpenErr (OpenPopulate e))
    | (vl1, PopOk) =>
        match open_vlogs vl1 with
        | (vl2, Err e) => Some (s, vl2, OpenErr (OpenError e))
        | (vl2, Panic) => Some (s, vl2, OpenPanic)
        | (vl2, Ok _) =>
            match open_wal_files (sortedFids (wal vl2)) ptr replayFn s vl2 with
            | None => None
            | Some (s', vl3, Err e) => Some (s', vl3, OpenErr (OpenError e))
            | Some (s', vl3, Panic) => Some (s', vl3, OpenPanic)
            | Some (s', vl3, Ok _) =>
                match open_finish vl3 with
                | (vl4, Ok vhead) => Some (s', vl4, OpenOk (Some vhead))
                | (vl4, Err e) => Some (s', vl4, OpenErr (OpenError e))
                | (vl4, Panic) => Some (s', vl4, OpenPanic)
                end
            end
        end
    end.

End OpenAll.

(** ** A small DB for the examples

    The LSM tree is a list of keys with their value structs, newest first;
    nothing expires, values shorter than 32 bytes stay in the tree. *)
Module TestDB.

Definition lsm : Type := list (list byte * ValueStruct).

Definition zeroVS : ValueStruct := mkVS 0 0 0 [] 0.

Definition get (t : lsm) (key : list byte) : result ValueStruct :=
  Ok (default zeroVS (snd <$> list_find (fun kv => bool_decide (kv.1 = key)) t ≫=
                        (fun p => Some p.2))).

Definition to_vs (e : Entry) : list byte * ValueStruct :=
  (Key e, mkVS (meta e) (UserMeta e) (ExpiresAt e) (Value e) (parse_ts (Key e))).

Definition batchSet (es : list Entry) : M (lsm * valueLog) unit := fun s =>
  ((map to_vs es ++ s.1, s.2), Ok tt).

(** Little-endian 32-bit word. *)
Definition le32 (b : list byte) : Z :=
  match b with
  | b0 :: b1 :: b2 :: b3 :: _ => b0 + 256 * (b1 + 256 * (b2 + 256 * b3))
  | _ => 0
  end.

Definition decode_vp (b : list byte) : result valuePointer :=
  if len b <? 12 then Panic
  else Ok {| Fid := le32 b; Len := le32 (drop 4 b); Offset := le32 (drop 8 b) |}.

Definition deletedOrExpired (m : byte) (exp : Z) : bool := 0 <? Z.land m bitDelete.

(** "!badger!move" *)
Definition move_prefix : list byte := [33; 98; 97; 100; 103; 101; 114; 33; 109; 111; 118; 101].

(** The DB whose key registry hands out the data key [dk]. *)
Definition db_with (dk : option DataKey) : DBInterface := {|
  LSM := lsm;
  db_get := get;
  db_batchSet := batchSet;
  shouldWriteValueToLSM := fun e => len (Value e) <? 32;
  getPersistedHead := Ok zeroVP;
  latestDataKey := Ok dk;
  cryptorand_Read := fun n => replicate 12 (n + 1);
  isDeletedOrExpired := deletedOrExpired;
  badgerMove := move_prefix;
  vp_Decode := decode_vp;
  estimateSize := fun e => len (Key e) + len (Value e) + 2
|}.

(** The DB without encryption. *)
Definition db : DBInterface := db_with None.

End TestDB.

(** ** Concrete data for the examples *)

Module Ex.

(** A plain-text WAL file and an encrypted one, both with fid 0. *)
Definition lf_plain : logFile :=
  {| fid := 0; lf_fileType := walFile; loadingMode := FileIO; dataKey := None;
     baseIV := replicate 12 9; fmapLen := 0; lf_size := 20 |}.

Definition lf_enc : logFile :=
  {| fid := 0; lf_fileType := walFile; loadingMode := FileIO;
     dataKey := Some {| KeyId := 7; Data := replicate 16 3 |};
     baseIV := replicate 12 9; fmapLen := 0; lf_size := 20 |}.

(** key = "k" ‖ be64(5), value = "hello". *)
Definition e_hello : Entry :=
  {| Key := [107; 0; 0; 0; 0; 0; 0; 0; 5]; Value := [104; 101; 108; 108; 111];
     UserMeta := 0; ExpiresAt := 0; meta := 0; offset := 0; skipVlog := false;
     hlen := 0 |}.

(** A one-byte key with a value of 2^32 - 1 bytes. *)
Definition e_huge : Entry :=
  {| Key := [107]; Value := replicate (Z.to_nat 4294967295) 0;
     UserMeta := 0; ExpiresAt := 0; meta := 0; offset := 0; skipVlog := false;
     hlen := 0 |}.

End Ex.

Module Scenario.

Definition options : Options :=
  {| InMemory := false; ReadOnly := false; Truncate := true; SyncWrites := false;
     VerifyValueChecksum := true; ValueLogFileSize := 1048576;
     ValueLogMaxEntries := 1000; ValueLogLoadingMode := FileIO;
     maxBatchCount := 100; maxBatchSize := 100000 |}.

Definition empty_lw : logWrapper :=
  {| filesMap := ∅; maxFid := 0; writableOffset := 0; numEntriesWritten := 0;
     numActiveIterators := 0; filesToBeDeleted := [] |}.

Definition vl_empty : valueLog :=
  {| vlog := empty_lw; wal := empty_lw; opt := options; disk := ∅;
     lfDiscardStats := ∅; delChan := []; logRotates := 0; ivDrawn := 0 |}.

(** The value log after [open] on an empty directory: WAL file 0, no vlog
    file yet. *)
Definition vl_fresh : valueLog :=
  (@createLogFile TestDB.db 0 walFile vl_empty).1.

(** key ‖ be64(ts) *)
Definition key_ts (k : list byte) (ts : Z) : list byte := k ++ PutUint64 ts.

Definition entry (k v : list byte) (m : byte) : Entry :=
  {| Key := k; Value := v; UserMeta := 0; ExpiresAt := 0; meta := m;
     offset := 0; skipVlog := false; hlen := 0 |}.

(** Transaction 10: k1, k2 and the commit marker with value "10". *)
Definition k1 : Entry := entry (key_ts [107; 49] 10) [118; 49] bitTxn.
Definition k2 : Entry := entry (key_ts [107; 50] 10) (replicate 40 7) bitTxn.
Definition commit10 : Entry := entry (key_ts [116; 120] 10) [49; 48] bitFinTxn.
(** Transaction 20, torn: k3 without its commit marker. *)
Definition k3 : Entry := entry (key_ts [107; 51] 20) [118; 51] bitTxn.

Definition req (es : list Entry) : request :=
  {| Entries := es; Ptrs := []; head := zeroVP |}.

(** The same value log with its WAL file grown to six bytes below 4 GiB. *)
Definition vl_nearly_full : valueLog :=
  set_lw walFile (set_writableOffset 4294967290 (wal vl_fresh)) vl_fresh.

(** The options in in-memory mode. *)
Definition options_in_memory : Options :=
  {| InMemory := true; ReadOnly := false; Truncate := true; SyncWrites := false;
     VerifyValueChecksum := true; ValueLogFileSize := 1048576;
     ValueLogMaxEntries := 1000; ValueLogLoadingMode := FileIO;
     maxBatchCount := 100; maxBatchSize := 100000 |}.

(** The value log in in-memory mode, as [init] leaves it and as it stays:
    no file, both offsets 0. *)
Definition vl_in_memory : valueLog := set_opt options_in_memory vl_empty.

(** [write]'s local state when it starts on the fresh value log. *)
Definition w_fresh : writer :=
  {| w_vl := vl_fresh; wbuf := []; vbuf := [];
     curVlogF := getCurrentFile (vlog vl_fresh);
     curWALF := getCurrentFile (wal vl_fresh) |}.

(** The request of transaction 10 once written. *)
Definition req10 : request := req [k1; k2; commit10].

Definition req10_run : writer * result request :=
  @writeRequest concreteExt TestDB.db req10 w_fresh.

Definition req10_done : request :=
  match req10_run.2 with Ok b => b | _ => req10 end.

(** The loop body of [write] run on [k2] from the fresh log. *)
Definition r0 : reqState := mkReqState [] [] zeroVP 0 0.

Definition k2_run : writer * result reqState :=
  @writeEntry concreteExt TestDB.db r0 k2 w_fresh.

Definition k2_done : reqState := match k2_run.2 with Ok r => r | _ => r0 end.

(** The meta byte of the record at the head of [bs]. *)
Definition record_meta (bs : list byte) : option byte :=
  match @header_Decode concreteExt bs with Ok (h, _) => Some (h_meta h) | _ => None end.

(** A handler that records what it is given. *)
Definition record_all : @logEntry (list (Entry * valuePointer)) :=
  fun e vp s => (s ++ [(e, vp)], Ok tt).

(** The value log after transaction 10 and, in a second request, the entry
    [k3] of transaction 20, whose commit marker never made it to the file. *)
Definition vl_torn : valueLog :=
  (@write concreteExt TestDB.db [req10; req [k3]] vl_fresh).1.

(** Its WAL file. *)
Definition wal0 : logFile :=
  match getCurrentFile (wal vl_torn) with Some lf => lf | None => Ex.lf_plain end.

Definition wal0_header : list byte :=
  take 20 (default [] (disk vl_torn !! fkey wal0)).

(** The replay of that file with the recording handler. *)
Definition replay_torn : option (list (Entry * valuePointer) * valueLog * result unit) :=
  @replayLog concreteExt TestDB.db _ wal0 0 record_all [] vl_torn.

Definition trace_torn : list (Entry * valuePointer) :=
  match replay_torn with Some (tr, _, _) => tr | None => [] end.

End Scenario.

Module GCEx.

Definition hdr20 : list byte := replicate 8 0 ++ replicate 12 1.

Definition vfile (id : Z) : logFile :=
  {| fid := id; lf_fileType := vlogFile; loadingMode := FileIO; dataKey := None;
     baseIV := replicate 12 1; fmapLen := 0; lf_size := 20 |}.

(** Two vlog files, 0 and 1; file 1 is the writable one. *)
Definition lw_two (iters : Z) (pending : list Z) : logWrapper :=
  {| filesMap := <[0 := vfile 0]> (<[1 := vfile 1]> ∅); maxFid := 1;
     writableOffset := 20; numEntriesWritten := 0;
     numActiveIterators := iters; filesToBeDeleted := pending |}.

Definition vl_two (stats : gmap Z Z) (iters : Z) (pending : list Z) : valueLog :=
  {| vlog := lw_two iters pending; wal := Scenario.empty_lw; opt := Scenario.options;
     disk := <[(vlogFile, 0) := hdr20]> (<[(vlogFile, 1) := hdr20]> ∅);
     lfDiscardStats := stats; delChan := []; logRotates := 0; ivDrawn := 2 |}.

End GCEx.

Module RewriteEx.
Import GCEx.



(** "a" at version 3 with value "v", stored at offset 20 of vlog file 0. *)
Definition live : Entry := Scenario.entry (Scenario.key_ts [97] 3) [118] 0.

Definition file0 : list byte := hdr20 ++ @record_bytes concreteExt (vfile 0) live 20.


Definition vl_gc (iters : Z) (pending : list Z) : valueLog :=
  set_disk (<[(vlogFile, 0) := file0]> (disk (vl_two ∅ iters pending)))
    (vl_two ∅ iters pending).


End RewriteEx.

Module EncEx.
Import Scenario.

Definition db_enc : DBInterface :=
  TestDB.db_with (Some {| KeyId := 7; Data := replicate 16 3 |}).

(** An encrypted value log holding the one request [k2], whose 40-byte
    value goes to the vlog. *)
Definition vl_written : valueLog :=
  (@write concreteExt db_enc [req [k2]] (@createLogFile db_enc 0 walFile vl_empty).1).1.

(** The pointer [write] returned for [k2]. *)
Definition vp_k2 : valuePointer := {| Fid := 0; Offset := 20; Len := 59 |}.

(** The same with one byte of the stored value flipped on disk. *)
Definition vl_corrupt : valueLog :=
  set_disk (alter (fun c => <[Z.to_nat 40 := 255]> c) (vlogFile, 0) (disk vl_written))
    vl_written.

(** The options with checksum verification off. *)
Definition options_unverified : Options :=
  {| InMemory := false; ReadOnly := false; Truncate := true; SyncWrites := false;
     VerifyValueChecksum := false; ValueLogFileSize := 1048576;
     ValueLogMaxEntries := 1000; ValueLogLoadingMode := FileIO;
     maxBatchCount := 100; maxBatchSize := 100000 |}.

(** The corrupted value log read without verification. *)
Definition vl_unverified : valueLog := set_opt options_unverified vl_corrupt.

(** What is stored for [vp_k2] in the corrupted file: the record without
    its checksum, and the checksum. *)
Definition corrupt_raw : list byte :=
  take 59 (drop 20 (default [] (disk vl_corrupt !! (vlogFile, 0)))).

Definition corrupt_body : list byte := take 55 corrupt_raw.

Definition corrupt_stored : list byte := drop 55 corrupt_raw.

End EncEx.

(** ** More concrete data *)

Module MoreEx.
Import Scenario.

(** Two vlog files, one open iterator, file 0 waiting for deletion. *)
Definition vl_one_iter : valueLog := GCEx.vl_two ∅ 1 [0].

(** The rotation of the WAL of the scenario. *)
Definition rotate_run : valueLog * result logFile :=
  @rotateFile TestDB.db walFile wal0 vl_torn.

(** The scenario opened read-only. *)
Definition options_read_only : Options :=
  {| InMemory := false; ReadOnly := true; Truncate := true; SyncWrites := false;
     VerifyValueChecksum := true; ValueLogFileSize := 1048576;
     ValueLogMaxEntries := 1000; ValueLogLoadingMode := FileIO;
     maxBatchCount := 100; maxBatchSize := 100000 |}.

Definition vl_read_only : valueLog := set_opt options_read_only vl_torn.

(** An entry whose key has 65537 bytes. *)
Definition e_long_key : Entry := entry (replicate (Z.to_nat 65537) 107) [1] 0.

(** The WAL of the scenario cut ten bytes into the record of [k3]. *)
Definition wal_cut : list byte :=
  take 131 (default [] (disk vl_torn !! fkey wal0)).

Definition vl_cut : valueLog :=
  set_disk (<[fkey wal0 := wal_cut]> (disk vl_torn)) vl_torn.

(** Transaction 10 written to the fresh value log, and the pointer [write]
    reports for [k2]. *)
Definition rt_run : valueLog * result (list request) :=
  @write concreteExt TestDB.db [req10] vl_fresh.

Definition rt_reqs : list request :=
  match rt_run.2 with Ok r => r | _ => [] end.

Definition rt_req : request := default req10 (rt_reqs !! 0%nat).

Definition rt_ptr : valuePointer := default zeroVP (Ptrs rt_req !! 1%nat).

(** The WAL file of the fresh value log and its header. *)
Definition wal_fresh : logFile := default Ex.lf_plain (getCurrentFile (wal vl_fresh)).

Definition hdr_fresh : list byte := default [] (disk vl_fresh !! (walFile, 0)).

(** A DB that takes no entry: every batch but the empty one is too big for
    a transaction. *)
Definition db_tiny : DBInterface := {|
  LSM := TestDB.lsm;
  db_get := TestDB.get;
  db_batchSet := fun es s =>
    (s, if bool_decide (es = []) then Ok tt else Err ErrTxnTooBig);
  shouldWriteValueToLSM := fun e => len (Value e) <? 32;
  getPersistedHead := Ok zeroVP;
  latestDataKey := Ok None;
  cryptorand_Read := fun n => replicate 12 (n + 1);
  isDeletedOrExpired := TestDB.deletedOrExpired;
  badgerMove := TestDB.move_prefix;
  vp_Decode := TestDB.decode_vp;
  estimateSize := fun e => len (Key e) + len (Value e) + 2
|}.

(** [dropAll] on the scenario, the files taken in the order of their fids,
    and on the scenario with its vlog file lost. *)
Definition drop_vorder : list logFile := (map_to_list (filesMap (vlog vl_torn))).*2.

Definition drop_worder : list logFile := (map_to_list (filesMap (wal vl_torn))).*2.

Definition drop_run : valueLog * (Z * result unit) :=
  @dropAll TestDB.db drop_vorder drop_worder vl_torn.

Definition vl_lost : valueLog :=
  set_disk (delete (vlogFile, 0) (disk vl_torn)) vl_torn.

(** The vlog file of the scenario. *)
Definition vfile_torn : logFile := default Ex.lf_plain (drop_vorder !! 0%nat).

(** A key registry with the one data key of id 7, and the WAL file of the
    fresh value log set up again by [bootstrap] under that key. *)
Definition dk7 : DataKey := {| KeyId := 7; Data := replicate 16 3 |}.

Definition reg7 (id : Z) : result (option DataKey) :=
  if id =? 7 then Ok (Some dk7) else Ok None.

Definition boot_run : valueLog * result logFile :=
  @bootstrap (TestDB.db_with (Some dk7)) Ex.lf_plain vl_fresh.

Definition boot_lf : logFile := match boot_run.2 with Ok l => l | _ => Ex.lf_plain end.

(** A directory where the WAL file 0 holds three bytes and no header. *)
Definition vl_short : valueLog := set_disk {[(walFile, 0) := [1; 2; 3]]} vl_empty.

(** A directory with the WAL file 0, the vlog files 0 and 12, and a file
    called MANIFEST. *)
Definition dir_keys : list (fileType * Z) := [(walFile, 0); (vlogFile, 0); (vlogFile, 12)].

Definition dir_names : list (list byte) :=
  [baseName walFile 0; [77; 65; 78; 73; 70; 69; 83; 84]; baseName vlogFile 0;
   baseName vlogFile 12].

(** "1.vlog" *)
Definition name_1_vlog : list byte := [49; 46; 118; 108; 111; 103].

(** The directory that [rt_run] leaves, the WAL file 0, the vlog file 0 and
    a file called MANIFEST, under a value log as [init] leaves it. *)
Definition vl_reopen : valueLog := set_disk (disk rt_run.1) vl_empty.

Definition manifest : list byte := [77; 65; 78; 73; 70; 69; 83; 84].

Definition reopen_keys : list (fileType * Z) := [(vlogFile, 0); (walFile, 0)].

Definition reopen_names : list (list byte) :=
  [baseName vlogFile 0; baseName walFile 0; manifest].

(** Two WAL files, the first one with three stray bytes behind its header. *)
Definition vl_junk : valueLog :=
  {| vlog := empty_lw;
     wal := {| filesMap := {[0 := found_file options walFile 0;
                             1 := found_file options walFile 1]};
               maxFid := 1; writableOffset := 0; numEntriesWritten := 0;
               numActiveIterators := 0; filesToBeDeleted := [] |};
     opt := options;
     disk := {[(walFile, 0) := hdr_fresh ++ [1; 2; 3]; (walFile, 1) := hdr_fresh]};
     lfDiscardStats := ∅; delChan := []; logRotates := 0; ivDrawn := 0 |}.

(** The same with the fid 1 of the persisted head waiting in [delChan]. *)
Definition vl_clean : valueLog := set_delChan [1] vl_junk.

End MoreEx.

(** * Properties *)

(** ** Lists, slices and big-endian words *)

Lemma len_app {A} (a b : list A) : len (a ++ b) = len a + len b.
Proof. unfold len. rewrite length_app. lia. Qed.

Lemma len_nonneg {A} (a : list A) : 0 <= len a.
Proof. unfold len. lia. Qed.

Lemma len_nil {A} : len (@nil A) = 0.
Proof. reflexivity. Qed.

Lemma to_nat_len {A} (a : list A) : Z.to_nat (len a) = length a.
Proof. unfold len. lia. Qed.

Lemma slice_from_app {A} (a b : list A) : slice_from (a ++ b) (len a) = Ok b.
Proof.
  unfold slice_from, slice.
  pose proof (len_nonneg a) as Ha. pose proof (len_nonneg b) as Hb.
  rewrite len_app.
  replace (0 <=? len a) with true by (symmetry; apply Z.leb_le; lia).
  replace (len a <=? len a + len b) with true by (symmetry; apply Z.leb_le; lia).
  replace (len a + len b <=? len a + len b) with true by (symmetry; apply Z.leb_le; lia).
  simpl. f_equal.
  replace (len a + len b - len a) with (len b) by lia.
  rewrite !to_nat_len, drop_app_length. apply firstn_all.
Qed.

Lemma slice_app_mid {A} (a b c : list A) :
  slice (a ++ b ++ c) (len a) (len a + len b) = Ok b.
Proof.
  unfold slice.
  pose proof (len_nonneg a) as Ha. pose proof (len_nonneg b) as Hb.
  pose proof (len_nonneg c) as Hc.
  rewrite !len_app.
  replace (0 <=? len a) with true by (symmetry; apply Z.leb_le; lia).
  replace (len a <=? len a + len b) with true by (symmetry; apply Z.leb_le; lia).
  replace (len a + len b <=? len a + (len b + len c)) with true
    by (symmetry; apply Z.leb_le; lia).
  simpl. f_equal.
  replace (len a + len b - len a) with (len b) by lia.
  rewrite !to_nat_len, drop_app_length. apply take_app_length.
Qed.

Lemma slice_to_app {A} (a b : list A) : slice_to (a ++ b) (len a) = Ok a.
Proof.
  unfold slice_to. change (a ++ b) with ([] ++ a ++ b).
  apply (slice_app_mid [] a b).
Qed.

Lemma slice_crossed {A} (s : list A) (lo hi : Z) : hi < lo -> slice s lo hi = Panic.
Proof.
  intros H. unfold slice.
  replace (lo <=? hi) with false by (symmetry; apply Z.leb_gt; lia).
  now rewrite andb_false_r.
Qed.

Lemma slice_beyond {A} (s : list A) (lo hi : Z) : len s < hi -> slice s lo hi = Panic.
Proof.
  intros H. unfold slice.
  replace (hi <=? len s) with false by (symmetry; apply Z.leb_gt; lia).
  now rewrite andb_false_r.
Qed.

Lemma ReadFull_app (a rest : list byte) : ReadFull (a ++ rest) (len a) = Ok (a, rest).
Proof.
  unfold ReadFull. pose proof (len_nonneg rest) as Hr.
  rewrite len_app.
  replace (len a <=? len a + len rest) with true by (symmetry; apply Z.leb_le; lia).
  rewrite to_nat_len, take_app_length, drop_app_length. reflexivity.
Qed.

Lemma wrap32_small (x : Z) : 0 <= x < 4294967296 -> wrap32 x = x.
Proof. intros H. unfold wrap32. now apply Z.mod_small. Qed.

Lemma wrap32_range (x : Z) : 0 <= wrap32 x < 4294967296.
Proof. unfold wrap32. apply Z.mod_pos_bound. lia. Qed.

Lemma wrap64_small (x : Z) : 0 <= x < 18446744073709551616 -> wrap64 x = x.
Proof. intros H. unfold wrap64. now apply Z.mod_small. Qed.

Lemma len_PutUint32 (x : Z) : len (PutUint32 x) = 4.
Proof. reflexivity. Qed.

Lemma BytesToU32_PutUint32 (x : Z) (rest : list byte) :
  0 <= x < 4294967296 -> BytesToU32 (PutUint32 x ++ rest) = Some x.
Proof.
  intros Hx. unfold PutUint32, BytesToU32. simpl. f_equal.
  assert (E2 : x / 65536 = x / 256 / 256) by (rewrite Z.div_div by lia; reflexivity).
  assert (E3 : x / 16777216 = x / 65536 / 256) by (rewrite Z.div_div by lia; reflexivity).
  assert (x / 16777216 < 256) by (apply Z.div_lt_upper_bound; lia).
  assert (0 <= x / 16777216) by (apply Z.div_pos; lia).
  rewrite (Z.mod_small (x / 16777216) 256) by lia.
  rewrite (Z.mod_eq (x / 65536) 256), (Z.mod_eq (x / 256) 256), (Z.mod_eq x 256) by lia.
  rewrite <- E3, <- E2. lia.
Qed.

(** ** The key stream *)

Lemma xor_stream_length ks i s : length (xor_stream ks i s) = length s.
Proof. revert i. induction s as [|b s IH]; intros i; simpl; [done|]. now rewrite IH. Qed.

Lemma len_xor_stream ks i s : len (xor_stream ks i s) = len s.
Proof. unfold len. now rewrite xor_stream_length. Qed.

Lemma xor_stream_app ks i a b :
  xor_stream ks i (a ++ b) = xor_stream ks i a ++ xor_stream ks (i + length a) b.
Proof.
  revert i. induction a as [|x a IH]; intros i; simpl.
  - now rewrite Nat.add_0_r.
  - rewrite IH. now replace (S i + length a)%nat with (i + S (length a))%nat by lia.
Qed.

Lemma xor_stream_involutive ks i s : xor_stream ks i (xor_stream ks i s) = s.
Proof.
  revert i. induction s as [|b s IH]; intros i; simpl; [done|].
  rewrite IH. f_equal.
  rewrite Z.lxor_assoc, Z.lxor_nilpotent. apply Z.lxor_0_r.
Qed.

(** ** The record codec *)

Section Codec.
Context `{E : Externals} {laws : HeaderCodecLaws E}.

#[local] Opaque PutUint32.

Lemma entry_header_wf (e : Entry) : wf_entry e -> wf_header (entry_header e).
Proof.
  intros (Hx & Hm & Hu). unfold wf_header, entry_header; simpl.
  pose proof (wrap32_range (len (Key e))). pose proof (wrap32_range (len (Value e))).
  tauto.
Qed.

Lemma len_ENC lf off x : len (ENC lf off x) = len x.
Proof.
  unfold ENC. destruct (dataKey lf); [|done].
  destruct (aes_ctr _ _); [apply len_xor_stream|done].
Qed.

Lemma generateIV_ready lf off :
  12 <= len (baseIV lf) -> generateIV lf off = Ok (take 12 (baseIV lf) ++ PutUint32 off).
Proof.
  intros H. unfold generateIV.
  replace (Z.min 12 (len (baseIV lf)) =? 12) with true
    by (symmetry; apply Z.eqb_eq; lia).
  reflexivity.
Qed.

(** What [encodeEntry] appends and returns once the cipher can be set up. *)
Lemma encodeEntry_ready lf e buf off :
  wf_entry e -> cipher_ready lf off ->
  encodeEntry lf e buf off =
    (buf ++ header_Encode (entry_header e) ++ ENC lf off (Key e ++ Value e)
         ++ PutUint32 (Sum32 (header_Encode (entry_header e) ++ ENC lf off (Key e ++ Value e))),
     Ok (len (header_Encode (entry_header e)) + len (Key e) + len (Value e) + 4)).
Proof.
  intros Hwf Hc. unfold encodeEntry.
  pose proof (Encode_size _ (entry_header_wf e Hwf)) as Hsz.
  replace (maxHeaderSize <? len (header_Encode (entry_header e))) with false
    by (symmetry; apply Z.ltb_ge; lia).
  unfold cipher_ready, ENC, encryptionEnabled, dataKey_Data in *.
  destruct (dataKey lf) as [dk|].
  - destruct Hc as [Hiv [ks Hks]].
    rewrite generateIV_ready by done. simpl. unfold XORBlock. rewrite Hks.
    rewrite <- !app_assoc. reflexivity.
  - rewrite <- !app_assoc. reflexivity.
Qed.

(** Decryption of what [ENC] produced, followed by anything, gives the
    plain bytes back as a prefix. *)
Lemma decrypt_ENC lf off x tail :
  cipher_ready lf off ->
  exists tail', len tail' = len tail /\
    (if encryptionEnabled lf then decryptKV lf (ENC lf off x ++ tail) off
     else Ok (ENC lf off x ++ tail)) = Ok (x ++ tail').
Proof.
  intros Hc. unfold cipher_ready, ENC, encryptionEnabled, decryptKV, dataKey_Data in *.
  destruct (dataKey lf) as [dk|].
  - destruct Hc as [Hiv [ks Hks]].
    rewrite generateIV_ready by done. simpl. unfold XORBlock. rewrite Hks.
    exists (xor_stream ks (0 + length (xor_stream ks 0 x)) tail). split.
    + apply len_xor_stream.
    + now rewrite xor_stream_app, xor_stream_involutive.
  - exists tail. split; reflexivity.
Qed.

Lemma decodeEntry_record lf e off :
  wf_entry e -> cipher_ready lf off ->
  len (Key e) + len (Value e) < 4294967296 ->
  exists d, decodeEntry lf (record_bytes lf e off) off = Ok d /\ same_record d e.
Proof.
  intros Hwf Hc Hlen.
  pose proof (len_nonneg (Key e)) as Hk. pose proof (len_nonneg (Value e)) as Hv.
  unfold record_bytes. rewrite encodeEntry_ready by done. simpl.
  unfold decodeEntry.
  rewrite (Decode_Encode _ _ (entry_header_wf e Hwf)). simpl.
  rewrite slice_from_app. simpl.
  destruct (decrypt_ENC lf off (Key e ++ Value e)
              (PutUint32 (Sum32 (header_Encode (entry_header e)
                                   ++ ENC lf off (Key e ++ Value e)))) Hc)
    as (tail' & _ & ->).
  simpl.
  rewrite (wrap32_small (len (Key e))), (wrap32_small (len (Value e))),
    (wrap32_small (len (Key e) + len (Value e))) by lia.
  rewrite <- app_assoc, slice_to_app. simpl.
  rewrite slice_app_mid. simpl.
  eexists; split; [reflexivity|]. repeat split.
Qed.

(** [safeRead.Entry] over the record of [e] at [off], whatever follows it. *)
Lemma safeRead_Entry_read_back lf e off rest :
  wf_entry e -> cipher_ready lf off ->
  len (Key e) <= 65536 -> len (Key e) + len (Value e) < 4294967296 ->
  safeRead_Entry lf off (record_bytes lf e off ++ rest) = Ok (read_back e off, rest).
Proof.
  intros Hwf Hc Hkl Hlen.
  pose proof (len_nonneg (Key e)) as Hk. pose proof (len_nonneg (Value e)) as Hv.
  unfold record_bytes. rewrite encodeEntry_ready by done. simpl.
  unfold safeRead_Entry.
  rewrite <- !app_assoc.
  rewrite (DecodeFrom_Encode _ _ (entry_header_wf e Hwf)). simpl.
  rewrite (wrap32_small (len (Key e))), (wrap32_small (len (Value e))),
    (wrap32_small (len (Key e) + len (Value e))) by lia.
  replace (65536 <? len (Key e)) with false by (symmetry; apply Z.ltb_ge; lia).
  set (hdr := header_Encode (entry_header e)).
  set (ct := ENC lf off (Key e ++ Value e)).
  rewrite to_nat_len, take_app_length, drop_app_length.
  replace (len (Key e) + len (Value e)) with (len ct)
    by (unfold ct; rewrite len_ENC, len_app; reflexivity).
  rewrite ReadFull_app. simpl.
  destruct (decrypt_ENC lf off (Key e ++ Value e) [] Hc) as (tail' & Ht & Hd).
  destruct tail'; [|discriminate Ht].
  fold ct in Hd. rewrite !app_nil_r in Hd. rewrite Hd. simpl.
  rewrite slice_to_app. simpl. rewrite slice_from_app. simpl.
  unfold crc32_Size. rewrite <- (len_PutUint32 (Sum32 (hdr ++ ct))).
  rewrite ReadFull_app. simpl.
  pose proof (BytesToU32_PutUint32 (Sum32 (hdr ++ ct)) [] (wrap32_range _)) as Hcrc.
  rewrite app_nil_r in Hcrc. rewrite Hcrc.
  rewrite Z.eqb_refl. simpl.
  reflexivity.
Qed.

Lemma safeRead_Entry_record lf e off rest :
  wf_entry e -> cipher_ready lf off ->
  len (Key e) <= 65536 -> len (Key e) + len (Value e) < 4294967296 ->
  exists d, safeRead_Entry lf off (record_bytes lf e off ++ rest) = Ok (d, rest) /\
            same_record d e /\ offset d = off /\
            hlen d = len (header_Encode (entry_header e)).
Proof.
  intros Hwf Hc Hkl Hlen. exists (read_back e off).
  split; [now apply safeRead_Entry_read_back|]. repeat split.
Qed.

(** With a key and a value whose lengths add up to 2^32 or more, the sum of
    the two header fields wraps around and the value slice has its bounds
    crossed. *)
Lemma decodeEntry_wraps lf e off :
  wf_entry e -> cipher_ready lf off ->
  len (Key e) < 4294967296 -> len (Value e) < 4294967296 ->
  4294967296 <= len (Key e) + len (Value e) ->
  decodeEntry lf (record_bytes lf e off) off = Panic.
Proof.
  intros Hwf Hc Hkl Hvl Hlen.
  pose proof (len_nonneg (Key e)) as Hk. pose proof (len_nonneg (Value e)) as Hv.
  unfold record_bytes. rewrite encodeEntry_ready by done. simpl.
  unfold decodeEntry.
  rewrite (Decode_Encode _ _ (entry_header_wf e Hwf)). simpl.
  rewrite slice_from_app. simpl.
  destruct (decrypt_ENC lf off (Key e ++ Value e)
              (PutUint32 (Sum32 (header_Encode (entry_header e)
                                   ++ ENC lf off (Key e ++ Value e)))) Hc)
    as (tail' & _ & ->).
  simpl. rewrite !(wrap32_small (len _)) by lia.
  rewrite <- app_assoc, slice_to_app. simpl.
  rewrite slice_crossed; [reflexivity|].
  unfold wrap32.
  replace (len (Key e) + len (Value e))
    with ((len (Key e) + len (Value e) - 4294967296) + 1 * 4294967296) by lia.
  rewrite Z.mod_add by lia. rewrite Z.mod_small by lia. lia.
Qed.

#[local] Transparent PutUint32.

End Codec.

(** ** The varint header codec satisfies the laws *)

Module VarintFacts.
Import Varint.

(** A property of bytes checked on all 256 of them. *)
Lemma byte_cases (P : Z -> bool) :
  forallb P (map Z.of_nat (seq 0 256)) = true ->
  forall b, 0 <= b < 256 -> P b = true.
Proof.
  intros H b Hb. rewrite forallb_forall in H. apply H.
  apply in_map_iff. exists (Z.to_nat b). split; [lia|].
  apply in_seq. lia.
Qed.

Lemma continuation_byte (c : Z) :
  0 <= c < 256 ->
  (Z.lor c 128 <? 128) = false /\ Z.land (Z.lor c 128) 127 = c mod 128.
Proof.
  intros Hc.
  pose proof (byte_cases
    (fun c => negb (Z.lor c 128 <? 128) && (Z.land (Z.lor c 128) 127 =? c mod 128))
    ltac:(vm_compute; reflexivity) c Hc) as H.
  apply andb_true_iff in H as [H1 H2].
  apply negb_true_iff in H1. apply Z.eqb_eq in H2. now split.
Qed.

Lemma land_shiftl_low (acc c s : Z) :
  0 <= s -> 0 <= acc < 2 ^ s -> Z.land acc (Z.shiftl c s) = 0.
Proof.
  intros Hs Hacc. apply Z.bits_inj'. intros n Hn.
  rewrite Z.land_spec, Z.bits_0.
  destruct (Z.lt_ge_cases n s) as [Hlt|Hge].
  - rewrite (Z.shiftl_spec_low c s n) by lia. apply andb_false_r.
  - rewrite <- (Z.mod_small acc (2 ^ s)) by lia.
    rewrite Z.mod_pow2_bits_high by lia. reflexivity.
Qed.

Lemma lor_shiftl_add (acc c s : Z) :
  0 <= s -> 0 <= acc < 2 ^ s -> Z.lor acc (Z.shiftl c s) = acc + c * 2 ^ s.
Proof.
  intros Hs Hacc.
  pose proof (Z.add_lor_land acc (Z.shiftl c s)) as H.
  rewrite land_shiftl_low in H by done.
  rewrite Z.shiftl_mul_pow2 in * by lia. lia.
Qed.

(** The accumulator step of the decoders, in arithmetic. *)
Lemma accumulate (acc c i : Z) :
  0 <= i <= 9 -> 0 <= acc < 2 ^ (7 * i) -> 0 <= c -> c * 2 ^ (7 * i) < 2 ^ 64 ->
  Z.lor acc (wrap64 (Z.shiftl c (7 * i))) = acc + c * 2 ^ (7 * i).
Proof.
  intros Hi Hacc Hc Hb.
  assert (Hs : Z.shiftl c (7 * i) = c * 2 ^ (7 * i)) by (apply Z.shiftl_mul_pow2; lia).
  rewrite wrap64_small; [apply lor_shiftl_add; lia|].
  rewrite Hs. split; [apply Z.mul_nonneg_nonneg; lia | exact Hb].
Qed.

Lemma pow_split (i : Z) : 0 <= i <= 9 -> 2 ^ (7 * (i + 1)) = 128 * 2 ^ (7 * i).
Proof.
  intros Hi. replace (7 * (i + 1)) with (7 + 7 * i) by lia.
  rewrite Z.pow_add_r by lia. reflexivity.
Qed.

Lemma pow_top (i : Z) : 0 <= i <= 9 -> 2 ^ (70 - 7 * i) * 2 ^ (7 * i) = 2 ^ 70.
Proof. intros Hi. rewrite <- Z.pow_add_r by lia. f_equal. lia. Qed.

(** The value bound a varint position can still take: [x] occupies the
    bits from [7 i] upwards of a 64-bit word. *)
Definition fits (i x : Z) : Prop := 0 <= x /\ x * 2 ^ (7 * i) < 2 ^ 64.

Lemma fits_small (i x : Z) :
  0 <= i <= 9 -> fits i x -> (128 <=? x) = true -> i < 9 /\ fits (i + 1) (Z.shiftr x 7).
Proof.
  intros Hi [Hx Hb] Hge. apply Z.leb_le in Hge.
  assert (0 < 2 ^ (7 * i)) by (apply Z.pow_pos_nonneg; lia).
  assert (i < 9).
  { destruct (Z.eq_dec i 9) as [->|]; [|lia]. exfalso.
    change (2 ^ (7 * 9)) with 9223372036854775808 in Hb.
    change (2 ^ 64) with 18446744073709551616 in Hb. lia. }
  split; [done|]. rewrite Z.shiftr_div_pow2 by lia. change (2 ^ 7) with 128.
  split; [apply Z.div_pos; lia|].
  rewrite pow_split by lia.
  pose proof (Z.mul_div_le x 128 ltac:(lia)). nia.
Qed.

Lemma fits_last (x : Z) : fits 9 x -> x <= 1.
Proof.
  intros [Hx Hb]. change (2 ^ (7 * 9)) with 9223372036854775808 in Hb.
  change (2 ^ 64) with 18446744073709551616 in Hb. lia.
Qed.

Lemma step_value (x acc p : Z) :
  0 <= x -> acc + x mod 128 * p + (Z.shiftr x 7) * (128 * p) = acc + x * p.
Proof.
  intros Hx. rewrite Z.shiftr_div_pow2 by lia. change (2 ^ 7) with 128.
  pose proof (Z.div_mod x 128 ltac:(lia)). nia.
Qed.

Lemma wrap8_mod128 (x : Z) : wrap8 x mod 128 = x mod 128.
Proof.
  unfold wrap8. apply Z.mod_mod_divide. exists 2. reflexivity.
Qed.

Lemma Uvarint_loop_PutUvarint (f : nat) (x i acc : Z) (rest : list byte) :
  0 <= i -> i + Z.of_nat f = 10 -> (0 < f)%nat ->
  fits i x -> 0 <= acc < 2 ^ (7 * i) ->
  Uvarint_loop (PutUvarint_loop f x ++ rest) i acc (7 * i) =
    (acc + x * 2 ^ (7 * i), i + len (PutUvarint_loop f x)).
Proof.
  revert x i acc. induction f as [|f IH]; intros x i acc Hi Hif Hf Hfit Hacc; [lia|].
  assert (Hi9 : 0 <= i <= 9) by lia.
  simpl PutUvarint_loop. destruct (128 <=? x) eqn:Hx.
  - destruct (fits_small i x Hi9 Hfit Hx) as [Hlt Hfit'].
    destruct Hfit as [Hx0 Hb].
    assert (Hw : 0 <= wrap8 x < 256) by (unfold wrap8; apply Z.mod_pos_bound; lia).
    destruct (continuation_byte (wrap8 x) Hw) as [Hc1 Hc2].
    rewrite <- app_comm_cons. cbn [Uvarint_loop].
    replace (i =? MaxVarintLen64) with false
      by (symmetry; apply Z.eqb_neq; unfold MaxVarintLen64; lia).
    rewrite Hc1, Hc2, wrap8_mod128.
    assert (Hp : 0 < 2 ^ (7 * i)) by (apply Z.pow_pos_nonneg; lia).
    assert (Hm : 0 <= x mod 128 < 128) by (apply Z.mod_pos_bound; lia).
    rewrite accumulate; [|lia|lia|lia|].
    2:{ apply Z.le_lt_trans with (x * 2 ^ (7 * i)); [|lia].
        apply Z.mul_le_mono_nonneg_r; [lia|].
        pose proof (Z.mod_le x 128 ltac:(lia) ltac:(lia)). lia. }
    replace (7 * i + 7) with (7 * (i + 1)) by lia.
    rewrite IH; [| lia | lia | lia | done |].
    2:{ rewrite pow_split by lia. nia. }
    rewrite pow_split by lia. rewrite step_value by lia.
    f_equal. unfold len. simpl length. lia.
  - apply Z.leb_gt in Hx. destruct Hfit as [Hx0 Hb].
    unfold wrap8. rewrite Z.mod_small by lia.
    simpl app. cbn [Uvarint_loop].
    replace (i =? MaxVarintLen64) with false
      by (symmetry; apply Z.eqb_neq; unfold MaxVarintLen64; lia).
    replace (x <? 128) with true by (symmetry; apply Z.ltb_lt; lia).
    replace ((i =? MaxVarintLen64 - 1) && (1 <? x)) with false.
    2:{ symmetry. apply andb_false_iff.
        destruct (Z.eq_dec i 9) as [->|Hne].
        - right. apply Z.ltb_ge. apply fits_last. split; done.
        - left. apply Z.eqb_neq. unfold MaxVarintLen64. lia. }
    rewrite accumulate by lia. f_equal.
Qed.

Lemma ReadUvarint_loop_PutUvarint (f : nat) (x i acc : Z) (rest : list byte) :
  0 <= i -> i + Z.of_nat f = 10 -> (0 < f)%nat ->
  fits i x -> 0 <= acc < 2 ^ (7 * i) ->
  ReadUvarint_loop f (PutUvarint_loop f x ++ rest) i acc (7 * i) =
    Ok (acc + x * 2 ^ (7 * i), rest).
Proof.
  revert x i acc. induction f as [|f IH]; intros x i acc Hi Hif Hf Hfit Hacc; [lia|].
  assert (Hi9 : 0 <= i <= 9) by lia.
  simpl PutUvarint_loop. destruct (128 <=? x) eqn:Hx.
  - destruct (fits_small i x Hi9 Hfit Hx) as [Hlt Hfit'].
    destruct Hfit as [Hx0 Hb].
    assert (Hw : 0 <= wrap8 x < 256) by (unfold wrap8; apply Z.mod_pos_bound; lia).
    destruct (continuation_byte (wrap8 x) Hw) as [Hc1 Hc2].
    rewrite <- app_comm_cons. cbn [ReadUvarint_loop].
    rewrite Hc1, Hc2, wrap8_mod128.
    assert (Hp : 0 < 2 ^ (7 * i)) by (apply Z.pow_pos_nonneg; lia).
    assert (Hm : 0 <= x mod 128 < 128) by (apply Z.mod_pos_bound; lia).
    rewrite accumulate; [|lia|lia|lia|].
    2:{ apply Z.le_lt_trans with (x * 2 ^ (7 * i)); [|lia].
        apply Z.mul_le_mono_nonneg_r; [lia|].
        pose proof (Z.mod_le x 128 ltac:(lia) ltac:(lia)). lia. }
    replace (7 * i + 7) with (7 * (i + 1)) by lia.
    rewrite IH; [| lia | lia | lia | done |].
    2:{ rewrite pow_split by lia. nia. }
    rewrite pow_split by lia. rewrite step_value by lia. reflexivity.
  - apply Z.leb_gt in Hx. destruct Hfit as [Hx0 Hb].
    unfold wrap8. rewrite Z.mod_small by lia.
    simpl app. cbn [ReadUvarint_loop].
    replace (x <? 128) with true by (symmetry; apply Z.ltb_lt; lia).
    replace ((i =? MaxVarintLen64 - 1) && (1 <? x)) with false.
    2:{ symmetry. apply andb_false_iff.
        destruct (Z.eq_dec i 9) as [->|Hne].
        - right. apply Z.ltb_ge. apply fits_last. split; done.
        - left. apply Z.eqb_neq. unfold MaxVarintLen64. lia. }
    rewrite accumulate by lia. reflexivity.
Qed.

Lemma len_PutUvarint_loop (f : nat) (x : Z) :
  1 <= len (PutUvarint_loop f x) <= Z.of_nat f + 1.
Proof.
  revert x. induction f as [|f IH]; intros x; simpl.
  - unfold len; simpl; lia.
  - destruct (128 <=? x).
    + specialize (IH (Z.shiftr x 7)). unfold len in *. simpl length. lia.
    + unfold len; simpl; lia.
Qed.

(** A 32-bit value takes at most five bytes. *)
Lemma len_PutUvarint_loop_bound (n f : nat) (x : Z) :
  0 <= x < 2 ^ (7 * Z.of_nat n) -> (0 < n)%nat -> (n <= f)%nat ->
  len (PutUvarint_loop f x) <= Z.of_nat n.
Proof.
  revert f x. induction n as [|n IH]; intros f x Hx Hn Hf; [lia|].
  destruct f as [|f]; [lia|]. simpl PutUvarint_loop.
  destruct (128 <=? x) eqn:Hge.
  - apply Z.leb_le in Hge.
    destruct n as [|n].
    { change (2 ^ (7 * Z.of_nat 1)) with 128 in Hx. lia. }
    assert (Hs : 0 <= Z.shiftr x 7 < 2 ^ (7 * Z.of_nat (S n))).
    { rewrite Z.shiftr_div_pow2 by lia. split; [apply Z.div_pos; lia|].
      apply Z.div_lt_upper_bound; [lia|].
      rewrite <- Z.pow_add_r by lia.
      replace (7 + 7 * Z.of_nat (S n)) with (7 * Z.of_nat (S (S n))) by lia. lia. }
    specialize (IH f _ Hs ltac:(lia) ltac:(lia)).
    unfold len in *. simpl length. lia.
  - unfold len; simpl; lia.
Qed.

Lemma Uvarint_PutUvarint (x : Z) (rest : list byte) :
  0 <= x < 2 ^ 64 ->
  Uvarint (PutUvarint x ++ rest) = (x, len (PutUvarint x)).
Proof.
  intros Hx. unfold Uvarint, PutUvarint.
  change 0 with (7 * 0) at 3.
  rewrite Uvarint_loop_PutUvarint; [|lia|reflexivity|lia| |simpl; lia].
  - f_equal. simpl. lia.
  - split; [lia|]. simpl. lia.
Qed.

Lemma ReadUvarint_PutUvarint (x : Z) (rest : list byte) :
  0 <= x < 2 ^ 64 ->
  ReadUvarint (PutUvarint x ++ rest) = Ok (x, rest).
Proof.
  intros Hx. unfold ReadUvarint, PutUvarint.
  change 0 with (7 * 0) at 3.
  rewrite ReadUvarint_loop_PutUvarint; [|lia|reflexivity|lia| |simpl; lia].
  - f_equal. f_equal. simpl. lia.
  - split; [lia|]. simpl. lia.
Qed.

End VarintFacts.

Module InstanceFacts.
Import Varint VarintFacts.

Lemma header_eta (h : header) :
  {| klen := klen h; vlen := vlen h; expiresAt := expiresAt h;
     h_meta := h_meta h; h_userMeta := h_userMeta h |} = h.
Proof. now destruct h. Qed.

Lemma slice_from_app2 {A} (a b c : list A) :
  slice_from (a ++ b ++ c) (len a + len b) = Ok c.
Proof. rewrite app_assoc, <- len_app. apply slice_from_app. Qed.

Lemma Encode_len (h : header) : wf_header h -> len (Encode h) <= maxHeaderSize.
Proof.
  intros (Hk & Hv & Hx & _). unfold Encode, PutUvarint, maxHeaderSize.
  rewrite !len_app.
  pose proof (len_PutUvarint_loop_bound 5 10 (klen h) ltac:(simpl; lia) ltac:(lia) ltac:(lia)).
  pose proof (len_PutUvarint_loop_bound 5 10 (vlen h) ltac:(simpl; lia) ltac:(lia) ltac:(lia)).
  pose proof (len_PutUvarint_loop_bound 10 10 (expiresAt h) ltac:(simpl; lia) ltac:(lia) ltac:(lia)).
  change (len [h_meta h; h_userMeta h]) with 2. simpl Z.of_nat in *. lia.
Qed.

Lemma Decode_Encode_varint (h : header) (rest : list byte) :
  wf_header h -> Decode (Encode h ++ rest) = Ok (h, len (Encode h)).
Proof.
  intros (Hk & Hv & Hx & _). unfold Encode.
  rewrite <- !app_assoc. unfold Decode. cbn [app].
  set (pre := [h_meta h; h_userMeta h]).
  change (h_meta h :: h_userMeta h :: ?t) with (pre ++ t).
  change 2 with (len pre).
  rewrite slice_from_app. cbn [mbind result_bind].
  rewrite Uvarint_PutUvarint by (simpl; lia).
  rewrite slice_from_app2. cbn [mbind result_bind].
  rewrite Uvarint_PutUvarint by (simpl; lia).
  rewrite <- len_app, (app_assoc pre), slice_from_app2. cbn [mbind result_bind].
  rewrite Uvarint_PutUvarint by (simpl; lia).
  rewrite !wrap32_small by lia. rewrite header_eta.
  f_equal. f_equal. rewrite !len_app. lia.
Qed.

Lemma DecodeFrom_Encode_varint (h : header) (rest : list byte) :
  wf_header h -> DecodeFrom (Encode h ++ rest) = Ok (h, len (Encode h)).
Proof.
  intros (Hk & Hv & Hx & _). unfold Encode.
  rewrite <- !app_assoc. unfold DecodeFrom. cbn [app].
  rewrite ReadUvarint_PutUvarint by (simpl; lia). cbn [mbind result_bind].
  rewrite ReadUvarint_PutUvarint by (simpl; lia). cbn [mbind result_bind].
  rewrite ReadUvarint_PutUvarint by (simpl; lia). cbn [mbind result_bind].
  rewrite !wrap32_small by lia. rewrite header_eta.
  f_equal. f_equal.
  change (h_meta h :: h_userMeta h :: ?t) with ([h_meta h; h_userMeta h] ++ t).
  rewrite !len_app. lia.
Qed.

Lemma concreteExt_laws : HeaderCodecLaws concreteExt.
Proof.
  split.
  - exact Encode_len.
  - exact Decode_Encode_varint.
  - exact DecodeFrom_Encode_varint.
  - reflexivity.
Qed.

End InstanceFacts.

(** ** Deferred deletion *)

Section Deletion.
Context `{E : Externals} `{D : DBInterface}.

Lemma deleteLogFile_present (lf : logFile) (vl : valueLog) :
  is_Some (disk vl !! fkey lf) ->
  deleteLogFile (Some lf) vl = (set_disk (delete (fkey lf) (disk vl)) vl, Ok tt).
Proof. intros [c Hc]. unfold deleteLogFile. now rewrite Hc. Qed.




(** A decrement that does not reach zero touches neither the list nor the
    files. *)
Lemma decrIteratorCount_more (vl : valueLog) :
  wrap_int32 (numActiveIterators (vlog vl) - 1) <> 0 ->
  decrIteratorCount vl =
    (set_lw vlogFile
       (set_numActiveIterators (wrap_int32 (numActiveIterators (vlog vl) - 1)) (vlog vl)) vl,
     Ok tt).
Proof.
  intros Hn. unfold decrIteratorCount, mbind, M_bind, get_st, modify_st.
  apply Z.eqb_neq in Hn. rewrite Hn. reflexivity.
Qed.

(** The end of [rewrite], by the iterator count. *)
Lemma rewrite_remove_idle (f : logFile) (vl : valueLog) :
  is_Some (filesMap (vlog vl) !! fid f) -> is_Some (disk vl !! fkey f) ->
  iteratorCount vl = 0 ->
  rewrite_remove f vl =
    (set_disk (delete (fkey f) (disk vl))
       (set_lw vlogFile (set_filesMap (delete (fid f) (filesMap (vlog vl))) (vlog vl)) vl),
     Ok tt).
Proof.
  intros [lf Hm] Hd Hi. unfold rewrite_remove, mbind, M_bind, get_st, modify_st.
  rewrite Hm, Hi. change (0 =? 0) with true. cbv beta iota.
  rewrite deleteLogFile_present by exact Hd. reflexivity.
Qed.

Lemma rewrite_remove_busy (f : logFile) (vl : valueLog) :
  is_Some (filesMap (vlog vl) !! fid f) -> iteratorCount vl <> 0 ->
  rewrite_remove f vl =
    (set_lw vlogFile
       (set_filesToBeDeleted (filesToBeDeleted (vlog vl) ++ [fid f]) (vlog vl)) vl,
     Ok tt).
Proof.
  intros [lf Hm] Hi. unfold rewrite_remove, mbind, M_bind, get_st, modify_st.
  rewrite Hm. apply Z.eqb_neq in Hi. rewrite Hi. reflexivity.
Qed.


Lemma rewrite_remove_ok (f : logFile) (vl vl' : valueLog) :
  rewrite_remove f vl = (vl', Ok tt) ->
  is_Some (filesMap (vlog vl) !! fid f) /\
  (iteratorCount vl = 0 -> is_Some (disk vl !! fkey f)).
Proof.
  unfold rewrite_remove, mbind, M_bind, get_st, modify_st, fail.
  destruct (filesMap (vlog vl) !! fid f) as [lf|] eqn:Hm; [|discriminate].
  intros H. split; [eauto|]. intros Hi. rewrite Hi in H.
  change (0 =? 0) with true in H. cbv beta iota in H. unfold deleteLogFile in H.
  simpl in H. destruct (disk vl !! fkey f) eqn:Hd; [eauto|discriminate].
Qed.

End Deletion.

(** ** The reader's checksum *)

Section ReaderFacts.
Context `{E : Externals}.

Lemma slice_in_range {A} (s : list A) (lo hi : Z) :
  0 <= lo <= hi -> hi <= len s ->
  slice s lo hi = Ok (take (Z.to_nat (hi - lo)) (drop (Z.to_nat lo) s)).
Proof.
  intros H1 H2. unfold slice.
  replace (0 <=? lo) with true by (symmetry; apply Z.leb_le; lia).
  replace (lo <=? hi) with true by (symmetry; apply Z.leb_le; lia).
  replace (hi <=? len s) with true by (symmetry; apply Z.leb_le; lia).
  reflexivity.
Qed.

Lemma slice_to_in_range {A} (s : list A) (n : Z) :
  0 <= n <= len s -> slice_to s n = Ok (take (Z.to_nat n) s).
Proof.
  intros H. unfold slice_to. rewrite slice_in_range by lia.
  now rewrite Z.sub_0_r.
Qed.

Lemma slice_from_in_range {A} (s : list A) (n : Z) :
  0 <= n <= len s -> slice_from s n = Ok (drop (Z.to_nat n) s).
Proof.
  intros H. unfold slice_from. rewrite slice_in_range by lia.
  f_equal. apply take_ge. rewrite length_drop. unfold len in *. lia.
Qed.

Lemma BytesToU32_four (b : list byte) : 4 <= len b -> is_Some (BytesToU32 b).
Proof.
  unfold len. destruct b as [|b0 [|b1 [|b2 [|b3 b]]]]; simpl; try lia.
  intros _. eexists; reflexivity.
Qed.

(** With verification on, a record whose stored checksum differs from the
    CRC of the bytes before it is refused, whatever the file's data key and
    base IV are: nothing has been decrypted at that point. *)
Lemma Read_checksum_mismatch (vl : valueLog) (vp : valuePointer)
    (raw : list byte) (lf : logFile) :
  VerifyValueChecksum (opt vl) = true ->
  readValueBytes vl vp = Ok (raw, lf) ->
  4 <= len raw ->
  BytesToU32 (drop (Z.to_nat (len raw - 4)) raw)
    <> Some (Sum32 (take (Z.to_nat (len raw - 4)) raw)) ->
  Read vl vp = Err (ErrWrapped ErrChecksumMismatch).
Proof.
  intros Hv Hr Hlen Hne. unfold Read. rewrite Hr. cbn [mbind result_bind].
  rewrite Hv. unfold crc32_Size.
  rewrite slice_to_in_range by lia. rewrite slice_from_in_range by lia.
  cbn [mbind result_bind].
  destruct (BytesToU32_four (drop (Z.to_nat (len raw - 4)) raw)) as [c Hc].
  { unfold len in *. rewrite length_drop. lia. }
  rewrite Hc in *.
  destruct (Sum32 (take (Z.to_nat (len raw - 4)) raw) =? c) eqn:Heq.
  - apply Z.eqb_eq in Heq. congruence.
  - reflexivity.
Qed.

(** With a matching checksum, or with verification off, [Read] goes on to
    decode the header and only then decrypts. *)
Lemma Read_checksum_match (vl : valueLog) (vp : valuePointer)
    (raw : list byte) (lf : logFile) :
  readValueBytes vl vp = Ok (raw, lf) ->
  4 <= len raw ->
  VerifyValueChecksum (opt vl) = false \/
  BytesToU32 (drop (Z.to_nat (len raw - 4)) raw)
    = Some (Sum32 (take (Z.to_nat (len raw - 4)) raw)) ->
  Read vl vp =
    ('(h, headerLen) ← header_Decode raw;
     kv0 ← slice_from raw headerLen;
     kv ← (if encryptionEnabled lf then decryptKV lf kv0 (Offset vp) else Ok kv0);
     if wrap32 (len kv) <? wrap32 (klen h + vlen h) then Err ErrInvalidRead
     else slice kv (klen h) (wrap32 (klen h + vlen h))).
Proof.
  intros Hr Hlen Hok. unfold Read. rewrite Hr. cbn [mbind result_bind].
  destruct (VerifyValueChecksum (opt vl)) eqn:Hv.
  - destruct Hok as [|Hok]; [discriminate|].
    unfold crc32_Size.
    rewrite slice_to_in_range by lia. rewrite slice_from_in_range by lia.
    cbn [mbind result_bind]. rewrite Hok. rewrite Z.eqb_refl. reflexivity.
  - reflexivity.
Qed.

End ReaderFacts.

(** ** Runs of the state-and-error monad that end without error *)

Section MonadFacts.
Context {S : Type}.

Lemma bind_ok_inv {A B} (m : M S A) (k : A -> M S B) (s s' : S) (b : B) :
  (m ≫= k) s = (s', Ok b) ->
  exists a s1, m s = (s1, Ok a) /\ k a s1 = (s', Ok b).
Proof.
  unfold mbind, M_bind. destruct (m s) as [s1 [a|e|]]; try discriminate.
  intros H. now exists a, s1.
Qed.

Lemma get_st_inv (s s1 a : S) : get_st s = (s1, Ok a) -> s1 = s /\ a = s.
Proof. unfold get_st. intros H. injection H as <- <-. now split. Qed.

Lemma modify_st_inv (f : S -> S) (s s1 : S) (a : unit) :
  modify_st f s = (s1, Ok a) -> s1 = f s.
Proof. unfold modify_st. intros H. now injection H as <-. Qed.

Lemma assertM_inv (b : bool) (s s1 : S) (a : unit) :
  assertM b s = (s1, Ok a) -> b = true /\ s1 = s.
Proof.
  unfold assertM, lift, AssertTrue. destruct b; intros H; [|discriminate].
  injection H as <-. now split.
Qed.

Lemma lift_inv {A} (r : result A) (s s1 : S) (a : A) :
  lift r s = (s1, Ok a) -> r = Ok a /\ s1 = s.
Proof. unfold lift. intros H. injection H as <- ->. now split. Qed.

Lemma mret_inv {A} (a b : A) (s s1 : S) :
  (mret a : M S A) s = (s1, Ok b) -> s1 = s /\ b = a.
Proof. unfold mret, M_ret. intros H. injection H as <- <-. now split. Qed.

End MonadFacts.

Lemma on_vl_inv {A} (m : M valueLog A) (w w1 : writer) (a : A) :
  on_vl m w = (w1, Ok a) ->
  exists vl', m (w_vl w) = (vl', Ok a) /\ w1 = set_vl vl' w.
Proof.
  unfold on_vl. destruct (m (w_vl w)) as [vl' r]. intros H.
  injection H as <- ->. now exists vl'.
Qed.

Lemma wrap_err_inv {S A} (m : M S A) (s s1 : S) (a : A) :
  wrap_err m s = (s1, Ok a) -> m s = (s1, Ok a).
Proof. unfold wrap_err. destruct (m s) as [s' [x|e|]]; intros H; congruence. Qed.

(** One step of inversion of a monadic run that ended without error: the
    first action's result [a], the state [s] it left, and its run [H1]. *)
Ltac minv_core H a s H1 :=
  apply bind_ok_inv in H as (a & s & H1 & H);
  first
    [ apply get_st_inv in H1 as [-> ->]
    | apply modify_st_inv in H1 as ->
    | apply assertM_inv in H1 as [H1 ->]
    | apply lift_inv in H1 as [H1 ->]
    | apply mret_inv in H1 as [-> ->]
    | idtac ].

Tactic Notation "minv" hyp(H) "as" ident(a) ident(s) ident(H1) :=
  minv_core H a s H1.

Tactic Notation "minv" hyp(H) :=
  let a := fresh "a" in let s := fresh "s" in let H1 := fresh "Hstep" in
  minv_core H a s H1.

(** ** The pre-validation of [write] *)

Section Validation.
Context `{E : Externals} `{D : DBInterface}.

Lemma worst_case_size_nonneg (req : request) :
  0 <= maxHeaderSize -> 0 <= worst_case_size req.
Proof.
  intros Hm. unfold worst_case_size.
  induction (Entries req) as [|e es IH]; cbn [foldr]; [lia|].
  pose proof (len_nonneg (Key e)). pose proof (len_nonneg (Value e)).
  unfold crc32_Size in *. lia.
Qed.

Lemma estimate_fold (es : list Entry) (acc : Z) :
  0 <= maxHeaderSize -> 0 <= acc ->
  acc + foldr (fun e a => (maxHeaderSize + len (Key e) + len (Value e) + crc32_Size) + a) 0 es
    < 18446744073709551616 ->
  fold_left
    (fun sz e => wrap64 (sz + wrap64 (maxHeaderSize + len (Key e) + len (Value e) + crc32_Size)))
    es acc
  = acc + foldr (fun e a => (maxHeaderSize + len (Key e) + len (Value e) + crc32_Size) + a) 0 es.
Proof.
  intros Hm. revert acc. induction es as [|e es IH]; intros acc Hacc Hb; cbn [foldr fold_left] in *; [lia|].
  pose proof (len_nonneg (Key e)). pose proof (len_nonneg (Value e)).
  assert (Hrest : 0 <= foldr (fun e a =>
            (maxHeaderSize + len (Key e) + len (Value e) + crc32_Size) + a) 0 es).
  { clear -Hm. induction es as [|x xs IHx]; cbn [foldr]; [lia|].
    pose proof (len_nonneg (Key x)). pose proof (len_nonneg (Value x)).
    unfold crc32_Size in *. lia. }
  unfold crc32_Size in *.
  rewrite (wrap64_small (maxHeaderSize + len (Key e) + len (Value e) + 4)) by lia.
  rewrite wrap64_small by lia.
  rewrite IH by lia. lia.
Qed.

Lemma estimateRequestSize_exact (req : request) :
  0 <= maxHeaderSize -> worst_case_size req < 18446744073709551616 ->
  estimateRequestSize req = worst_case_size req.
Proof.
  intros Hm Hb. unfold estimateRequestSize, worst_case_size in *.
  rewrite estimate_fold by lia. lia.
Qed.

(** On sizes that do not wrap, [validateWrites] is the pre-validation of
    the spec. *)
Lemma validateWrites_from_spec (o : Options) (off : Z) (reqs : list request) :
  0 <= maxHeaderSize -> 0 <= off <= MaxUint32 ->
  0 <= ValueLogFileSize o < 9223372036854775808 ->
  fits_uint64 reqs ->
  validateWrites_from o off reqs =
    if prevalidation_accepts (ValueLogFileSize o) off reqs then Ok tt
    else Err ErrSizeExceeded.
Proof.
  intros Hm Hoff Hfs Hfit. revert off Hoff.
  induction reqs as [|req rest IH]; intros off Hoff; simpl; [reflexivity|].
  apply Forall_cons in Hfit as [Hreq Hfit].
  pose proof (worst_case_size_nonneg req Hm) as Hnn.
  unfold MaxUint32 in *.
  rewrite estimateRequestSize_exact by lia.
  rewrite (wrap64_small (off + worst_case_size req)) by lia.
  rewrite (wrap64_small (ValueLogFileSize o)) by lia.
  destruct (4294967295 <? off + worst_case_size req) eqn:Hmax; [reflexivity|].
  apply Z.ltb_ge in Hmax.
  destruct (ValueLogFileSize o <=? off + worst_case_size req).
  - apply (IH Hfit); lia.
  - apply (IH Hfit); lia.
Qed.

(** The only error of [validateWrites] is the size error. *)
Lemma validateWrites_from_error (o : Options) (off : Z) (reqs : list request) :
  validateWrites_from o off reqs = Ok tt \/
  validateWrites_from o off reqs = Err ErrSizeExceeded.
Proof.
  revert off. induction reqs as [|req rest IH]; intros off; simpl; [now left|].
  destruct (MaxUint32 <? _); [now right|].
  destruct (_ <=? _); apply IH.
Qed.

(** A batch that fails validation is refused before anything is done. *)
Lemma write_refused (vl : valueLog) (reqs : list request) (e : error) :
  InMemory (opt vl) = false -> validateWrites vl reqs = Err e ->
  write reqs vl = (vl, Err e).
Proof. intros Hm Hv. unfold write. now rewrite Hm, Hv. Qed.

(** Every entry of a validated batch has a worst-case size within 32
    bits. *)
Lemma validateWrites_from_entries (o : Options) (off : Z) (reqs : list request) :
  0 <= maxHeaderSize -> 0 <= off <= MaxUint32 -> fits_uint64 reqs ->
  validateWrites_from o off reqs = Ok tt ->
  Forall (fun req => Forall (fun e =>
    maxHeaderSize + len (Key e) + len (Value e) + crc32_Size <= MaxUint32) (Entries req)) reqs.
Proof.
  intros Hm Hoff Hfit. revert off Hoff.
  induction reqs as [|req rest IH]; intros off Hoff Hv; [constructor|].
  apply Forall_cons in Hfit as [Hreq Hfit].
  pose proof (worst_case_size_nonneg req Hm) as Hnn.
  simpl in Hv. unfold MaxUint32 in *.
  rewrite estimateRequestSize_exact in Hv by lia.
  rewrite (wrap64_small (off + worst_case_size req)) in Hv by lia.
  destruct (4294967295 <? off + worst_case_size req) eqn:Hmax; [discriminate|].
  apply Z.ltb_ge in Hmax.
  constructor.
  - assert (Hw : worst_case_size req <= 4294967295) by lia.
    clear -Hw Hm. unfold worst_case_size in Hw.
    induction (Entries req) as [|e es IHe]; [constructor|]. cbn [foldr] in Hw.
    assert (0 <= foldr (fun e a =>
              (maxHeaderSize + len (Key e) + len (Value e) + crc32_Size) + a) 0 es).
    { clear -Hm. induction es as [|x xs IHx]; cbn [foldr]; [lia|].
      pose proof (len_nonneg (Key x)). pose proof (len_nonneg (Value x)).
      unfold crc32_Size in *. lia. }
    pose proof (len_nonneg (Key e)). pose proof (len_nonneg (Value e)).
    unfold crc32_Size in *.
    constructor; [lia|apply IHe; lia].
  - destruct (wrap64 (ValueLogFileSize o) <=? off + worst_case_size req).
    + apply (IH Hfit 0); [lia|exact Hv].
    + apply (IH Hfit (off + worst_case_size req)); [lia|exact Hv].
Qed.

End Validation.

(** ** What a run of the writer went through *)

Section WriterFacts.
Context `{E : Externals} `{D : DBInterface}.

(** [e.meta = meta] undoes the masking. *)
Lemma set_meta_restore (e : Entry) (m : byte) : set_meta (set_meta e m) (meta e) = e.
Proof. now destruct e. Qed.

Lemma encodeEntry_inv lf e buf off buf' l :
  encodeEntry lf e buf off = (buf', Ok l) ->
  len (header_Encode (entry_header e)) <= maxHeaderSize /\
  l = len (header_Encode (entry_header e)) + len (Key e) + len (Value e) + 4 /\
  exists rec, buf' = buf ++ rec /\ len rec = l /\
              forall b0, encodeEntry lf e b0 off = (b0 ++ rec, Ok l).
Proof.
  unfold encodeEntry.
  destruct (maxHeaderSize <? len (header_Encode (entry_header e))) eqn:Hsz; [discriminate|].
  apply Z.ltb_ge in Hsz.
  set (body := if encryptionEnabled lf then _ else _).
  destruct body as [kv|err|] eqn:Hbody; try discriminate.
  intros H. injection H as <- <-. split; [exact Hsz|]. split; [reflexivity|].
  assert (Hkv : len kv = len (Key e) + len (Value e)).
  { subst body. destruct (encryptionEnabled lf).
    - destruct (generateIV lf off) as [iv|?|]; try discriminate.
      destruct (dataKey_Data lf) as [key|?|]; try discriminate.
      cbn [mbind result_bind] in Hbody. unfold XORBlock in Hbody.
      destruct (aes_ctr key iv); [|discriminate].
      injection Hbody as <-. now rewrite len_xor_stream, len_app.
    - injection Hbody as <-. apply len_app. }
  exists (header_Encode (entry_header e) ++ kv
          ++ PutUint32 (Sum32 (header_Encode (entry_header e) ++ kv))).
  split; [now rewrite <- !app_assoc|]. split.
  - rewrite !len_app, Hkv, len_PutUint32. lia.
  - intros b0. now rewrite <- !app_assoc.
Qed.

Lemma record_bytes_of_encode lf e buf off buf' l :
  encodeEntry lf e buf off = (buf', Ok l) ->
  buf' = buf ++ record_bytes lf e off /\ len (record_bytes lf e off) = l.
Proof.
  intros H. destruct (encodeEntry_inv _ _ _ _ _ _ H) as (_ & _ & rec & -> & Hl & Hall).
  unfold record_bytes. rewrite (Hall []). simpl. now split.
Qed.

Lemma encode_into_inv ft e off w w' l :
  encode_into ft e off w = (w', Ok l) ->
  exists lf bw, cur_of ft w = Some lf /\
    encodeEntry lf e (buf_of ft w) off = (bw, Ok l) /\ w' = set_buf ft bw w.
Proof.
  unfold encode_into. intros H. minv H.
  destruct (cur_of ft w) as [lf|] eqn:Hc; [|apply lift_inv in H as [? _]; discriminate].
  destruct (encodeEntry lf e (buf_of ft w) off) as [bw r] eqn:He.
  minv H. apply lift_inv in H as [-> ->].
  now exists lf, bw.
Qed.

Lemma cur_fid_inv ft w w' a :
  cur_fid ft w = (w', Ok a) -> w' = w /\ exists lf, cur_of ft w = Some lf /\ a = fid lf.
Proof.
  unfold cur_fid. intros H. minv H.
  destruct (cur_of ft w) as [lf|] eqn:Hc; [|apply lift_inv in H as [? _]; discriminate].
  apply mret_inv in H as [-> ->]. split; [done|]. now exists lf.
Qed.

Lemma writeEntry_skipped r e w :
  skipVlog e = true ->
  writeEntry r e w =
    (w, Ok (mkReqState (r_Entries r ++ [e]) (r_Ptrs r ++ [zeroVP]) (r_head r)
              (r_vlogWritten r) (r_walWritten r))).
Proof. intros Hs. unfold writeEntry. now rewrite Hs. Qed.

(** What a run of the loop body on an entry that does not skip the logs
    went through. *)
Lemma writeEntry_inv r e w w' r' :
  writeEntry r e w = (w', Ok r') -> skipVlog e = false ->
  exists lfw l bw wB,
    curWALF w = Some lfw /\
    encodeEntry lfw e (wbuf w) (wOffset w) = (bw, Ok l) /\
    (wB = set_buf walFile bw w \/
     flushBufToFile walFile (set_buf walFile bw w) = (wB, Ok tt)) /\
    r_head r' = {| Fid := fid lfw; Offset := wOffset w; Len := wrap32 l |} /\
    r_Entries r' = r_Entries r ++ [e] /\
    ((shouldWriteValueToLSM e = true /\ w' = wB /\
      r_Ptrs r' = r_Ptrs r ++ [zeroVP])
     \/
     (shouldWriteValueToLSM e = false /\
      exists wC lfv pl bv,
        (wC = wB \/
         exists lf vl', createLogFile 0 vlogFile (w_vl wB) = (vl', Ok lf) /\
                        wC = set_cur vlogFile (Some lf) (set_vl vl' wB)) /\
        curVlogF wC = Some lfv /\
        encodeEntry lfv (set_meta e (clear_txn_bits (meta e))) (vbuf wC) (pOffset wC)
          = (bv, Ok pl) /\
        (w' = set_buf vlogFile bv wC \/
         flushBufToFile vlogFile (set_buf vlogFile bv wC) = (w', Ok tt)) /\
        r_Ptrs r' = r_Ptrs r ++
          [{| Fid := fid lfv; Offset := pOffset wC; Len := wrap32 pl |}])).
Proof.
  intros H Hs. unfold writeEntry in H. rewrite Hs in H.
  minv H as w0 s0 H0.
  minv H as l wA Henc.
  apply encode_into_inv in Henc as (lfw & bw & Hcw & Hew & ->).
  minv H as wfid s1 Hfid. apply cur_fid_inv in Hfid as (-> & lfw' & Hcw' & ->).
  assert (lfw' = lfw) as -> by (simpl in Hcw'; simpl in Hcw; congruence).
  minv H as w1 s2 H2.
  minv H as u1 s3 Hassert.
  minv H as u2 wB Hflush.
  exists lfw, l, bw, wB. split; [exact Hcw|]. split; [exact Hew|].
  assert (HB : wB = set_buf walFile bw w \/
               flushBufToFile walFile (set_buf walFile bw w) = (wB, Ok tt)).
  { destruct (ValueLogFileSize _ <? _).
    - right. destruct u2. exact Hflush.
    - left. now apply mret_inv in Hflush as [-> _]. }
  split; [exact HB|]. clear Hflush HB Hassert.
  destruct (shouldWriteValueToLSM e) eqn:Hl.
  - apply mret_inv in H as [<- ->]. simpl. split; [done|]. split; [done|].
    left. repeat split.
  - minv H as w2 s4 H4.
    minv H as u3 wC Hcreate.
    assert (HC : wC = wB \/
         exists lf vl', createLogFile 0 vlogFile (w_vl wB) = (vl', Ok lf) /\
                        wC = set_cur vlogFile (Some lf) (set_vl vl' wB)).
    { destruct (bool_decide _).
      - minv Hcreate as lf s5 Hcr. apply wrap_err_inv in Hcr.
        apply on_vl_inv in Hcr as (vl' & Hcr & ->).
        apply modify_st_inv in Hcreate as ->. right; eauto.
      - apply mret_inv in Hcreate as [-> _]. now left. }
    clear Hcreate.
    minv H as pfid s6 Hpfid. apply cur_fid_inv in Hpfid as (-> & lfv & Hcv & ->).
    minv H as w3 s7 H7.
    minv H as pl wD Henc2.
    apply encode_into_inv in Henc2 as (lfv' & bv & Hcv' & Hev & ->).
    assert (lfv' = lfv) as -> by congruence.
    minv H as w4 s8 H8.
    minv H as u4 wE Hflush2.
    apply mret_inv in H as [<- ->]. simpl. rewrite set_meta_restore.
    split; [done|]. split; [done|]. right. split; [done|].
    exists wC, lfv, pl, bv. split; [exact HC|]. split; [exact Hcv|].
    split; [exact Hev|]. split; [|reflexivity].
    destruct (ValueLogFileSize _ <? _).
    + right. destruct u4. exact Hflush2.
    + left. now apply mret_inv in Hflush2 as [-> _].
Qed.



Lemma writeEntries_app r es1 es2 w w' r' :
  writeEntries r (es1 ++ es2) w = (w', Ok r') ->
  exists w1 r1, writeEntries r es1 w = (w1, Ok r1) /\
                writeEntries r1 es2 w1 = (w', Ok r').
Proof.
  revert r w. induction es1 as [|e es1 IH]; intros r w H.
  - exists w, r. split; [reflexivity|exact H].
  - cbn [app writeEntries] in H. minv H as r0 w0 He.
    destruct (IH _ _ H) as (w1 & r1 & H1 & H2).
    exists w1, r1. split; [|exact H2].
    cbn [writeEntries]. unfold mbind, M_bind. now rewrite He.
Qed.

Lemma writeEntries_skipped r es w w' r' :
  Forall (fun e => skipVlog e = true) es ->
  writeEntries r es w = (w', Ok r') -> r_head r' = r_head r /\ w' = w.
Proof.
  intros Hall. revert r w w' r'.
  induction Hall as [|e es He Hes IH]; intros r w w' r' H.
  - cbn [writeEntries] in H. apply mret_inv in H as [-> ->]. now split.
  - cbn [writeEntries] in H. minv H as r0 w0 H0.
    rewrite writeEntry_skipped in H0 by exact He. injection H0 as <- <-.
    destruct (IH _ _ _ _ H) as [-> ->]. now split.
Qed.

Lemma writeEntry_head r e w w' r' :
  writeEntry r e w = (w', Ok r') -> skipVlog e = false ->
  wal_pointer w e = Some (r_head r').
Proof.
  intros H Hs.
  destruct (writeEntry_inv _ _ _ _ _ H Hs) as (lfw & l & bw & wB & Hcw & Hew & _ & Hh & _).
  unfold wal_pointer. simpl in Hcw. rewrite Hcw, Hew. simpl. now rewrite Hh.
Qed.

(** The head a run of the loop leaves is the WAL pointer of the last entry
    that did not skip the logs. *)
Lemma writeEntries_head r es1 e es2 w w' r' :
  writeEntries r (es1 ++ e :: es2) w = (w', Ok r') ->
  skipVlog e = false -> Forall (fun x => skipVlog x = true) es2 ->
  exists w1 r1, writeEntries r es1 w = (w1, Ok r1) /\
                wal_pointer w1 e = Some (r_head r').
Proof.
  intros H Hs Hrest.
  destruct (writeEntries_app _ _ _ _ _ _ H) as (w1 & r1 & H1 & H2).
  exists w1, r1. split; [exact H1|].
  cbn [writeEntries] in H2. minv H2 as r2 w2 He.
  destruct (writeEntries_skipped _ _ _ _ _ Hrest H2) as [-> _].
  exact (writeEntry_head _ _ _ _ _ He Hs).
Qed.

Lemma writeRequest_inv b w w' b' :
  writeRequest b w = (w', Ok b') ->
  exists w1 r, writeEntries (mkReqState [] [] (head b) 0 0) (Entries b) w = (w1, Ok r) /\
               b' = mkRequest (r_Entries r) (r_Ptrs r) (r_head r).
Proof.
  unfold writeRequest. intros H.
  minv H as r w1 Hes. exists w1, r. split; [exact Hes|].
  minv H as u1 s1 H1. minv H as u2 s2 H2. minv H as w2 s3 H3.
  minv H as u3 s4 H4. now apply mret_inv in H as [_ ->].
Qed.

(** The entries of a request come back as they went in. *)
Lemma writeEntry_entries r e w w' r' :
  writeEntry r e w = (w', Ok r') -> r_Entries r' = r_Entries r ++ [e].
Proof.
  intros H. destruct (skipVlog e) eqn:Hs.
  - rewrite writeEntry_skipped in H by exact Hs. now injection H as _ <-.
  - now destruct (writeEntry_inv _ _ _ _ _ H Hs) as (? & ? & ? & ? & _ & _ & _ & _ & He & _).
Qed.

(** The pointer reported for an entry of a validated batch. *)
Lemma writeEntry_ptr r e w w' r' :
  writeEntry r e w = (w', Ok r') ->
  maxHeaderSize + len (Key e) + len (Value e) + crc32_Size <= MaxUint32 ->
  exists p, r_Ptrs r' = r_Ptrs r ++ [p] /\ pointer_for e p.
Proof.
  intros H Hb. destruct (skipVlog e) eqn:Hs.
  - rewrite writeEntry_skipped in H by exact Hs. injection H as _ <-.
    exists zeroVP. split; [reflexivity|]. left. now rewrite Hs.
  - destruct (writeEntry_inv _ _ _ _ _ H Hs)
      as (lfw & l & bw & wB & _ & _ & _ & _ & _ & [(Hl & _ & Hp)|(Hl & Hv)]).
    + exists zeroVP. split; [exact Hp|]. left. rewrite Hs, Hl. now split.
    + destruct Hv as (wC & lfv & pl & bv & _ & _ & Hev & _ & Hp).
      eexists. split; [exact Hp|]. right. rewrite Hs, Hl. split; [reflexivity|].
      destruct (encodeEntry_inv _ _ _ _ _ _ Hev) as (Hsz & -> & _).
      cbn [Len]. unfold vlog_record_len, crc32_Size, MaxUint32 in *.
      change (Key (set_meta e (clear_txn_bits (meta e)))) with (Key e) in *.
      change (Value (set_meta e (clear_txn_bits (meta e)))) with (Value e) in *.
      pose proof (len_nonneg (header_Encode
                    (entry_header (set_meta e (clear_txn_bits (meta e)))))).
      pose proof (len_nonneg (Key e)). pose proof (len_nonneg (Value e)).
      apply wrap32_small. lia.
Qed.

Lemma writeEntries_ptrs r es w w' r' :
  Forall (fun e => maxHeaderSize + len (Key e) + len (Value e) + crc32_Size <= MaxUint32) es ->
  writeEntries r es w = (w', Ok r') ->
  exists ps, r_Ptrs r' = r_Ptrs r ++ ps /\ Forall2 pointer_for es ps.
Proof.
  intros Hall. revert r w w' r'.
  induction Hall as [|e es Hb Hes IH]; intros r w w' r' H.
  - cbn [writeEntries] in H. apply mret_inv in H as [_ ->].
    exists []. split; [now rewrite app_nil_r|constructor].
  - cbn [writeEntries] in H. minv H as r0 w0 He.
    destruct (writeEntry_ptr _ _ _ _ _ He Hb) as (p & Hp & Hfor).
    destruct (IH _ _ _ _ H) as (ps & Hps & Hall2).
    exists (p :: ps). split; [|now constructor].
    rewrite Hps, Hp. now rewrite <- app_assoc.
Qed.

Lemma writeRequests_ptrs reqs w w' reqs' :
  Forall (fun req => Forall (fun e =>
    maxHeaderSize + len (Key e) + len (Value e) + crc32_Size <= MaxUint32) (Entries req)) reqs ->
  writeRequests reqs w = (w', Ok reqs') ->
  Forall2 (fun b b' => Forall2 pointer_for (Entries b) (Ptrs b')) reqs reqs'.
Proof.
  intros Hall. revert w w' reqs'.
  induction Hall as [|b reqs Hb Hreqs IH]; intros w w' reqs' H.
  - cbn [writeRequests] in H. apply mret_inv in H as [_ ->]. constructor.
  - cbn [writeRequests] in H. minv H as b' w1 Hreq. minv H as rest' w2 Hrest.
    apply mret_inv in H as [_ ->]. constructor; [|exact (IH _ _ _ Hrest)].
    destruct (writeRequest_inv _ _ _ _ Hreq) as (w0 & r & Hes & ->).
    destruct (writeEntries_ptrs _ _ _ _ _ Hb Hes) as (ps & Hps & Hall2).
    cbn [Ptrs]. rewrite Hps. exact Hall2.
Qed.

Lemma write_inv reqs vl vl' reqs' :
  InMemory (opt vl) = false -> write reqs vl = (vl', Ok reqs') ->
  validateWrites vl reqs = Ok tt /\
  exists w0 w1, w_vl w0 = vl /\ writeRequests reqs w0 = (w1, Ok reqs').
Proof.
  intros Hm H. unfold write in H. rewrite Hm in H.
  destruct (validateWrites vl reqs) as [[]|e0|] eqn:Hv; try (injection H; discriminate).
  split; [reflexivity|].
  set (w0 := mkWriter vl [] [] _ _) in H.
  destruct ((writeRequests reqs ≫= _) w0) as [w2 r] eqn:Hrun.
  injection H as <- ->.
  minv Hrun as reqs1 w1 Hreqs. minv Hrun as u w3 Hdisk.
  apply mret_inv in Hrun as [_ ->]. now exists w0, w1.
Qed.

End WriterFacts.

(** ** The two logs as streams of records *)

Section StreamFacts.
Context `{E : Externals} `{D : DBInterface}.

Lemma fd_update_inv lf f vl vl' u :
  fd_update lf f vl = (vl', Ok u) ->
  exists c, disk vl !! fkey lf = Some c /\
            vl' = set_disk (<[fkey lf := f c]> (disk vl)) vl.
Proof.
  unfold fd_update. destruct (disk vl !! fkey lf) as [c|]; [|discriminate].
  intros H. injection H as <-. now exists c.
Qed.

Lemma disk_store_lf lf vl : disk (store_lf lf vl) = disk vl.
Proof. unfold store_lf, set_lw. now destruct (lf_fileType lf). Qed.

Lemma disk_set_lw ft lw vl : disk (set_lw ft lw vl) = disk vl.
Proof. now destruct ft. Qed.

Lemma bootstrap_frame lf vl vl' lf' :
  bootstrap lf vl = (vl', Ok lf') ->
  fkey lf' = fkey lf /\
  forall k, k <> fkey lf -> disk vl' !! k = disk vl !! k.
Proof.
  unfold bootstrap. intros H.
  minv H as u1 s1 H1. apply fd_update_inv in H1 as (c & Hc & ->).
  minv H as dk s2 H2. apply wrap_err_inv in H2. apply lift_inv in H2 as [H2 ->].
  minv H as vl0 s3 H3. minv H as u2 s4 H4. minv H as u3 s5 H5.
  minv H as u4 s6 H6. apply fd_update_inv in H6 as (c' & Hc' & ->).
  apply mret_inv in H as [-> ->]. split; [reflexivity|].
  intros k Hk. cbn [disk set_disk].
  rewrite lookup_insert_ne by (unfold fkey in *; simpl in *; congruence).
  rewrite disk_store_lf. cbn [disk set_ivDrawn set_disk].
  now rewrite lookup_insert_ne by congruence.
Qed.

Lemma fkey_lf_mmap sz lf : fkey (lf_mmap sz lf) = fkey lf.
Proof. unfold lf_mmap. repeat case_match; reflexivity. Qed.

Lemma disk_purgeOldFiles vl vl' u :
  purgeOldFiles vl = (vl', Ok u) -> disk vl' = disk vl.
Proof.
  unfold purgeOldFiles. destruct getPersistedHead; intros H; now injection H as <-.
Qed.

Lemma createLogFile_frame fid0 ft vl vl' lf' :
  createLogFile fid0 ft vl = (vl', Ok lf') ->
  fkey lf' = (ft, fid0) /\
  forall k, k <> (ft, fid0) -> disk vl' !! k = disk vl !! k.
Proof.
  unfold createLogFile. intros H. minv H as vl0 s0 H0. cbv zeta in H.
  match type of H with context [bootstrap ?l] => set (lf := l) in * end.
  change (fkey lf) with (ft, fid0) in *.
  destruct (disk vl !! (ft, fid0)) eqn:Hd; [discriminate|].
  minv H as u1 s1 H1.
  minv H as lf1 s2 Hboot.
  destruct (bootstrap lf _) as [s' [l|e0|]] eqn:Hb; try discriminate.
  injection Hboot as <- <-.
  destruct (bootstrap_frame _ _ _ _ Hb) as [Hkey Hframe].
  change (fkey lf) with (ft, fid0) in *.
  minv H as u2 s3 H3. minv H as s4 s5 H5. minv H as u3 s6 H6.
  minv H as u4 s7 H7. minv H as u5 s8 H8.
  apply mret_inv in H as [-> ->].
  apply disk_purgeOldFiles in H8. split.
  - rewrite fkey_lf_mmap. exact Hkey.
  - intros k Hk. rewrite H8, !disk_set_lw, Hframe by exact Hk.
    cbn [disk set_disk]. now rewrite lookup_insert_ne by congruence.
Qed.

Lemma flushBufToFile_inv ft w w' u :
  flushBufToFile ft w = (w', Ok u) ->
  (len (buf_of ft w) = 0 /\ w' = w) \/
  exists lf c wo vl',
    cur_of ft w = Some lf /\ disk (w_vl w) !! fkey lf = Some c /\
    disk vl' = <[fkey lf := c ++ buf_of ft w]> (disk (w_vl w)) /\
    w' = set_cur ft (Some (set_size wo lf)) (set_vl vl' (set_buf ft [] w)).
Proof.
  unfold flushBufToFile. intros H. minv H as w0 s0 H0.
  destruct (len (buf_of ft w) =? 0) eqn:Hlen.
  { apply mret_inv in H as [-> _]. left. split; [now apply Z.eqb_eq|reflexivity]. }
  destruct (cur_of ft w) as [lf|] eqn:Hc; [|apply lift_inv in H as [? _]; discriminate].
  right.
  minv H as u1 s1 H1. apply on_vl_inv in H1 as (vl1 & H1 & ->).
  apply fd_update_inv in H1 as (c & Hc' & ->).
  minv H as u2 s2 H2. minv H as w1 s3 H3. minv H as u3 s4 H4.
  minv H as u4 s5 H5. apply modify_st_inv in H as ->.
  eexists lf, c, _, _. split; [reflexivity|]. split; [exact Hc'|]. split.
  2:{ destruct ft; reflexivity. }
  rewrite disk_store_lf, disk_set_lw. destruct ft; reflexivity.
Qed.

Lemma stream_flush ft w w' u :
  flushBufToFile ft w = (w', Ok u) -> stream ft w' = stream ft w.
Proof.
  intros H. destruct (flushBufToFile_inv _ _ _ _ H) as [[_ ->]|(lf & c & wo & vl' & Hc & Hd & Hd' & ->)];
    [reflexivity|].
  unfold stream. rewrite Hc, Hd.
  destruct ft; cbn [cur_of set_cur buf_of set_buf set_vl w_vl wbuf vbuf curVlogF curWALF];
    change (fkey (set_size wo lf)) with (fkey lf).
  all: rewrite Hd', lookup_insert_eq; cbn [default buf_of]; now rewrite app_nil_r.
Qed.

Lemma stream_flush_other ft w w' u :
  flushBufToFile ft w = (w', Ok u) -> cur_typed w ->
  stream (other ft) w' = stream (other ft) w.
Proof.
  intros H Ht. destruct (flushBufToFile_inv _ _ _ _ H) as [[_ ->]|(lf & c & wo & vl' & Hc & Hd & Hd' & ->)];
    [reflexivity|].
  pose proof (Ht _ _ Hc) as Hty.
  unfold stream.
  destruct ft; cbn [other cur_of set_cur buf_of set_buf set_vl w_vl wbuf vbuf curWALF curVlogF].
  - destruct (curWALF w) as [lfo|] eqn:Hco; [|reflexivity].
    pose proof (Ht walFile lfo Hco) as Hto.
    rewrite Hd', lookup_insert_ne; [reflexivity|].
    unfold fkey. rewrite Hty, Hto. congruence.
  - destruct (curVlogF w) as [lfo|] eqn:Hco; [|reflexivity].
    pose proof (Ht vlogFile lfo Hco) as Hto.
    rewrite Hd', lookup_insert_ne; [reflexivity|].
    unfold fkey. rewrite Hty, Hto. congruence.
Qed.

Lemma cur_typed_flush ft w w' u :
  flushBufToFile ft w = (w', Ok u) -> cur_typed w -> cur_typed w'.
Proof.
  intros H Ht. destruct (flushBufToFile_inv _ _ _ _ H) as [[_ ->]|(lf & c & wo & vl' & Hc & Hd & Hd' & ->)];
    [exact Ht|].
  pose proof (Ht _ _ Hc) as Hty.
  intros ft' lf' Hc'. destruct ft, ft'; cbn in Hc'.
  - injection Hc' as <-. exact Hty.
  - apply (Ht walFile). exact Hc'.
  - apply (Ht vlogFile). exact Hc'.
  - injection Hc' as <-. exact Hty.
Qed.

Lemma cur_flush ft w w' u :
  flushBufToFile ft w = (w', Ok u) ->
  cur_of (other ft) w' = cur_of (other ft) w /\
  (forall lf, cur_of ft w = Some lf ->
     exists lf', cur_of ft w' = Some lf' /\ dataKey lf' = dataKey lf /\ baseIV lf' = baseIV lf).
Proof.
  intros H. destruct (flushBufToFile_inv _ _ _ _ H) as [[_ ->]|(lf & c & wo & vl' & Hc & Hd & Hd' & ->)].
  - split; [reflexivity|]. intros lf Hc. now exists lf.
  - split; [destruct ft; reflexivity|].
    intros lf0 Hc0. rewrite Hc in Hc0. injection Hc0 as <-.
    exists (set_size wo lf). split; [destruct ft; reflexivity|]. now split.
Qed.

(** The record depends on the file through its cipher only. *)
Lemma record_bytes_cipher lf lf' e off :
  dataKey lf' = dataKey lf -> baseIV lf' = baseIV lf ->
  record_bytes lf' e off = record_bytes lf e off.
Proof.
  intros Hk Hiv. unfold record_bytes, encodeEntry, encryptionEnabled, generateIV,
    dataKey_Data. now rewrite Hk, Hiv.
Qed.



Lemma stream_set_buf ft w x :
  stream ft (set_buf ft (buf_of ft w ++ x) w) = stream ft w ++ x.
Proof.
  unfold stream. destruct ft; cbn [cur_of set_buf buf_of curVlogF curWALF w_vl wbuf vbuf].
  - destruct (curVlogF w); [now rewrite app_assoc|reflexivity].
  - destruct (curWALF w); [now rewrite app_assoc|reflexivity].
Qed.

Lemma stream_set_buf_other ft w b :
  stream (other ft) (set_buf ft b w) = stream (other ft) w.
Proof. destruct ft; reflexivity. Qed.

Lemma cur_typed_set_buf ft b w : cur_typed w -> cur_typed (set_buf ft b w).
Proof. intros Ht ft' lf Hc. apply Ht. destruct ft, ft'; exact Hc. Qed.

(** The creation of the first vlog file leaves the WAL as it is. *)
Lemma stream_wal_create w vl' lf :
  createLogFile 0 vlogFile (w_vl w) = (vl', Ok lf) -> cur_typed w ->
  stream walFile (set_cur vlogFile (Some lf) (set_vl vl' w)) = stream walFile w /\
  cur_typed (set_cur vlogFile (Some lf) (set_vl vl' w)).
Proof.
  intros Hc Ht. destruct (createLogFile_frame _ _ _ _ _ Hc) as [Hkey Hframe]. split.
  - unfold stream. cbn [cur_of set_cur set_vl curWALF buf_of wbuf w_vl].
    destruct (curWALF w) as [lfw|] eqn:Hw; [|reflexivity].
    pose proof (Ht walFile lfw Hw) as Hty.
    rewrite Hframe; [reflexivity|]. unfold fkey. rewrite Hty. congruence.
  - intros ft lf' Hc'. destruct ft; cbn in Hc'.
    + injection Hc' as <-. unfold fkey in Hkey. congruence.
    + apply (Ht walFile). exact Hc'.
Qed.

(** A run of the loop body appends the record of the entry, meta byte as
    it is, to the WAL, and the record of the entry with the transaction
    bits cleared to the vlog. *)
Lemma writeEntry_streams r e w w' r' :
  writeEntry r e w = (w', Ok r') -> skipVlog e = false -> cur_typed w ->
  (exists lfw, curWALF w = Some lfw /\
     stream walFile w' = stream walFile w ++ record_bytes lfw e (wOffset w)) /\
  (shouldWriteValueToLSM e = false ->
   exists lfv pre off, curVlogF w' = Some lfv /\
     stream vlogFile w' =
       pre ++ record_bytes lfv (set_meta e (clear_txn_bits (meta e))) off).
Proof.
  intros H Hs Ht.
  destruct (writeEntry_inv _ _ _ _ _ H Hs)
    as (lfw & l & bw & wB & Hcw & Hew & HB & _ & _ & Hrest).
  destruct (record_bytes_of_encode _ _ _ _ _ _ Hew) as [-> _].
  set (wA := set_buf walFile (wbuf w ++ record_bytes lfw e (wOffset w)) w) in *.
  assert (HA : stream walFile wA = stream walFile w ++ record_bytes lfw e (wOffset w))
    by apply (stream_set_buf walFile).
  assert (HtA : cur_typed wA) by now apply cur_typed_set_buf.
  assert (HBs : stream walFile wB = stream walFile wA /\ cur_typed wB).
  { destruct HB as [->|HB]; [now split|]. split.
    - exact (stream_flush _ _ _ _ HB).
    - exact (cur_typed_flush _ _ _ _ HB HtA). }
  destruct HBs as [HBs HtB].
  destruct Hrest as [(Hl & -> & _)|(Hl & wC & lfv & pl & bv & HC & Hcv & Hev & HD & _)].
  - split; [|congruence]. exists lfw. split; [exact Hcw|]. now rewrite HBs, HA.
  - assert (HCs : stream walFile wC = stream walFile wB /\ cur_typed wC).
    { destruct HC as [->|(lf & vl' & Hcr & ->)]; [now split|].
      exact (stream_wal_create _ _ _ Hcr HtB). }
    destruct HCs as [HCs HtC].
    destruct (record_bytes_of_encode _ _ _ _ _ _ Hev) as [-> _].
    set (e1 := set_meta e (clear_txn_bits (meta e))) in *.
    set (wD := set_buf vlogFile (vbuf wC ++ record_bytes lfv e1 (pOffset wC)) wC) in *.
    assert (HtD : cur_typed wD) by now apply cur_typed_set_buf.
    assert (HDw : stream walFile wD = stream walFile wC)
      by apply (stream_set_buf_other vlogFile).
    assert (HDv : stream vlogFile wD = stream vlogFile wC ++ record_bytes lfv e1 (pOffset wC))
      by apply (stream_set_buf vlogFile).
    split.
    + exists lfw. split; [exact Hcw|].
      destruct HD as [->|HD].
      * now rewrite HDw, HCs, HBs, HA.
      * change walFile with (other vlogFile) at 1.
        rewrite (stream_flush_other vlogFile _ _ _ HD HtD).
        change (other vlogFile) with walFile. now rewrite HDw, HCs, HBs, HA.
    + intros _. destruct HD as [->|HD].
      * exists lfv, (stream vlogFile wC), (pOffset wC). split; [exact Hcv|exact HDv].
      * destruct (cur_flush _ _ _ _ HD) as [_ Hcur].
        destruct (Hcur lfv Hcv) as (lfv' & Hc' & Hk & Hiv).
        exists lfv', (stream vlogFile wC), (pOffset wC). split; [exact Hc'|].
        rewrite (stream_flush _ _ _ _ HD), HDv.
        now rewrite (record_bytes_cipher lfv lfv') by done.
Qed.

(** Clearing the two transaction bits leaves neither of them set. *)
Lemma clear_txn_bits_spec (m : byte) :
  Z.land (clear_txn_bits m) bitTxn = 0 /\ Z.land (clear_txn_bits m) bitFinTxn = 0.
Proof.
  unfold clear_txn_bits, bitTxn, bitFinTxn. split; apply Z.bits_inj'; intros n Hn;
    rewrite Z.land_spec, Z.ldiff_spec, Z.bits_0.
  - change 64 with (2 ^ 6). rewrite Z.pow2_bits_eqb by lia.
    destruct (Z.eqb_spec 6 n) as [<-|]; [|now rewrite andb_false_r].
    change (Z.testbit (Z.lor (2 ^ 6) 128) 6) with true. now rewrite andb_false_r.
  - change 128 with (2 ^ 7) at 2. rewrite Z.pow2_bits_eqb by lia.
    destruct (Z.eqb_spec 7 n) as [<-|]; [|now rewrite andb_false_r].
    change (Z.testbit (Z.lor 64 128) 7) with true. now rewrite andb_false_r.
Qed.

(** A record starts with its encoded header. *)
Lemma record_bytes_header lf e off :
  len (header_Encode (entry_header e)) <= maxHeaderSize ->
  exists tail, record_bytes lf e off = header_Encode (entry_header e) ++ tail.
Proof.
  intros Hsz. unfold record_bytes, encodeEntry.
  apply Z.ltb_ge in Hsz. rewrite Hsz.
  match goal with |- context [match ?b with _ => _ end] => destruct b as [kv|err|] end;
    cbn [fst app].
  - eexists. now rewrite <- app_assoc.
  - exists []. now rewrite app_nil_r.
  - exists []. now rewrite app_nil_r.
Qed.

(** The bits other than the two transaction bits stay as they are. *)
Lemma clear_txn_bits_others (m : byte) (n : Z) :
  n <> 6 -> n <> 7 -> Z.testbit (clear_txn_bits m) n = Z.testbit m n.
Proof.
  intros H6 H7. unfold clear_txn_bits, bitTxn, bitFinTxn.
  rewrite Z.ldiff_spec, Z.lor_spec.
  destruct (Z.ltb_spec n 0) as [Hn|Hn]; [now rewrite !Z.testbit_neg_r by lia|].
  change 64 with (2 ^ 6). change 128 with (2 ^ 7).
  rewrite !Z.pow2_bits_eqb by lia.
  destruct (Z.eqb_spec 6 n); [lia|]. destruct (Z.eqb_spec 7 n); [lia|].
  apply andb_true_r.
Qed.

Lemma clear_txn_bits_byte (m : byte) : is_byte m -> is_byte (clear_txn_bits m).
Proof.
  unfold is_byte. intros Hm. split.
  - apply Z.ldiff_nonneg. lia.
  - assert (Hall : forallb (fun k => clear_txn_bits (Z.of_nat k) <? 256) (seq 0 256) = true)
      by (vm_compute; reflexivity).
    rewrite forallb_forall in Hall.
    specialize (Hall (Z.to_nat m)). rewrite Z2Nat.id in Hall by lia.
    apply Z.ltb_lt, Hall, in_seq. lia.
Qed.

End StreamFacts.

(** ** The loop of [iterate] over whole records *)

Section ReplayFacts.
Context `{E : Externals} `{D : DBInterface} {laws : HeaderCodecLaws E}.
Context {St : Type}.

Lemma rec_len_pos (e : Entry) : 4 <= rec_len e.
Proof.
  unfold rec_len, crc32_Size.
  pose proof (len_nonneg (header_Encode (entry_header e))).
  pose proof (len_nonneg (Key e)). pose proof (len_nonneg (Value e)). lia.
Qed.

Lemma total_len_nonneg (es : list Entry) : 0 <= total_len es.
Proof.
  induction es as [|e es IH]; cbn [total_len]; [lia|].
  pose proof (rec_len_pos e). lia.
Qed.

Lemma total_len_app (es1 es2 : list Entry) :
  total_len (es1 ++ es2) = total_len es1 + total_len es2.
Proof.
  induction es1 as [|e es IH]; cbn [total_len foldr app]; [lia|].
  lia.
Qed.

Lemma total_len_count (es : list Entry) : len es <= total_len es.
Proof.
  induction es as [|e es IH]; cbn [total_len]; [unfold len; simpl; lia|].
  pose proof (rec_len_pos e).
  unfold len in *. cbn [length]. lia.
Qed.

Lemma len_record_bytes lf e off :
  wf_entry e -> cipher_ready lf off -> len (record_bytes lf e off) = rec_len e.
Proof.
  intros Hwf Hc.
  pose proof (encodeEntry_ready lf e [] off Hwf Hc) as Hr.
  destruct (record_bytes_of_encode _ _ _ _ _ _ Hr) as [_ Hl].
  rewrite Hl. unfold rec_len, crc32_Size. reflexivity.
Qed.

Lemma records_app lf off es1 es2 :
  records lf off (es1 ++ es2) =
  records lf off es1 ++ records lf (off + total_len es1) es2.
Proof.
  revert off. induction es1 as [|e es IH]; intros off; cbn [records app total_len].
  - now rewrite Z.add_0_r.
  - rewrite IH, <- app_assoc. do 3 f_equal. lia.
Qed.

Lemma len_records lf off es :
  Forall readable es -> (forall o, cipher_ready lf o) ->
  len (records lf off es) = total_len es.
Proof.
  intros Hr Hc. revert off. induction Hr as [|e es [Hwf _] _ IH]; intros off;
    cbn [records total_len]; [reflexivity|].
  rewrite len_app, IH, len_record_bytes by done. reflexivity.
Qed.

Lemma deliveries_app lf off es1 es2 :
  deliveries lf off (es1 ++ es2) =
  deliveries lf off es1 ++ deliveries lf (off + total_len es1) es2.
Proof.
  revert off. induction es1 as [|e es IH]; intros off; cbn [deliveries app total_len].
  - now rewrite Z.add_0_r.
  - rewrite IH. do 3 f_equal. lia.
Qed.

Lemma run_handler_app (fn : @logEntry St) ds1 ds2 s :
  run_handler fn (ds1 ++ ds2) s = run_handler fn ds2 (run_handler fn ds1 s).
Proof. apply fold_left_app. Qed.

Lemma run_handler_cons (fn : @logEntry St) d ds s :
  run_handler fn (d :: ds) s = run_handler fn ds (run_handler fn [d] s).
Proof. reflexivity. Qed.

(** One turn of the loop of [iterate] over a whole record. *)
Lemma iterate_loop_record fuel lf (fn : @logEntry St) e rest off lc veo s :
  readable e -> cipher_ready lf off ->
  0 <= off -> off + rec_len e < 4294967296 ->
  iterate_loop (S fuel) lf fn (record_bytes lf e off ++ rest) off lc veo s =
    let off' := off + rec_len e in
    let vp := {| Fid := fid lf; Offset := off; Len := rec_len e |} in
    let sw : option (Z * Z) :=
      if is_txn e then
        let lc1 := if lc =? 0 then ParseTs (Key e) else lc in
        if negb (lc1 =? ParseTs (Key e)) then None else Some (lc1, veo)
      else if 0 <? Z.land (meta e) bitFinTxn then
        match ParseUint (Value e) with
        | None => None
        | Some txnTs => if negb (lc =? txnTs) then None else Some (0, off')
        end
      else if negb (lc =? 0) then None else Some (lc, off')
    in
    match sw with
    | None => Some (s, Ok veo)
    | Some (lc', veo') =>
        match fn (read_back e off) vp s with
        | (s', Ok _) => iterate_loop fuel lf fn rest off' lc' veo' s'
        | (s', Err errStop) => Some (s', Ok veo')
        | (s', Err err) => Some (s', Err (ErrWrapped err))
        | (s', Panic) => Some (s', Panic)
        end
    end.
Proof.
  intros [Hwf Hk] Hc Hoff Hb.
  pose proof (len_nonneg (header_Encode (entry_header e))) as Hh.
  pose proof (len_nonneg (Key e)) as Hk0. pose proof (len_nonneg (Value e)) as Hv0.
  assert (Hrl : rec_len e = len (header_Encode (entry_header e)) + len (Key e) + len (Value e) + 4)
    by reflexivity.
  cbn [iterate_loop].
  rewrite safeRead_Entry_read_back by (try done; lia).
  cbn [read_back hlen Key Value meta offset].
  fold (rec_len e).
  rewrite (wrap32_small (rec_len e)) by lia.
  rewrite (wrap32_small (off + rec_len e)) by lia.
  reflexivity.
Qed.


Variable lf : logFile.
Variable fn : @logEntry St.
Hypothesis cipher : forall o, cipher_ready lf o.
Hypothesis fn_ok : forall e vp s, (fn e vp s).2 = Ok tt.

Lemma fn_run e vp s : fn e vp s = (run_handler fn [(e, vp)] s, Ok tt).
Proof.
  cbn [run_handler fold_left fst snd]. pose proof (fn_ok e vp s) as H.
  destruct (fn e vp s) as [s' r]. cbn in *. now subst.
Qed.

(** The loop over the entries of one transaction: every one of them goes
    to the handler, the valid end offset stays where it was. *)
Lemma iterate_loop_txn t es : forall fuel rest off lc veo s,
  txn_entries t es -> Forall readable es ->
  0 <= off -> off + total_len es < 4294967296 ->
  lc = 0 \/ lc = t ->
  iterate_loop (length es + fuel) lf fn (records lf off es ++ rest) off lc veo s =
  iterate_loop fuel lf fn rest (off + total_len es)
    (match es with [] => lc | _ => t end) veo
    (run_handler fn (deliveries lf off es) s).
Proof.
  induction es as [|e es' IH]; intros fuel rest off lc veo s Ht Hr Hoff Hb Hlc.
  - cbn [length records total_len deliveries run_handler fold_left app Nat.add].
    now rewrite Z.add_0_r.
  - apply Forall_cons in Ht as [[Htxn Hts] Ht]. apply Forall_cons in Hr as [Hre Hr].
    cbn [total_len] in Hb. pose proof (rec_len_pos e). pose proof (total_len_nonneg es').
    cbn [length records total_len deliveries Nat.add]. rewrite <- app_assoc.
    rewrite iterate_loop_record by (try done; lia).
    cbv zeta. rewrite Htxn, Hts.
    assert (Hl : (if lc =? 0 then t else lc) = t)
      by (destruct (Z.eqb_spec lc 0); lia).
    rewrite Hl, Z.eqb_refl. cbn [negb]. rewrite fn_run.
    rewrite IH by (try done; try lia; now right).
    rewrite run_handler_cons, Z.add_assoc. now destruct es'.
Qed.

(** The loop over committed writes: every entry goes to the handler and
    the valid end offset ends up behind the last of them. *)
Lemma iterate_loop_committed cs : committed cs -> forall fuel rest off veo s,
  Forall readable cs ->
  0 <= off -> off + total_len cs < 4294967296 ->
  iterate_loop (length cs + fuel) lf fn (records lf off cs ++ rest) off 0 veo s =
  iterate_loop fuel lf fn rest (off + total_len cs) 0
    (match cs with [] => veo | _ => off + total_len cs end)
    (run_handler fn (deliveries lf off cs) s).
Proof.
  induction 1 as [|e cs' Hp Hc IH|t es fin cs' Hne Ht Hf Hts Hc IH];
    intros fuel rest off veo s Hr Hoff Hb.
  - cbn [length records total_len deliveries run_handler fold_left app Nat.add].
    now rewrite Z.add_0_r.
  - apply Forall_cons in Hr as [Hre Hr].
    cbn [total_len] in Hb. pose proof (rec_len_pos e). pose proof (total_len_nonneg cs').
    cbn [length records total_len deliveries Nat.add]. rewrite <- app_assoc.
    rewrite iterate_loop_record by (try done; lia).
    cbv zeta. unfold is_plain in Hp. apply andb_true_iff in Hp as [Hp1 Hp2].
    apply negb_true_iff in Hp1, Hp2. rewrite Hp1, Hp2. cbn [Z.eqb negb]. rewrite fn_run.
    rewrite IH by (try done; lia).
    rewrite run_handler_cons, Z.add_assoc. destruct cs'; [|reflexivity].
    cbn [total_len]. now rewrite !Z.add_0_r.
  - apply Forall_app in Hr as [Hres Hr]. apply Forall_cons in Hr as [Hrf Hr].
    rewrite total_len_app in Hb. cbn [total_len] in Hb.
    pose proof (rec_len_pos fin). pose proof (total_len_nonneg cs').
    pose proof (total_len_nonneg es).
    rewrite records_app, deliveries_app, run_handler_app, <- app_assoc.
    rewrite length_app, <- Nat.add_assoc.
    rewrite (iterate_loop_txn t) by (try done; try lia; now left).
    cbn [length records deliveries Nat.add]. rewrite <- app_assoc.
    rewrite iterate_loop_record by (try done; lia).
    cbv zeta. unfold is_fin in Hf. apply andb_true_iff in Hf as [Hf1 Hf2].
    apply negb_true_iff in Hf1. rewrite Hf1, Hf2, Hts.
    replace (match es with [] => 0 | _ => t end) with t by now destruct es.
    rewrite Z.eqb_refl. cbn [negb]. rewrite fn_run.
    rewrite IH by (try done; lia).
    rewrite run_handler_cons, total_len_app. cbn [total_len].
    replace (off + total_len es + rec_len fin + total_len cs')
      with (off + (total_len es + (rec_len fin + total_len cs'))) by lia.
    destruct cs'.
    + destruct es; [done|]. cbn [app total_len]. f_equal. cbn [total_len]. lia.
    + destruct es; [done|]. reflexivity.
Qed.

(** The reader at the end of the file. *)
Lemma iterate_loop_eof fuel off lc veo s :
  iterate_loop (S fuel) lf fn [] off lc veo s = Some (s, Ok veo).
Proof.
  cbn [iterate_loop]. unfold safeRead_Entry. now rewrite DecodeFrom_nil.
Qed.

End ReplayFacts.

(** ** Claims about the record codec *)

(** C1 (amended).  For every entry whose key is at most 2^16 bytes, whose
    value is at most 2^32 - 1 bytes and whose key and value lengths add up
    to less than 2^32, and for every offset: [encodeEntry] succeeds, and
    decoding its bytes at the same offset, by [decodeEntry] or by
    [safeRead.Entry], yields an entry with the same key, value, meta,
    user meta and expiry; without a data key and with one (same key, base
    IV and offset on both sides). *)
Theorem encode_decode_roundtrip `{E : Externals} (laws : HeaderCodecLaws E)
    (lf : logFile) (e : Entry) (off : Z) :
  wf_entry e -> cipher_ready lf off ->
  len (Key e) <= 65536 -> len (Value e) <= 4294967295 ->
  len (Key e) + len (Value e) < 4294967296 ->
  exists l d1 d2,
    encodeEntry lf e [] off = (record_bytes lf e off, Ok l) /\
    decodeEntry lf (record_bytes lf e off) off = Ok d1 /\ same_record d1 e /\
    safeRead_Entry lf off (record_bytes lf e off) = Ok (d2, []) /\ same_record d2 e.
Proof.
  intros Hwf Hc Hk Hv Hsum.
  destruct (decodeEntry_record lf e off Hwf Hc Hsum) as (d1 & Hd1 & Hs1).
  destruct (safeRead_Entry_record lf e off [] Hwf Hc Hk Hsum) as (d2 & Hd2 & Hs2 & _).
  rewrite app_nil_r in Hd2.
  exists (len (header_Encode (entry_header e)) + len (Key e) + len (Value e) + 4), d1, d2.
  split; [|tauto].
  unfold record_bytes. rewrite encodeEntry_ready by done. reflexivity.
Qed.

Lemma encode_decode_roundtrip_witness :
  exists l d1 d2,
    @encodeEntry concreteExt Ex.lf_enc Ex.e_hello [] 20
      = (@record_bytes concreteExt Ex.lf_enc Ex.e_hello 20, Ok l) /\
    @decodeEntry concreteExt Ex.lf_enc (@record_bytes concreteExt Ex.lf_enc Ex.e_hello 20) 20
      = Ok d1 /\ same_record d1 Ex.e_hello /\
    @safeRead_Entry concreteExt Ex.lf_enc 20 (@record_bytes concreteExt Ex.lf_enc Ex.e_hello 20)
      = Ok (d2, []) /\ same_record d2 Ex.e_hello.
Proof.
  apply (@encode_decode_roundtrip concreteExt InstanceFacts.concreteExt_laws
           Ex.lf_enc Ex.e_hello 20).
  - unfold wf_entry, is_byte; simpl; lia.
  - split; [vm_compute; discriminate | eexists; reflexivity].
  - vm_compute; discriminate.
  - vm_compute; discriminate.
  - vm_compute; reflexivity.
Defined.

(** C1 as stated fails: a one-byte key and a value of 2^32 - 1 bytes are
    within the stated sizes, yet [decodeEntry] panics on the encoded record,
    the 32-bit sum of the two lengths having wrapped to 0. *)
Lemma decode_wraps_on_4GiB_value :
  len (Key Ex.e_huge) <= 65536 /\ len (Value Ex.e_huge) <= 4294967295 /\
  @decodeEntry concreteExt Ex.lf_plain (@record_bytes concreteExt Ex.lf_plain Ex.e_huge 20) 20
    = Panic.
Proof.
  assert (Hv : len (Value Ex.e_huge) = 4294967295).
  { unfold Ex.e_huge, len. cbn [Value]. rewrite length_replicate. apply Z2Nat.id. lia. }
  assert (Hk : len (Key Ex.e_huge) = 1) by reflexivity.
  split; [rewrite Hk; lia|]. split; [rewrite Hv; lia|].
  apply (@decodeEntry_wraps concreteExt InstanceFacts.concreteExt_laws).
  - unfold wf_entry, is_byte. cbn [ExpiresAt meta UserMeta Ex.e_huge]. lia.
  - exact I.
  - rewrite Hk; lia.
  - rewrite Hv; lia.
  - rewrite Hk, Hv; lia.
Qed.

(** C3 (amended).  The four bytes [encodeEntry] stores after a record are
    the CRC-32C of the bytes it wrote before them, the header followed by
    the key and value as they go to disk ([ENC]: encrypted when the file has
    a data key).  On read with checksum verification on, [Read] recomputes the CRC
    over the bytes it fetched, all but the last four, and compares it with
    those four: on a mismatch it fails with the checksum error whatever
    the file's cipher is, and only on a match does it go on to decode the
    header and decrypt. *)
Theorem crc_covers_disk_bytes `{E : Externals} (laws : HeaderCodecLaws E) :
  (forall (lf : logFile) (e : Entry) (buf : list byte) (off : Z),
     wf_entry e -> cipher_ready lf off ->
     let written := header_Encode (entry_header e) ++ ENC lf off (Key e ++ Value e) in
     (encodeEntry lf e buf off).1 = buf ++ written ++ PutUint32 (Sum32 written))
  /\
  (forall (vl : valueLog) (vp : valuePointer) (raw : list byte) (lf : logFile),
     VerifyValueChecksum (opt vl) = true ->
     readValueBytes vl vp = Ok (raw, lf) ->
     4 <= len raw ->
     let body := take (Z.to_nat (len raw - 4)) raw in
     let stored := drop (Z.to_nat (len raw - 4)) raw in
     (BytesToU32 stored <> Some (Sum32 body) ->
      Read vl vp = Err (ErrWrapped ErrChecksumMismatch)) /\
     (BytesToU32 stored = Some (Sum32 body) ->
      Read vl vp =
        ('(h, headerLen) ← header_Decode raw;
         kv0 ← slice_from raw headerLen;
         kv ← (if encryptionEnabled lf then decryptKV lf kv0 (Offset vp) else Ok kv0);
         if wrap32 (len kv) <? wrap32 (klen h + vlen h) then Err ErrInvalidRead
         else slice kv (klen h) (wrap32 (klen h + vlen h))))).
Proof.
  split.
  - intros lf e buf off Hwf Hc written. subst written.
    rewrite encodeEntry_ready by done. simpl. now rewrite <- !app_assoc.
  - intros vl vp raw lf Hv Hr Hlen body stored. subst body stored. split.
    + intros Hne. now apply (Read_checksum_mismatch vl vp raw lf).
    + intros Heq. apply (Read_checksum_match vl vp raw lf); auto.
Qed.

Lemma crc_covers_disk_bytes_witness :
  (@encodeEntry concreteExt Ex.lf_enc Ex.e_hello [] 20).1 =
    (let written := @header_Encode concreteExt (entry_header Ex.e_hello)
                    ++ @ENC concreteExt Ex.lf_enc 20 (Key Ex.e_hello ++ Value Ex.e_hello) in
     [] ++ written ++ PutUint32 (@Sum32 concreteExt written)) /\
  @Read concreteExt EncEx.vl_corrupt EncEx.vp_k2 = Err (ErrWrapped ErrChecksumMismatch) /\
  @Read concreteExt EncEx.vl_written EncEx.vp_k2 = Ok (Value Scenario.k2).
Proof.
  destruct (@crc_covers_disk_bytes concreteExt InstanceFacts.concreteExt_laws) as [Henc Hread].
  split; [|split].
  - apply (Henc Ex.lf_enc Ex.e_hello [] 20).
    + unfold wf_entry, is_byte; simpl; lia.
    + split; [vm_compute; discriminate | eexists; reflexivity].
  - destruct (@readValueBytes EncEx.vl_corrupt EncEx.vp_k2) as [[raw lf]|e0|] eqn:Hr;
      [|vm_compute in Hr; discriminate Hr..].
    assert (Hraw : raw = (take 59 (drop 20 (default [] (disk EncEx.vl_corrupt !! (vlogFile, 0)))))).
    { vm_compute in Hr. injection Hr as <- _. vm_compute. reflexivity. }
    apply (Hread EncEx.vl_corrupt EncEx.vp_k2 raw lf).
    + reflexivity.
    + exact Hr.
    + rewrite Hraw. vm_compute. discriminate.
    + rewrite Hraw. vm_compute. discriminate.
  - vm_compute. reflexivity.
Defined.

(** C3 as stated fails when [VerifyValueChecksum] is off: one byte of the
    stored value is flipped, the checksum on disk no longer is the CRC of
    the bytes before it, and [Read] compares nothing and hands out the
    decrypted value with the damaged byte. *)
Lemma read_unverified_skips_crc :
  VerifyValueChecksum (opt EncEx.vl_unverified) = false /\
  match readValueBytes EncEx.vl_unverified EncEx.vp_k2 with
  | Ok (raw, _) => raw = EncEx.corrupt_body ++ EncEx.corrupt_stored
  | _ => False
  end /\
  BytesToU32 EncEx.corrupt_stored = Some 4190962885 /\
  @Sum32 concreteExt EncEx.corrupt_body = 853385917 /\
  @Read concreteExt EncEx.vl_unverified EncEx.vp_k2
    = Ok (<[5%nat := 122]> (Value Scenario.k2)).
Proof. split_and!; vm_compute; reflexivity. Qed.

(** ** Claims about garbage collection *)

(** C6.  [discardEntry e vs db] is true if and only if at least one of the
    following holds: the version of [vs] differs from the timestamp parsed
    from the key of [e]; [vs] is deleted or expired; the meta of [vs] has
    no value-pointer bit; it has the FIN_TXN bit; or the key of [e] carries
    the move prefix and the lookup of the key stripped of the prefix
    answers with version 0 (no live version). *)
Theorem discardEntry_iff `{E : Externals} `{D : DBInterface}
    (e : Entry) (vs : ValueStruct) (db : LSM) :
  discardEntry e vs db = true <->
    (vs_Version vs <> ParseTs (Key e)
     \/ isDeletedOrExpired (vs_Meta vs) (vs_ExpiresAt vs) = true
     \/ Z.land (vs_Meta vs) bitValuePointer = 0
     \/ 0 < Z.land (vs_Meta vs) bitFinTxn
     \/ (HasPrefix (Key e) badgerMove = true /\
         exists avs, db_get db (drop (length badgerMove) (Key e)) = Ok avs /\
                     vs_Version avs = 0)).
Proof.
  unfold discardEntry.
  destruct (vs_Version vs =? ParseTs (Key e)) eqn:Hv; simpl.
  2:{ apply Z.eqb_neq in Hv. split; [tauto|reflexivity]. }
  apply Z.eqb_eq in Hv.
  destruct (isDeletedOrExpired (vs_Meta vs) (vs_ExpiresAt vs)) eqn:Hd.
  { split; [tauto|reflexivity]. }
  destruct (Z.land (vs_Meta vs) bitValuePointer =? 0) eqn:Hp.
  { apply Z.eqb_eq in Hp. split; [tauto|reflexivity]. }
  apply Z.eqb_neq in Hp.
  destruct (0 <? Z.land (vs_Meta vs) bitFinTxn) eqn:Hf.
  { apply Z.ltb_lt in Hf. split; [tauto|reflexivity]. }
  apply Z.ltb_ge in Hf.
  destruct (HasPrefix (Key e) badgerMove) eqn:Hm.
  - destruct (db_get db (drop (length badgerMove) (Key e))) as [avs|err|] eqn:Hg.
    + split.
      * intros Ha. apply Z.eqb_eq in Ha. do 4 right. split; [reflexivity|].
        exists avs. split; [reflexivity|exact Ha].
      * intros [H|[H|[H|[H|(_ & avs' & Ha & Hz)]]]]; try congruence; try lia.
        injection Ha as <-. now apply Z.eqb_eq.
    + split; [discriminate|].
      intros [H|[H|[H|[H|(_ & avs' & Ha & _)]]]]; try congruence; lia.
    + split; [discriminate|].
      intros [H|[H|[H|[H|(_ & avs' & Ha & _)]]]]; try congruence; lia.
  - split; [discriminate|].
    intros [H|[H|[H|[H|(Hm' & _)]]]]; try congruence; lia.
Qed.

(** C8 fails on the code.  With vlog files 0 and 1, file 1 being the
    writable one (max fid), [pickLog] returns file 1: as the candidate when
    the discard statistics name it, and as the random pick when both draws
    come out as 1.  [rewrite] itself asserts [f.fid < maxFid] and panics on
    that file. *)
Lemma pickLog_returns_writable_file :
  size (filesMap (vlog (GCEx.vl_two {[1 := 10]} 0 []))) = 2%nat /\
  maxFid (vlog (GCEx.vl_two {[1 := 10]} 0 [])) = 1 /\
  pickLog (GCEx.vl_two {[1 := 10]} 0 []) 0 0 = [Some (GCEx.vfile 1); Some (GCEx.vfile 0)] /\
  pickLog (GCEx.vl_two ∅ 0 []) 1 1 = [Some (GCEx.vfile 1)] /\
  @valueLog_rewrite concreteExt TestDB.db (Some (GCEx.vfile 1)) [] (GCEx.vl_two ∅ 0 [])
    = Some ([], GCEx.vl_two ∅ 0 [], Panic).
Proof. split_and!; vm_compute; reflexivity. Qed.




(** ** Claims about the writer *)

(** C5 (amended).  Outside in-memory mode, [write] first runs [validateWrites], which
    on sizes that do not wrap 64 bits is the pre-validation of the spec:
    the worst-case record sizes are summed per request from the current WAL
    offset, the running offset restarts at 0 when it reaches the rotation
    threshold, and a request that pushes it beyond [u32::MAX] refuses the
    batch.  A refused batch fails with the size error and leaves the value
    log, and with it every file, as it was. *)
Theorem write_prevalidates `{E : Externals} `{D : DBInterface}
    (vl : valueLog) (reqs : list request) :
  InMemory (opt vl) = false ->
  0 <= maxHeaderSize ->
  0 <= writableOffset (wal vl) <= MaxUint32 ->
  0 <= ValueLogFileSize (opt vl) < 9223372036854775808 ->
  fits_uint64 reqs ->
  validateWrites vl reqs =
    (if prevalidation_accepts (ValueLogFileSize (opt vl)) (writableOffset (wal vl)) reqs
     then Ok tt else Err ErrSizeExceeded) /\
  (prevalidation_accepts (ValueLogFileSize (opt vl)) (writableOffset (wal vl)) reqs = false ->
   write reqs vl = (vl, Err ErrSizeExceeded)).
Proof.
  intros Hmem Hm Hoff Hfs Hfit.
  assert (Hv : validateWrites vl reqs =
    (if prevalidation_accepts (ValueLogFileSize (opt vl)) (writableOffset (wal vl)) reqs
     then Ok tt else Err ErrSizeExceeded)).
  { unfold validateWrites, lw_offset. now apply validateWrites_from_spec. }
  split; [exact Hv|].
  intros Hrej. rewrite Hrej in Hv. now apply write_refused.
Qed.

Lemma write_prevalidates_witness :
  @validateWrites concreteExt Scenario.vl_nearly_full [Scenario.req [Scenario.k1]] =
    (if @prevalidation_accepts concreteExt
          (ValueLogFileSize (opt Scenario.vl_nearly_full))
          (writableOffset (wal Scenario.vl_nearly_full)) [Scenario.req [Scenario.k1]]
     then Ok tt else Err ErrSizeExceeded) /\
  (@prevalidation_accepts concreteExt
      (ValueLogFileSize (opt Scenario.vl_nearly_full))
      (writableOffset (wal Scenario.vl_nearly_full)) [Scenario.req [Scenario.k1]] = false ->
   @write concreteExt TestDB.db [Scenario.req [Scenario.k1]] Scenario.vl_nearly_full
     = (Scenario.vl_nearly_full, Err ErrSizeExceeded)).
Proof.
  apply (@write_prevalidates concreteExt TestDB.db).
  - reflexivity.
  - vm_compute; discriminate.
  - split; vm_compute; discriminate.
  - split; vm_compute; [discriminate|reflexivity].
  - apply Forall_cons. split; [vm_compute; reflexivity|apply Forall_nil_2].
Defined.

(** The batch of the witness is indeed refused, and an accepted batch on
    the fresh log is written. *)
Example write_refused_nearly_full :
  @prevalidation_accepts concreteExt
      (ValueLogFileSize (opt Scenario.vl_nearly_full))
      (writableOffset (wal Scenario.vl_nearly_full)) [Scenario.req [Scenario.k1]] = false /\
  @prevalidation_accepts concreteExt
      (ValueLogFileSize (opt Scenario.vl_fresh))
      (writableOffset (wal Scenario.vl_fresh)) [Scenario.req [Scenario.k1]] = true.
Proof. split; vm_compute; reflexivity. Qed.

(** C5 as stated fails in in-memory mode: [write] returns at once, before
    the validation.  On the value log as [init] leaves it in that mode (no
    file, offset 0), a request with one entry of a one-byte key and a value
    of 2^32 - 1 bytes has a worst-case size beyond [u32::MAX], so that the
    pre-validation refuses the batch and [validateWrites] answers with the
    size error; yet [write] accepts the batch. *)
Lemma write_in_memory_not_validated :
  InMemory (opt Scenario.vl_in_memory) = true /\
  writableOffset (wal Scenario.vl_in_memory) = 0 /\
  filesMap (wal Scenario.vl_in_memory) = ∅ /\ disk Scenario.vl_in_memory = ∅ /\
  MaxUint32 < @worst_case_size concreteExt (Scenario.req [Ex.e_huge]) /\
  @prevalidation_accepts concreteExt
      (ValueLogFileSize (opt Scenario.vl_in_memory))
      (writableOffset (wal Scenario.vl_in_memory)) [Scenario.req [Ex.e_huge]] = false /\
  @validateWrites concreteExt Scenario.vl_in_memory [Scenario.req [Ex.e_huge]]
    = Err ErrSizeExceeded /\
  @write concreteExt TestDB.db [Scenario.req [Ex.e_huge]] Scenario.vl_in_memory
    = (Scenario.vl_in_memory, Ok [Scenario.req [Ex.e_huge]]).
Proof.
  assert (Hv : len (Value Ex.e_huge) = 4294967295).
  { unfold Ex.e_huge, len. cbn [Value]. rewrite length_replicate. apply Z2Nat.id. lia. }
  assert (Hk : len (Key Ex.e_huge) = 1) by reflexivity.
  assert (Hw : @worst_case_size concreteExt (Scenario.req [Ex.e_huge]) = 4294967322).
  { change (@worst_case_size concreteExt (Scenario.req [Ex.e_huge]))
      with (22 + len (Key Ex.e_huge) + len (Value Ex.e_huge) + 4 + 0).
    rewrite Hk, Hv. reflexivity. }
  assert (Hp : @prevalidation_accepts concreteExt
      (ValueLogFileSize (opt Scenario.vl_in_memory))
      (writableOffset (wal Scenario.vl_in_memory)) [Scenario.req [Ex.e_huge]] = false).
  { change (writableOffset (wal Scenario.vl_in_memory)) with 0.
    unfold prevalidation_accepts. rewrite Hw. reflexivity. }
  split; [reflexivity|]. split; [reflexivity|]. split; [reflexivity|].
  split; [reflexivity|]. split; [rewrite Hw; unfold MaxUint32; lia|].
  split; [exact Hp|]. split.
  - unfold validateWrites.
    rewrite (@validateWrites_from_spec concreteExt).
    + unfold lw_offset. now rewrite Hp.
    + discriminate.
    + unfold lw_offset.
      change (writableOffset (wal Scenario.vl_in_memory)) with 0. unfold MaxUint32. lia.
    + change (ValueLogFileSize (opt Scenario.vl_in_memory)) with 1048576. lia.
    + apply Forall_cons. split; [rewrite Hw; lia|apply Forall_nil_2].
  - reflexivity.
Qed.

(** C4 (amended).  For every request processed by [write], the request's
    head is the WAL pointer (fid, offset, length) of the last entry of the
    request that is not skipped: every entry that is written to the WAL
    overwrites the head, a skipped entry leaves it alone, and a request
    whose entries are all skipped keeps the head it came with. *)
Theorem head_is_last_wal_pointer `{E : Externals} `{D : DBInterface}
    (b b' : request) (w w' : writer) :
  writeRequest b w = (w', Ok b') ->
  (Forall (fun e => skipVlog e = true) (Entries b) -> head b' = head b) /\
  (forall es1 e es2,
     Entries b = es1 ++ e :: es2 -> skipVlog e = false ->
     Forall (fun x => skipVlog x = true) es2 ->
     exists w1 r1,
       writeEntries (mkReqState [] [] (head b) 0 0) es1 w = (w1, Ok r1) /\
       wal_pointer w1 e = Some (head b')).
Proof.
  intros H. destruct (writeRequest_inv _ _ _ _ H) as (w0 & r & Hes & ->). split.
  - intros Hall. now destruct (writeEntries_skipped _ _ _ _ _ Hall Hes) as [-> _].
  - intros es1 e es2 Heq Hs Hrest. rewrite Heq in Hes.
    exact (writeEntries_head _ _ _ _ _ _ _ Hes Hs Hrest).
Qed.

Lemma head_is_last_wal_pointer_witness :
  exists w1 r1,
    @writeEntries concreteExt TestDB.db (mkReqState [] [] zeroVP 0 0)
      [Scenario.k1; Scenario.k2] Scenario.w_fresh = (w1, Ok r1) /\
    @wal_pointer concreteExt w1 Scenario.commit10 = Some (head Scenario.req10_done).
Proof.
  destruct (@head_is_last_wal_pointer concreteExt TestDB.db
              Scenario.req10 Scenario.req10_done Scenario.w_fresh Scenario.req10_run.1)
    as [_ Hlast].
  - vm_compute. reflexivity.
  - apply (Hlast [Scenario.k1; Scenario.k2] Scenario.commit10 []).
    + reflexivity.
    + reflexivity.
    + constructor.
Defined.

(** C4 as stated fails: in the request of transaction 10 no entry is
    skipped, the WAL pointer of its first entry is (0, 20, 21), and the head
    [write] leaves is (0, 100, 21), the pointer of the commit marker. *)
Lemma head_is_not_first_wal_pointer :
  (@write concreteExt TestDB.db [Scenario.req10] Scenario.vl_fresh).2
    = Ok [Scenario.req10_done] /\
  skipVlog Scenario.k1 = false /\
  @wal_pointer concreteExt Scenario.w_fresh Scenario.k1 = Some (mkVP 0 20 21) /\
  head Scenario.req10_done = mkVP 0 100 21.
Proof. split_and!; vm_compute; reflexivity. Qed.

(** C10.  The length [encodeEntry] returns is the number of bytes it
    appended: the encoded header, the key, the value and the four bytes of
    the checksum; it returns one whenever the cipher can be set up.  The
    pointer [write] reports for an entry that goes to the vlog carries that
    length for the vlog record (validation keeps it within 32 bits), so it
    covers the whole record, checksum included; the other entries get the
    zero pointer. *)
Theorem encoded_length_is_record_length `{E : Externals} `{D : DBInterface}
    (laws : HeaderCodecLaws E) :
  (forall lf e buf off, wf_entry e -> cipher_ready lf off ->
     exists l, encodeEntry lf e buf off = (buf ++ record_bytes lf e off, Ok l) /\
               len (record_bytes lf e off) = l) /\
  (forall lf e buf off buf' l,
     encodeEntry lf e buf off = (buf', Ok l) ->
     len buf' = len buf + l /\
     l = len (header_Encode (entry_header e)) + len (Key e) + len (Value e) + 4) /\
  (forall vl reqs vl' reqs',
     InMemory (opt vl) = false ->
     0 <= writableOffset (wal vl) <= MaxUint32 ->
     fits_uint64 reqs ->
     write reqs vl = (vl', Ok reqs') ->
     Forall2 (fun b b' => Forall2 pointer_for (Entries b) (Ptrs b')) reqs reqs').
Proof.
  split; [|split].
  - intros lf e buf off Hwf Hc.
    pose proof (encodeEntry_ready lf e buf off Hwf Hc) as Hr.
    destruct (record_bytes_of_encode _ _ _ _ _ _ Hr) as [Hb Hl].
    eexists. split; [|exact Hl]. rewrite Hr. f_equal. exact Hb.
  - intros lf e buf off buf' l He.
    destruct (encodeEntry_inv _ _ _ _ _ _ He) as (_ & Hl & rec & -> & Hrec & _).
    split; [rewrite len_app; lia|exact Hl].
  - intros vl reqs vl' reqs' Hm Hoff Hfit Hw.
    destruct (write_inv _ _ _ _ Hm Hw) as (Hv & w0 & w1 & Hw0 & Hrun).
    assert (H0 : 0 <= maxHeaderSize).
    { pose proof (Encode_size (mkHeader 0 0 0 0 0)
                    ltac:(unfold wf_header, is_byte; simpl; lia)) as Hs.
      pose proof (len_nonneg (header_Encode (mkHeader 0 0 0 0 0))). lia. }
    eapply writeRequests_ptrs; [|exact Hrun].
    unfold validateWrites in Hv.
    exact (validateWrites_from_entries _ _ _ H0 Hoff Hfit Hv).
Qed.

Lemma encoded_length_is_record_length_witness :
  (exists l, @encodeEntry concreteExt Ex.lf_enc Ex.e_hello [1; 2; 3] 20
               = ([1; 2; 3] ++ @record_bytes concreteExt Ex.lf_enc Ex.e_hello 20, Ok l) /\
             len (@record_bytes concreteExt Ex.lf_enc Ex.e_hello 20) = l) /\
  Forall2 (fun b b' => Forall2 (@pointer_for concreteExt TestDB.db) (Entries b) (Ptrs b'))
    [Scenario.req10] [Scenario.req10_done].
Proof.
  destruct (@encoded_length_is_record_length concreteExt TestDB.db
              InstanceFacts.concreteExt_laws) as (Henc & _ & Hptr).
  split.
  - apply Henc.
    + unfold wf_entry, is_byte; simpl; lia.
    + split; [vm_compute; discriminate | eexists; reflexivity].
  - apply (Hptr Scenario.vl_fresh [Scenario.req10]
             (@write concreteExt TestDB.db [Scenario.req10] Scenario.vl_fresh).1).
    + reflexivity.
    + split; vm_compute; discriminate.
    + apply Forall_cons. split; [vm_compute; reflexivity|apply Forall_nil_2].
    + vm_compute. reflexivity.
Defined.

(** The pointer of [k2], the one entry of transaction 10 that goes to the
    vlog: 59 bytes, a 5-byte header, a 10-byte key, a 40-byte value and the
    checksum. *)
Example req10_pointers :
  Ptrs Scenario.req10_done = [zeroVP; mkVP 0 20 59; zeroVP] /\
  @vlog_record_len concreteExt Scenario.k2 = 59.
Proof. split; vm_compute; reflexivity. Qed.

(** C7.  For an entry that [write] does not skip, the loop body appends to
    the WAL the record of the entry as it is: the header of that record
    decodes to the entry's full meta byte.  When the value goes to the vlog,
    the vlog stream ends with the record of the entry whose meta has
    [bitTxn] and [bitFinTxn] cleared and every other bit unchanged.  The
    entry handed back in the request is the original one, meta restored. *)
Theorem txn_bits_cleared_in_vlog_only `{E : Externals} `{D : DBInterface}
    (laws : HeaderCodecLaws E) (r r' : reqState) (e : Entry) (w w' : writer) :
  writeEntry r e w = (w', Ok r') ->
  skipVlog e = false -> cur_typed w -> wf_entry e ->
  (exists lfw h n,
     curWALF w = Some lfw /\
     stream walFile w' = stream walFile w ++ record_bytes lfw e (wOffset w) /\
     header_Decode (record_bytes lfw e (wOffset w)) = Ok (h, n) /\
     h_meta h = meta e) /\
  (shouldWriteValueToLSM e = false ->
   exists lfv pre off h n,
     curVlogF w' = Some lfv /\
     stream vlogFile w' =
       pre ++ record_bytes lfv (set_meta e (clear_txn_bits (meta e))) off /\
     header_Decode (record_bytes lfv (set_meta e (clear_txn_bits (meta e))) off)
       = Ok (h, n) /\
     Z.land (h_meta h) bitTxn = 0 /\ Z.land (h_meta h) bitFinTxn = 0 /\
     (forall i, i <> 6 -> i <> 7 -> Z.testbit (h_meta h) i = Z.testbit (meta e) i)) /\
  r_Entries r' = r_Entries r ++ [e].
Proof.
  intros H Hs Ht Hwf.
  destruct (writeEntry_streams _ _ _ _ _ H Hs Ht) as [(lfw & Hcw & Hw) Hv].
  split; [|split].
  - pose proof (entry_header_wf e Hwf) as Hh.
    destruct (record_bytes_header lfw e (wOffset w) (Encode_size _ Hh)) as [tail Htail].
    exists lfw, (entry_header e), (len (header_Encode (entry_header e))).
    split; [exact Hcw|]. split; [exact Hw|]. split; [|reflexivity].
    rewrite Htail. now apply Decode_Encode.
  - intros Hl. destruct (Hv Hl) as (lfv & pre & off & Hcv & Hst).
    set (e1 := set_meta e (clear_txn_bits (meta e))) in *.
    assert (Hwf1 : wf_entry e1).
    { destruct Hwf as (He & Hm & Hu). split; [exact He|]. split; [|exact Hu].
      now apply clear_txn_bits_byte. }
    pose proof (entry_header_wf e1 Hwf1) as Hh.
    destruct (record_bytes_header lfv e1 off (Encode_size _ Hh)) as [tail Htail].
    exists lfv, pre, off, (entry_header e1), (len (header_Encode (entry_header e1))).
    split; [exact Hcv|]. split; [exact Hst|]. split.
    { rewrite Htail. now apply Decode_Encode. }
    change (h_meta (entry_header e1)) with (clear_txn_bits (meta e)).
    destruct (clear_txn_bits_spec (meta e)) as [H6 H7].
    split; [exact H6|]. split; [exact H7|]. apply clear_txn_bits_others.
  - exact (writeEntry_entries _ _ _ _ _ H).
Qed.

Lemma txn_bits_cleared_in_vlog_only_witness :
  (exists lfw h n,
     curWALF Scenario.w_fresh = Some lfw /\
     @header_Decode concreteExt (@record_bytes concreteExt lfw Scenario.k2 20) = Ok (h, n) /\
     h_meta h = bitTxn) /\
  r_Entries Scenario.k2_done = [Scenario.k2].
Proof.
  destruct (@txn_bits_cleared_in_vlog_only concreteExt TestDB.db
              InstanceFacts.concreteExt_laws Scenario.r0 Scenario.k2_done
              Scenario.k2 Scenario.w_fresh Scenario.k2_run.1)
    as ((lfw & h & n & Hc & _ & Hd & Hm) & _ & Hes).
  - vm_compute. reflexivity.
  - reflexivity.
  - intros [] lf Hlf; vm_compute in Hlf; [discriminate|].
    injection Hlf as <-. reflexivity.
  - unfold wf_entry, is_byte; simpl; unfold bitTxn; lia.
  - split; [|exact Hes]. exists lfw, h, n. split; [exact Hc|]. split; [exact Hd|exact Hm].
Defined.

(** On the fresh log the record of [k2] carries meta 64 in the WAL and
    0 in the vlog. *)
Example k2_meta_bytes :
  Scenario.record_meta (drop 20 (stream walFile Scenario.k2_run.1)) = Some 64 /\
  Scenario.record_meta (drop 20 (stream vlogFile Scenario.k2_run.1)) = Some 0.
Proof. split; vm_compute; reflexivity. Qed.

(** ** The claim about replay *)

(** C2 (amended).  Take a WAL file that holds, after its 20-byte header,
    the records of committed writes (entries outside transactions and
    transactions closed by their commit marker), at least one, followed by
    the records of a final transaction [torn] that has no commit marker.
    With a handler that reports no error, truncation allowed and the log not
    read-only, replay from the start of the file calls the handler on every
    record of the file in order, the records of the torn transaction
    included, succeeds, and leaves the file cut right behind the last
    committed record; no other file changes. *)
Theorem replay_delivers_every_record `{E : Externals} `{D : DBInterface}
    (laws : HeaderCodecLaws E) {St : Type}
    (vl : valueLog) (lf : logFile) (fn : @logEntry St) (s : St)
    (hdr : list byte) (cs torn : list Entry) (t : Z) :
  lf_fileType lf = walFile ->
  ReadOnly (opt vl) = false -> Truncate (opt vl) = true ->
  len hdr = lfHeaderSize ->
  disk vl !! fkey lf = Some (hdr ++ records lf lfHeaderSize (cs ++ torn)) ->
  committed cs -> cs <> [] -> txn_entries t torn ->
  Forall readable (cs ++ torn) ->
  lfHeaderSize + total_len (cs ++ torn) < 4294967296 ->
  (forall o, cipher_ready lf o) ->
  (forall e vp s0, (fn e vp s0).2 = Ok tt) ->
  exists vl',
    replayLog lf 0 fn s vl =
      Some (run_handler fn (deliveries lf lfHeaderSize (cs ++ torn)) s, vl', Ok tt) /\
    disk vl' !! fkey lf = Some (hdr ++ records lf lfHeaderSize cs) /\
    len (hdr ++ records lf lfHeaderSize cs) = lfHeaderSize + total_len cs /\
    (forall k, k <> fkey lf -> disk vl' !! k = disk vl !! k).
Proof.
  intros Hty Hro Htr Hhdr Hdisk Hc Hne Ht Hr Hb Hcipher Hfn.
  pose proof (Forall_app readable cs torn) as [Hsplit _].
  destruct (Hsplit Hr) as [Hrc Hrt]. clear Hsplit.
  pose proof (len_records lf lfHeaderSize cs Hrc Hcipher) as Hlc.
  pose proof (len_records lf (lfHeaderSize + total_len cs) torn Hrt Hcipher) as Hlt.
  pose proof (total_len_count cs) as Hcc. pose proof (total_len_count torn) as Hct.
  pose proof (total_len_nonneg torn) as Htn.
  assert (Hcs : 4 <= total_len cs).
  { destruct cs as [|e cs']; [done|]. cbn [total_len].
    pose proof (rec_len_pos e). pose proof (total_len_nonneg cs'). lia. }
  rewrite total_len_app in Hb.
  assert (Hlen : len (hdr ++ records lf lfHeaderSize cs) = lfHeaderSize + total_len cs)
    by (rewrite len_app; lia).
  (* the loop *)
  assert (Hit : iterate vl lf 0 fn s =
    Some (run_handler fn (deliveries lf lfHeaderSize (cs ++ torn)) s,
          Ok (lfHeaderSize + total_len cs))).
  { assert (Hdrop : forall x, drop (Z.to_nat lfHeaderSize) (hdr ++ x) = x)
      by (intros x; rewrite <- Hhdr, to_nat_len; apply drop_app_length).
    unfold iterate, fd_content. rewrite Hdisk, Hro. cbn [Z.eqb].
    rewrite len_app, Hhdr, records_app, len_app, Hlc, Hlt.
    replace (lfHeaderSize =? lfHeaderSize + (total_len cs + total_len torn)) with false
      by (symmetry; apply Z.eqb_neq; lia).
    rewrite Hdrop.
    set (rd := records lf lfHeaderSize cs ++ records lf (lfHeaderSize + total_len cs) torn).
    assert (Hrd : len rd = total_len cs + total_len torn)
      by (unfold rd; rewrite len_app; lia).
    replace (S (length rd))
      with (length cs + (length torn + S (length rd - length cs - length torn)))%nat
      by (unfold len in *; lia).
    generalize (length rd - length cs - length torn)%nat. intros j.
    unfold rd. rewrite <- (app_nil_r (records lf (lfHeaderSize + total_len cs) torn)).
    rewrite (iterate_loop_committed lf fn Hcipher Hfn cs Hc)
      by (try done; unfold lfHeaderSize in *; lia).
    rewrite (iterate_loop_txn lf fn Hcipher Hfn t)
      by (try done; unfold lfHeaderSize in *; try lia; now left).
    rewrite iterate_loop_eof, deliveries_app, run_handler_app.
    now destruct cs. }
  unfold replayLog, fd_content. rewrite Hdisk, Hit.
  rewrite bool_decide_eq_true_2 by exact Hty. cbn [AssertTrue].
  rewrite records_app, !len_app, Hhdr, Hlc, Hlt, Htr. cbn [negb].
  destruct (Z.eqb_spec (lfHeaderSize + total_len cs)
              (lfHeaderSize + (total_len cs + total_len torn))) as [Heq|Hneq].
  - exists vl. split; [reflexivity|].
    assert (torn = []) as ->.
    { destruct torn as [|e r]; [done|]. cbn [total_len] in Heq.
      pose proof (rec_len_pos e). pose proof (total_len_nonneg r). lia. }
    rewrite app_nil_r in Hdisk. now rewrite Hdisk.
  - replace (lfHeaderSize + total_len cs <=? lfHeaderSize) with false
      by (symmetry; apply Z.leb_gt; lia).
    unfold fd_update. rewrite Hdisk. eexists. split; [reflexivity|].
    cbn [disk set_disk]. rewrite lookup_insert_eq. split; [|split; [reflexivity|]].
    + f_equal. unfold truncate_to. rewrite records_app, app_assoc.
      rewrite <- Hlen at 1 2. rewrite to_nat_len, take_app_length.
      rewrite <- Hlen, to_nat_len, (length_app (hdr ++ _)).
      replace (_ - _)%nat with 0%nat by lia.
      apply app_nil_r.
    + intros k Hk. now rewrite lookup_insert_ne.
Qed.

Lemma replay_delivers_every_record_witness :
  exists vl',
    @replayLog concreteExt TestDB.db _ Scenario.wal0 0 Scenario.record_all [] Scenario.vl_torn =
      Some (run_handler Scenario.record_all
              (@deliveries concreteExt Scenario.wal0 lfHeaderSize
                 ([Scenario.k1; Scenario.k2; Scenario.commit10] ++ [Scenario.k3])) [],
            vl', Ok tt) /\
    disk vl' !! fkey Scenario.wal0 =
      Some (Scenario.wal0_header ++
            @records concreteExt Scenario.wal0 lfHeaderSize
              [Scenario.k1; Scenario.k2; Scenario.commit10]).
Proof.
  destruct (@replay_delivers_every_record concreteExt TestDB.db
              InstanceFacts.concreteExt_laws _
              Scenario.vl_torn Scenario.wal0 Scenario.record_all []
              Scenario.wal0_header
              [Scenario.k1; Scenario.k2; Scenario.commit10] [Scenario.k3] 20)
    as (vl' & Hrun & Hdisk & _).
  - reflexivity.
  - reflexivity.
  - reflexivity.
  - vm_compute. reflexivity.
  - vm_compute. reflexivity.
  - apply (committed_txn 10 [Scenario.k1; Scenario.k2] Scenario.commit10 []).
    + discriminate.
    + repeat (apply Forall_cons; split; [split; vm_compute; reflexivity|]).
      apply Forall_nil_2.
    + reflexivity.
    + vm_compute. reflexivity.
    + apply committed_nil.
  - discriminate.
  - apply Forall_cons. split; [split; vm_compute; reflexivity|apply Forall_nil_2].
  - repeat (apply Forall_cons; split;
      [split; [unfold wf_entry, is_byte; simpl; unfold bitTxn, bitFinTxn; lia
              |vm_compute; discriminate]|]).
    apply Forall_nil_2.
  - vm_compute. reflexivity.
  - intros o. exact I.
  - reflexivity.
  - exists vl'. split; [exact Hrun|exact Hdisk].
Defined.

(** C2 as stated fails: the WAL of the scenario holds transaction 10 with
    its commit marker and then [k3] of transaction 20 without one; replay
    succeeds and has handed [k3], found at offset 121, to the handler. *)
Lemma replay_delivers_torn_entries :
  disk Scenario.vl_torn !! fkey Scenario.wal0 =
    Some (Scenario.wal0_header ++
          @records concreteExt Scenario.wal0 20
            [Scenario.k1; Scenario.k2; Scenario.commit10; Scenario.k3]) /\
  is_txn Scenario.k3 = true /\
  @ParseTs concreteExt (Key Scenario.k3) = 20 /\
  ParseUint (Value Scenario.commit10) = Some 10 /\
  (snd <$> Scenario.replay_torn) = Some (Ok tt) /\
  map (fun d => (Key d.1, Offset d.2)) Scenario.trace_torn =
    [(Key Scenario.k1, 20); (Key Scenario.k2, 41);
     (Key Scenario.commit10, 100); (Key Scenario.k3, 121)].
Proof. split_and!; vm_compute; reflexivity. Qed.

(** ** Picking a file for garbage collection *)

Lemma elem_of_sortedFids (lw : logWrapper) (fid0 : Z) :
  fid0 ∈ sortedFids lw <->
  is_Some (filesMap lw !! fid0) /\ fid0 ∉ filesToBeDeleted lw.
Proof.
  unfold sortedFids. rewrite merge_sort_Permutation, list_elem_of_filter.
  rewrite elem_of_elements, elem_of_dom. tauto.
Qed.

Lemma NoDup_sortedFids (lw : logWrapper) : NoDup (sortedFids lw).
Proof.
  unfold sortedFids. rewrite merge_sort_Permutation.
  apply NoDup_filter, NoDup_elements.
Qed.

Lemma sortedFids_sorted (lw : logWrapper) : StronglySorted Z.lt (sortedFids lw).
Proof.
  pose proof (NoDup_sortedFids lw) as Hnd.
  assert (Hs : StronglySorted Z.le (sortedFids lw)).
  { unfold sortedFids. apply StronglySorted_merge_sort; [apply _|].
    intros x y. destruct (Z.le_gt_cases x y); [now left|right; lia]. }
  induction Hs as [|x l Hs IH Hall]; [constructor|].
  apply NoDup_cons in Hnd as [Hx Hnd]. constructor; [now apply IH|].
  rewrite Forall_forall in *. intros y Hy.
  assert (x <> y) by (intros ->; contradiction).
  specialize (Hall y Hy). lia.
Qed.

(** X1.  [sortedFids] lists the fids in strictly ascending order, and a
    fid is on the list exactly when it is in the files map and not on the
    to-be-deleted list. *)
Theorem sortedFids_sorted_live (lw : logWrapper) :
  StronglySorted Z.lt (sortedFids lw) /\
  (forall fid0, fid0 ∈ sortedFids lw <->
     is_Some (filesMap lw !! fid0) /\ fid0 ∉ filesToBeDeleted lw).
Proof.
  split; [apply sortedFids_sorted|apply elem_of_sortedFids].
Qed.

(** The candidate loop: the discard count it ends with is the largest
    positive one met, and the fid is the first that has it. *)
Lemma pick_candidate_from (m : gmap Z Z) (fids : list Z) (c0 d0 : Z) :
  0 <= d0 ->
  let r := fold_left
    (fun cand fid0 => if cand.2 <? discard_of m fid0 then (fid0, discard_of m fid0) else cand)
    fids (c0, d0) in
  d0 <= r.2 /\
  Forall (fun k => discard_of m k <= r.2) fids /\
  ((r = (c0, d0)) \/ (r.1 ∈ fids /\ discard_of m r.1 = r.2 /\ d0 < r.2)).
Proof.
  revert c0 d0. induction fids as [|k rest IH]; intros c0 d0 Hd0; cbn [fold_left].
  - split; [cbn; lia|]. split; [constructor|now left].
  - cbn [snd]. destruct (Z.ltb_spec d0 (discard_of m k)) as [Hlt|Hge].
    + destruct (IH k (discard_of m k) ltac:(lia)) as (H1 & H2 & H3).
      cbv zeta in *. split; [lia|]. split; [constructor; [lia|exact H2]|].
      right. destruct H3 as [->|(Hin & Heq & Hlt')].
      * cbn. split; [apply elem_of_cons; now left|]. split; [reflexivity|lia].
      * split; [apply elem_of_cons; now right|]. split; [exact Heq|lia].
    + destruct (IH c0 d0 Hd0) as (H1 & H2 & H3).
      cbv zeta in *. split; [lia|]. split; [constructor; [lia|exact H2]|].
      destruct H3 as [->|(Hin & Heq & Hlt')]; [now left|].
      right. split; [apply elem_of_cons; now right|]. now split.
Qed.

(** X2.  With at most one file not pending deletion [pickLog] picks
    nothing.  Otherwise it returns one or two files, each of them a file of
    the files map that is not pending deletion, never a nil pointer; and
    when some file has a positive discard count, a file of the largest
    count is the first one returned, unless its fid is [MaxUint32], the
    value the candidate loop starts from. *)
Theorem pickLog_picks_live_files (vl : valueLog) (r1 r2 : Z) :
  (len (sortedFids (vlog vl)) <= 1 -> pickLog vl r1 r2 = []) /\
  (1 < len (sortedFids (vlog vl)) ->
     (1 <= length (pickLog vl r1 r2) <= 2)%nat /\
     Forall (fun f => exists k lf, f = Some lf /\ filesMap (vlog vl) !! k = Some lf /\
                                   k ∈ sortedFids (vlog vl))
            (pickLog vl r1 r2) /\
     (forall k, k ∈ sortedFids (vlog vl) -> 0 < discard_of (lfDiscardStats vl) k ->
        exists c, c ∈ sortedFids (vlog vl) /\
          Forall (fun k' => discard_of (lfDiscardStats vl) k'
                            <= discard_of (lfDiscardStats vl) c) (sortedFids (vlog vl)) /\
          (c <> MaxUint32 ->
           pickLog vl r1 r2 !! 0%nat = Some (filesMap (vlog vl) !! c)))).
Proof.
  unfold pickLog. set (fids := sortedFids (vlog vl)). set (m := lfDiscardStats vl).
  split.
  { intros Hle. now replace (len fids <=? 1) with true by (symmetry; apply Z.leb_le; lia). }
  intros Hlt. replace (len fids <=? 1) with false by (symmetry; apply Z.leb_gt; lia).
  cbv zeta.
  assert (Hlive : forall k, k ∈ fids ->
            exists lf, filesMap (vlog vl) !! k = Some lf).
  { intros k Hk. apply elem_of_sortedFids in Hk as [[lf Hlf] _]. now exists lf. }
  destruct (pick_candidate_from m fids MaxUint32 0 ltac:(lia)) as (Hd & Hmax & Hc).
  cbv zeta in Hd, Hmax, Hc. fold (pick_candidate m fids) in Hd, Hmax, Hc.
  (* the random pick *)
  set (idx1 := Intn r1 (len fids)).
  set (idx := if 0 <? idx1 then Intn r2 (idx1 + 1) else idx1).
  assert (Hidx : 0 <= idx < len fids).
  { assert (0 <= idx1 < len fids) by (apply Z.mod_pos_bound; lia).
    unfold idx. destruct (Z.ltb_spec 0 idx1); [|lia].
    assert (0 <= Intn r2 (idx1 + 1) < idx1 + 1) by (apply Z.mod_pos_bound; lia). lia. }
  destruct (lookup_lt_is_Some_2 fids (Z.to_nat idx)) as [kr Hkr];
    [unfold len in Hidx; lia|].
  rewrite Hkr. cbn [default].
  assert (Hkrin : kr ∈ fids) by (apply list_elem_of_lookup; eauto).
  destruct (Hlive kr Hkrin) as [lfr Hlfr].
  assert (Hrand : exists k lf, filesMap (vlog vl) !! kr = Some lf /\
                    filesMap (vlog vl) !! k = Some lf /\ k ∈ fids)
    by (exists kr, lfr; auto).
  destruct Hc as [Hinit|(Hin & Heq & Hpos)].
  - (* no file with a positive discard count *)
    rewrite Hinit. cbn [fst]. rewrite Z.eqb_refl. cbn [negb app length].
    split; [lia|]. split; [now constructor|].
    intros k Hk Hkpos. rewrite Forall_forall in Hmax. specialize (Hmax k Hk).
    rewrite Hinit in Hmax. cbn in Hmax. lia.
  - set (c := (pick_candidate m fids).1) in *.
    destruct (Hlive c Hin) as [lfc Hlfc].
    split; [destruct (negb _); cbn [app length]; lia|]. split.
    + destruct (negb _); cbn [app]; [constructor|]; try (now constructor).
      exists c, lfc. auto.
    + intros k Hk Hkpos. exists c. split; [exact Hin|]. split.
      * rewrite Heq. exact Hmax.
      * intros Hne. replace (c =? MaxUint32) with false
          by (symmetry; now apply Z.eqb_neq).
        reflexivity.
Qed.

(** X3.  An iterator that is opened and closed again leaves the value
    log as it was: the count is back, and no file is deleted as long as
    another iterator is open or nothing is pending.  (The count is an
    int32; it must not be at its maximum.) *)
Theorem iterator_open_close (vl : valueLog) :
  0 <= numActiveIterators (vlog vl) < 2147483647 ->
  (numActiveIterators (vlog vl) = 0 -> filesToBeDeleted (vlog vl) = []) ->
  (_ ← incrIteratorCount; decrIteratorCount) vl = (vl, Ok tt).
Proof.
  intros Hn Hp. destruct vl as [vlg wl o d st ch rot iv].
  destruct vlg as [fm mx wo ne n del]. cbn [vlog numActiveIterators filesToBeDeleted] in *.
  unfold incrIteratorCount, decrIteratorCount, mbind, M_bind, modify_st, get_st.
  cbn [vlog set_lw set_numActiveIterators numActiveIterators filesMap maxFid writableOffset
       numEntriesWritten filesToBeDeleted wal opt disk lfDiscardStats delChan logRotates ivDrawn].
  assert (H1 : wrap_int32 (n + 1) = n + 1).
  { unfold wrap_int32. rewrite Z.mod_small by lia. lia. }
  rewrite H1. replace (n + 1 - 1) with n by lia.
  assert (H2 : wrap_int32 n = n).
  { unfold wrap_int32. rewrite Z.mod_small by lia. lia. }
  rewrite H2. destruct (Z.eqb_spec n 0) as [->|Hne]; cbn [negb]; [|reflexivity].
  rewrite (Hp eq_refl). reflexivity.
Qed.

(** ** Creating and rotating log files *)

Section FileFacts.
Context `{E : Externals} `{D : DBInterface}.

Lemma len_PutUint64 (x : Z) : len (PutUint64 x) = 8.
Proof. unfold PutUint64. now rewrite len_app, !len_PutUint32. Qed.

Lemma lw_of_set_lw ft lw vl : lw_of ft (set_lw ft lw vl) = lw.
Proof. now destruct ft. Qed.

Lemma lw_of_set_lw_other ft lw vl : lw_of (other ft) (set_lw ft lw vl) = lw_of (other ft) vl.
Proof. now destruct ft. Qed.

(** What [bootstrap] leaves: the header on disk, the file with its key and
    IV in the files map of its type. *)
Lemma bootstrap_inv lf vl vl' lf1 :
  bootstrap lf vl = (vl', Ok lf1) ->
  fid lf1 = fid lf /\ lf_fileType lf1 = lf_fileType lf /\
  loadingMode lf1 = loadingMode lf /\ fmapLen lf1 = fmapLen lf /\
  latestDataKey = Ok (dataKey lf1) /\
  len (baseIV lf1) = 12 /\
  disk vl' = <[fkey lf := PutUint64 (keyID lf1) ++ baseIV lf1]> (disk vl) /\
  filesMap (lw_of (lf_fileType lf) vl')
    = <[fid lf := lf1]> (filesMap (lw_of (lf_fileType lf) vl)) /\
  (forall ft, maxFid (lw_of ft vl') = maxFid (lw_of ft vl) /\
              writableOffset (lw_of ft vl') = writableOffset (lw_of ft vl) /\
              numEntriesWritten (lw_of ft vl') = numEntriesWritten (lw_of ft vl) /\
              numActiveIterators (lw_of ft vl') = numActiveIterators (lw_of ft vl) /\
              filesToBeDeleted (lw_of ft vl') = filesToBeDeleted (lw_of ft vl)) /\
  lw_of (other (lf_fileType lf)) vl' = lw_of (other (lf_fileType lf)) vl /\
  opt vl' = opt vl /\ lfDiscardStats vl' = lfDiscardStats vl /\
  delChan vl' = delChan vl /\ logRotates vl' = logRotates vl.
Proof.
  unfold bootstrap. intros H.
  minv H as u1 s1 H1. apply fd_update_inv in H1 as (c & Hc & ->).
  minv H as dk s2 H2. apply wrap_err_inv in H2. apply lift_inv in H2 as [H2 ->].
  minv H as vl0 s3 H3. minv H as u2 s4 H4. minv H as u3 s5 H5.
  minv H as u4 s6 H6. apply fd_update_inv in H6 as (c' & Hc' & ->).
  apply mret_inv in H as [-> ->].
  cbn [fid lf_fileType loadingMode fmapLen dataKey baseIV].
  split; [done|]. split; [done|]. split; [done|]. split; [done|]. split; [done|].
  split.
  { unfold len. rewrite length_take, length_app, length_replicate. lia. }
  split.
  { cbn [disk set_disk]. rewrite disk_store_lf. cbn [disk set_ivDrawn set_disk].
    unfold fkey. cbn [fid lf_fileType]. now rewrite insert_insert_eq. }
  destruct vl as [vlg wl o d st ch rot iv]. unfold store_lf.
  cbn [fid lf_fileType loadingMode fmapLen dataKey baseIV].
  destruct (lf_fileType lf); cbn; repeat split; try done;
    match goal with f : fileType |- _ => destruct f end; done.
Qed.

Lemma lf_mmap_fields sz lf :
  fid (lf_mmap sz lf) = fid lf /\ lf_fileType (lf_mmap sz lf) = lf_fileType lf /\
  dataKey (lf_mmap sz lf) = dataKey lf /\ baseIV (lf_mmap sz lf) = baseIV lf /\
  loadingMode (lf_mmap sz lf) = loadingMode lf.
Proof. unfold lf_mmap. repeat case_match; repeat split. Qed.

(** What [createLogFile] does, by whether the file exists. *)
Lemma createLogFile_inv (fid0 : Z) (ft : fileType) (vl : valueLog) :
  (is_Some (disk vl !! (ft, fid0)) ->
   createLogFile fid0 ft vl = (vl, Err (ErrWrapped ErrExist))) /\
  (forall vl' lf, createLogFile fid0 ft vl = (vl', Ok lf) ->
     disk vl !! (ft, fid0) = None /\
     (fid0 = 0 \/ maxFid (lw_of ft vl) < fid0) /\
     fid lf = fid0 /\ lf_fileType lf = ft /\
     latestDataKey = Ok (dataKey lf) /\
     loadingMode lf = (if bool_decide (ft = walFile) then FileIO
                       else ValueLogLoadingMode (opt vl)) /\
     disk vl' = <[(ft, fid0) := PutUint64 (keyID lf) ++ baseIV lf]> (disk vl) /\
     len (PutUint64 (keyID lf) ++ baseIV lf) = lfHeaderSize /\
     lw_of ft vl' =
       mkLogWrapper (<[fid0 := lf]> (filesMap (lw_of ft vl))) fid0 lfHeaderSize 0
         (numActiveIterators (lw_of ft vl)) (filesToBeDeleted (lw_of ft vl)) /\
     getCurrentFile (lw_of ft vl') = Some lf /\
     lw_of (other ft) vl' = lw_of (other ft) vl /\
     opt vl' = opt vl /\ logRotates vl' = logRotates vl).
Proof.
  split.
  { intros [c Hc]. unfold createLogFile, mbind, M_bind, get_st.
    unfold fkey. cbn [fid lf_fileType]. now rewrite Hc. }
  intros vl' lf2. unfold createLogFile. intros H. minv H as vl0 s0 H0. cbv zeta in H.
  match type of H with context [bootstrap ?l] => set (lf := l) in * end.
  change (fkey lf) with (ft, fid0) in *.
  destruct (disk vl !! (ft, fid0)) eqn:Hd; [discriminate|].
  minv H as u1 s1 H1.
  minv H as lf1 s2 Hboot.
  destruct (bootstrap lf _) as [s' [l|e0|]] eqn:Hb; try discriminate.
  injection Hboot as <- <-.
  destruct (bootstrap_inv _ _ _ _ Hb)
    as (Hfid & Hty & Hlm & Hfm & Hdk & Hiv & Hdisk & Hmap & Hkeep & Hoth & Hopt & _ & _ & Hrot).
  change (fkey lf) with (ft, fid0) in *. change (lf_fileType lf) with ft in *.
  change (fid lf) with fid0 in *.
  minv H as u2 s3 H3. minv H as s4 s5 H5. minv H as u3 s6 H6.
  apply orb_true_iff in H6.
  minv H as u4 s7 H7. minv H as u5 s8 H8.
  apply mret_inv in H as [-> ->].
  destruct (lf_mmap_fields (2 * ValueLogFileSize (opt vl)) l) as (M1 & M2 & M3 & M4 & M5).
  set (lf2 := lf_mmap (2 * ValueLogFileSize (opt vl)) l) in *.
  assert (Hpurge : forall ft', lw_of ft' s8 = lw_of ft'
            (set_lw ft
               (mkLogWrapper
                  (filesMap (lw_of ft (set_lw ft (set_filesMap
                     (<[fid0:=lf2]> (filesMap (lw_of ft s'))) (lw_of ft s')) s')))
                  fid0 lfHeaderSize 0
                  (numActiveIterators (lw_of ft (set_lw ft (set_filesMap
                     (<[fid0:=lf2]> (filesMap (lw_of ft s'))) (lw_of ft s')) s')))
                  (filesToBeDeleted (lw_of ft (set_lw ft (set_filesMap
                     (<[fid0:=lf2]> (filesMap (lw_of ft s'))) (lw_of ft s')) s'))))
               (set_lw ft (set_filesMap
                     (<[fid0:=lf2]> (filesMap (lw_of ft s'))) (lw_of ft s')) s'))).
  { intros ft'. unfold purgeOldFiles in H8. destruct getPersistedHead;
      injection H8 as <-; now destruct ft'. }
  split; [reflexivity|]. split.
  { rewrite lw_of_set_lw in H6. cbn [maxFid set_filesMap] in H6.
    destruct (Hkeep ft) as (Hmx & _). cbn [disk set_disk] in Hmx.
    destruct H6 as [H6|H6]; [left; now apply Z.eqb_eq|right].
    apply Z.ltb_lt in H6. rewrite Hmx in H6.
    destruct vl, ft; exact H6. }
  split; [congruence|]. split; [congruence|].
  split; [rewrite M3; exact Hdk|].
  split; [rewrite M5, Hlm; reflexivity|]. split.
  { apply disk_purgeOldFiles in H8. rewrite H8, !disk_set_lw, Hdisk.
    cbn [disk set_disk]. rewrite insert_insert_eq.
    unfold keyID. now rewrite M3, M4. }
  split.
  { rewrite len_app, len_PutUint64, M4, Hiv. reflexivity. }
  assert (Hlw : lw_of ft s8 =
       mkLogWrapper (<[fid0 := lf2]> (filesMap (lw_of ft vl))) fid0 lfHeaderSize 0
         (numActiveIterators (lw_of ft vl)) (filesToBeDeleted (lw_of ft vl))).
  { rewrite Hpurge, !lw_of_set_lw. cbn [filesMap set_filesMap numActiveIterators
      filesToBeDeleted].
    destruct (Hkeep ft) as (_ & _ & _ & Hit & Hdel).
    rewrite Hmap, Hit, Hdel, insert_insert_eq. destruct vl, ft; reflexivity. }
  split; [exact Hlw|]. split.
  { rewrite Hlw. unfold getCurrentFile. cbn [filesMap maxFid]. apply lookup_insert_eq. }
  split; [rewrite Hpurge, !lw_of_set_lw_other, Hoth; destruct vl, ft; reflexivity|].
  assert (Hp8 : opt s8 = opt s' /\ logRotates s8 = logRotates s').
  { unfold purgeOldFiles in H8. destruct getPersistedHead;
      injection H8 as <-; now destruct ft. }
  destruct Hp8 as [-> ->]. rewrite Hopt, Hrot. now destruct vl.
Qed.


(** X4.  [createLogFile] fails with the wrapped exists-error, and changes
    nothing, when the file is there already.  When it succeeds the file
    was not there, its fid is 0 or above the largest fid, its data key is
    the registry's latest one, the file holds exactly the 20-byte header
    (the key id in 8 bytes, then the base IV), the file is the current one
    of its wrapper, which restarts at offset 20 with no entry written, and
    the other wrapper, the options and the rotation counter are as before.
    A WAL file is in file-I/O mode, a vlog file in the configured one. *)
Theorem createLogFile_post (fid0 : Z) (ft : fileType) (vl : valueLog) :
  (is_Some (disk vl !! (ft, fid0)) ->
   createLogFile fid0 ft vl = (vl, Err (ErrWrapped ErrExist))) /\
  (forall vl' lf, createLogFile fid0 ft vl = (vl', Ok lf) ->
     disk vl !! (ft, fid0) = None /\
     (fid0 = 0 \/ maxFid (lw_of ft vl) < fid0) /\
     fid lf = fid0 /\ lf_fileType lf = ft /\
     latestDataKey = Ok (dataKey lf) /\
     loadingMode lf = (if bool_decide (ft = walFile) then FileIO
                       else ValueLogLoadingMode (opt vl)) /\
     disk vl' = <[(ft, fid0) := PutUint64 (keyID lf) ++ baseIV lf]> (disk vl) /\
     len (PutUint64 (keyID lf) ++ baseIV lf) = lfHeaderSize /\
     lw_of ft vl' =
       mkLogWrapper (<[fid0 := lf]> (filesMap (lw_of ft vl))) fid0 lfHeaderSize 0
         (numActiveIterators (lw_of ft vl)) (filesToBeDeleted (lw_of ft vl)) /\
     getCurrentFile (lw_of ft vl') = Some lf /\
     lw_of (other ft) vl' = lw_of (other ft) vl /\
     opt vl' = opt vl /\ logRotates vl' = logRotates vl).
Proof. exact (createLogFile_inv fid0 ft vl). Qed.

Lemma lf_munmap_fields lf :
  fid (lf_munmap lf) = fid lf /\ lf_fileType (lf_munmap lf) = lf_fileType lf.
Proof. unfold lf_munmap. case_match; now split. Qed.

Lemma store_lf_frame lf vl :
  disk (store_lf lf vl) = disk vl /\
  filesMap (lw_of (lf_fileType lf) (store_lf lf vl))
    = <[fid lf := lf]> (filesMap (lw_of (lf_fileType lf) vl)) /\
  (forall ft, maxFid (lw_of ft (store_lf lf vl)) = maxFid (lw_of ft vl) /\
              writableOffset (lw_of ft (store_lf lf vl)) = writableOffset (lw_of ft vl)) /\
  lw_of (other (lf_fileType lf)) (store_lf lf vl) = lw_of (other (lf_fileType lf)) vl /\
  opt (store_lf lf vl) = opt vl /\ logRotates (store_lf lf vl) = logRotates vl.
Proof.
  unfold store_lf. destruct vl, (lf_fileType lf); cbn; repeat split; try done;
    match goal with f : fileType |- _ => destruct f end; done.
Qed.

(** [doneWriting] cuts the file at [off] and touches nothing else on disk. *)
Lemma doneWriting_inv lf off vl vl' lf' :
  doneWriting lf off vl = (vl', Ok lf') ->
  exists c lf1,
    like lf1 lf /\
    disk vl !! fkey lf = Some c /\
    disk vl' = <[fkey lf := truncate_to off c]> (disk vl) /\
    filesMap (lw_of (lf_fileType lf) vl')
      = <[fid lf := lf1]> (filesMap (lw_of (lf_fileType lf) vl)) /\
    (forall ft, maxFid (lw_of ft vl') = maxFid (lw_of ft vl) /\
                writableOffset (lw_of ft vl') = writableOffset (lw_of ft vl)) /\
    lw_of (other (lf_fileType lf)) vl' = lw_of (other (lf_fileType lf)) vl /\
    opt vl' = opt vl /\ logRotates vl' = logRotates vl.
Proof.
  unfold doneWriting. intros H. cbv zeta in H.
  destruct (lf_munmap_fields lf) as [Mf Mt].
  assert (Hlike1 : like (lf_munmap lf) lf).
  { unfold like, lf_munmap. case_match; repeat split. }
  set (lf1 := lf_munmap lf) in *.
  assert (Hk : fkey lf1 = fkey lf) by (unfold fkey; congruence).
  minv H as u1 s1 H1.
  minv H as u2 s2 H2. apply fd_update_inv in H2 as (c & Hc & ->).
  apply wrap_err_inv in H. unfold lf_init in H.
  minv H as sz s3 H3. clear H3.
  destruct (store_lf_frame lf1 vl) as (Sd & Sm & Ss & So & Sopt & Srot).
  rewrite Mt, Mf in *. rewrite Sd, Hk in Hc.
  assert (Hsd : forall ft d v, lw_of ft (set_disk d v) = lw_of ft v)
    by (intros; now destruct ft).
  destruct (sz =? 0).
  - apply mret_inv in H as [-> ->]. exists c, lf1.
    split; [exact Hlike1|]. split; [exact Hc|]. split; [cbn [disk set_disk]; now rewrite Sd, Hk|].
    rewrite !Hsd. split; [exact Sm|]. split.
    { intros ft. rewrite Hsd. apply Ss. }
    split; [exact So|]. now split.
  - minv H as u3 s4 H4. minv H as u4 s5 H5. apply mret_inv in H as [-> ->].
    destruct (lf_mmap_fields sz (set_size (wrap32 sz) lf1)) as (N1 & N2 & _).
    set (lf2 := lf_mmap sz (set_size (wrap32 sz) lf1)) in *.
    cbn [fid lf_fileType set_size] in N1, N2. rewrite Mf in N1. rewrite Mt in N2.
    exists c, lf2.
    split.
    { destruct (lf_mmap_fields sz (set_size (wrap32 sz) lf1)) as (_ & _ & Q3 & Q4 & Q5).
      fold lf2 in Q3, Q4, Q5. cbn [set_size dataKey baseIV loadingMode] in Q3, Q4, Q5.
      destruct Hlike1 as (_ & _ & P3 & P4 & P5). unfold like.
      repeat split; congruence. }
    split; [exact Hc|].
    destruct (store_lf_frame lf2
                (set_disk (<[fkey lf1:=truncate_to off c]> (disk (store_lf lf1 vl)))
                   (store_lf lf1 vl))) as (Td & Tm & Ts & To & Topt & Trot).
    rewrite N1, N2 in *.
    split; [rewrite Td; cbn [disk set_disk]; now rewrite Sd, Hk|].
    split; [now rewrite Tm, Hsd, Sm, insert_insert_eq|].
    split.
    { intros ft. destruct (Ts ft) as [-> ->]. rewrite Hsd. apply Ss. }
    split; [now rewrite To, Hsd|].
    now rewrite Topt, Trot.
Qed.

(** What a rotation leaves. *)
Lemma rotateFile_inv (ft : fileType) (lf : logFile) (vl vl' : valueLog) (newlf : logFile) :
  rotateFile ft lf vl = (vl', Ok newlf) -> lf_fileType lf = ft ->
  exists c,
    fid lf = maxFid (lw_of ft vl) /\ writableOffset (lw_of ft vl) <> 0 /\
    disk vl !! (ft, fid lf) = Some c /\
    fid newlf = wrap32 (maxFid (lw_of ft vl) + 1) /\
    maxFid (lw_of ft vl) < fid newlf /\
    lf_fileType newlf = ft /\
    disk vl' = <[(ft, fid newlf) := PutUint64 (keyID newlf) ++ baseIV newlf]>
                 (<[(ft, fid lf) := truncate_to (writableOffset (lw_of ft vl)) c]> (disk vl)) /\
    getCurrentFile (lw_of ft vl') = Some newlf /\
    maxFid (lw_of ft vl') = fid newlf /\
    writableOffset (lw_of ft vl') = lfHeaderSize /\
    numEntriesWritten (lw_of ft vl') = 0 /\
    is_Some (filesMap (lw_of ft vl') !! fid lf) /\
    lw_of (other ft) vl' = lw_of (other ft) vl /\
    logRotates vl' = match ft with
                     | walFile => wrap_int32 (logRotates vl + 1)
                     | vlogFile => logRotates vl
                     end /\
    opt vl' = opt vl /\
    loadingMode newlf = (if bool_decide (ft = walFile) then FileIO
                         else ValueLogLoadingMode (opt vl)) /\
    len (PutUint64 (keyID newlf) ++ baseIV newlf) = lfHeaderSize /\
    exists lf1, like lf1 lf /\
      filesMap (lw_of ft vl')
        = <[fid newlf := newlf]> (<[fid lf := lf1]> (filesMap (lw_of ft vl))).
Proof.
  unfold rotateFile. intros H Hty. cbv zeta in H.
  minv H as vl0 s0 H0.
  minv H as u1 s1 H1. apply negb_true_iff, Z.eqb_neq in H1.
  minv H as u2 s2 H2. apply Z.eqb_eq in H2.
  minv H as lf' s3 Hdone.
  minv H as u3 s4 H3. apply Z.ltb_lt in H3.
  minv H as nlf s5 Hcreate.
  destruct (doneWriting_inv _ _ _ _ _ Hdone)
    as (c & lf1 & Hlk & Hc & Hdisk & Hmap & Hsc & Hoth & Hopt & Hrot).
  unfold fkey in Hc, Hdisk. rewrite Hty in *.
  destruct (createLogFile_inv (wrap32 (maxFid (lw_of ft vl) + 1)) ft s3) as [_ Hpost].
  destruct (Hpost _ _ Hcreate)
    as (Hnone & Hmax & Hnf & Hnt & _ & Hnlm & Hnd & Hnlen & Hlw & Hcur & Hoth' & Hopt' & Hrot').
  destruct (Hsc ft) as [Hmx Hwo]. unfold lw_offset in *.
  assert (Hlt : maxFid (lw_of ft vl) < fid nlf).
  { rewrite Hnf. destruct Hmax as [Hz|Hlt]; lia. }
  assert (Hfin : exists vlf, vl' = vlf /\ newlf = nlf /\
            (forall ft', lw_of ft' vl' = lw_of ft' s5) /\ disk vl' = disk s5 /\
            logRotates vl' = match ft with
                             | walFile => wrap_int32 (logRotates s5 + 1)
                             | vlogFile => logRotates s5
                             end).
  { exists vl'. destruct ft.
    - rewrite bool_decide_eq_false_2 in H by discriminate.
      minv H as u4 s6 H6. apply mret_inv in H as [-> ->]. repeat split.
    - rewrite bool_decide_eq_true_2 in H by done.
      minv H as u4 s6 H6. apply mret_inv in H as [-> ->].
      repeat split; intros []; reflexivity. }
  assert (Hopt5 : opt vl' = opt s5).
  { destruct ft.
    - rewrite bool_decide_eq_false_2 in H by discriminate.
      minv H as u4 s6 H6. now apply mret_inv in H as [-> ->].
    - rewrite bool_decide_eq_true_2 in H by done.
      minv H as u4 s6 H6. now apply mret_inv in H as [-> ->]. }
  destruct Hfin as (_ & _ & -> & Hlws & Hd' & Hr').
  exists c. split; [exact H2|]. split; [exact H1|]. split; [exact Hc|].
  split; [exact Hnf|]. split; [exact Hlt|]. split; [exact Hnt|]. split.
  { rewrite Hd', Hnd, Hdisk, Hnf. reflexivity. }
  rewrite !Hlws. split; [exact Hcur|]. rewrite Hlw. cbn [maxFid writableOffset
    numEntriesWritten filesMap].
  split; [now rewrite Hnf|]. split; [reflexivity|]. split; [reflexivity|]. split.
  { rewrite lookup_insert_ne by lia. rewrite Hmap, lookup_insert_eq. eauto. }
  split; [now rewrite Hoth', Hoth|].
  split; [rewrite Hr', Hrot', Hrot; reflexivity|].
  split; [now rewrite Hopt5, Hopt', Hopt|].
  split; [now rewrite Hnlm, Hopt|]. split; [exact Hnlen|].
  exists lf1. split; [exact Hlk|]. now rewrite Hmap, Hnf.
Qed.

(** X5.  A rotation that succeeds was asked for the file of the largest
    fid, at a nonzero offset.  It cuts that file at the writable offset,
    keeps it in the files map, creates the file of the next fid with its
    header, makes it the current one at offset 20 with no entry written,
    leaves the other wrapper and the options alone, and counts as a
    rotation only for the WAL.  The files map gains the new file, which is
    in file-I/O mode when it is a WAL file and in the configured mode
    otherwise, and keeps the old one under its fid with the same cipher. *)
Theorem rotateFile_post (ft : fileType) (lf : logFile) (vl vl' : valueLog) (newlf : logFile) :
  rotateFile ft lf vl = (vl', Ok newlf) -> lf_fileType lf = ft ->
  exists c,
    fid lf = maxFid (lw_of ft vl) /\ writableOffset (lw_of ft vl) <> 0 /\
    disk vl !! (ft, fid lf) = Some c /\
    fid newlf = wrap32 (maxFid (lw_of ft vl) + 1) /\
    maxFid (lw_of ft vl) < fid newlf /\
    lf_fileType newlf = ft /\
    disk vl' = <[(ft, fid newlf) := PutUint64 (keyID newlf) ++ baseIV newlf]>
                 (<[(ft, fid lf) := truncate_to (writableOffset (lw_of ft vl)) c]> (disk vl)) /\
    getCurrentFile (lw_of ft vl') = Some newlf /\
    maxFid (lw_of ft vl') = fid newlf /\
    writableOffset (lw_of ft vl') = lfHeaderSize /\
    numEntriesWritten (lw_of ft vl') = 0 /\
    is_Some (filesMap (lw_of ft vl') !! fid lf) /\
    lw_of (other ft) vl' = lw_of (other ft) vl /\
    logRotates vl' = match ft with
                     | walFile => wrap_int32 (logRotates vl + 1)
                     | vlogFile => logRotates vl
                     end /\
    opt vl' = opt vl /\
    loadingMode newlf = (if bool_decide (ft = walFile) then FileIO
                         else ValueLogLoadingMode (opt vl)) /\
    len (PutUint64 (keyID newlf) ++ baseIV newlf) = lfHeaderSize /\
    exists lf1, like lf1 lf /\
      filesMap (lw_of ft vl')
        = <[fid newlf := newlf]> (<[fid lf := lf1]> (filesMap (lw_of ft vl))).
Proof. exact (rotateFile_inv ft lf vl vl' newlf). Qed.

End FileFacts.

(** ** What [safeRead.Entry] refuses *)

Section ReadFacts.
Context `{E : Externals} {laws : HeaderCodecLaws E}.

#[local] Opaque PutUint32.

(** Decryption succeeds on any bytes once the cipher can be set up, and
    keeps their number. *)
Lemma decrypt_ready lf off (x : list byte) :
  cipher_ready lf off ->
  exists y, (if encryptionEnabled lf then decryptKV lf x off else Ok x) = Ok y /\
            len y = len x.
Proof.
  intros Hc. unfold cipher_ready, encryptionEnabled, decryptKV, dataKey_Data in *.
  destruct (dataKey lf) as [dk|]; [|now exists x].
  destruct Hc as [Hiv [ks Hks]].
  rewrite generateIV_ready by done. cbn [mbind result_bind]. unfold XORBlock. rewrite Hks.
  eexists. split; [reflexivity|apply len_xor_stream].
Qed.

(** The reader up to the checksum, on a header followed by a body of the
    length the header announces. *)
Lemma safeRead_Entry_body lf off h (body tail : list byte) :
  wf_header h -> klen h <= 65536 -> len body = klen h + vlen h ->
  klen h + vlen h < 4294967296 -> cipher_ready lf off ->
  exists k v,
    safeRead_Entry lf off (header_Encode h ++ body ++ tail) =
      ('(crcBuf, rd3) ← eof_to_truncate (ReadFull tail crc32_Size);
       match BytesToU32 crcBuf with
       | None => Panic
       | Some crc =>
           if negb (crc =? Sum32 (header_Encode h ++ body)) then Err errTruncate else
           Ok ({| Key := k; Value := v; UserMeta := h_userMeta h;
                  ExpiresAt := expiresAt h; meta := h_meta h;
                  offset := off; skipVlog := false; hlen := len (header_Encode h) |}, rd3)
       end).
Proof.
  intros Hwf Hk Hb Hlt Hc. pose proof Hwf as ((Hk0 & _) & (Hv0 & _) & _).
  unfold safeRead_Entry. rewrite (DecodeFrom_Encode h _ Hwf).
  cbn [mbind result_bind].
  replace (65536 <? klen h) with false by (symmetry; apply Z.ltb_ge; lia).
  rewrite to_nat_len, take_app_length, drop_app_length.
  rewrite (wrap32_small (klen h + vlen h)) by lia. rewrite <- Hb, ReadFull_app.
  cbn [eof_to_truncate mbind result_bind].
  destruct (decrypt_ready lf off body Hc) as (y & -> & Hy).
  cbn [mbind result_bind].
  rewrite slice_to_in_range, slice_from_in_range by lia.
  cbn [mbind result_bind]. eexists _, _. reflexivity.
Qed.

(** X6.  [safeRead.Entry] answers [errTruncate] for a header followed by
    a key and value of the announced lengths and four checksum bytes that
    are not the CRC of the bytes before them. *)
Theorem safeRead_Entry_bad_checksum lf off h (body rest : list byte) (c : Z) :
  wf_header h -> klen h <= 65536 -> len body = klen h + vlen h ->
  klen h + vlen h < 4294967296 -> cipher_ready lf off ->
  0 <= c < 4294967296 -> c <> Sum32 (header_Encode h ++ body) ->
  safeRead_Entry lf off (header_Encode h ++ body ++ PutUint32 c ++ rest) = Err errTruncate.
Proof.
  intros Hwf Hk Hb Hlt Hc Hrange Hne.
  destruct (safeRead_Entry_body lf off h body (PutUint32 c ++ rest) Hwf Hk Hb Hlt Hc)
    as (k & v & ->).
  unfold crc32_Size. rewrite <- (len_PutUint32 c), ReadFull_app.
  cbn [eof_to_truncate mbind result_bind].
  pose proof (BytesToU32_PutUint32 c [] Hrange) as Hcrc. rewrite app_nil_r in Hcrc.
  rewrite Hcrc. now replace (c =? Sum32 (header_Encode h ++ body)) with false
    by (symmetry; apply Z.eqb_neq; exact Hne).
Qed.

(** [io.ReadFull] with too little input left, after the mapping of
    [io.EOF] to [errTruncate]. *)
Lemma ReadFull_short (rd : list byte) (n : Z) :
  len rd < n ->
  eof_to_truncate (ReadFull rd n) =
    Err (if len rd =? 0 then errTruncate else io_ErrUnexpectedEOF)
  :> result (list byte * list byte).
Proof.
  intros H. unfold ReadFull.
  replace (n <=? len rd) with false by (symmetry; apply Z.leb_gt; lia).
  now destruct (len rd =? 0).
Qed.

(** X7.  A record that ends anywhere after its header and before its
    last checksum byte is refused: with [errTruncate] when the input ends
    exactly behind the header or exactly behind the value, with
    [io.ErrUnexpectedEOF] otherwise. *)
Theorem safeRead_Entry_short_record lf off h (part : list byte) :
  wf_header h -> klen h <= 65536 -> klen h + vlen h < 4294967296 ->
  cipher_ready lf off ->
  len part < klen h + vlen h + crc32_Size ->
  safeRead_Entry lf off (header_Encode h ++ part) =
    Err (if (len part =? 0) || (len part =? klen h + vlen h)
         then errTruncate else io_ErrUnexpectedEOF).
Proof.
  intros Hwf Hk Hlt Hc Hshort. pose proof Hwf as ((Hk0 & _) & (Hv0 & _) & _).
  pose proof (len_nonneg part) as Hp.
  destruct (Z.lt_ge_cases (len part) (klen h + vlen h)) as [Hin|Hout].
  - (* the key and value are cut *)
    unfold safeRead_Entry. rewrite (DecodeFrom_Encode h _ Hwf).
    cbn [mbind result_bind].
    replace (65536 <? klen h) with false by (symmetry; apply Z.ltb_ge; lia).
    rewrite to_nat_len, drop_app_length.
    rewrite (wrap32_small (klen h + vlen h)) by lia.
    rewrite ReadFull_short by lia. cbn [mbind result_bind].
    replace (len part =? klen h + vlen h) with false by (symmetry; apply Z.eqb_neq; lia).
    now rewrite orb_false_r.
  - (* the checksum is cut *)
    set (n := Z.to_nat (klen h + vlen h)).
    assert (Hbody : len (take n part) = klen h + vlen h).
    { unfold len in *. rewrite length_take. lia. }
    assert (Htail : len (drop n part) = len part - (klen h + vlen h)).
    { unfold len in *. rewrite length_drop. lia. }
    rewrite <- (take_drop n part) at 1.
    destruct (safeRead_Entry_body lf off h (take n part) (drop n part) Hwf Hk Hbody Hlt Hc)
      as (k & v & ->).
    unfold crc32_Size in *. rewrite ReadFull_short by lia. cbn [mbind result_bind].
    rewrite Htail.
    destruct (Z.eqb_spec (len part) (klen h + vlen h)) as [Heq|Hne].
    + rewrite Heq, Z.sub_diag, orb_true_r. reflexivity.
    + replace (len part - (klen h + vlen h) =? 0) with false
        by (symmetry; apply Z.eqb_neq; lia).
      replace (len part =? 0) with false by (symmetry; apply Z.eqb_neq; lia).
      reflexivity.
Qed.

(** X8.  [encodeEntry] and [decodeEntry] take an entry whose key is
    longer than 65536 bytes, [safeRead.Entry] does not: it answers
    [errTruncate] for the very record the two others write and read. *)
Theorem safeRead_Entry_long_key lf (e : Entry) off (rest : list byte) :
  wf_entry e -> cipher_ready lf off ->
  65536 < len (Key e) -> len (Key e) + len (Value e) < 4294967296 ->
  (exists l, encodeEntry lf e [] off = (record_bytes lf e off, Ok l)) /\
  (exists d, decodeEntry lf (record_bytes lf e off) off = Ok d /\ same_record d e) /\
  safeRead_Entry lf off (record_bytes lf e off ++ rest) = Err errTruncate.
Proof.
  intros Hwf Hc Hk Hlen.
  pose proof (len_nonneg (Value e)) as Hv.
  split; [|split].
  - pose proof (encodeEntry_ready lf e [] off Hwf Hc) as Hr.
    destruct (record_bytes_of_encode _ _ _ _ _ _ Hr) as [Hb _].
    eexists. rewrite Hr. f_equal. now rewrite Hb.
  - now apply decodeEntry_record.
  - unfold record_bytes. rewrite encodeEntry_ready by done. cbn [fst app].
    unfold safeRead_Entry. rewrite <- !app_assoc.
    rewrite (DecodeFrom_Encode _ _ (entry_header_wf e Hwf)).
    cbn [mbind result_bind entry_header klen].
    rewrite (wrap32_small (len (Key e))) by lia.
    now replace (65536 <? len (Key e)) with true by (symmetry; apply Z.ltb_lt; lia).
Qed.

End ReadFacts.

(** ** More on replay *)

Section ReplayMore.
Context `{E : Externals} `{D : DBInterface}.
Context {St : Type}.

(** [io.ReadFull] with enough input left. *)
Lemma ReadFull_enough (rd : list byte) (n : Z) :
  n <= len rd -> ReadFull rd n = Ok (take (Z.to_nat n) rd, drop (Z.to_nat n) rd).
Proof.
  intros H. unfold ReadFull.
  now replace (n <=? len rd) with true by (symmetry; apply Z.leb_le; lia).
Qed.

(** A record that [safeRead.Entry] accepts takes at least the four bytes of
    its checksum off the input. *)
Lemma safeRead_Entry_consumes lf off (rd rd' : list byte) e :
  safeRead_Entry lf off rd = Ok (e, rd') -> (length rd' + 4 <= length rd)%nat.
Proof.
  unfold safeRead_Entry.
  destruct (header_DecodeFrom rd) as [[h hl]|?|]; cbn [mbind result_bind];
    try discriminate.
  destruct (65536 <? klen h); [discriminate|].
  set (rd1 := drop (Z.to_nat hl) rd).
  destruct (Z.le_gt_cases (wrap32 (klen h + vlen h)) (len rd1));
    [rewrite ReadFull_enough by lia|rewrite ReadFull_short by lia; discriminate].
  cbn [eof_to_truncate mbind result_bind].
  match goal with |- context [if encryptionEnabled lf then ?a else ?b] =>
    destruct (if encryptionEnabled lf then a else b) as [buf|?|] end;
    cbn [mbind result_bind]; try discriminate.
  destruct (slice_to buf (klen h)) as [k|?|]; cbn [mbind result_bind]; try discriminate.
  destruct (slice_from buf (klen h)) as [v|?|]; cbn [mbind result_bind]; try discriminate.
  set (rd2 := drop _ rd1).
  destruct (Z.le_gt_cases crc32_Size (len rd2)) as [Hle|];
    [rewrite ReadFull_enough by lia|rewrite ReadFull_short by lia; discriminate].
  cbn [eof_to_truncate mbind result_bind].
  destruct (BytesToU32 _); [|discriminate].
  destruct (negb _); [discriminate|].
  intros Hok. injection Hok as _ <-.
  assert (length rd2 <= length rd)%nat by (unfold rd2, rd1; rewrite !length_drop; lia).
  unfold crc32_Size, len in *. rewrite length_drop. lia.
Qed.

Lemma iterate_loop_returns lf (fn : @logEntry St) : forall fuel rd off lc veo s,
  (length rd < fuel)%nat -> is_Some (iterate_loop fuel lf fn rd off lc veo s).
Proof.
  induction fuel as [|fuel IH]; intros rd off lc veo s Hf; [lia|].
  cbn [iterate_loop].
  destruct (safeRead_Entry lf off rd) as [[e rd']|err|] eqn:Hr.
  - apply safeRead_Entry_consumes in Hr.
    match goal with |- is_Some (match ?sw with _ => _ end) => destruct sw as [[lc' veo']|] end;
      [|eauto].
    destruct (fn e _ s) as [s' [u|err|]]; [apply IH; lia| |eauto].
    destruct err; eauto.
  - destruct err; eauto.
  - eauto.
Qed.

(** X9.  [iterate] and [replayLog] return, whatever the file holds and
    whatever the handler does: every record [safeRead.Entry] accepts takes at
    least the four bytes of its checksum off the input, so the loop ends
    within as many rounds as the file has bytes. *)
Theorem replay_returns (vl : valueLog) (lf : logFile) (off : Z) (fn : @logEntry St) (s : St) :
  is_Some (iterate vl lf off fn s) /\ is_Some (replayLog lf off fn s vl).
Proof.
  assert (Hit : is_Some (iterate vl lf off fn s)).
  { unfold iterate. destruct (fd_content vl lf) as [c|?|]; eauto.
    cbv zeta. destruct (_ =? len c); eauto. destruct (ReadOnly _); eauto.
    apply iterate_loop_returns. lia. }
  split; [exact Hit|]. unfold replayLog.
  destruct (AssertTrue _) as [u|?|]; destruct (fd_content vl lf) as [c|?|]; eauto.
  destruct Hit as [[s' r] ->]. destruct r as [endOffset|?|]; eauto.
  cbv zeta. destruct (_ =? _); eauto. destruct (negb _); eauto.
  destruct (_ <=? _).
  - destruct (negb _); eauto. destruct (bootstrap lf vl) as [vl' [?|?|]]; eauto.
  - destruct (fd_update _ _ vl) as [vl' [?|?|]]; eauto.
Qed.

(** X10.  [replayLog] leaves the value log, files included, as it found
    it when truncation is not allowed.  In read-only mode it moreover never
    calls the handler: it succeeds when the start offset is the end of the
    file and fails with the wrapped [ErrReplayNeeded] otherwise. *)
Theorem replay_keeps_log_when_not_allowed (vl vl' : valueLog) (lf : logFile) (off : Z)
    (fn : @logEntry St) (s s' : St) (r : result unit) :
  replayLog lf off fn s vl = Some (s', vl', r) ->
  (Truncate (opt vl) = false -> vl' = vl) /\
  (ReadOnly (opt vl) = true ->
     vl' = vl /\ s' = s /\
     forall c, disk vl !! fkey lf = Some c -> lf_fileType lf = walFile ->
       r = if (if off =? 0 then lfHeaderSize else off) =? len c then Ok tt
           else Err (ErrWrapped ErrReplayNeeded)).
Proof.
  unfold replayLog. intros H.
  destruct (AssertTrue _) as [u|?|] eqn:Ha;
    destruct (fd_content vl lf) as [c|?|] eqn:Hc;
    try (injection H as <- <- <-; split; [done|]; intros _; split; [done|]; split; [done|];
         intros c' Hc' Hty; unfold fd_content in Hc; rewrite Hc' in Hc;
         (discriminate ||
          (rewrite bool_decide_eq_true_2 in Ha by exact Hty; discriminate))).
  split.
  - intros Ht. destruct (iterate vl lf off fn s) as [[s1 [e|?|]]|]; try discriminate;
      try (now injection H as _ <- _).
    cbv zeta in H. rewrite Ht in H. cbn [negb] in H.
    destruct (e =? len c); now injection H as _ <- _.
  - intros Hro. unfold iterate in H. rewrite Hc, Hro in H. cbv zeta in H.
    destruct ((if off =? 0 then lfHeaderSize else off) =? len c) eqn:Hoff.
    + rewrite Hoff in H. injection H as <- <- <-. split; [done|]. split; [done|].
      intros c' Hc' _. unfold fd_content in Hc. rewrite Hc' in Hc. injection Hc as ->.
      now rewrite Hoff.
    + injection H as <- <- <-. split; [done|]. split; [done|].
      intros c' Hc' _. unfold fd_content in Hc. rewrite Hc' in Hc. injection Hc as ->.
      now rewrite Hoff.
Qed.

End ReplayMore.

(** X11.  A WAL file that holds committed writes followed by bytes on
    which [safeRead.Entry] reports the end of the input, an unexpected end
    or [errTruncate] (a record cut short, a wrong checksum) is replayed up
    to those bytes: the handler gets the committed entries, and the file is
    cut right behind them. *)
Theorem replay_cuts_unreadable_tail `{E : Externals} `{D : DBInterface}
    (laws : HeaderCodecLaws E) {St : Type}
    (vl : valueLog) (lf : logFile) (fn : @logEntry St) (s : St)
    (hdr : list byte) (cs : list Entry) (junk : list byte) (err : error) :
  lf_fileType lf = walFile ->
  ReadOnly (opt vl) = false -> Truncate (opt vl) = true ->
  len hdr = lfHeaderSize ->
  disk vl !! fkey lf = Some (hdr ++ records lf lfHeaderSize cs ++ junk) ->
  committed cs -> cs <> [] -> Forall readable cs ->
  lfHeaderSize + total_len cs < 4294967296 ->
  (forall o, cipher_ready lf o) ->
  (forall e vp s0, (fn e vp s0).2 = Ok tt) ->
  safeRead_Entry lf (lfHeaderSize + total_len cs) junk = Err err ->
  err = io_EOF \/ err = io_ErrUnexpectedEOF \/ err = errTruncate ->
  exists vl',
    replayLog lf 0 fn s vl =
      Some (run_handler fn (deliveries lf lfHeaderSize cs) s, vl', Ok tt) /\
    disk vl' !! fkey lf = Some (hdr ++ records lf lfHeaderSize cs) /\
    (forall k, k <> fkey lf -> disk vl' !! k = disk vl !! k).
Proof.
  intros Hty Hro Htr Hhdr Hdisk Hc Hne Hr Hb Hcipher Hfn Hjunk Herr.
  pose proof (len_records lf lfHeaderSize cs Hr Hcipher) as Hlc.
  pose proof (total_len_count cs) as Hcc.
  pose proof (len_nonneg junk) as Hj.
  assert (Hcs : 4 <= total_len cs).
  { destruct cs as [|e cs']; [done|]. cbn [total_len].
    pose proof (rec_len_pos e). pose proof (total_len_nonneg cs'). lia. }
  assert (Hlen : len (hdr ++ records lf lfHeaderSize cs) = lfHeaderSize + total_len cs)
    by (rewrite len_app; lia).
  assert (Hit : iterate vl lf 0 fn s =
    Some (run_handler fn (deliveries lf lfHeaderSize cs) s,
          Ok (lfHeaderSize + total_len cs))).
  { assert (Hdrop : forall x, drop (Z.to_nat lfHeaderSize) (hdr ++ x) = x)
      by (intros x; rewrite <- Hhdr, to_nat_len; apply drop_app_length).
    unfold iterate, fd_content. rewrite Hdisk, Hro. cbn [Z.eqb].
    rewrite !len_app, Hhdr, Hlc.
    replace (lfHeaderSize =? lfHeaderSize + (total_len cs + len junk)) with false
      by (symmetry; apply Z.eqb_neq; lia).
    rewrite Hdrop.
    set (rd := records lf lfHeaderSize cs ++ junk).
    assert (Hrd : len rd = total_len cs + len junk)
      by (unfold rd; rewrite len_app; lia).
    replace (S (length rd)) with (length cs + S (length rd - length cs))%nat
      by (unfold len in *; lia).
    generalize (length rd - length cs)%nat. intros j. unfold rd.
    rewrite (iterate_loop_committed lf fn Hcipher Hfn cs Hc)
      by (try done; unfold lfHeaderSize in *; lia).
    cbn [iterate_loop]. rewrite Hjunk.
    destruct cs; [done|].
    destruct Herr as [->|[->| ->]]; reflexivity. }
  unfold replayLog, fd_content. rewrite Hdisk, Hit.
  rewrite bool_decide_eq_true_2 by exact Hty. cbn [AssertTrue].
  rewrite !len_app, Hhdr, Hlc, Htr. cbn [negb].
  destruct (Z.eqb_spec (lfHeaderSize + total_len cs)
              (lfHeaderSize + (total_len cs + len junk))) as [Heq|Hneq].
  - exists vl. split; [reflexivity|].
    assert (junk = []) as ->.
    { destruct junk; [done|]. unfold len in Heq. cbn [length] in Heq. lia. }
    rewrite app_nil_r in Hdisk. now rewrite Hdisk.
  - replace (lfHeaderSize + total_len cs <=? lfHeaderSize) with false
      by (symmetry; apply Z.leb_gt; lia).
    unfold fd_update. rewrite Hdisk. eexists. split; [reflexivity|].
    cbn [disk set_disk]. rewrite lookup_insert_eq. split.
    + f_equal. unfold truncate_to. rewrite app_assoc.
      rewrite <- Hlen. rewrite to_nat_len, take_app_length, (length_app (hdr ++ _)).
      replace (_ - _)%nat with 0%nat by lia.
      apply app_nil_r.
    + intros k Hk. now rewrite lookup_insert_ne.
Qed.

(** ** What [Read] refuses *)

Section ReadGuards.
Context `{E : Externals} `{D : DBInterface}.

(** X12.  [Read] answers [ErrRetry] for a pointer whose file is not in
    the files map, and refuses a pointer into the writable file at or
    beyond the writable offset. *)
Theorem Read_guards (vl : valueLog) (vp : valuePointer) :
  (filesMap (vlog vl) !! Fid vp = None -> Read vl vp = Err ErrRetry) /\
  (is_Some (filesMap (vlog vl) !! Fid vp) ->
   Fid vp = maxFid (vlog vl) -> writableOffset (vlog vl) <= Offset vp ->
   Read vl vp = Err ErrInvalidOffset).
Proof.
  unfold Read, readValueBytes, getFileRLocked, lw_offset. split.
  - intros ->. reflexivity.
  - intros [lf ->] Hmax Hoff.
    replace (Fid vp =? maxFid (vlog vl)) with true by (symmetry; now apply Z.eqb_eq).
    replace (writableOffset (vlog vl) <=? Offset vp) with true
      by (symmetry; now apply Z.leb_le).
    reflexivity.
Qed.

(** X13.  After the last step of [rewrite], a pointer into the rewritten
    file is answered with [ErrRetry] when the file was deleted at once (no
    iterator open); when the deletion was deferred every pointer is read
    exactly as before. *)
Theorem Read_after_rewrite_remove (f : logFile) (vl vl' : valueLog) :
  rewrite_remove f vl = (vl', Ok tt) ->
  (iteratorCount vl = 0 ->
     forall vp, Fid vp = fid f -> Read vl' vp = Err ErrRetry) /\
  (iteratorCount vl <> 0 -> forall vp, Read vl' vp = Read vl vp).
Proof.
  intros Hr. destruct (rewrite_remove_ok f vl vl' Hr) as [Hin Hdisk]. split.
  - intros Hi vp Hfid. rewrite rewrite_remove_idle in Hr by auto.
    injection Hr as <-. unfold Read, readValueBytes, getFileRLocked.
    destruct vl as [vlg wl o d st ch rot iv]. cbn [vlog set_disk set_lw set_filesMap filesMap].
    now rewrite Hfid, lookup_delete_eq.
  - intros Hi vp. rewrite rewrite_remove_busy in Hr by auto.
    injection Hr as <-. now destruct vl.
Qed.

End ReadGuards.
(** ** From [write] to [Read] *)

Section ReadRecord.
Context `{E : Externals} {laws : HeaderCodecLaws E}.

#[local] Opaque PutUint32.

(** An encoding that succeeded had its cipher. *)
Lemma encodeEntry_cipher lf e buf off buf' l :
  encodeEntry lf e buf off = (buf', Ok l) -> cipher_ready lf off.
Proof.
  unfold encodeEntry, cipher_ready, encryptionEnabled, dataKey_Data, generateIV.
  destruct (maxHeaderSize <? _); [discriminate|].
  destruct (dataKey lf) as [dk|]; [|done].
  destruct (Z.eqb_spec (Z.min 12 (len (baseIV lf))) 12) as [Hm|Hm];
    cbn [AssertTrue mbind result_bind]; [|discriminate].
  unfold XORBlock.
  destruct (aes_ctr (Data dk) (take 12 (baseIV lf) ++ PutUint32 off)) as [ks|] eqn:Hks;
    [|discriminate].
  intros _. split; [lia|eauto].
Qed.

(** [Read] of a pointer under which a whole record is found gives the
    value of the entry. *)
Lemma Read_record (vl : valueLog) (vp : valuePointer) (lf : logFile) (e : Entry) :
  readValueBytes vl vp = Ok (record_bytes lf e (Offset vp), lf) ->
  wf_entry e -> cipher_ready lf (Offset vp) ->
  len (Key e) + len (Value e) + 4 < 4294967296 ->
  Read vl vp = Ok (Value e).
Proof.
  intros Hr Hwf Hc Hlen.
  pose proof (len_nonneg (Key e)) as Hk. pose proof (len_nonneg (Value e)) as Hv.
  pose proof (encodeEntry_ready lf e [] (Offset vp) Hwf Hc) as Hrec.
  assert (Hraw : record_bytes lf e (Offset vp) =
     (header_Encode (entry_header e) ++ ENC lf (Offset vp) (Key e ++ Value e))
       ++ PutUint32 (Sum32 (header_Encode (entry_header e)
                              ++ ENC lf (Offset vp) (Key e ++ Value e)))).
  { unfold record_bytes. rewrite Hrec. cbn [fst app]. now rewrite <- app_assoc. }
  set (hdr := header_Encode (entry_header e)) in *.
  set (ct := ENC lf (Offset vp) (Key e ++ Value e)) in *.
  assert (Hct : len ct = len (Key e) + len (Value e))
    by (unfold ct; now rewrite len_ENC, len_app).
  pose proof (len_nonneg hdr) as Hh.
  assert (Hsplit : len (record_bytes lf e (Offset vp)) - 4 = len (hdr ++ ct)).
  { rewrite Hraw, len_app, len_PutUint32. lia. }
  rewrite (Read_checksum_match vl vp _ lf Hr).
  - rewrite Hraw, <- app_assoc.
    pose proof (Decode_Encode _ (ct ++ PutUint32 (Sum32 (hdr ++ ct)))
                  (entry_header_wf e Hwf)) as Hdec.
    fold hdr in Hdec. rewrite Hdec. cbn [mbind result_bind].
    rewrite slice_from_app. cbn [mbind result_bind].
    destruct (decrypt_ENC lf (Offset vp) (Key e ++ Value e)
                (PutUint32 (Sum32 (hdr ++ ct))) Hc) as (tail' & Ht & Hd).
    fold ct in Hd. rewrite Hd. cbn [mbind result_bind entry_header klen vlen].
    rewrite (wrap32_small (len (Key e))), (wrap32_small (len (Value e))),
      (wrap32_small (len (Key e) + len (Value e))) by lia.
    rewrite !len_app, Ht, len_PutUint32, wrap32_small by lia.
    replace (len (Key e) + len (Value e) + 4 <? len (Key e) + len (Value e)) with false
      by (symmetry; apply Z.ltb_ge; lia).
    rewrite <- app_assoc. apply slice_app_mid.
  - rewrite Hraw, len_app, len_PutUint32. pose proof (len_nonneg (hdr ++ ct)). lia.
  - right. rewrite Hsplit, Hraw, to_nat_len, take_app_length, drop_app_length.
    pose proof (BytesToU32_PutUint32 (Sum32 (hdr ++ ct)) [] (wrap32_range _)) as Hcrc.
    now rewrite app_nil_r in Hcrc.
Qed.

End ReadRecord.

Section WriteSteps.
Context `{E : Externals} `{D : DBInterface}.

Lemma other_ne (ft : fileType) : other ft <> ft.
Proof. now destruct ft. Qed.

Lemma ft_cases (ft ft' : fileType) : ft' = ft \/ ft' = other ft.
Proof. destruct ft, ft'; auto. Qed.

(** What a flush that wrote something leaves. *)
Lemma flushBufToFile_obs ft w w' u :
  flushBufToFile ft w = (w', Ok u) ->
  (forall lf, cur_of ft w = Some lf -> lf_fileType lf = ft) ->
  (len (buf_of ft w) = 0 /\ w' = w) \/
  exists lf c wo,
    cur_of ft w = Some lf /\ disk (w_vl w) !! (ft, fid lf) = Some c /\
    wo = wrap32 (writableOffset (lw_of ft (w_vl w)) + wrap32 (len (buf_of ft w))) /\
    writableOffset (lw_of ft (w_vl w)) < wo /\
    disk (w_vl w') = <[(ft, fid lf) := c ++ buf_of ft w]> (disk (w_vl w)) /\
    filesMap (lw_of ft (w_vl w'))
      = <[fid lf := set_size wo lf]> (filesMap (lw_of ft (w_vl w))) /\
    maxFid (lw_of ft (w_vl w')) = maxFid (lw_of ft (w_vl w)) /\
    writableOffset (lw_of ft (w_vl w')) = wo /\
    lw_of (other ft) (w_vl w') = lw_of (other ft) (w_vl w) /\
    opt (w_vl w') = opt (w_vl w) /\
    cur_of ft w' = Some (set_size wo lf) /\
    cur_of (other ft) w' = cur_of (other ft) w /\
    buf_of ft w' = [] /\ buf_of (other ft) w' = buf_of (other ft) w /\
    numEntriesWritten (lw_of ft (w_vl w')) = numEntriesWritten (lw_of ft (w_vl w)).
Proof.
  unfold flushBufToFile. intros H Hty. minv H as w0 s0 H0.
  destruct (len (buf_of ft w) =? 0) eqn:Hlen.
  { apply mret_inv in H as [-> _]. left. split; [now apply Z.eqb_eq|reflexivity]. }
  destruct (cur_of ft w) as [lf|] eqn:Hc; [|apply lift_inv in H as [? _]; discriminate].
  right. specialize (Hty lf eq_refl).
  minv H as u1 s1 H1. apply on_vl_inv in H1 as (vl1 & H1 & ->).
  apply fd_update_inv in H1 as (c & Hc' & ->).
  minv H as u2 s2 H2. minv H as w1 s3 H3. minv H as u3 s4 H4.
  minv H as u4 s5 H5. apply modify_st_inv in H as ->.
  apply Z.ltb_lt in H4.
  unfold fkey in *. rewrite Hty in *.
  exists lf, c, (wrap32 (writableOffset (lw_of ft (w_vl w)) + wrap32 (len (buf_of ft w)))).
  destruct w as [vl wb vb cv cw]. destruct vl as [vlg wl o d st ch rot iv].
  unfold store_lf. cbn [lf_fileType set_size fid]. rewrite Hty.
  destruct ft; cbn in *; repeat split; try done.
Qed.

Lemma like_refl lf : like lf lf.
Proof. repeat split. Qed.

Lemma like_trans a b c : like a b -> like b c -> like a c.
Proof. unfold like. intuition congruence. Qed.

Lemma like_set_size n lf : like (set_size n lf) lf.
Proof. repeat split. Qed.

Lemma cipher_ready_like lf' lf off : like lf' lf -> cipher_ready lf off -> cipher_ready lf' off.
Proof.
  intros (_ & _ & Hk & Hiv & _). unfold cipher_ready. now rewrite Hk, Hiv.
Qed.

Lemma take_drop_app_within {A} (v tail : list A) (off n : Z) :
  0 <= off -> 0 <= n -> off + n <= len v ->
  take (Z.to_nat n) (drop (Z.to_nat off) (v ++ tail))
  = take (Z.to_nat n) (drop (Z.to_nat off) v).
Proof.
  intros Ho Hn Hb. unfold len in Hb.
  rewrite drop_app_le by lia. rewrite take_app_le; [reflexivity|].
  rewrite length_drop. lia.
Qed.

(** A pointer keeps leading to its record when the files of the vlog stay
    what they are and their bytes are only added to. *)
Lemma points_to_transfer (w w' : writer) :
  (forall fid0 lf0, filesMap (vlog (w_vl w)) !! fid0 = Some lf0 ->
     fid0 <= maxFid (vlog (w_vl w)) ->
     (exists lf1, filesMap (vlog (w_vl w')) !! fid0 = Some lf1 /\ like lf1 lf0) /\
     (exists tail, view w' fid0 = view w fid0 ++ tail)) ->
  maxFid (vlog (w_vl w)) <= maxFid (vlog (w_vl w')) ->
  extends w w'.
Proof.
  intros Hfiles Hmax p e (lf & Hm & Hfid & Hty & Hlm & Hle & Hc & Ho & Hl & Hb & Hrec).
  destruct (Hfiles _ _ Hm Hle) as [(lf1 & Hm1 & Hlike) (tail & Hview)].
  pose proof Hlike as (L1 & L2 & L3 & L4 & L5).
  exists lf1. split; [exact Hm1|]. split; [congruence|]. split; [congruence|].
  split; [congruence|]. split; [lia|]. split; [now apply (cipher_ready_like lf1 lf)|].
  split; [exact Ho|]. split; [exact Hl|]. rewrite Hview. split.
  - rewrite len_app. pose proof (len_nonneg tail). lia.
  - rewrite take_drop_app_within by lia. rewrite Hrec.
    symmetry. now apply record_bytes_cipher.
Qed.

Lemma extends_refl w : extends w w.
Proof. now intros p e. Qed.

Lemma extends_trans w1 w2 w3 : extends w1 w2 -> extends w2 w3 -> extends w1 w3.
Proof. intros H1 H2 p e Hp. apply H2, H1, Hp. Qed.

Lemma len_truncate_id (c : list byte) : truncate_to (len c) c = c.
Proof.
  unfold truncate_to. rewrite to_nat_len, firstn_all, Nat.sub_diag. apply app_nil_r.
Qed.

(** A flush keeps the invariant and every pointer. *)
Lemma flush_keeps ft w w' u b :
  flushBufToFile ft w = (w', Ok u) -> winv b w -> b < 4294967296 ->
  winv b w' /\ extends w w' /\ buf_of ft w' = [] /\
  buf_of (other ft) w' = buf_of (other ft) w /\ opt (w_vl w') = opt (w_vl w) /\
  (forall ft', used ft' w' = used ft' w).
Proof.
  intros H (Hcv & Hcw & Hwi & Hb20 & Hmode & Hvm) Hb.
  assert (Hcur : forall ft', cur_ok ft' w) by (intros ft'; destruct ft'; assumption).
  assert (Hty : forall lf, cur_of ft w = Some lf -> lf_fileType lf = ft).
  { intros lf Hc. pose proof (Hcur ft) as Hk. unfold cur_ok in Hk. rewrite Hc in Hk. tauto. }
  destruct (flushBufToFile_obs ft w w' u H Hty)
    as [[Hlen ->]|(lf & c & wo & Hc & Hd & Hwo & Hlt & Hd' & Hm' & Hmx' & Hwo' & Hoth
                    & Hopt & Hc' & Hco' & Hb' & Hbo' & _)].
  { split; [exact (conj Hcv (conj Hcw (conj Hwi (conj Hb20 (conj Hmode Hvm)))))|].
    split; [apply extends_refl|].
    split; [|now repeat split]. destruct (buf_of ft w); [done|].
    unfold len in Hlen. cbn [length] in Hlen. lia. }
  pose proof (Hcur ft) as Hk. unfold cur_ok in Hk. rewrite Hc in Hk.
  destruct Hk as (_ & Hfid & (lf' & Hmlf & Hlike) & (c0 & Hd0 & Hlen0)).
  rewrite Hd in Hd0. injection Hd0 as <-.
  destruct (Hwi ft) as [Hw0 Hw1].
  pose proof (len_nonneg (buf_of ft w)) as Hbuf.
  assert (Hwoeq : wo = writableOffset (lw_of ft (w_vl w)) + len (buf_of ft w)).
  { rewrite Hwo, (wrap32_small (len _)) by lia. apply wrap32_small. lia. }
  assert (Hcur' : forall ft', cur_ok ft' w').
  { intros ft'. destruct (ft_cases ft ft') as [->| ->]; unfold cur_ok.
    - rewrite Hc'. cbn [lf_fileType fid set_size]. split; [now apply Hty|].
      split; [congruence|]. split.
      + exists (set_size wo lf). split; [|apply like_refl].
        rewrite Hm'. apply lookup_insert_eq.
      + exists (c ++ buf_of ft w). split; [rewrite Hd'; apply lookup_insert_eq|].
        rewrite len_app, Hwo', Hwoeq. lia.
    - rewrite Hco', Hoth, Hbo'. pose proof (Hcur (other ft)) as Hk. unfold cur_ok in Hk.
      destruct (cur_of (other ft) w) as [lfo|]; [|exact Hk].
      destruct Hk as (K1 & K2 & K3 & (co & K4 & K5)).
      split; [exact K1|]. split; [exact K2|]. split; [exact K3|].
      exists co. split; [|exact K5]. rewrite Hd'.
      rewrite lookup_insert_ne; [exact K4|]. pose proof (other_ne ft). congruence. }
  split.
  { split; [apply Hcur'|]. split; [apply Hcur'|]. split.
    { intros ft'. destruct (ft_cases ft ft') as [->| ->].
      - rewrite Hwo', Hb'. change (len []) with 0. lia.
      - rewrite Hoth, Hbo'. apply Hwi. }
    split; [exact Hb20|]. split; [now rewrite Hopt|].
    intros lfv Hlfv. destruct ft; cbn [cur_of other] in *.
    - rewrite Hc' in Hlfv. injection Hlfv as <-. cbn [loadingMode set_size].
      now apply Hvm.
    - apply Hvm. congruence. }
  split; [|split; [exact Hb'|split; [exact Hbo'|split; [exact Hopt|]]]].
  2:{ intros ft'. unfold used. destruct (ft_cases ft ft') as [->| ->].
      - rewrite Hwo', Hb', Hwoeq. change (len []) with 0. lia.
      - now rewrite Hoth, Hbo'. }
  (* the pointers *)
  destruct ft.
  - (* the vlog was flushed *)
    cbn [cur_of buf_of other lw_of] in *.
    apply points_to_transfer; [|lia].
    intros fid0 lf0 Hm0 Hle. split.
    + rewrite Hm'. destruct (decide (fid lf = fid0)) as [<-|Hne].
      * rewrite lookup_insert_eq. eexists; split; [reflexivity|].
        rewrite Hmlf in Hm0. injection Hm0 as <-.
        unfold like in *. cbn [set_size fid lf_fileType dataKey baseIV loadingMode].
        intuition congruence.
      * rewrite lookup_insert_ne by done. exists lf0. split; [exact Hm0|apply like_refl].
    + exists []. rewrite app_nil_r. unfold view. rewrite Hd', Hc, Hc', Hb'.
      cbn [fid set_size]. destruct (Z.eqb_spec (fid lf) fid0) as [<-|Hne].
      * rewrite lookup_insert_eq, Hd. cbn [default]. now rewrite app_nil_r.
      * rewrite lookup_insert_ne by congruence. reflexivity.
  - (* the WAL was flushed *)
    cbn [cur_of buf_of other lw_of] in *.
    apply points_to_transfer; [|rewrite Hoth; lia].
    intros fid0 lf0 Hm0 Hle. split.
    + rewrite Hoth. exists lf0. split; [exact Hm0|apply like_refl].
    + exists []. rewrite app_nil_r. unfold view. rewrite Hd', Hco', Hbo'.
      now rewrite lookup_insert_ne by discriminate.
Qed.

(** [set_buf] touches the buffer only. *)
Lemma cur_ok_set_buf ft ft' x w :
  cur_ok ft' w -> (cur_of ft w = None -> x = []) -> cur_ok ft' (set_buf ft x w).
Proof.
  unfold cur_ok. destruct ft, ft'; cbn [cur_of set_buf w_vl buf_of curVlogF curWALF vbuf wbuf];
    try done.
  - destruct (curVlogF w); [done|]. intros [? _] Hx. split; [done|]. now apply Hx.
  - destruct (curWALF w); [done|]. intros [? _] Hx. split; [done|]. now apply Hx.
Qed.

(** Bytes added to a buffer keep the invariant, within a larger bound, and
    every pointer. *)
Lemma append_keeps ft w x b b' :
  winv b w -> is_Some (cur_of ft w) -> b <= b' ->
  writableOffset (lw_of ft (w_vl w)) + len (buf_of ft w) + len x <= b' ->
  winv b' (set_buf ft (buf_of ft w ++ x) w) /\
  extends w (set_buf ft (buf_of ft w ++ x) w).
Proof.
  intros (Hcv & Hcw & Hwi & Hb20 & Hmode & Hvm) [lf Hlf] Hbb Hfit. split.
  - split; [apply cur_ok_set_buf; [exact Hcv|intros; congruence]|].
    split; [apply cur_ok_set_buf; [exact Hcw|intros; congruence]|]. split.
    { intros ft'. destruct (Hwi ft') as [H0 H1].
      destruct ft, ft'; cbn [set_buf w_vl buf_of vbuf wbuf] in *;
        rewrite ?len_app; split; lia. }
    split; [lia|]. split; [now destruct ft|].
    intros lfv Hv. apply Hvm. now destruct ft.
  - apply points_to_transfer; [|destruct ft; cbn; lia].
    intros fid0 lf0 Hm0 Hle. split.
    + exists lf0. split; [now destruct ft|apply like_refl].
    + unfold view. destruct ft; cbn [set_buf w_vl curVlogF vbuf buf_of].
      * destruct (curVlogF w) as [lfc|]; [|exists []; rewrite ?app_nil_r; reflexivity].
        destruct (fid lfc =? fid0).
        -- exists x. now rewrite !app_assoc.
        -- exists []. rewrite ?app_nil_r. reflexivity.
      * exists []. rewrite ?app_nil_r. reflexivity.
Qed.

(** The pointer [write] makes for a record it has just put into the vlog
    buffer leads to that record. *)
Lemma fresh_pointer (w : writer) (e : Entry) (lf : logFile) (bv : list byte) (pl b : Z) :
  winv b w -> b < 4294967296 ->
  curVlogF w = Some lf ->
  encodeEntry lf (vlog_entry e) (vbuf w) (pOffset w) = (bv, Ok pl) ->
  writableOffset (vlog (w_vl w)) + len (vbuf w) + pl < 4294967296 ->
  bv = vbuf w ++ record_bytes lf (vlog_entry e) (pOffset w) /\
  len (record_bytes lf (vlog_entry e) (pOffset w)) = pl /\
  points_to (set_buf vlogFile bv w)
    {| Fid := fid lf; Offset := pOffset w; Len := wrap32 pl |} e.
Proof.
  intros (Hcv & Hcw & Hwi & Hb20 & Hmode & Hvm) Hb Hlf He Hfit.
  destruct (record_bytes_of_encode _ _ _ _ _ _ He) as [-> Hlen].
  split; [reflexivity|]. split; [exact Hlen|].
  destruct (encodeEntry_inv _ _ _ _ _ _ He) as (_ & Hpl & _).
  pose proof (encodeEntry_cipher _ _ _ _ _ _ He) as Hc.
  unfold cur_ok in Hcv. cbn [cur_of] in Hcv. rewrite Hlf in Hcv.
  destruct Hcv as (Hty & Hfid & (lf' & Hm & Hlike) & (c & Hd & Hlc)).
  destruct (Hwi vlogFile) as [Hw0 Hw1]. cbn [lw_of buf_of] in *.
  pose proof (len_nonneg (vbuf w)) as Hvb.
  pose proof (len_nonneg (header_Encode (entry_header (vlog_entry e)))).
  pose proof (len_nonneg (Key (vlog_entry e))). pose proof (len_nonneg (Value (vlog_entry e))).
  assert (Hoff : pOffset w = len c + len (vbuf w)).
  { unfold pOffset, lw_offset. rewrite (wrap32_small (len _)) by lia.
    rewrite wrap32_small by lia. lia. }
  pose proof Hlike as (L1 & L2 & L3 & L4 & L5).
  assert (Hview : view (set_buf vlogFile
                    (vbuf w ++ record_bytes lf (vlog_entry e) (pOffset w)) w) (fid lf)
                  = (c ++ vbuf w) ++ record_bytes lf (vlog_entry e) (pOffset w)).
  { unfold view. cbn [set_buf w_vl curVlogF vbuf]. rewrite Hlf, Hd, Z.eqb_refl.
    cbn [default]. now rewrite !app_assoc. }
  exists lf'. cbn [Fid Offset Len]. rewrite Hview. cbn [set_buf w_vl].
  split; [exact Hm|]. split; [exact L1|]. split; [congruence|].
  split; [rewrite L5; now apply Hvm|]. split; [lia|].
  split; [now apply (cipher_ready_like lf' lf)|].
  rewrite wrap32_small by lia.
  split; [lia|]. split; [lia|]. split.
  - rewrite !len_app. lia.
  - rewrite (record_bytes_cipher lf lf') by assumption.
    set (rb := record_bytes lf (vlog_entry e) (pOffset w)) in *.
    rewrite Hoff, <- len_app, to_nat_len, drop_app_length, <- Hlen, to_nat_len.
    apply firstn_all.
Qed.

End WriteSteps.

Section WriteRun.
Context `{E : Externals} `{D : DBInterface} {laws : HeaderCodecLaws E}.

Lemma entry_size_bounds (e : Entry) :
  wf_entry e -> 0 <= maxHeaderSize /\ 4 <= entry_size e.
Proof.
  intros Hwf. pose proof (Encode_size _ (entry_header_wf e Hwf)) as Hs.
  pose proof (len_nonneg (header_Encode (entry_header e))).
  pose proof (len_nonneg (Key e)). pose proof (len_nonneg (Value e)).
  unfold entry_size, crc32_Size. lia.
Qed.

Lemma winv_mono b b' w : winv b w -> b <= b' -> winv b' w.
Proof.
  intros (Hcv & Hcw & Hwi & Hb20 & Hmode & Hvm) Hle.
  refine (conj Hcv (conj Hcw (conj _ (conj _ (conj Hmode Hvm))))); [|lia].
  intros ft. destruct (Hwi ft). split; lia.
Qed.

(** The first vlog file, made from within [write]. *)
Lemma create_keeps w vl' lf b :
  winv b w -> size (filesMap (vlog (w_vl w))) = 0%nat ->
  createLogFile 0 vlogFile (w_vl w) = (vl', Ok lf) ->
  winv b (set_cur vlogFile (Some lf) (set_vl vl' w)) /\
  extends w (set_cur vlogFile (Some lf) (set_vl vl' w)) /\
  opt vl' = opt (w_vl w) /\
  used vlogFile (set_cur vlogFile (Some lf) (set_vl vl' w)) = lfHeaderSize /\
  used walFile (set_cur vlogFile (Some lf) (set_vl vl' w)) = used walFile w.
Proof.
  intros (Hcv & Hcw & Hwi & Hb20 & Hmode & Hvm) Hsize Hcr.
  apply map_size_empty_inv in Hsize.
  destruct (createLogFile_inv 0 vlogFile (w_vl w)) as [_ Hpost].
  destruct (Hpost _ _ Hcr)
    as (Hnone & _ & Hfid & Hty & _ & Hlm & Hdisk & Hlen & Hlw & Hcur & Hoth & Hopt & _).
  cbn [lw_of other] in *.
  assert (Hvb : vbuf w = []).
  { unfold cur_ok in Hcv. cbn [cur_of lw_of buf_of] in Hcv.
    destruct (curVlogF w) as [lf0|]; [|apply Hcv].
    destruct Hcv as (_ & _ & (lf' & Hm & _) & _).
    rewrite Hsize, lookup_empty in Hm. discriminate. }
  rewrite bool_decide_eq_false_2 in Hlm by discriminate.
  split; [|split; [|split; [exact Hopt|split]]].
  - unfold winv, cur_ok, within.
    cbn [cur_of set_cur set_vl w_vl lw_of buf_of curVlogF curWALF vbuf wbuf].
    split.
    { split; [exact Hty|]. rewrite Hlw. cbn [maxFid filesMap writableOffset].
      split; [exact Hfid|]. split.
      - exists lf. rewrite Hfid. split; [apply lookup_insert_eq|apply like_refl].
      - eexists. rewrite Hdisk, Hfid. split; [apply lookup_insert_eq|exact Hlen]. }
    split.
    { unfold cur_ok in Hcw. cbn [cur_of lw_of buf_of] in Hcw. rewrite Hoth.
      destruct (curWALF w) as [lfw|]; [|exact Hcw].
      destruct Hcw as (K1 & K2 & K3 & (c & K4 & K5)).
      split; [exact K1|]. split; [exact K2|]. split; [exact K3|].
      exists c. split; [|exact K5]. rewrite Hdisk. now rewrite lookup_insert_ne. }
    split.
    { intros ft. destruct ft; cbn [lw_of buf_of vbuf wbuf].
      - rewrite Hlw, Hvb. cbn [writableOffset]. unfold lfHeaderSize.
        change (len []) with 0. lia.
      - rewrite Hoth. apply (Hwi walFile). }
    split; [exact Hb20|]. split; [now rewrite Hopt|].
    intros lf0 Hlf0. injection Hlf0 as <-. now rewrite Hlm.
  - intros p e (lf0 & Hm & _). rewrite Hsize, lookup_empty in Hm. discriminate.
  - unfold used. cbn [set_cur set_vl w_vl lw_of buf_of vbuf]. rewrite Hlw, Hvb.
    cbn [writableOffset]. change (len []) with 0. lia.
  - unfold used. cbn [set_cur set_vl w_vl lw_of buf_of wbuf]. now rewrite Hoth.
Qed.

(** The entry counter plays no part. *)
Lemma addnum_keeps ft n w w' u b :
  add_numEntriesWritten ft n w = (w', Ok u) -> winv b w ->
  winv b w' /\ extends w w' /\ opt (w_vl w') = opt (w_vl w) /\
  vbuf w' = vbuf w /\ wbuf w' = wbuf w.
Proof.
  unfold add_numEntriesWritten. intros H Hinv.
  apply on_vl_inv in H as (vl' & H & ->). apply modify_st_inv in H as ->.
  destruct w as [vl wb vb cv cw]. destruct vl as [vlg wl o d st ch rot iv].
  destruct vlg as [fm mx wo ne ni fd], wl as [fm0 mx0 wo0 ne0 ni0 fd0].
  destruct Hinv as (Hcv & Hcw & Hwi & Hb20 & Hmode & Hvm).
  assert (Hwi' : forall x y, within b (mkWriter (mkValueLog
            (mkLogWrapper fm mx wo x ni fd) (mkLogWrapper fm0 mx0 wo0 y ni0 fd0)
            o d st ch rot iv) wb vb cv cw)).
  { intros x y ft'. destruct ft'; [apply (Hwi vlogFile)|apply (Hwi walFile)]. }
  destruct ft;
    (split; [exact (conj Hcv (conj Hcw (conj (Hwi' _ _) (conj Hb20 (conj Hmode Hvm)))))|]);
    (split; [intros p e Hp; exact Hp|]); now repeat split.
Qed.

Lemma like_sym a b : like a b -> like b a.
Proof. unfold like. intuition congruence. Qed.

(** A rotation of a file whose buffer is empty. *)
Lemma rotate_keeps ft w w' u b :
  rotate_cur ft w = (w', Ok u) -> winv b w -> buf_of ft w = [] ->
  winv b w' /\ extends w w' /\ opt (w_vl w') = opt (w_vl w) /\
  vbuf w' = vbuf w /\ wbuf w' = wbuf w.
Proof.
  unfold rotate_cur. intros H (Hcv & Hcw & Hwi & Hb20 & Hmode & Hvm) Hbuf.
  assert (Hcur : forall ft', cur_ok ft' w) by (intros ft'; destruct ft'; assumption).
  minv H as w0 s0 H0.
  destruct (cur_of ft w) as [lf|] eqn:Hc; [|apply lift_inv in H as [? _]; discriminate].
  minv H as newlf s1 Hrot. apply on_vl_inv in Hrot as (vl' & Hrot & ->).
  apply modify_st_inv in H as ->.
  pose proof (Hcur ft) as Hk. unfold cur_ok in Hk. rewrite Hc in Hk.
  destruct Hk as (Hty & Hfid & (lf' & Hmlf & Hlike) & (c & Hd & Hlenc)).
  destruct (rotateFile_inv _ _ _ _ _ Hrot Hty)
    as (c' & _ & Hwo0 & Hd' & Hnf & Hlt & Hnt & Hdisk & Hgc & Hmx & Hwo & _ & _ & Hoth & _
        & Hopt & Hnlm & Hnlen & (lf1 & Hlk1 & Hmap)).
  rewrite Hd in Hd'. injection Hd' as <-.
  rewrite <- Hlenc, len_truncate_id, (insert_id _ _ _ Hd) in Hdisk.
  set (w' := set_cur ft (Some newlf) (set_vl vl' w)).
  assert (Hvl : w_vl w' = vl') by (now destruct ft).
  assert (Hcn : cur_of ft w' = Some newlf) by (now destruct ft).
  assert (Hco : cur_of (other ft) w' = cur_of (other ft) w) by (now destruct ft).
  assert (Hbf : forall ft', buf_of ft' w' = buf_of ft' w) by (intros ft'; now destruct ft, ft').
  assert (Hcur' : forall ft', cur_ok ft' w').
  { intros ft'. destruct (ft_cases ft ft') as [->| ->]; unfold cur_ok.
    - rewrite Hcn, Hvl. split; [exact Hnt|]. split; [now rewrite Hmx|]. split.
      + exists newlf. split; [rewrite Hmap; apply lookup_insert_eq|apply like_refl].
      + eexists. rewrite Hdisk. split; [apply lookup_insert_eq|]. now rewrite Hwo.
    - rewrite Hco, Hvl, Hoth, Hbf. pose proof (Hcur (other ft)) as Hk. unfold cur_ok in Hk.
      destruct (cur_of (other ft) w) as [lfo|]; [|exact Hk].
      destruct Hk as (K1 & K2 & K3 & (co & K4 & K5)).
      split; [exact K1|]. split; [exact K2|]. split; [exact K3|].
      exists co. split; [|exact K5]. rewrite Hdisk.
      rewrite lookup_insert_ne; [exact K4|]. pose proof (other_ne ft). congruence. }
  split.
  { split; [apply Hcur'|]. split; [apply Hcur'|]. split.
    { intros ft'. rewrite Hvl, Hbf. destruct (ft_cases ft ft') as [->| ->].
      - rewrite Hwo, Hbuf. unfold lfHeaderSize. change (len []) with 0. lia.
      - rewrite Hoth. apply Hwi. }
    split; [exact Hb20|]. split; [now rewrite Hvl, Hopt|].
    intros lfv Hlfv. destruct ft; cbn [cur_of other] in *.
    - rewrite Hcn in Hlfv. injection Hlfv as <-.
      rewrite bool_decide_eq_false_2 in Hnlm by discriminate. now rewrite Hnlm.
    - apply Hvm. congruence. }
  split; [|rewrite Hvl; split; [exact Hopt|split; [apply (Hbf vlogFile)|apply (Hbf walFile)]]].
  destruct ft.
  - cbn [cur_of buf_of other lw_of] in *.
    apply points_to_transfer; [|rewrite Hvl; lia].
    intros fid0 lf0 Hm0 Hle. rewrite Hvl.
    assert (Hne : fid newlf <> fid0) by lia. split.
    + rewrite Hmap, lookup_insert_ne by exact Hne.
      destruct (decide (fid lf = fid0)) as [<-|Hne2].
      * rewrite lookup_insert_eq. exists lf1. split; [reflexivity|].
        rewrite Hmlf in Hm0. injection Hm0 as <-.
        eapply like_trans; [exact Hlk1|]. now apply like_sym.
      * rewrite lookup_insert_ne by exact Hne2. exists lf0. split; [exact Hm0|apply like_refl].
    + exists []. rewrite app_nil_r. unfold view. rewrite Hvl, Hc, Hcn, Hdisk.
      rewrite lookup_insert_ne by congruence.
      rewrite (proj2 (Z.eqb_neq _ _) Hne), Hbuf. now destruct (fid lf =? fid0).
  - cbn [cur_of buf_of other lw_of] in *.
    apply points_to_transfer; [|rewrite Hvl, Hoth; lia].
    intros fid0 lf0 Hm0 Hle. rewrite Hvl, Hoth. split.
    + exists lf0. split; [exact Hm0|apply like_refl].
    + exists []. rewrite app_nil_r. unfold view. rewrite Hvl, Hco, Hdisk.
      rewrite lookup_insert_ne by discriminate.
      pose proof (Hbf vlogFile) as Hv. cbn [buf_of] in Hv. now rewrite Hv.
Qed.

(** [toDisk] keeps the invariant and every pointer, and leaves both
    buffers empty. *)
Lemma toDisk_keeps w w' u b :
  toDisk w = (w', Ok u) -> winv b w -> b < 4294967296 ->
  winv b w' /\ extends w w' /\ opt (w_vl w') = opt (w_vl w) /\
  vbuf w' = [] /\ wbuf w' = [].
Proof.
  unfold toDisk, flushWrites. intros H Hinv Hb.
  minv H as u0 w2 Hfl. minv Hfl as u1 w1 Hf1.
  destruct (flush_keeps _ _ _ _ _ Hf1 Hinv Hb) as (I1 & X1 & B1 & Bo1 & O1 & _).
  destruct (flush_keeps _ _ _ _ _ Hfl I1 Hb) as (I2 & X2 & B2 & Bo2 & O2 & _).
  cbn [buf_of other] in *.
  minv H as w3 s3 H3.
  minv H as u2 w4 Hr1.
  assert (R1 : winv b w4 /\ extends w2 w4 /\ opt (w_vl w4) = opt (w_vl w2) /\
               vbuf w4 = vbuf w2 /\ wbuf w4 = wbuf w2).
  { destruct (over_threshold _ _).
    - exact (rotate_keeps _ _ _ _ _ Hr1 I2 B2).
    - apply mret_inv in Hr1 as [-> _]. split; [exact I2|]. split; [apply extends_refl|].
      now repeat split. }
  destruct R1 as (I3 & X3 & O3 & V3 & W3).
  minv H as w5 s5 H5.
  assert (R2 : winv b w' /\ extends w4 w' /\ opt (w_vl w') = opt (w_vl w4) /\
               vbuf w' = vbuf w4 /\ wbuf w' = wbuf w4).
  { destruct (over_threshold (opt (w_vl w4)) (wal (w_vl w4))).
    - apply (rotate_keeps _ _ _ _ _ H I3). cbn [buf_of]. congruence.
    - apply mret_inv in H as [-> _]. split; [exact I3|]. split; [apply extends_refl|].
      now repeat split. }
  destruct R2 as (I4 & X4 & O4 & V4 & W4).
  split; [exact I4|]. split.
  { eapply extends_trans; [exact X1|]. eapply extends_trans; [exact X2|].
    eapply extends_trans; [exact X3|exact X4]. }
  split; [congruence|]. split; congruence.
Qed.

End WriteRun.

Section WriteRead.
Context `{E : Externals} `{D : DBInterface} {laws : HeaderCodecLaws E}.

(** One run of the loop body of [write]. *)
Lemma writeEntry_keeps r e w w' r' b :
  writeEntry r e w = (w', Ok r') -> winv b w -> wf_entry e ->
  b + entry_size e < 4294967296 ->
  winv (b + entry_size e) w' /\ extends w w' /\ opt (w_vl w') = opt (w_vl w) /\
  exists p, r_Ptrs r' = r_Ptrs r ++ [p] /\
    (skipVlog e = false -> shouldWriteValueToLSM e = false -> points_to w' p e).
Proof.
  intros H Hinv Hwf Hb.
  destruct (entry_size_bounds e Hwf) as [Hmh Hsz].
  set (b' := b + entry_size e) in *.
  assert (Hbb : b <= b') by (unfold b'; lia).
  destruct (skipVlog e) eqn:Hs.
  { rewrite writeEntry_skipped in H by exact Hs. injection H as <- <-.
    split; [exact (winv_mono _ _ _ Hinv Hbb)|]. split; [apply extends_refl|].
    split; [reflexivity|]. exists zeroVP. split; [reflexivity|]. discriminate. }
  pose proof Hinv as (_ & _ & Hwi & _).
  destruct (Hwi vlogFile) as [Hv0 Hv1]. destruct (Hwi walFile) as [Hw0 Hw1].
  cbn [lw_of buf_of] in *.
  unfold writeEntry in H. rewrite Hs in H.
  minv H as w0 s0 H0.
  minv H as l wA Henc.
  apply encode_into_inv in Henc as (lfw & bw & Hcw & Hew & ->).
  destruct (record_bytes_of_encode _ _ _ _ _ _ Hew) as [-> Hlw].
  destruct (encodeEntry_inv _ _ _ _ _ _ Hew) as (Hhw & Hl & _).
  pose proof (len_nonneg (header_Encode (entry_header e))) as Hhn.
  pose proof (len_nonneg (Key e)) as Hkn. pose proof (len_nonneg (Value e)) as Hvn.
  assert (Hle : l <= entry_size e) by (unfold entry_size, crc32_Size; lia).
  cbn [buf_of] in *.
  destruct (append_keeps walFile w (record_bytes lfw e
              (wrap32 (lw_offset (wal (w_vl w)) + wrap32 (len (wbuf w))))) b b' Hinv)
    as [IA XA]; [now exists lfw|exact Hbb|cbn [lw_of buf_of]; lia|].
  cbn [buf_of] in IA, XA.
  set (wA := set_buf walFile _ w) in *.
  assert (UA : used vlogFile wA <= b) by (unfold used, wA; cbn; lia).
  minv H as wfid s1 Hfid. apply cur_fid_inv in Hfid as (-> & lfw' & Hcw' & ->).
  minv H as w1 s2 H2. minv H as u1 s3 Hassert.
  minv H as u2 wB Hflush.
  assert (HB : winv b' wB /\ extends wA wB /\ opt (w_vl wB) = opt (w_vl w) /\
               used vlogFile wB <= b).
  { destruct (ValueLogFileSize (opt (w_vl wA)) <? len (wbuf wA)).
    - destruct (flush_keeps _ _ _ _ _ Hflush IA Hb) as (I & X & _ & _ & O & U).
      split; [exact I|]. split; [exact X|]. split; [exact O|]. now rewrite U.
    - apply mret_inv in Hflush as [-> _]. split; [exact IA|]. split; [apply extends_refl|].
      now split. }
  destruct HB as (IB & XB & OB & UB). clear Hflush Hassert.
  destruct (shouldWriteValueToLSM e) eqn:Hlsm.
  { apply mret_inv in H as [<- ->]. cbn [r_Ptrs]. split; [exact IB|].
    split; [exact (extends_trans _ _ _ XA XB)|]. split; [exact OB|].
    exists zeroVP. split; [reflexivity|]. discriminate. }
  minv H as w2 s4 H4.
  minv H as u3 wC Hcreate.
  assert (HC : winv b' wC /\ extends wB wC /\ opt (w_vl wC) = opt (w_vl w) /\
               used vlogFile wC <= b).
  { destruct (bool_decide (size (filesMap (vlog (w_vl wB))) = 0%nat)) eqn:Hsize.
    - apply bool_decide_eq_true in Hsize.
      minv Hcreate as lf s5 Hcr. apply wrap_err_inv in Hcr.
      apply on_vl_inv in Hcr as (vl' & Hcr & ->).
      apply modify_st_inv in Hcreate as ->.
      destruct (create_keeps _ _ _ _ IB Hsize Hcr) as (I & X & O & U & _).
      split; [exact I|]. split; [exact X|].
      split; [cbn [set_cur set_vl w_vl]; congruence|].
      rewrite U. destruct Hinv as (_ & _ & _ & H20 & _). unfold lfHeaderSize. lia.
    - apply mret_inv in Hcreate as [-> _]. split; [exact IB|]. split; [apply extends_refl|].
      now split. }
  destruct HC as (IC & XC & OC & UC). clear Hcreate.
  minv H as pfid s6 Hpfid. apply cur_fid_inv in Hpfid as (-> & lfv & Hcv & ->).
  minv H as w3 s7 H7.
  minv H as pl wD Henc2.
  apply encode_into_inv in Henc2 as (lfv' & bv & Hcv' & Hev & ->).
  assert (lfv' = lfv) as -> by congruence. cbn [cur_of buf_of] in *.
  destruct (encodeEntry_inv _ _ _ _ _ _ Hev) as (Hhv & Hpl & _).
  change (Key (set_meta e (clear_txn_bits (meta e)))) with (Key e) in Hpl.
  change (Value (set_meta e (clear_txn_bits (meta e)))) with (Value e) in Hpl.
  pose proof (len_nonneg (header_Encode (entry_header (set_meta e (clear_txn_bits (meta e))))))
    as Hhn2.
  assert (Hple : pl <= entry_size e) by (unfold entry_size, crc32_Size; lia).
  unfold used in UC. cbn [lw_of buf_of] in UC.
  destruct (fresh_pointer wC e lfv bv pl b' IC Hb Hcv Hev) as (Hbv & Hlen & Hpt); [lia|].
  destruct (append_keeps vlogFile wC (record_bytes lfv (vlog_entry e) (pOffset wC)) b' b' IC)
    as [ID XD]; [now exists lfv|lia|cbn [lw_of buf_of]; lia|].
  cbn [buf_of] in ID, XD. rewrite <- Hbv in ID, XD.
  minv H as w4 s8 H8.
  minv H as u4 wE Hflush2.
  assert (HE : winv b' wE /\ extends (set_buf vlogFile bv wC) wE /\
               opt (w_vl wE) = opt (w_vl w)).
  { destruct (ValueLogFileSize _ <? _).
    - destruct (flush_keeps _ _ _ _ _ Hflush2 ID Hb) as (I & X & _ & _ & O & _).
      split; [exact I|]. split; [exact X|]. rewrite O. exact OC.
    - apply mret_inv in Hflush2 as [-> _]. split; [exact ID|]. split; [apply extends_refl|].
      exact OC. }
  destruct HE as (IE & XE & OE).
  apply mret_inv in H as [<- ->]. cbn [r_Ptrs].
  split; [exact IE|]. split.
  { eapply extends_trans; [exact XA|]. eapply extends_trans; [exact XB|].
    eapply extends_trans; [exact XC|]. eapply extends_trans; [exact XD|exact XE]. }
  split; [exact OE|].
  eexists. split; [reflexivity|]. intros _ _. apply XE. exact Hpt.
Qed.

Lemma entries_size_nonneg (es : list Entry) : Forall wf_entry es -> 0 <= entries_size es.
Proof.
  induction 1 as [|e es He _ IH]; cbn [entries_size foldr]; [lia|].
  destruct (entry_size_bounds e He). fold (entries_size es). lia.
Qed.

Lemma batch_size_nonneg (reqs : list request) :
  Forall (fun b => Forall wf_entry (Entries b)) reqs -> 0 <= batch_size reqs.
Proof.
  induction 1 as [|b reqs Hb _ IH]; cbn [batch_size foldr]; [lia|].
  fold (batch_size reqs). change (worst_case_size b) with (entries_size (Entries b)).
  pose proof (entries_size_nonneg _ Hb). lia.
Qed.

Lemma entries_size_each (es : list Entry) :
  Forall wf_entry es -> Forall (fun e => wf_entry e /\ entry_size e <= entries_size es) es.
Proof.
  induction 1 as [|e es He Hes IH]; [constructor|].
  cbn [entries_size foldr]. fold (entries_size es).
  pose proof (entries_size_nonneg _ Hes). destruct (entry_size_bounds e He).
  constructor; [split; [exact He|lia]|].
  eapply Forall_impl; [exact IH|]. cbn beta. intros x [? ?]. split; [done|lia].
Qed.

Lemma batch_size_each (reqs : list request) :
  Forall (fun b => Forall wf_entry (Entries b)) reqs ->
  Forall (fun b => Forall (fun e => wf_entry e /\ entry_size e <= batch_size reqs) (Entries b))
    reqs.
Proof.
  induction 1 as [|b reqs Hb Hreqs IH]; [constructor|].
  cbn [batch_size foldr]. fold (batch_size reqs).
  change (worst_case_size b) with (entries_size (Entries b)).
  pose proof (entries_size_nonneg _ Hb). pose proof (batch_size_nonneg _ Hreqs).
  constructor.
  - eapply Forall_impl; [exact (entries_size_each _ Hb)|]. cbn beta.
    intros x [? ?]. split; [done|lia].
  - eapply Forall_impl; [exact IH|]. cbn beta. intros r Hr.
    eapply Forall_impl; [exact Hr|]. cbn beta. intros x [? ?]. split; [done|lia].
Qed.

Lemma Forall2_with {A B} (P Q : A -> B -> Prop) (R : A -> Prop) (l : list A) (k : list B) :
  Forall2 P l k -> Forall R l -> (forall x y, R x -> P x y -> Q x y) -> Forall2 Q l k.
Proof.
  intros H2 H1 Himp. induction H2 as [|x y l k Hxy _ IH]; [constructor|].
  inversion H1; subst. constructor; [now apply Himp|now apply IH].
Qed.

(** The loop over the entries of a request. *)
Lemma writeEntries_keeps (es : list Entry) : forall r w w' r' b,
  writeEntries r es w = (w', Ok r') -> winv b w -> Forall wf_entry es ->
  b + entries_size es < 4294967296 ->
  winv (b + entries_size es) w' /\ extends w w' /\ opt (w_vl w') = opt (w_vl w) /\
  exists ps, r_Ptrs r' = r_Ptrs r ++ ps /\
    Forall2 (fun e p => skipVlog e = false -> shouldWriteValueToLSM e = false ->
                        points_to w' p e) es ps.
Proof.
  induction es as [|e es IH]; intros r w w' r' b H Hinv Hwf Hb.
  - cbn [writeEntries] in H. apply mret_inv in H as [-> ->].
    cbn [entries_size foldr]. rewrite Z.add_0_r. split; [exact Hinv|].
    split; [apply extends_refl|]. split; [reflexivity|].
    exists []. split; [now rewrite app_nil_r|constructor].
  - cbn [writeEntries] in H. minv H as r1 w1 He.
    inversion Hwf as [|? ? Hwe Hwes]; subst.
    cbn [entries_size foldr] in *. fold (entries_size es) in *.
    pose proof (entries_size_nonneg _ Hwes) as Hn.
    destruct (writeEntry_keeps _ _ _ _ _ b He Hinv Hwe) as (I1 & X1 & O1 & p & Hp & Hpt);
      [lia|].
    destruct (IH _ _ _ _ _ H I1 Hwes) as (I2 & X2 & O2 & ps & Hps & Hall); [lia|].
    rewrite Z.add_assoc. split; [exact I2|]. split; [exact (extends_trans _ _ _ X1 X2)|].
    split; [congruence|]. exists (p :: ps). split.
    + rewrite Hps, Hp. now rewrite <- app_assoc.
    + constructor; [|exact Hall]. intros Hs Hl. apply X2. now apply Hpt.
Qed.

(** One request. *)
Lemma writeRequest_keeps req w w' req' b :
  writeRequest req w = (w', Ok req') -> winv b w -> Forall wf_entry (Entries req) ->
  b + worst_case_size req < 4294967296 ->
  winv (b + worst_case_size req) w' /\ extends w w' /\ opt (w_vl w') = opt (w_vl w) /\
  Forall2 (fun e p => skipVlog e = false -> shouldWriteValueToLSM e = false ->
                      points_to w' p e) (Entries req) (Ptrs req').
Proof.
  unfold writeRequest. intros H Hinv Hwf Hb.
  change (worst_case_size req) with (entries_size (Entries req)) in *.
  minv H as r w1 Hes.
  destruct (writeEntries_keeps _ _ _ _ _ _ Hes Hinv Hwf Hb) as (I1 & X1 & O1 & ps & Hps & Hall).
  cbn [r_Ptrs app] in Hps.
  apply bind_ok_inv in H as (u1 & w2 & H1 & H). destruct (addnum_keeps _ _ _ _ _ _ H1 I1) as (I2 & X2 & O2 & _).
  apply bind_ok_inv in H as (u2 & w3 & H2 & H). destruct (addnum_keeps _ _ _ _ _ _ H2 I2) as (I3 & X3 & O3 & _).
  minv H as w4 s4 H4.
  minv H as u3 w5 Hd.
  assert (HD : winv (b + entries_size (Entries req)) w5 /\ extends w3 w5 /\
               opt (w_vl w5) = opt (w_vl w3)).
  { destruct (writeNow w3).
    - destruct (toDisk_keeps _ _ _ _ Hd I3 Hb) as (I & X & O & _). now split.
    - apply mret_inv in Hd as [-> _]. split; [exact I3|]. split; [apply extends_refl|done]. }
  destruct HD as (I4 & X4 & O4).
  apply mret_inv in H as [-> ->]. cbn [Ptrs]. rewrite Hps.
  assert (X : extends w1 w5).
  { eapply extends_trans; [exact X2|]. eapply extends_trans; [exact X3|exact X4]. }
  split; [exact I4|]. split; [exact (extends_trans _ _ _ X1 X)|]. split; [congruence|].
  eapply Forall2_impl; [exact Hall|]. cbn beta. intros e p Hp Hs Hl. apply X. now apply Hp.
Qed.

(** The loop over the requests. *)
Lemma writeRequests_keeps (reqs : list request) : forall w w' reqs' b,
  writeRequests reqs w = (w', Ok reqs') -> winv b w ->
  Forall (fun rq => Forall wf_entry (Entries rq)) reqs ->
  b + batch_size reqs < 4294967296 ->
  winv (b + batch_size reqs) w' /\ extends w w' /\ opt (w_vl w') = opt (w_vl w) /\
  Forall2 (fun rq rq' =>
    Forall2 (fun e p => skipVlog e = false -> shouldWriteValueToLSM e = false ->
                        points_to w' p e) (Entries rq) (Ptrs rq')) reqs reqs'.
Proof.
  induction reqs as [|rq reqs IH]; intros w w' reqs' b H Hinv Hwf Hb.
  - cbn [writeRequests] in H. apply mret_inv in H as [-> ->].
    cbn [batch_size foldr]. rewrite Z.add_0_r. split; [exact Hinv|].
    split; [apply extends_refl|]. split; [reflexivity|constructor].
  - cbn [writeRequests] in H. minv H as rq' w1 Hrq. minv H as rest' w2 Hrest.
    apply mret_inv in H as [-> ->].
    inversion Hwf as [|? ? Hw1 Hws]; subst.
    cbn [batch_size foldr] in *. fold (batch_size reqs) in *.
    pose proof (batch_size_nonneg _ Hws) as Hn.
    destruct (writeRequest_keeps _ _ _ _ b Hrq Hinv Hw1) as (I1 & X1 & O1 & Hall1); [lia|].
    destruct (IH _ _ _ _ Hrest I1 Hws) as (I2 & X2 & O2 & Hall2); [lia|].
    rewrite Z.add_assoc. split; [exact I2|]. split; [exact (extends_trans _ _ _ X1 X2)|].
    split; [congruence|]. constructor; [|exact Hall2].
    eapply Forall2_impl; [exact Hall1|]. cbn beta. intros e p Hp Hs Hl. apply X2. now apply Hp.
Qed.

(** With nothing left in the buffer, [Read] follows a pointer to its
    record and gives the value. *)
Lemma points_to_Read w p e b :
  winv b w -> vbuf w = [] -> points_to w p e ->
  wf_entry e -> entry_size e < 4294967296 ->
  Read (w_vl w) p = Ok (Value e).
Proof.
  intros (Hcv & _ & _ & _ & _ & _) Hvb
    (lf & Hm & Hfid & Hty & Hlm & Hle & Hc & Ho & Hl & Hb & Hrec) Hwf Hsz.
  destruct (entry_size_bounds e Hwf) as [Hmh _].
  assert (Hview : view w (Fid p) = default [] (disk (w_vl w) !! (vlogFile, Fid p))).
  { unfold view. rewrite Hvb. destruct (curVlogF w) as [lfc|]; [|apply app_nil_r].
    destruct (fid lfc =? Fid p); apply app_nil_r. }
  rewrite Hview in Hb, Hrec.
  destruct (disk (w_vl w) !! (vlogFile, Fid p)) as [c|] eqn:Hd;
    [|cbn [default] in Hb; change (len []) with 0 in Hb; lia].
  cbn [default from_option id] in Hb, Hrec.
  assert (Hget : getFileRLocked (w_vl w) p = Ok lf).
  { unfold getFileRLocked. rewrite Hm.
    destruct (Z.eqb_spec (Fid p) (maxFid (vlog (w_vl w)))) as [Heq|Hne]; [|reflexivity].
    cbn [andb]. unfold cur_ok in Hcv. cbn [cur_of lw_of] in Hcv.
    destruct (curVlogF w) as [lfc|].
    - destruct Hcv as (_ & Hfc & _ & (c0 & Hd0 & Hlen0)).
      rewrite Hfc, <- Heq, Hd in Hd0. injection Hd0 as <-.
      unfold lw_offset. rewrite <- Hlen0.
      now rewrite (proj2 (Z.leb_gt _ _)) by lia.
    - destruct Hcv as [Hemp _]. rewrite Hemp, lookup_empty in Hm. discriminate. }
  apply (Read_record _ _ lf (vlog_entry e)).
  - unfold readValueBytes. rewrite Hget. cbn [mbind result_bind].
    unfold lf_read. rewrite bool_decide_eq_true_2 by exact Hlm.
    unfold fd_content, fkey. rewrite Hty, Hfid, Hd. cbn [mbind result_bind].
    rewrite (proj2 (Z.leb_le (Offset p + Len p) (len c))) by exact Hb.
    rewrite orb_true_r. cbn [mbind result_bind]. now rewrite Hrec.
  - destruct Hwf as (He & Hmeta & Hum). split; [exact He|].
    split; [apply clear_txn_bits_byte, Hmeta|exact Hum].
  - exact Hc.
  - change (Key (vlog_entry e)) with (Key e). change (Value (vlog_entry e)) with (Value e).
    unfold entry_size, crc32_Size in Hsz. lia.
Qed.

End WriteRead.

Section WriteReadTop.
Context `{E : Externals} `{D : DBInterface} {laws : HeaderCodecLaws E}.

Lemma file_ready_cur_ok (ft : fileType) (vl : valueLog) :
  file_ready ft vl ->
  cur_ok ft {| w_vl := vl; wbuf := []; vbuf := [];
               curVlogF := getCurrentFile (vlog vl);
               curWALF := getCurrentFile (wal vl) |}.
Proof.
  unfold file_ready, cur_ok. intros H.
  assert (Hc : cur_of ft {| w_vl := vl; wbuf := []; vbuf := [];
                            curVlogF := getCurrentFile (vlog vl);
                            curWALF := getCurrentFile (wal vl) |}
               = getCurrentFile (lw_of ft vl)) by (now destruct ft).
  rewrite Hc. cbn [w_vl]. destruct (getCurrentFile (lw_of ft vl)) as [lf|] eqn:Hg.
  - destruct H as (Hty & Hfid & Hd). split; [exact Hty|]. split; [exact Hfid|].
    split; [|exact Hd]. exists lf. split; [|apply like_refl].
    unfold getCurrentFile in Hg. now rewrite Hfid.
  - split; [exact H|]. now destruct ft.
Qed.

(** X14.  What [write] stores in the vlog, [Read] gives back.  On a value
    log on disk in file-I/O mode whose wrappers are ready for appending,
    and for a batch of well-formed entries whose worst-case sizes, added
    to the larger of the two writable offsets (at least 20), stay below
    2^32: when [write] returns without error, [Read] of the pointer it
    reports for an entry that went to the vlog (it does not skip the logs
    and its value is not kept in the LSM tree) returns the value of that
    entry, from the value log [write] left, whatever flushes, rotations
    and file creations happened on the way, with or without encryption
    and checksum verification. *)
Theorem write_then_Read (vl vl' : valueLog) (reqs reqs' : list request) :
  InMemory (opt vl) = false ->
  ValueLogLoadingMode (opt vl) = FileIO ->
  file_ready vlogFile vl -> file_ready walFile vl ->
  (forall lf, getCurrentFile (vlog vl) = Some lf -> loadingMode lf = FileIO) ->
  0 <= writableOffset (vlog vl) -> 0 <= writableOffset (wal vl) ->
  Z.max 20 (Z.max (writableOffset (vlog vl)) (writableOffset (wal vl)))
    + batch_size reqs < 4294967296 ->
  Forall (fun b => Forall wf_entry (Entries b)) reqs ->
  write reqs vl = (vl', Ok reqs') ->
  Forall2 (fun b b' =>
    Forall2 (fun e p => skipVlog e = false -> shouldWriteValueToLSM e = false ->
                        Read vl' p = Ok (Value e)) (Entries b) (Ptrs b')) reqs reqs'.
Proof.
  intros Hmem Hmode Hrv Hrw Hlm Hov How Hb Hwf H.
  unfold write in H. rewrite Hmem in H.
  destruct (validateWrites vl reqs) as [[]|e0|] eqn:Hv; try (injection H; discriminate).
  set (w0 := mkWriter vl [] [] _ _) in H.
  destruct ((writeRequests reqs ≫= _) w0) as [w2 r] eqn:Hrun.
  injection H as <- ->.
  apply bind_ok_inv in Hrun as (reqs1 & w1 & Hreqs & Hrun).
  apply bind_ok_inv in Hrun as (u & w3 & Hdisk & Hrun).
  apply mret_inv in Hrun as [Hw Hr]. subst w2 reqs'.
  set (b0 := Z.max 20 (Z.max (writableOffset (vlog vl)) (writableOffset (wal vl)))) in *.
  assert (I0 : winv b0 w0).
  { split; [exact (file_ready_cur_ok vlogFile vl Hrv)|].
    split; [exact (file_ready_cur_ok walFile vl Hrw)|]. split.
    { intros ft. unfold w0. destruct ft; cbn [w_vl lw_of buf_of vbuf wbuf];
        change (len []) with 0; unfold b0; lia. }
    split; [unfold b0; lia|]. split; [exact Hmode|exact Hlm]. }
  pose proof (batch_size_nonneg _ Hwf) as Hn.
  destruct (writeRequests_keeps _ _ _ _ _ Hreqs I0 Hwf Hb) as (I1 & X1 & O1 & Hall).
  destruct (toDisk_keeps _ _ _ _ Hdisk I1 Hb) as (I2 & X2 & O2 & V2 & W2).
  eapply Forall2_with; [exact Hall|exact (batch_size_each _ Hwf)|]. cbn beta.
  intros rq rq' Hr Hf.
  eapply Forall2_with; [exact Hf|exact Hr|]. cbn beta.
  intros e p [Hwe Hse] Hp Hs Hl.
  apply (points_to_Read _ _ _ _ I2 V2); [apply X2; now apply Hp|exact Hwe|].
  unfold b0 in Hb. lia.
Qed.


End WriteReadTop.
(** ** From [write] to the WAL and to its replay *)

Section WalSteps.
Context `{E : Externals} `{D : DBInterface}.

Lemma wal_at_frame lf0 c0 done w w' :
  wal_at lf0 c0 done w -> wal_frame w w' -> wal_at lf0 c0 done w'.
Proof.
  intros (_ & Hmx & Hmap & Hcur & (c & Hd & Hlen & Hs) & Hl) (F1 & F2 & F3 & F4 & _ & F6).
  split; [exact F6|]. rewrite F1, F2, F3. split; [exact Hmx|]. split; [exact Hmap|].
  split; [exact Hcur|]. split; [|exact Hl].
  exists c. rewrite F4. now split.
Qed.

Lemma wal_frame_trans w1 w2 w3 : wal_frame w1 w2 -> wal_frame w2 w3 -> wal_frame w1 w3.
Proof.
  intros (A1 & A2 & A3 & A4 & A5 & _) (B1 & B2 & B3 & B4 & B5 & B6).
  split; [congruence|]. split; [congruence|]. split; [congruence|].
  split; [intros f; now rewrite B4|]. split; [congruence|exact B6].
Qed.

Lemma wal_frame_refl w : cur_typed w -> wal_frame w w.
Proof. intros H. now repeat split. Qed.

Lemma frame_set_buf_vlog b w : cur_typed w -> wal_frame w (set_buf vlogFile b w).
Proof.
  intros Ht. repeat split; try reflexivity. now apply cur_typed_set_buf.
Qed.

Lemma frame_flush_vlog w w' u :
  flushBufToFile vlogFile w = (w', Ok u) -> cur_typed w -> wal_frame w w'.
Proof.
  intros H Ht.
  pose proof (cur_typed_flush _ _ _ _ H Ht) as Ht'.
  destruct (flushBufToFile_obs vlogFile w w' u H (Ht vlogFile))
    as [[_ ->]|(lf & c & wo & Hc & Hd & Hwo & Hlt & Hd' & Hm' & Hmx' & Hwo' & Hoth
                & Hopt & Hc' & Hco' & Hb' & Hbo' & _)].
  { now apply wal_frame_refl. }
  cbn [other cur_of buf_of lw_of] in *.
  split; [exact Hco'|]. split; [exact Hbo'|]. split; [exact Hoth|].
  split; [|split; [exact Hopt|exact Ht']].
  intros f. rewrite Hd'. now rewrite lookup_insert_ne by discriminate.
Qed.

Lemma frame_create w vl' lf :
  createLogFile 0 vlogFile (w_vl w) = (vl', Ok lf) -> cur_typed w ->
  wal_frame w (set_cur vlogFile (Some lf) (set_vl vl' w)).
Proof.
  intros Hcr Ht.
  destruct (stream_wal_create _ _ _ Hcr Ht) as [_ Ht'].
  destruct (createLogFile_inv 0 vlogFile (w_vl w)) as [_ Hpost].
  destruct (Hpost _ _ Hcr)
    as (_ & _ & _ & _ & _ & _ & Hdisk & _ & _ & _ & Hoth & Hopt & _).
  cbn [other lw_of] in Hoth.
  split; [reflexivity|]. split; [reflexivity|]. split; [exact Hoth|].
  split; [|split; [exact Hopt|exact Ht']].
  intros f. cbn [set_cur set_vl w_vl]. rewrite Hdisk.
  now rewrite lookup_insert_ne by discriminate.
Qed.

Lemma frame_rotate_vlog w w' u :
  rotate_cur vlogFile w = (w', Ok u) -> cur_typed w -> wal_frame w w'.
Proof.
  unfold rotate_cur. intros H Ht. minv H as w0 s0 H0. cbn [cur_of] in H.
  destruct (curVlogF w) as [lf|] eqn:Hc; [|apply lift_inv in H as [? _]; discriminate].
  minv H as newlf s1 Hrot. apply on_vl_inv in Hrot as (vl' & Hrot & ->).
  apply modify_st_inv in H as ->.
  pose proof (Ht vlogFile lf Hc) as Hty.
  destruct (rotateFile_inv _ _ _ _ _ Hrot Hty)
    as (c' & _ & _ & _ & _ & _ & Hnt & Hdisk & _ & _ & _ & _ & _ & Hoth & _ & Hopt & _).
  cbn [other lw_of] in Hoth.
  split; [reflexivity|]. split; [reflexivity|]. split; [exact Hoth|].
  split; [|split; [exact Hopt|]].
  - intros f. cbn [set_cur set_vl w_vl]. rewrite Hdisk.
    now rewrite !lookup_insert_ne by discriminate.
  - intros ft lf' Hc'. destruct ft; cbn in Hc'.
    + injection Hc' as <-. exact Hnt.
    + apply (Ht walFile). exact Hc'.
Qed.

Lemma frame_addnum_vlog n w w' u :
  add_numEntriesWritten vlogFile n w = (w', Ok u) -> cur_typed w -> wal_frame w w'.
Proof.
  unfold add_numEntriesWritten. intros H Ht.
  apply on_vl_inv in H as (vl' & H & ->). apply modify_st_inv in H as ->.
  destruct w as [vl wb vb cv cw]. destruct vl as [vlg wl o d st ch rot iv].
  repeat split; try reflexivity. exact Ht.
Qed.

(** The WAL counter: the file and its bytes stay, the counter moves. *)
Lemma wal_addnum lf0 c0 done n w w' u :
  add_numEntriesWritten walFile n w = (w', Ok u) -> wal_at lf0 c0 done w ->
  wal_at lf0 c0 done w' /\ opt (w_vl w') = opt (w_vl w) /\
  numEntriesWritten (wal (w_vl w')) =
    wrap32 (numEntriesWritten (wal (w_vl w)) + wrap32 n).
Proof.
  unfold add_numEntriesWritten. intros H Hat.
  apply on_vl_inv in H as (vl' & H & ->). apply modify_st_inv in H as ->.
  destruct w as [vl wb vb cv cw]. destruct vl as [vlg wl o d st ch rot iv].
  destruct wl as [fm mx wo ne ni fd].
  split; [exact Hat|]. now split.
Qed.

Lemma list_app_len_eq (a b c d : list byte) :
  a ++ b = c ++ d -> len (a ++ b) = len c + len d.
Proof. intros ->. apply len_app. Qed.

(** A record put into the WAL buffer. *)
Lemma wal_append lf0 c0 done e w w' l :
  encode_into walFile e (wOffset w) w = (w', Ok l) -> wal_at lf0 c0 done w ->
  len c0 + total_len done < 4294967296 ->
  wal_at lf0 c0 (done ++ [e]) w' /\ wal (w_vl w') = wal (w_vl w) /\
  opt (w_vl w') = opt (w_vl w) /\ l = rec_len e /\
  exists lfw, curWALF w = Some lfw /\
    Offset {| Fid := fid lfw; Offset := wOffset w; Len := wrap32 l |}
      = len c0 + total_len done.
Proof.
  intros H (Ht & Hmx & Hmap & (lfw & Hcur & Hlk) & (c & Hd & Hlen & Hs) & Hl) Hb.
  apply encode_into_inv in H as (lfw' & bw & Hcw & Hew & ->).
  cbn [cur_of buf_of] in *. rewrite Hcur in Hcw. injection Hcw as <-.
  destruct (record_bytes_of_encode _ _ _ _ _ _ Hew) as [-> Hrl].
  destruct (encodeEntry_inv _ _ _ _ _ _ Hew) as (_ & Hle & _).
  pose proof (list_app_len_eq _ _ _ _ Hs) as Hsl. rewrite len_app, Hl in Hsl.
  pose proof (len_nonneg c) as Hcn. pose proof (len_nonneg (wbuf w)) as Hwn.
  pose proof (len_nonneg c0) as Hc0.
  assert (Hoff : wOffset w = len c0 + total_len done).
  { unfold wOffset, lw_offset. rewrite <- Hlen.
    rewrite (wrap32_small (len (wbuf w))) by lia. rewrite wrap32_small by lia. lia. }
  destruct Hlk as (L1 & L2 & L3 & L4 & L5).
  assert (Hrec : record_bytes lfw e (wOffset w)
                 = record_bytes lf0 e (len c0 + total_len done)).
  { rewrite Hoff. now apply record_bytes_cipher. }
  split; [|split; [reflexivity|split; [reflexivity|split]]].
  - split; [now apply cur_typed_set_buf|]. cbn [set_buf w_vl curWALF wbuf].
    split; [exact Hmx|]. split; [exact Hmap|].
    split; [exists lfw; split; [exact Hcur|now repeat split]|].
    rewrite records_app. cbn [records]. rewrite app_nil_r, <- Hrec. split.
    + exists c. split; [exact Hd|]. split; [exact Hlen|].
      now rewrite !app_assoc, Hs.
    + rewrite len_app, Hl, Hrl. cbn [total_len]. rewrite total_len_app.
      cbn [total_len]. unfold rec_len, crc32_Size. lia.
  - rewrite Hle. unfold rec_len, crc32_Size. reflexivity.
  - exists lfw. split; [exact Hcur|exact Hoff].
Qed.

(** The WAL buffer written to its file. *)
Lemma wal_flush lf0 c0 done w w' u :
  flushBufToFile walFile w = (w', Ok u) -> wal_at lf0 c0 done w ->
  len c0 + total_len done < 4294967296 ->
  wal_at lf0 c0 done w' /\ wbuf w' = [] /\ opt (w_vl w') = opt (w_vl w) /\
  numEntriesWritten (wal (w_vl w')) = numEntriesWritten (wal (w_vl w)).
Proof.
  intros H Hat Hb. pose proof Hat as (Ht & Hmx & Hmap & (lfw & Hcur & Hlk) & (c & Hd & Hlen & Hs) & Hl).
  pose proof (cur_typed_flush _ _ _ _ H Ht) as Ht'.
  destruct (flushBufToFile_obs walFile w w' u H (Ht walFile))
    as [[Hz ->]|(lf & c1 & wo & Hc & Hd1 & Hwo & Hlt & Hd' & Hm' & Hmx' & Hwo' & Hoth
                & Hopt & Hc' & Hco' & Hb' & Hbo' & Hne')].
  { split; [exact Hat|]. split; [|now split].
    cbn [buf_of] in Hz. destruct (wbuf w); [done|]. unfold len in Hz. cbn in Hz. lia. }
  cbn [other cur_of buf_of lw_of] in *.
  rewrite Hcur in Hc. injection Hc as <-.
  destruct Hlk as (L1 & L2 & L3 & L4 & L5).
  rewrite L1, Hd in Hd1. injection Hd1 as <-.
  pose proof (list_app_len_eq _ _ _ _ Hs) as Hsl. rewrite len_app, Hl in Hsl.
  pose proof (len_nonneg c) as Hcn. pose proof (len_nonneg (wbuf w)) as Hwn.
  pose proof (len_nonneg c0) as Hc0.
  assert (Hwoeq : wo = len c + len (wbuf w)).
  { rewrite Hwo, <- Hlen, (wrap32_small (len (wbuf w))) by lia. apply wrap32_small. lia. }
  split; [|split; [exact Hb'|split; [exact Hopt|]]].
  - split; [exact Ht'|]. split; [congruence|]. split.
    { exists (set_size wo lfw). rewrite Hm', L1. split; [apply lookup_insert_eq|].
      now repeat split. }
    split; [exists (set_size wo lfw); split; [exact Hc'|now repeat split]|].
    split; [|exact Hl].
    exists (c ++ wbuf w). rewrite Hd', L1, Hb', app_nil_r.
    split; [apply lookup_insert_eq|]. split; [|exact Hs].
    rewrite Hwo', Hwoeq. apply len_app.
  - exact Hne'.
Qed.

End WalSteps.

Section WalRun.
Context `{E : Externals} `{D : DBInterface}.


(** One run of the loop body, seen from the WAL. *)
Lemma writeEntry_wal lf0 c0 done r e w w' r' :
  writeEntry r e w = (w', Ok r') -> wal_at lf0 c0 done w ->
  len c0 + total_len (done ++ kept [e]) < 4294967296 ->
  wal_at lf0 c0 (done ++ kept [e]) w' /\
  opt (w_vl w') = opt (w_vl w) /\
  numEntriesWritten (wal (w_vl w')) = numEntriesWritten (wal (w_vl w)) /\
  r_walWritten r' = r_walWritten r + len (kept [e]).
Proof.
  intros H Hat Hb. unfold kept in *. cbn [List.filter] in *.
  destruct (skipVlog e) eqn:Hs; cbn [negb] in *.
  { rewrite writeEntry_skipped in H by exact Hs. injection H as <- <-.
    rewrite app_nil_r. cbn [r_walWritten]. change (len []) with 0.
    split; [exact Hat|]. split; [reflexivity|]. split; [reflexivity|lia]. }
  rewrite total_len_app in Hb. cbn [total_len] in Hb.
  pose proof (total_len_nonneg done) as Hdn.
  assert (Hrl : 4 <= rec_len e).
  { unfold rec_len, crc32_Size.
    pose proof (len_nonneg (header_Encode (entry_header e))).
    pose proof (len_nonneg (Key e)). pose proof (len_nonneg (Value e)). lia. }
  unfold writeEntry in H. rewrite Hs in H.
  minv H as w0 s0 H0.
  minv H as l wA Henc.
  destruct (wal_append lf0 c0 done e w wA l Henc Hat) as (AA & WA & OA & _ & _); [lia|].
  minv H as wfid s1 Hfid. apply cur_fid_inv in Hfid as (-> & lfw' & Hcw' & ->).
  minv H as w1 s2 H2. minv H as u1 s3 Hassert.
  minv H as u2 wB Hflush.
  assert (HB : wal_at lf0 c0 (done ++ [e]) wB /\ opt (w_vl wB) = opt (w_vl w) /\
               numEntriesWritten (wal (w_vl wB)) = numEntriesWritten (wal (w_vl w))).
  { destruct (ValueLogFileSize (opt (w_vl wA)) <? len (wbuf wA)).
    - destruct (wal_flush lf0 c0 (done ++ [e]) _ _ _ Hflush AA) as (A & _ & O & N).
      { rewrite total_len_app. cbn [total_len]. lia. }
      split; [exact A|]. split; congruence.
    - apply mret_inv in Hflush as [-> _]. split; [exact AA|]. split; congruence. }
  destruct HB as (AB & OB & NB). clear Hflush Hassert.
  change (len [e]) with 1.
  destruct (shouldWriteValueToLSM e) eqn:Hlsm.
  { apply mret_inv in H as [<- ->]. cbn [r_walWritten].
    split; [exact AB|]. split; [exact OB|]. split; [exact NB|reflexivity]. }
  pose proof AB as (TB & _).
  minv H as w2 s4 H4.
  minv H as u3 wC Hcreate.
  assert (FC : wal_frame wB wC).
  { destruct (bool_decide (size (filesMap (vlog (w_vl wB))) = 0%nat)).
    - minv Hcreate as lf s5 Hcr. apply wrap_err_inv in Hcr.
      apply on_vl_inv in Hcr as (vl' & Hcr & ->).
      apply modify_st_inv in Hcreate as ->. exact (frame_create _ _ _ Hcr TB).
    - apply mret_inv in Hcreate as [-> _]. now apply wal_frame_refl. }
  clear Hcreate. pose proof FC as (_ & _ & _ & _ & _ & TC).
  minv H as pfid s6 Hpfid. apply cur_fid_inv in Hpfid as (-> & lfv & Hcv & ->).
  minv H as w3 s7 H7.
  minv H as pl wD Henc2.
  apply encode_into_inv in Henc2 as (lfv' & bv & Hcv' & Hev & ->).
  pose proof (frame_set_buf_vlog bv wC TC) as FD.
  pose proof FD as (_ & _ & _ & _ & _ & TD).
  minv H as w4 s8 H8.
  minv H as u4 wE Hflush2.
  assert (FE : wal_frame (set_buf vlogFile bv wC) wE).
  { destruct (ValueLogFileSize _ <? _).
    - exact (frame_flush_vlog _ _ _ Hflush2 TD).
    - apply mret_inv in Hflush2 as [-> _]. now apply wal_frame_refl. }
  apply mret_inv in H as [<- ->]. cbn [r_walWritten].
  pose proof (wal_frame_trans _ _ _ FC (wal_frame_trans _ _ _ FD FE)) as F.
  split; [exact (wal_at_frame _ _ _ _ _ AB F)|].
  destruct F as (_ & _ & F3 & _ & F5 & _). rewrite F3, F5. now repeat split.
Qed.

Lemma kept_cons (e : Entry) (es : list Entry) : kept (e :: es) = kept [e] ++ kept es.
Proof. unfold kept. cbn [List.filter]. now destruct (negb (skipVlog e)). Qed.

(** The loop over the entries, seen from the WAL. *)
Lemma writeEntries_wal lf0 c0 (es : list Entry) : forall done r w w' r',
  writeEntries r es w = (w', Ok r') -> wal_at lf0 c0 done w ->
  len c0 + total_len (done ++ kept es) < 4294967296 ->
  wal_at lf0 c0 (done ++ kept es) w' /\
  opt (w_vl w') = opt (w_vl w) /\
  numEntriesWritten (wal (w_vl w')) = numEntriesWritten (wal (w_vl w)) /\
  r_walWritten r' = r_walWritten r + len (kept es).
Proof.
  induction es as [|e es IH]; intros done r w w' r' H Hat Hb.
  - cbn [writeEntries] in H. apply mret_inv in H as [-> ->].
    unfold kept. cbn [List.filter]. rewrite app_nil_r. change (len []) with 0.
    split; [exact Hat|]. split; [reflexivity|]. split; [reflexivity|lia].
  - cbn [writeEntries] in H. minv H as r1 w1 He.
    rewrite kept_cons, app_assoc in *.
    pose proof (total_len_nonneg (kept es)) as Hn.
    rewrite (total_len_app (done ++ kept [e])) in Hb.
    destruct (writeEntry_wal lf0 c0 done _ _ _ _ _ He Hat) as (A1 & O1 & N1 & R1); [lia|].
    destruct (IH _ _ _ _ _ H A1) as (A2 & O2 & N2 & R2).
    { rewrite total_len_app. lia. }
    split; [exact A2|]. split; [congruence|]. split; [congruence|].
    rewrite R2, R1, len_app. lia.
Qed.

(** [toDisk] when the WAL is below its thresholds. *)
Lemma toDisk_wal lf0 c0 done w w' u :
  toDisk w = (w', Ok u) -> wal_at lf0 c0 done w ->
  len c0 + total_len done <= wrap32 (ValueLogFileSize (opt (w_vl w))) ->
  numEntriesWritten (wal (w_vl w)) <= wrap32 (ValueLogMaxEntries (opt (w_vl w))) ->
  wal_at lf0 c0 done w' /\ wbuf w' = [] /\ opt (w_vl w') = opt (w_vl w) /\
  numEntriesWritten (wal (w_vl w')) = numEntriesWritten (wal (w_vl w)).
Proof.
  unfold toDisk, flushWrites. intros H Hat Hsz Hcnt.
  pose proof (wrap32_range (ValueLogFileSize (opt (w_vl w)))) as Hr.
  minv H as u0 w2 Hfl. minv Hfl as u1 w1 Hf1.
  destruct (wal_flush lf0 c0 done _ _ _ Hf1 Hat) as (A1 & B1 & O1 & N1); [lia|].
  pose proof A1 as (T1 & _).
  pose proof (frame_flush_vlog _ _ _ Hfl T1) as F2.
  pose proof F2 as (_ & _ & _ & _ & _ & T2).
  minv H as w3 s3 H3.
  minv H as u2 w4 Hr1.
  assert (F3 : wal_frame w2 w4).
  { destruct (over_threshold _ _).
    - exact (frame_rotate_vlog _ _ _ Hr1 T2).
    - apply mret_inv in Hr1 as [-> _]. now apply wal_frame_refl. }
  minv H as w5 s5 H5.
  pose proof (wal_frame_trans _ _ _ F2 F3) as F.
  pose proof (wal_at_frame _ _ _ _ _ A1 F) as A4.
  destruct F as (_ & FB & FW & _ & FO & _).
  assert (Hno : over_threshold (opt (w_vl w4)) (wal (w_vl w4)) = false).
  { destruct A4 as (_ & _ & _ & _ & (c & _ & Hlen & Hs) & Hl).
    rewrite FB, B1, app_nil_r in Hs.
    assert (Hc : len c = len c0 + total_len done) by (rewrite Hs, len_app; lia).
    unfold over_threshold, lw_offset. rewrite <- Hlen, Hc, FO, O1, FW, N1.
    apply orb_false_iff. split; apply Z.ltb_ge; lia. }
  rewrite Hno in H. apply mret_inv in H as [-> _].
  split; [exact A4|]. split; [congruence|]. split; [congruence|]. congruence.
Qed.

(** One request, seen from the WAL. *)
Lemma writeRequest_wal lf0 c0 done req w w' req' :
  writeRequest req w = (w', Ok req') -> wal_at lf0 c0 done w ->
  0 <= numEntriesWritten (wal (w_vl w)) ->
  len c0 + total_len (done ++ kept (Entries req))
    <= wrap32 (ValueLogFileSize (opt (w_vl w))) ->
  numEntriesWritten (wal (w_vl w)) + len (kept (Entries req))
    <= wrap32 (ValueLogMaxEntries (opt (w_vl w))) ->
  wal_at lf0 c0 (done ++ kept (Entries req)) w' /\
  opt (w_vl w') = opt (w_vl w) /\
  numEntriesWritten (wal (w_vl w')) =
    numEntriesWritten (wal (w_vl w)) + len (kept (Entries req)).
Proof.
  unfold writeRequest. intros H Hat Hn Hsz Hcnt.
  pose proof (wrap32_range (ValueLogFileSize (opt (w_vl w)))) as Hr.
  pose proof (wrap32_range (ValueLogMaxEntries (opt (w_vl w)))) as Hr2.
  pose proof (len_nonneg (kept (Entries req))) as Hk.
  minv H as r w1 Hes.
  destruct (writeEntries_wal lf0 c0 _ _ _ _ _ _ Hes Hat) as (A1 & O1 & N1 & R1); [lia|].
  cbn [r_walWritten] in R1. rewrite Z.add_0_l in R1.
  apply bind_ok_inv in H as (u1 & w2 & H1 & H).
  destruct (wal_addnum _ _ _ _ _ _ _ H1 A1) as (A2 & O2 & N2).
  rewrite R1, N1, (wrap32_small (len _)) in N2 by lia.
  rewrite wrap32_small in N2 by lia.
  pose proof A2 as (T2 & _).
  apply bind_ok_inv in H as (u2 & w3 & H2 & H).
  pose proof (frame_addnum_vlog _ _ _ _ H2 T2) as F3.
  pose proof (wal_at_frame _ _ _ _ _ A2 F3) as A3.
  destruct F3 as (_ & _ & FW & _ & FO & _).
  minv H as w4 s4 H4.
  minv H as u3 w5 Hd.
  assert (HD : wal_at lf0 c0 (done ++ kept (Entries req)) w5 /\
               opt (w_vl w5) = opt (w_vl w3) /\
               numEntriesWritten (wal (w_vl w5)) = numEntriesWritten (wal (w_vl w3))).
  { destruct (writeNow w3).
    - destruct (toDisk_wal _ _ _ _ _ _ Hd A3) as (A & _ & O & N).
      + rewrite FO, O2, O1. exact Hsz.
      + rewrite FW, N2, FO, O2, O1. exact Hcnt.
      + now split.
    - apply mret_inv in Hd as [-> _]. now split. }
  destruct HD as (A5 & O5 & N5).
  apply mret_inv in H as [-> _].
  split; [exact A5|]. split; [congruence|]. congruence.
Qed.

Lemma logged_cons (rq : request) (reqs : list request) :
  logged (rq :: reqs) = kept (Entries rq) ++ logged reqs.
Proof. unfold logged, kept. cbn [map concat]. apply List.filter_app. Qed.

(** The loop over the requests, seen from the WAL. *)
Lemma writeRequests_wal lf0 c0 (reqs : list request) : forall done w w' reqs',
  writeRequests reqs w = (w', Ok reqs') -> wal_at lf0 c0 done w ->
  0 <= numEntriesWritten (wal (w_vl w)) ->
  len c0 + total_len (done ++ logged reqs)
    <= wrap32 (ValueLogFileSize (opt (w_vl w))) ->
  numEntriesWritten (wal (w_vl w)) + len (logged reqs)
    <= wrap32 (ValueLogMaxEntries (opt (w_vl w))) ->
  wal_at lf0 c0 (done ++ logged reqs) w' /\
  opt (w_vl w') = opt (w_vl w) /\
  numEntriesWritten (wal (w_vl w')) =
    numEntriesWritten (wal (w_vl w)) + len (logged reqs).
Proof.
  induction reqs as [|rq reqs IH]; intros done w w' reqs' H Hat Hn Hsz Hcnt.
  - cbn [writeRequests] in H. apply mret_inv in H as [-> _].
    unfold logged, kept. cbn [map concat List.filter]. rewrite app_nil_r.
    change (len []) with 0. split; [exact Hat|]. split; [reflexivity|lia].
  - cbn [writeRequests] in H. minv H as rq' w1 Hrq. minv H as rest' w2 Hrest.
    apply mret_inv in H as [-> _].
    rewrite logged_cons, app_assoc in *. rewrite len_app in Hcnt.
    rewrite (total_len_app (done ++ kept (Entries rq))) in Hsz.
    pose proof (total_len_nonneg (logged reqs)) as Hn1.
    pose proof (len_nonneg (logged reqs)) as Hn2.
    pose proof (len_nonneg (kept (Entries rq))) as Hn3.
    destruct (writeRequest_wal lf0 c0 done _ _ _ _ Hrq Hat Hn) as (A1 & O1 & N1);
      [lia|lia|].
    destruct (IH _ _ _ _ Hrest A1) as (A2 & O2 & N2).
    + lia.
    + rewrite O1, total_len_app. lia.
    + rewrite O1, N1. lia.
    + split; [exact A2|]. split; [congruence|]. rewrite N2, N1, len_app. lia.
Qed.

End WalRun.

Section WalTop.
Context `{E : Externals} `{D : DBInterface}.

(** What a whole [write] leaves in the WAL when no threshold is reached. *)
Lemma write_wal_run (vl vl' : valueLog) (reqs reqs' : list request)
    (lf : logFile) (c : list byte) :
  InMemory (opt vl) = false ->
  getCurrentFile (wal vl) = Some lf -> lf_fileType lf = walFile ->
  fid lf = maxFid (wal vl) ->
  disk vl !! (walFile, fid lf) = Some c -> len c = writableOffset (wal vl) ->
  (forall lfv, getCurrentFile (vlog vl) = Some lfv -> lf_fileType lfv = vlogFile) ->
  len c + total_len (logged reqs) <= wrap32 (ValueLogFileSize (opt vl)) ->
  0 <= numEntriesWritten (wal vl) ->
  numEntriesWritten (wal vl) + len (logged reqs) <= wrap32 (ValueLogMaxEntries (opt vl)) ->
  write reqs vl = (vl', Ok reqs') ->
  disk vl' !! (walFile, fid lf) = Some (c ++ records lf (len c) (logged reqs)) /\
  writableOffset (wal vl') = len c + total_len (logged reqs) /\
  numEntriesWritten (wal vl') = numEntriesWritten (wal vl) + len (logged reqs) /\
  maxFid (wal vl') = fid lf /\ opt vl' = opt vl /\
  exists lf', getCurrentFile (wal vl') = Some lf' /\ like lf' lf.
Proof.
  intros Hmem Hcur Hty Hfid Hd Hlen Hvt Hsz Hn Hcnt H.
  unfold write in H. rewrite Hmem in H.
  destruct (validateWrites vl reqs) as [[]|e0|] eqn:Hv; try (injection H; discriminate).
  set (w0 := mkWriter vl [] [] _ _) in H.
  destruct ((writeRequests reqs ≫= _) w0) as [w2 r] eqn:Hrun.
  injection H as <- ->.
  apply bind_ok_inv in Hrun as (reqs1 & w1 & Hreqs & Hrun).
  apply bind_ok_inv in Hrun as (u & w3 & Hdisk & Hrun).
  apply mret_inv in Hrun as [Hw Hr]. subst w2 reqs'.
  assert (A0 : wal_at lf c [] w0).
  { split.
    { intros ft lf' Hc. destruct ft; cbn in Hc; [now apply Hvt|]. congruence. }
    cbn [w0 w_vl curWALF wbuf]. split; [now rewrite Hfid|]. split.
    { exists lf. split; [|now repeat split]. unfold getCurrentFile in Hcur.
      now rewrite Hfid. }
    split; [exists lf; split; [exact Hcur|now repeat split]|].
    split; [|reflexivity]. exists c. split; [exact Hd|]. split; [exact Hlen|].
    cbn [records]. reflexivity. }
  destruct (writeRequests_wal lf c reqs [] _ _ _ Hreqs A0 Hn Hsz Hcnt) as (A1 & O1 & N1).
  cbn [app w0 w_vl] in A1, O1, N1.
  destruct (toDisk_wal lf c _ _ _ _ Hdisk A1) as (A2 & B2 & O2 & N2).
  { rewrite O1. exact Hsz. }
  { rewrite O1, N1. exact Hcnt. }
  destruct A2 as (_ & Hmx & (lf' & Hm & Hlk) & _ & (c' & Hd' & Hlen' & Hs) & Hl).
  rewrite B2, app_nil_r in Hs. subst c'.
  split; [exact Hd'|]. split; [rewrite <- Hlen', len_app; lia|].
  split; [congruence|]. split; [exact Hmx|]. split; [congruence|].
  exists lf'. split; [|exact Hlk]. unfold getCurrentFile. now rewrite Hmx.
Qed.

(** X15.  What [write] appends to the WAL.  Outside in-memory mode, with
    the current WAL file on disk up to the writable offset and as long as
    neither the size nor the entry-count threshold of the WAL is reached:
    when [write] returns without error, the WAL file holds what it held
    followed by the records of the entries that do not skip the logs, in
    the order of the batch and one right behind the other; the writable
    offset and the entry counter have grown by their length and their
    number, the file is still the current one, with its cipher, and the
    options are as before. *)
Theorem write_appends_to_wal (vl vl' : valueLog) (reqs reqs' : list request)
    (lf : logFile) (c : list byte) :
  InMemory (opt vl) = false ->
  getCurrentFile (wal vl) = Some lf -> lf_fileType lf = walFile ->
  fid lf = maxFid (wal vl) ->
  disk vl !! (walFile, fid lf) = Some c -> len c = writableOffset (wal vl) ->
  (forall lfv, getCurrentFile (vlog vl) = Some lfv -> lf_fileType lfv = vlogFile) ->
  len c + total_len (logged reqs) <= wrap32 (ValueLogFileSize (opt vl)) ->
  0 <= numEntriesWritten (wal vl) ->
  numEntriesWritten (wal vl) + len (logged reqs) <= wrap32 (ValueLogMaxEntries (opt vl)) ->
  write reqs vl = (vl', Ok reqs') ->
  disk vl' !! (walFile, fid lf) = Some (c ++ records lf (len c) (logged reqs)) /\
  writableOffset (wal vl') = len c + total_len (logged reqs) /\
  numEntriesWritten (wal vl') = numEntriesWritten (wal vl) + len (logged reqs) /\
  maxFid (wal vl') = fid lf /\ opt vl' = opt vl /\
  exists lf', getCurrentFile (wal vl') = Some lf' /\ like lf' lf.
Proof. exact (write_wal_run vl vl' reqs reqs' lf c). Qed.

End WalTop.

Section WalReplay.
Context `{E : Externals} `{D : DBInterface} {laws : HeaderCodecLaws E}.
Context {St : Type}.

Lemma records_like lf' lf off es : like lf' lf -> records lf' off es = records lf off es.
Proof.
  intros (_ & _ & Hk & Hiv & _). revert off.
  induction es as [|e es IH]; intros off; cbn [records]; [reflexivity|].
  now rewrite IH, (record_bytes_cipher lf lf') by done.
Qed.

Lemma deliveries_like lf' lf off es :
  like lf' lf -> deliveries lf' off es = deliveries lf off es.
Proof.
  intros (Hf & _). revert off.
  induction es as [|e es IH]; intros off; cbn [deliveries]; [reflexivity|].
  now rewrite IH, Hf.
Qed.

(** The replay of a WAL file that holds committed writes only. *)
Lemma replayLog_committed (vl : valueLog) (lf : logFile) (fn : @logEntry St) (s : St)
    (hdr : list byte) (cs : list Entry) :
  lf_fileType lf = walFile -> ReadOnly (opt vl) = false ->
  len hdr = lfHeaderSize ->
  disk vl !! fkey lf = Some (hdr ++ records lf lfHeaderSize cs) ->
  committed cs -> Forall readable cs ->
  lfHeaderSize + total_len cs < 4294967296 ->
  (forall o, cipher_ready lf o) ->
  (forall e vp s0, (fn e vp s0).2 = Ok tt) ->
  replayLog lf 0 fn s vl =
    Some (run_handler fn (deliveries lf lfHeaderSize cs) s, vl, Ok tt).
Proof.
  intros Hty Hro Hhdr Hdisk Hc Hr Hb Hcipher Hfn.
  pose proof (len_records lf lfHeaderSize cs Hr Hcipher) as Hlc.
  pose proof (total_len_count cs) as Hcc.
  assert (Hit : iterate vl lf 0 fn s =
    Some (run_handler fn (deliveries lf lfHeaderSize cs) s,
          Ok (lfHeaderSize + total_len cs))).
  { assert (Hdrop : forall x, drop (Z.to_nat lfHeaderSize) (hdr ++ x) = x)
      by (intros x; rewrite <- Hhdr, to_nat_len; apply drop_app_length).
    unfold iterate, fd_content. rewrite Hdisk, Hro. cbn [Z.eqb].
    rewrite len_app, Hhdr, Hlc.
    destruct cs as [|e0 cs0] eqn:Hcs.
    { cbn [total_len]. rewrite Z.add_0_r, Z.eqb_refl. reflexivity. }
    rewrite <- Hcs in *.
    assert (Hpos : 4 <= total_len cs).
    { rewrite Hcs. cbn [total_len]. pose proof (rec_len_pos e0).
      pose proof (total_len_nonneg cs0). lia. }
    replace (lfHeaderSize =? lfHeaderSize + total_len cs) with false
      by (symmetry; apply Z.eqb_neq; lia).
    rewrite Hdrop.
    replace (S (length (records lf lfHeaderSize cs)))
      with (length cs + S (length (records lf lfHeaderSize cs) - length cs))%nat
      by (unfold len in *; lia).
    rewrite <- (app_nil_r (records lf lfHeaderSize cs)).
    rewrite (iterate_loop_committed lf fn Hcipher Hfn cs Hc)
      by (try done; unfold lfHeaderSize in *; lia).
    rewrite iterate_loop_eof. destruct cs; [discriminate|reflexivity]. }
  unfold replayLog, fd_content. rewrite Hdisk, Hit.
  rewrite bool_decide_eq_true_2 by exact Hty. cbn [AssertTrue].
  now rewrite len_app, Hhdr, Hlc, Z.eqb_refl.
Qed.

(** X16.  What [write] logs, replay delivers.  Take a WAL file that
    holds, behind its header, the records of [old], and a batch written to
    it without reaching a threshold of the WAL.  When the old entries and
    those of the batch that do not skip the logs make up committed writes
    that [safeRead.Entry] accepts, then, after [write] has returned without
    error, the replay of the current WAL file from its start calls the
    handler on every one of these entries, the old ones and then the new
    ones in the order of the batch, each with its key, value, meta bytes
    and the pointer to its record, reports no error and leaves the value
    log as it is. *)
Theorem write_then_replay (vl vl' : valueLog) (reqs reqs' : list request)
    (lf : logFile) (hdr : list byte) (old : list Entry) (fn : @logEntry St) (s : St) :
  InMemory (opt vl) = false -> ReadOnly (opt vl) = false ->
  getCurrentFile (wal vl) = Some lf -> lf_fileType lf = walFile ->
  fid lf = maxFid (wal vl) ->
  len hdr = lfHeaderSize ->
  disk vl !! (walFile, fid lf) = Some (hdr ++ records lf lfHeaderSize old) ->
  writableOffset (wal vl) = lfHeaderSize + total_len old ->
  (forall lfv, getCurrentFile (vlog vl) = Some lfv -> lf_fileType lfv = vlogFile) ->
  lfHeaderSize + total_len (old ++ logged reqs) <= wrap32 (ValueLogFileSize (opt vl)) ->
  0 <= numEntriesWritten (wal vl) ->
  numEntriesWritten (wal vl) + len (logged reqs) <= wrap32 (ValueLogMaxEntries (opt vl)) ->
  committed (old ++ logged reqs) -> Forall readable (old ++ logged reqs) ->
  (forall o, cipher_ready lf o) ->
  (forall e vp s0, (fn e vp s0).2 = Ok tt) ->
  write reqs vl = (vl', Ok reqs') ->
  exists lf', getCurrentFile (wal vl') = Some lf' /\
    replayLog lf' 0 fn s vl' =
      Some (run_handler fn (deliveries lf lfHeaderSize (old ++ logged reqs)) s, vl', Ok tt).
Proof.
  intros Hmem Hro Hcur Hty Hfid Hhdr Hd Hwo Hvt Hsz Hn Hcnt Hc Hr Hcipher Hfn H.
  pose proof (proj1 (Forall_app readable old (logged reqs)) Hr) as [Hro' _].
  pose proof (len_records lf lfHeaderSize old Hro' Hcipher) as Hlo.
  rewrite total_len_app in Hsz.
  pose proof (wrap32_range (ValueLogFileSize (opt vl))) as Hrange.
  assert (Hlen : len (hdr ++ records lf lfHeaderSize old) = lfHeaderSize + total_len old)
    by (rewrite len_app; lia).
  destruct (write_wal_run vl vl' reqs reqs' lf _ Hmem Hcur Hty Hfid Hd)
    as (Hd' & _ & _ & _ & Hopt & lf' & Hcur' & Hlk); try done; try lia.
  rewrite Hlen, <- app_assoc, <- records_app in Hd'.
  exists lf'. split; [exact Hcur'|].
  rewrite <- (deliveries_like lf' lf) by exact Hlk.
  pose proof Hlk as (L1 & L2 & _).
  apply (replayLog_committed vl' lf' fn s hdr).
  - congruence.
  - congruence.
  - exact Hhdr.
  - unfold fkey. rewrite L1, L2, Hty, (records_like lf' lf) by exact Hlk. exact Hd'.
  - exact Hc.
  - exact Hr.
  - rewrite total_len_app. lia.
  - intros o. apply (cipher_ready_like lf' lf); [exact Hlk|apply Hcipher].
  - exact Hfn.
Qed.

End WalReplay.
(** ** [rewrite] returns *)

Section RewriteReturns.
Context `{E : Externals} `{D : DBInterface}.

(** The batch loop of [rewrite] ends: a round either returns, moves on by
    at least one entry, or halves the batch size, and at batch size zero it
    gives up. *)
Lemma rewrite_batches_returns (wb : list Entry) :
  forall (fuel : nat) (k : nat) (i batchSize : Z) (s : rewriteState),
    0 <= batchSize < 2 ^ Z.of_nat k ->
    (Z.to_nat (len wb - i) + k + 1 <= fuel)%nat ->
    is_Some (rewrite_batches fuel wb i batchSize s).
Proof.
  induction fuel as [|fuel IH]; intros k i batchSize s Hbs Hf; [lia|].
  cbn [rewrite_batches].
  destruct (Z.ltb_spec i (len wb)) as [Hi|Hi]; cbn [negb]; [|eauto].
  destruct (Z.eqb_spec batchSize 0) as [Hz|Hz]; [eauto|].
  destruct (slice wb i _) as [part|e0|]; [|eauto|eauto].
  destruct (rw_batchSet part s) as [s' [u|err|]] eqn:Hset; [| |eauto].
  - apply (IH k); [exact Hbs|]. lia.
  - assert (Hhalf : is_Some (rewrite_batches fuel wb i (batchSize / 2) s')).
    { destruct k as [|k].
      - change (2 ^ Z.of_nat 0) with 1 in Hbs. lia.
      - apply (IH k); [|lia].
        rewrite Nat2Z.inj_succ, Z.pow_succ_r in Hbs by lia.
        split; [apply Z.div_pos; lia|]. apply Z.div_lt_upper_bound; lia. }
    destruct err; eauto.
Qed.

(** X17.  [rewrite] returns, whatever the file holds and whatever the LSM
    tree answers: the iteration over the file ends, and the loop that
    submits the batch ends within [len wb + 12] rounds, since a round
    either returns, moves on by at least one entry, or, on
    [ErrTxnTooBig], halves the batch size, which from 1024 reaches zero
    after eleven halvings and then makes the loop give up. *)
Theorem rewrite_returns (f0 : option logFile) (db : LSM) (vl : valueLog) :
  is_Some (valueLog_rewrite f0 db vl) /\
  (forall (wb : list Entry) (s : rewriteState),
     is_Some (rewrite_batches (length wb + 12) wb 0 1024 s)).
Proof.
  assert (Hb : forall (wb : list Entry) (s : rewriteState),
             is_Some (rewrite_batches (length wb + 12) wb 0 1024 s)).
  { intros wb s. apply (rewrite_batches_returns wb _ 11%nat); [split; [lia|reflexivity]|].
    rewrite Z.sub_0_r, to_nat_len. lia. }
  split; [|exact Hb]. unfold valueLog_rewrite.
  destruct f0 as [f|]; [|eauto]. destruct (negb _); [eauto|].
  assert (Hit : is_Some (iterate vl f 0 (fun e _ => rewrite_fe f e)
                           (mkRewriteState db vl [] 0 0 0))).
  { unfold iterate. destruct (fd_content vl f) as [c|?|]; eauto.
    cbv zeta. destruct (_ =? len c); eauto. destruct (ReadOnly _); eauto.
    apply iterate_loop_returns. lia. }
  destruct Hit as [[s1 r] ->]. destruct r as [off|?|]; [|eauto|eauto].
  destruct (Hb (rw_wb s1) s1) as [[s2 r2] ->]. destruct r2 as [u|?|]; [|eauto|eauto].
  destruct (rewrite_remove f (rw_vl s2)). eauto.
Qed.

End RewriteReturns.

(** ** The batch loop of [deleteMoveKeysFor] *)

Section MoveKeysFacts.
Context `{D : DBInterface}.

(** X18.  The batch loop of [deleteMoveKeysFor] has no way out once the
    batch size is zero: unlike the loop of [rewrite] it does not check for
    it, the batch it then submits is empty, and whether the LSM tree takes
    the empty batch or calls it too big, neither the index nor the batch
    size moves.  So with entries left to submit the loop does not return;
    and it gets there from its initial batch size of 10240 when every batch
    that holds an entry is too big for a transaction. *)
Theorem deleteMove_batches_stuck (res : list Entry) :
  (forall s0, (db_batchSet [] s0).2 = Ok tt \/ (db_batchSet [] s0).2 = Err ErrTxnTooBig) ->
  (forall i s fuel, 0 <= i < len res -> deleteMove_batches fuel res i 0 s = None) /\
  ((forall part s0, part <> [] -> (db_batchSet part s0).2 = Err ErrTxnTooBig) ->
   res <> [] ->
   forall s fuel, deleteMove_batches fuel res 0 10240 s = None).
Proof.
  intros Hempty.
  assert (Hzero : forall fuel i s, 0 <= i < len res ->
                    deleteMove_batches fuel res i 0 s = None).
  { induction fuel as [|fuel IH]; intros i s Hi; [reflexivity|].
    cbn [deleteMove_batches].
    replace (i <? len res) with true by (symmetry; apply Z.ltb_lt; lia).
    cbn [negb]. rewrite Z.add_0_r.
    replace (len res <? i) with false by (symmetry; apply Z.ltb_ge; lia).
    rewrite slice_in_range by lia. rewrite Z.sub_diag. change (Z.to_nat 0) with 0%nat.
    rewrite take_0.
    destruct (db_batchSet [] s) as [s' r] eqn:Hset.
    destruct (Hempty s) as [Hr|Hr]; rewrite Hset in Hr; cbn [snd] in Hr; subst r.
    - now apply IH.
    - change (0 / 2) with 0. now apply IH. }
  split; [intros i s fuel; apply Hzero|].
  intros Hbig Hne.
  assert (Hlen : 0 < len res).
  { destruct res; [done|]. unfold len. cbn [length]. lia. }
  assert (Hany : forall fuel bs s, 0 <= bs -> deleteMove_batches fuel res 0 bs s = None).
  { induction fuel as [|fuel IH]; intros bs s Hbs; [reflexivity|].
    destruct (Z.eq_dec bs 0) as [->|Hnz]; [apply Hzero; lia|].
    cbn [deleteMove_batches].
    replace (0 <? len res) with true by (symmetry; apply Z.ltb_lt; lia).
    cbn [negb]. rewrite Z.add_0_l.
    set (end_ := if len res <? bs then len res else bs).
    assert (Hend : 0 < end_ <= len res).
    { unfold end_. destruct (Z.ltb_spec (len res) bs); lia. }
    rewrite slice_in_range by lia. rewrite Z.sub_0_r. change (Z.to_nat 0) with 0%nat.
    rewrite drop_0.
    set (part := take (Z.to_nat end_) res).
    assert (Hpart : part <> []).
    { unfold part. destruct res as [|e res']; [done|].
      destruct (Z.to_nat end_) eqn:Hn; [lia|]. discriminate. }
    destruct (db_batchSet part s) as [s' r] eqn:Hset.
    pose proof (Hbig part s Hpart) as Hr. rewrite Hset in Hr. cbn [snd] in Hr. subst r.
    apply IH. apply Z.div_pos; lia. }
  intros s fuel. apply Hany. lia.
Qed.

End MoveKeysFacts.
(** ** [dropAll] *)

Section DropAllFacts.
Context `{E : Externals} `{D : DBInterface}.

(** The files on disk once those of [lfs] are removed. *)
Lemma deleteAll_loop_inv (lfs : list logFile) : forall count vl vl' n,
  deleteAll_loop lfs count vl = (vl', (n, Ok tt)) ->
  n = count + len lfs /\
  (forall lf, lf ∈ lfs -> disk vl' !! fkey lf = None) /\
  (forall k, k ∉ fkey <$> lfs -> disk vl' !! k = disk vl !! k) /\
  (forall ft, lw_of ft vl' = lw_of ft vl) /\ opt vl' = opt vl.
Proof.
  induction lfs as [|lf lfs IH]; intros count vl vl' n H.
  - cbn [deleteAll_loop] in H. injection H as <- <-.
    change (len []) with 0. split; [lia|]. split; [intros lf Hin; inversion Hin|].
    now repeat split.
  - cbn [deleteAll_loop deleteLogFile] in H.
    destruct (disk vl !! fkey lf) as [c|] eqn:Hd; [|discriminate].
    destruct (IH _ _ _ _ H) as (-> & Hgone & Hkeep & Hlw & Hopt).
    split; [unfold len; cbn [length]; lia|]. split.
    { intros lf' Hin. apply elem_of_cons in Hin as [->|Hin]; [|now apply Hgone].
      destruct (decide (fkey lf ∈ fkey <$> lfs)) as [Hdup|Hnd].
      - apply list_elem_of_fmap_1 in Hdup as (lf2 & Hk & Hin2). rewrite Hk. now apply Hgone.
      - rewrite Hkeep by exact Hnd. cbn [disk set_disk]. apply lookup_delete_eq. }
    split.
    { intros k Hk. cbn [fmap list_fmap] in Hk. apply not_elem_of_cons in Hk as [Hne Hk].
      rewrite Hkeep by exact Hk. cbn [disk set_disk]. now apply lookup_delete_ne. }
    split; [intros ft; rewrite Hlw; now destruct ft|].
    rewrite Hopt. reflexivity.
Qed.

(** X19.  [dropAll] does nothing in in-memory mode.  Otherwise, when it
    returns without error, it has removed from disk every file of the two
    files maps, in whatever order the maps handed them out, and counted
    them; the vlog wrapper is reset to no file, fid 0 and offset 0; the WAL
    wrapper holds one file, the new WAL file 0, on disk with its 20-byte
    header, at offset 20; files on disk that were in neither map are
    untouched; and the iterator counts and the lists of files waiting for
    deletion are as they were. *)
Theorem dropAll_post (vorder worder : list logFile) (vl vl' : valueLog) (n : Z) :
  vorder ≡ₚ (map_to_list (filesMap (vlog vl))).*2 ->
  worder ≡ₚ (map_to_list (filesMap (wal vl))).*2 ->
  (InMemory (opt vl) = true -> dropAll vorder worder vl = (vl, (0, Ok tt))) /\
  (InMemory (opt vl) = false ->
   dropAll vorder worder vl = (vl', (n, Ok tt)) ->
   n = Z.of_nat (size (filesMap (vlog vl))) + Z.of_nat (size (filesMap (wal vl))) /\
   vlog vl' = mkLogWrapper ∅ 0 0 0 (numActiveIterators (vlog vl))
                (filesToBeDeleted (vlog vl)) /\
   (exists lf,
      fid lf = 0 /\ lf_fileType lf = walFile /\
      wal vl' = mkLogWrapper {[0 := lf]} 0 lfHeaderSize 0 (numActiveIterators (wal vl))
                  (filesToBeDeleted (wal vl)) /\
      disk vl' !! (walFile, 0) = Some (PutUint64 (keyID lf) ++ baseIV lf) /\
      len (PutUint64 (keyID lf) ++ baseIV lf) = lfHeaderSize) /\
   (forall lf, lf ∈ vorder ++ worder -> fkey lf <> (walFile, 0) ->
      disk vl' !! fkey lf = None) /\
   (forall k, k ∉ fkey <$> (vorder ++ worder) -> k <> (walFile, 0) ->
      disk vl' !! k = disk vl !! k) /\
   opt vl' = opt vl).
Proof.
  intros Hpv Hpw. split.
  { intros Hmem. unfold dropAll. now rewrite Hmem. }
  intros Hmem H. unfold dropAll in H. rewrite Hmem in H. unfold deleteAll in H.
  destruct (deleteAll_loop vorder 0 vl) as [vl1 [c1 r1]] eqn:H1.
  destruct r1 as [[]|e1|]; [|injection H; discriminate|injection H; discriminate].
  destruct (deleteAll_loop_inv _ _ _ _ _ H1) as (-> & G1 & K1 & L1 & O1).
  set (vl1' := set_lw vlogFile (set_filesMap ∅ (lw_of vlogFile vl1)) vl1) in H.
  destruct (deleteAll_loop worder (0 + len vorder) vl1') as [vl2 [c2 r2]] eqn:H2.
  destruct r2 as [[]|e2|]; [|injection H; discriminate|injection H; discriminate].
  destruct (deleteAll_loop_inv _ _ _ _ _ H2) as (-> & G2 & K2 & L2 & O2).
  set (vl2' := set_lw walFile (set_filesMap ∅ (lw_of walFile vl2)) vl2) in H.
  pose proof (L1 vlogFile) as L1v. pose proof (L1 walFile) as L1w.
  pose proof (L2 vlogFile) as L2v. pose proof (L2 walFile) as L2w.
  cbn [lw_of] in L1v, L1w, L2v, L2w.
  assert (Hv2 : vlog vl2' = set_filesMap ∅ (vlog vl)).
  { unfold vl2'. cbn [vlog set_lw]. rewrite L2v. unfold vl1'. cbn [lw_of vlog set_lw].
    now rewrite L1v. }
  assert (Hw2 : wal vl2' = set_filesMap ∅ (wal vl)).
  { unfold vl2'. cbn [wal set_lw lw_of]. rewrite L2w. unfold vl1'.
    cbn [lw_of wal set_lw]. now rewrite L1w. }
  assert (Hd2 : disk vl2' = disk vl2) by apply disk_set_lw.
  assert (Hd1 : disk vl1' = disk vl1) by apply disk_set_lw.
  rewrite Hv2, Hw2 in H. cbn [filesMap set_filesMap] in H.
  rewrite map_size_empty in H. rewrite bool_decide_eq_true_2 in H by reflexivity.
  cbn [negb] in H.
  destruct (createLogFile 0 walFile vl2') as [vl3 r3] eqn:H3.
  destruct r3 as [lf|e3|]; [|injection H; discriminate|injection H; discriminate].
  injection H as <- <-.
  destruct (createLogFile_inv 0 walFile vl2') as [_ Hpost].
  destruct (Hpost _ _ H3)
    as (_ & _ & Hfid & Hty & _ & _ & Hdisk & Hlen & Hlw & _ & Hoth & Hopt & _).
  cbn [lw_of other] in Hlw, Hoth. rewrite Hw2 in Hlw. rewrite Hv2 in Hoth.
  cbn [filesMap numActiveIterators filesToBeDeleted set_filesMap] in Hlw.
  split.
  { rewrite <- !length_map_to_list.
    rewrite <- (length_fmap snd (map_to_list (filesMap (vlog vl)))),
      <- (length_fmap snd (map_to_list (filesMap (wal vl)))), <- Hpv, <- Hpw.
    unfold len. lia. }
  split.
  { cbn [vlog set_lw]. rewrite Hoth. reflexivity. }
  split.
  { exists lf. split; [exact Hfid|]. split; [exact Hty|]. split.
    - cbn [wal set_lw]. rewrite Hlw. reflexivity.
    - cbn [disk]. rewrite Hdisk. split; [apply lookup_insert_eq|exact Hlen]. }
  split.
  { intros lf0 Hin Hne. cbn [disk]. rewrite Hdisk, lookup_insert_ne by congruence.
    rewrite Hd2. apply elem_of_app in Hin as [Hin|Hin]; [|now apply G2].
    destruct (decide (fkey lf0 ∈ fkey <$> worder)) as [Hdup|Hnd].
    - apply list_elem_of_fmap_1 in Hdup as (lf2 & Hk & Hin2). rewrite Hk. now apply G2.
    - rewrite K2 by exact Hnd. rewrite Hd1. now apply G1. }
  split.
  { intros k Hk Hne. rewrite fmap_app in Hk. apply not_elem_of_app in Hk as [Hkv Hkw].
    cbn [disk]. rewrite Hdisk, lookup_insert_ne by congruence.
    rewrite Hd2, K2, Hd1, K1 by assumption. reflexivity. }
  cbn [opt set_lw]. rewrite Hopt. unfold vl2'.
  transitivity (opt vl2); [now destruct vl2|]. rewrite O2. unfold vl1'.
  transitivity (opt vl1); [now destruct vl1|]. exact O1.
Qed.

(** The loop stops at the first file that is not on disk. *)
Lemma deleteAll_loop_missing (lfs : list logFile) : forall count vl,
  (exists lf, lf ∈ lfs /\ disk vl !! fkey lf = None) ->
  exists vl' done rest,
    deleteAll_loop lfs count vl = (vl', (count + len done, Err ErrRemove)) /\
    lfs = done ++ rest /\ rest <> [] /\
    (forall d, d ∈ done -> is_Some (disk vl !! fkey d) /\ disk vl' !! fkey d = None) /\
    (forall k, k ∉ fkey <$> done -> disk vl' !! k = disk vl !! k) /\
    (forall ft, lw_of ft vl' = lw_of ft vl).
Proof.
  induction lfs as [|lf lfs IH]; intros count vl (lf0 & Hin & Hmiss); [inversion Hin|].
  cbn [deleteAll_loop deleteLogFile].
  destruct (disk vl !! fkey lf) as [c|] eqn:Hd.
  - apply elem_of_cons in Hin as [->|Hin]; [congruence|].
    set (vl1 := set_disk (delete (fkey lf) (disk vl)) vl).
    destruct (IH (count + 1) vl1) as (vl' & done & rest & Hrun & Hsplit & Hne & Hdone & Hkeep & Hlw).
    { exists lf0. split; [exact Hin|]. unfold vl1. cbn [disk set_disk].
      rewrite lookup_delete_ne; [exact Hmiss|]. congruence. }
    exists vl', (lf :: done), rest. split.
    { rewrite Hrun. do 2 f_equal. unfold len. cbn [length]. lia. }
    split; [now rewrite Hsplit|]. split; [exact Hne|]. split.
    { intros d Hd'. apply elem_of_cons in Hd' as [->|Hd'].
      - split; [eauto|]. destruct (decide (fkey lf ∈ fkey <$> done)) as [Hdup|Hnd].
        + apply list_elem_of_fmap_1 in Hdup as (d2 & Hk & Hin2). rewrite Hk.
          now apply Hdone.
        + rewrite Hkeep by exact Hnd. unfold vl1. cbn [disk set_disk].
          apply lookup_delete_eq.
      - destruct (Hdone d Hd') as [[c' Hs] Hg]. split; [|exact Hg].
        unfold vl1 in Hs. cbn [disk set_disk] in Hs.
        destruct (decide (fkey lf = fkey d)) as [Heq|Hneq].
        + rewrite <- Heq. eauto.
        + rewrite lookup_delete_ne in Hs by exact Hneq. eauto. }
    split.
    { intros k Hk. cbn [fmap list_fmap] in Hk. apply not_elem_of_cons in Hk as [Hne' Hk].
      rewrite Hkeep by exact Hk. unfold vl1. cbn [disk set_disk].
      now apply lookup_delete_ne. }
    intros ft. rewrite Hlw. unfold vl1. now destruct ft.
  - exists vl, [], (lf :: lfs). change (len []) with 0. rewrite Z.add_0_r.
    split; [reflexivity|]. split; [reflexivity|]. split; [discriminate|].
    split; [intros d Hd'; inversion Hd'|]. now split.
Qed.

(** X20.  [dropAll] gives up at the first file it cannot remove.  Outside
    in-memory mode, when a file of the vlog files map is not on disk,
    [dropAll] returns the remove error and the number of files it did
    remove before: those files are gone from disk, no other file is
    touched, and both files maps are as they were, the entries of the
    removed files included. *)
Theorem dropAll_missing_file (vorder worder : list logFile) (vl : valueLog) :
  InMemory (opt vl) = false ->
  (exists lf, lf ∈ vorder /\ disk vl !! fkey lf = None) ->
  exists vl' done rest,
    dropAll vorder worder vl = (vl', (len done, Err ErrRemove)) /\
    vorder = done ++ rest /\ rest <> [] /\
    (forall d, d ∈ done -> is_Some (disk vl !! fkey d) /\ disk vl' !! fkey d = None) /\
    (forall k, k ∉ fkey <$> done -> disk vl' !! k = disk vl !! k) /\
    vlog vl' = vlog vl /\ wal vl' = wal vl.
Proof.
  intros Hmem Hmiss.
  destruct (deleteAll_loop_missing vorder 0 vl Hmiss)
    as (vl' & done & rest & Hrun & Hsplit & Hne & Hdone & Hkeep & Hlw).
  exists vl', done, rest. unfold dropAll, deleteAll. rewrite Hmem, Hrun.
  rewrite Z.add_0_l. split; [reflexivity|]. split; [exact Hsplit|]. split; [exact Hne|].
  split; [exact Hdone|]. split; [exact Hkeep|].
  split; [apply (Hlw vlogFile)|apply (Hlw walFile)].
Qed.

End DropAllFacts.

(** ** The WAL cleaner *)

Section CleanerFacts.
Context `{E : Externals} `{D : DBInterface}.

(** What [deleteLogFile] leaves when its error is ignored. *)
Lemma deleteLogFile_logged (lf : logFile) (vl : valueLog) :
  (deleteLogFile (Some lf) vl).1 = set_disk (delete (fkey lf) (disk vl)) vl.
Proof.
  unfold deleteLogFile. destruct (disk vl !! fkey lf) eqn:Hd; cbn [fst]; [reflexivity|].
  rewrite delete_id by exact Hd. now destruct vl.
Qed.

Lemma walCleaner_loop_run (hFid : Z) (fids : list Z) : forall vl : valueLog,
  StronglySorted Z.lt fids ->
  (forall f, f ∈ fids -> exists lf, filesMap (wal vl) !! f = Some lf /\ fkey lf = (walFile, f)) ->
  exists vl',
    walCleaner_loop hFid fids vl = (vl', Ok tt) /\
    (forall f, filesMap (wal vl') !! f =
       if bool_decide (f < hFid /\ f ∈ fids) then None else filesMap (wal vl) !! f) /\
    (forall ft f, disk vl' !! (ft, f) =
       if bool_decide (ft = walFile /\ f < hFid /\ f ∈ fids) then None
       else disk vl !! (ft, f)) /\
    vlog vl' = vlog vl /\ maxFid (wal vl') = maxFid (wal vl) /\
    writableOffset (wal vl') = writableOffset (wal vl) /\
    numEntriesWritten (wal vl') = numEntriesWritten (wal vl) /\
    filesToBeDeleted (wal vl') = filesToBeDeleted (wal vl) /\
    opt vl' = opt vl /\ delChan vl' = delChan vl.
Proof.
  induction fids as [|f0 rest IH]; intros vl Hs Hall.
  { exists vl. cbn [walCleaner_loop]. split; [reflexivity|].
    split.
    { intros f. rewrite bool_decide_eq_false_2; [reflexivity|].
      intros [_ Hf]. now apply elem_of_nil in Hf. }
    split.
    { intros ft f. rewrite bool_decide_eq_false_2; [reflexivity|].
      intros (_ & _ & Hf). now apply elem_of_nil in Hf. }
    repeat split. }
  apply StronglySorted_inv in Hs as [Hs Hgt]. rewrite Forall_forall in Hgt.
  cbn [walCleaner_loop].
  destruct (Z.leb_spec hFid f0) as [Hle|Hlt].
  { exists vl. split; [reflexivity|].
    assert (Hno : forall f, f ∈ f0 :: rest -> ~ f < hFid).
    { intros f Hf. apply elem_of_cons in Hf as [->|Hf]; [lia|]. specialize (Hgt f Hf). lia. }
    split.
    { intros f. rewrite bool_decide_eq_false_2; [reflexivity|].
      intros [Hf1 Hf2]. now apply (Hno f). }
    split.
    { intros ft f. rewrite bool_decide_eq_false_2; [reflexivity|].
      intros (_ & Hf1 & Hf2). now apply (Hno f). }
    repeat split. }
  destruct (Hall f0) as (lf & Hlf & Hkey); [left|].
  injection Hkey as Hty Hfid.
  set (vl1 := set_lw walFile (set_filesMap (delete f0 (filesMap (wal vl))) (wal vl)) vl).
  set (vl2 := set_disk (delete (walFile, f0) (disk vl1)) vl1).
  assert (Hstep : (vl ← get_st;
        match filesMap (wal vl) !! f0 with
        | None => lift Panic
        | Some lf =>
            _ ← assertM (bool_decide (lf_fileType lf = walFile));
            _ ← modify_st (fun s =>
                   set_lw walFile (set_filesMap (delete f0 (filesMap (wal s))) (wal s)) s);
            _ ← (fun s => ((deleteLogFile (Some lf) s).1, Ok tt));
            walCleaner_loop hFid rest
        end) vl = walCleaner_loop hFid rest vl2).
  { unfold mbind at 1, M_bind at 1, get_st at 1. rewrite Hlf.
    rewrite bool_decide_eq_true_2 by exact Hty.
    unfold mbind at 1, M_bind at 1, assertM, lift, AssertTrue.
    unfold mbind at 1, M_bind at 1, modify_st. fold vl1.
    unfold mbind at 1, M_bind at 1. rewrite deleteLogFile_logged.
    unfold fkey. rewrite Hty, Hfid. reflexivity. }
  rewrite Hstep.
  destruct (IH vl2 Hs) as (vl' & Hrun & Hmap & Hdisk & Hv & Hmx & Hwo & Hne & Hfd & Hopt & Hch).
  { intros f Hf. destruct (Hall f) as (lf' & Hlf' & Hk'); [now right|].
    exists lf'. split; [|exact Hk'].
    specialize (Hgt f Hf).
    unfold vl2, vl1. destruct vl. cbn. rewrite lookup_delete_ne by lia. exact Hlf'. }
  exists vl'. split; [exact Hrun|].
  assert (H2 : wal vl2 = set_filesMap (delete f0 (filesMap (wal vl))) (wal vl) /\
               disk vl2 = delete (walFile, f0) (disk vl) /\ vlog vl2 = vlog vl /\
               opt vl2 = opt vl /\ delChan vl2 = delChan vl).
  { unfold vl2, vl1. destruct vl. cbn. repeat split. }
  destruct H2 as (Hw2 & Hd2 & Hv2 & Ho2 & Hc2).
  rewrite Hv, Hmx, Hwo, Hne, Hfd, Hopt, Hch, Hv2, Ho2, Hc2, Hw2.
  cbn [maxFid writableOffset numEntriesWritten filesToBeDeleted set_filesMap].
  split.
  { intros f. rewrite Hmap, Hw2. cbn [filesMap set_filesMap].
    destruct (decide (f = f0)) as [->|Hne0].
    - rewrite lookup_delete_eq.
      rewrite (bool_decide_eq_true_2 (f0 < hFid /\ f0 ∈ f0 :: rest)) by (split; [lia|left]).
      now destruct (bool_decide _).
    - rewrite lookup_delete_ne by congruence.
      apply (f_equal (fun b : bool => if b then None else filesMap (wal vl) !! f)).
      apply bool_decide_ext. rewrite elem_of_cons. tauto. }
  split.
  { intros ft f. rewrite Hdisk, Hd2.
    destruct (decide ((ft, f) = (walFile, f0))) as [Heq|Hne0].
    - injection Heq as -> ->. rewrite lookup_delete_eq.
      rewrite (bool_decide_eq_true_2 (walFile = walFile /\ f0 < hFid /\ f0 ∈ f0 :: rest))
        by (split; [reflexivity|split; [lia|left]]).
      now destruct (bool_decide _).
    - rewrite lookup_delete_ne by congruence.
      apply (f_equal (fun b : bool => if b then None else disk vl !! (ft, f))).
      apply bool_decide_ext. rewrite elem_of_cons.
      split; [intros (H1 & H2 & H3); tauto|].
      intros (H1 & H2 & [H3|H3]); [subst; contradiction|tauto]. }
  repeat split.
Qed.

(** X27.  The WAL cleaner drops the files before the head and no other.
    When [walCleaner] receives the fid [hFid] of the persisted head and
    every file of the WAL files map is a WAL file under its own fid: if
    [hFid] is above the largest WAL fid the sanity check panics; otherwise
    the cleaner succeeds, and exactly the WAL files with a fid below
    [hFid] that are not pending deletion are gone, from the files map and
    from disk (a file that is missing on disk is dropped from the map all
    the same).  The file of the head, every later file and with them the
    current WAL file stay, as do the vlog and all its files. *)
Theorem walCleaner_drops_before_head (vl : valueLog) (hFid : Z) (queue : list Z) :
  delChan vl = hFid :: queue ->
  (forall f lf, filesMap (wal vl) !! f = Some lf -> fkey lf = (walFile, f)) ->
  (maxFid (wal vl) < hFid -> walCleaner_recv vl = (set_delChan queue vl, Panic)) /\
  (hFid <= maxFid (wal vl) ->
   exists vl',
     walCleaner_recv vl = (vl', Ok tt) /\ delChan vl' = queue /\
     (forall f, filesMap (wal vl') !! f =
        if bool_decide (f < hFid /\ f ∉ filesToBeDeleted (wal vl)) then None
        else filesMap (wal vl) !! f) /\
     (forall ft f, disk vl' !! (ft, f) =
        if bool_decide (ft = walFile /\ f < hFid /\ is_Some (filesMap (wal vl) !! f) /\
                        f ∉ filesToBeDeleted (wal vl))
        then None else disk vl !! (ft, f)) /\
     getCurrentFile (wal vl') = getCurrentFile (wal vl) /\
     vlog vl' = vlog vl /\ maxFid (wal vl') = maxFid (wal vl) /\
     writableOffset (wal vl') = writableOffset (wal vl) /\ opt vl' = opt vl).
Proof.
  intros Hch Hty. split.
  { intros Hlt. unfold walCleaner_recv.
    unfold mbind at 1, M_bind at 1, get_st at 1. rewrite Hch.
    unfold mbind at 1, M_bind at 1, modify_st.
    unfold mbind, M_bind, assertM, lift.
    replace (hFid <=? maxFid (wal vl)) with false by (symmetry; apply Z.leb_gt; lia).
    reflexivity. }
  intros Hle.
  set (vl0 := set_delChan queue vl).
  assert (H0 : wal vl0 = wal vl /\ disk vl0 = disk vl /\ vlog vl0 = vlog vl /\
               opt vl0 = opt vl /\ delChan vl0 = queue) by (unfold vl0; now destruct vl).
  destruct H0 as (Hw0 & Hd0 & Hv0 & Ho0 & Hc0).
  destruct (walCleaner_loop_run hFid (sortedFids (wal vl)) vl0)
    as (vl' & Hrun & Hmap & Hdisk & Hv & Hmx & Hwo & Hne & Hfd & Hopt & Hch').
  { apply sortedFids_sorted. }
  { intros f Hf. apply elem_of_sortedFids in Hf as [[lf Hlf] _].
    exists lf. rewrite Hw0. split; [exact Hlf|now apply Hty]. }
  exists vl'. split.
  { unfold walCleaner_recv.
    unfold mbind at 1, M_bind at 1, get_st at 1. rewrite Hch.
    unfold mbind at 1, M_bind at 1, modify_st. fold vl0.
    unfold mbind at 1, M_bind at 1, assertM, lift.
    replace (hFid <=? maxFid (wal vl)) with true by (symmetry; apply Z.leb_le; lia).
    exact Hrun. }
  split; [now rewrite Hch', Hc0|].
  assert (Hm' : forall f, filesMap (wal vl') !! f =
        if bool_decide (f < hFid /\ f ∉ filesToBeDeleted (wal vl)) then None
        else filesMap (wal vl) !! f).
  { intros f. rewrite Hmap, Hw0.
    destruct (decide (f < hFid /\ f ∈ sortedFids (wal vl))) as [Hd|Hd].
    - rewrite bool_decide_eq_true_2 by exact Hd.
      destruct Hd as [H1 H2]. apply elem_of_sortedFids in H2 as [_ H2].
      now rewrite bool_decide_eq_true_2 by (split; assumption).
    - rewrite bool_decide_eq_false_2 by exact Hd.
      destruct (decide (f < hFid /\ f ∉ filesToBeDeleted (wal vl))) as [Hd2|Hd2].
      + rewrite bool_decide_eq_true_2 by exact Hd2.
        destruct (filesMap (wal vl) !! f) eqn:Hf; [|reflexivity].
        exfalso. apply Hd. split; [apply Hd2|]. apply elem_of_sortedFids.
        split; [rewrite Hf; now eexists|apply Hd2].
      + now rewrite bool_decide_eq_false_2 by exact Hd2. }
  split; [exact Hm'|].
  split.
  { intros ft f. rewrite Hdisk, Hd0.
    apply (f_equal (fun b : bool => if b then None else disk vl !! (ft, f))).
    apply bool_decide_ext. rewrite elem_of_sortedFids. tauto. }
  split.
  { unfold getCurrentFile. rewrite Hm', Hmx, Hw0.
    rewrite bool_decide_eq_false_2; [reflexivity|]. intros [Hlt _]. lia. }
  split; [now rewrite Hv, Hv0|].
  split; [now rewrite Hmx, Hw0|].
  split; [now rewrite Hwo, Hw0|now rewrite Hopt, Ho0].
Qed.

End CleanerFacts.
(** ** [logFile.open] after [bootstrap] *)

Section OpenFacts.
Context `{E : Externals} `{D : DBInterface}.

Lemma Uint64_PutUint64 (x : Z) (rest : list byte) :
  0 <= x < 18446744073709551616 -> Uint64 (PutUint64 x ++ rest) = Some x.
Proof.
  intros Hx. unfold Uint64, PutUint64. rewrite <- app_assoc.
  rewrite BytesToU32_PutUint32.
  2:{ split; [apply Z.div_pos; lia|]. apply Z.div_lt_upper_bound; lia. }
  assert (Hd : drop 4 (PutUint32 (x / 4294967296) ++ PutUint32 (x mod 4294967296) ++ rest)
               = PutUint32 (x mod 4294967296) ++ rest) by reflexivity.
  rewrite Hd, BytesToU32_PutUint32 by (apply Z.mod_pos_bound; lia).
  f_equal. rewrite Z.mul_comm. symmetry. apply Z.div_mod. lia.
Qed.

(** X21.  [logFile.open] reads back what [bootstrap] wrote: on the file
    [bootstrap] has just set up, and with a key registry that knows the
    key of the id in the header, [open] succeeds, takes the size 20 and
    gives the file the data key and the base IV that [bootstrap] gave it.
    On any file shorter than the header [open] succeeds too and only takes
    the size; and a file that is not there is the wrapped error of
    [y.OpenExistingFile], the log file left as it was. *)
Theorem open_after_bootstrap (open_err : error)
    (registry_dataKey : Z -> result (option DataKey)) (lf0 : logFile) :
  (forall (lf lf1 : logFile) (vl vl' : valueLog),
     bootstrap lf vl = (vl', Ok lf1) ->
     fkey lf0 = fkey lf ->
     0 <= keyID lf1 < 18446744073709551616 ->
     registry_dataKey (keyID lf1) = Ok (dataKey lf1) ->
     lf_open open_err registry_dataKey lf0 vl' =
       (mkLogFile (fid lf0) (lf_fileType lf0) (loadingMode lf0) (dataKey lf1) (baseIV lf1)
          (fmapLen lf0) lfHeaderSize, Ok tt)) /\
  (forall (vl : valueLog) (c : list byte),
     disk vl !! fkey lf0 = Some c -> len c < lfHeaderSize ->
     lf_open open_err registry_dataKey lf0 vl = (set_size (len c) lf0, Ok tt)) /\
  (forall vl : valueLog,
     disk vl !! fkey lf0 = None ->
     lf_open open_err registry_dataKey lf0 vl = (lf0, Err (ErrWrapped open_err))).
Proof.
  split; [|split].
  - intros lf lf1 vl vl' Hb Hk Hid Hreg.
    destruct (bootstrap_inv _ _ _ _ Hb) as (_ & _ & _ & _ & _ & Hiv & Hdisk & _).
    unfold lf_open. rewrite Hk, Hdisk, lookup_insert_eq.
    rewrite len_app, len_PutUint64, Hiv. cbn [Z.add Z.leb Z.ltb].
    change (8 + 12 <=? MaxUint32) with true. change (8 + 12 <? lfHeaderSize) with false.
    cbn [negb].
    assert (Htake : take (Z.to_nat lfHeaderSize) (PutUint64 (keyID lf1) ++ baseIV lf1)
                    = PutUint64 (keyID lf1) ++ baseIV lf1).
    { apply take_ge. pose proof (len_PutUint64 (keyID lf1)) as H8. unfold len in *.
      rewrite length_app. unfold lfHeaderSize. lia. }
    rewrite Htake.
    assert (H8 : take 8 (PutUint64 (keyID lf1) ++ baseIV lf1) = PutUint64 (keyID lf1) ++ []).
    { rewrite app_nil_r. apply take_app_length'.
      pose proof (len_PutUint64 (keyID lf1)) as H8. unfold len in H8. lia. }
    rewrite H8, Uint64_PutUint64 by exact Hid. rewrite Hreg.
    assert (Hd8 : drop 8 (PutUint64 (keyID lf1) ++ baseIV lf1) = baseIV lf1).
    { apply drop_app_length'.
      pose proof (len_PutUint64 (keyID lf1)) as H8'. unfold len in H8'. lia. }
    rewrite Hd8. cbn [baseIV]. rewrite Hiv. cbn [Z.eqb Pos.eqb AssertTrue].
    reflexivity.
  - intros vl c Hc Hlen. unfold lf_open. rewrite Hc.
    pose proof (len_nonneg c) as Hn.
    replace (len c <=? MaxUint32) with true
      by (symmetry; apply Z.leb_le; unfold MaxUint32, lfHeaderSize in *; lia).
    cbn [negb].
    replace (len c <? lfHeaderSize) with true by (symmetry; apply Z.ltb_lt; lia).
    rewrite wrap32_small by (unfold lfHeaderSize in *; lia). reflexivity.
  - intros vl Hnone. unfold lf_open. now rewrite Hnone.
Qed.

End OpenFacts.
(** ** File names and [populateFilesMap] *)

Section NameFacts.

Lemma dval_snoc (s : list byte) (d : byte) : dval (s ++ [d]) = dval s * 10 + (d - 48).
Proof. unfold dval. now rewrite fold_left_app. Qed.

(** The digits [%d] prints are digits, and they are those of the number. *)
Lemma decimal_spec (fuel : nat) : forall (n : Z) (acc : list byte),
  0 <= n < 10 ^ Z.of_nat (S fuel) ->
  exists ds, decimal (S fuel) n acc = ds ++ acc /\ ds <> [] /\
             forallb is_digit ds = true /\ dval ds = n.
Proof.
  assert (Hone : forall n : Z, 0 <= n < 10 ->
            [48 + n mod 10] <> [] /\ forallb is_digit [48 + n mod 10] = true /\
            dval [48 + n mod 10] = n).
  { intros n Hlt. split; [discriminate|]. rewrite Z.mod_small by lia. split.
    - cbn [forallb]. unfold is_digit.
      replace (48 <=? 48 + n) with true by (symmetry; apply Z.leb_le; lia).
      replace (48 + n <=? 57) with true by (symmetry; apply Z.leb_le; lia).
      reflexivity.
    - unfold dval. cbn [fold_left]. lia. }
  induction fuel as [|fuel IH]; intros n acc Hn.
  { change (10 ^ Z.of_nat 1) with 10 in Hn. cbn [decimal].
    replace (n <? 10) with true by (symmetry; apply Z.ltb_lt; lia).
    exists [48 + n mod 10]. split; [reflexivity|]. now apply Hone. }
  cbn [decimal]. fold (decimal (S fuel)). destruct (Z.ltb_spec n 10) as [Hlt|Hge].
  { exists [48 + n mod 10]. split; [reflexivity|]. now apply Hone. }
  rewrite Nat2Z.inj_succ, Z.pow_succ_r in Hn by lia.
  destruct (IH (n / 10) ((48 + n mod 10) :: acc)) as (ds & Hd & Hne & Hdig & Hval).
  { split; [apply Z.div_pos; lia|]. apply Z.div_lt_upper_bound; lia. }
  exists (ds ++ [48 + n mod 10]). split.
  { change (decimal (S fuel) (n / 10) ((48 + n mod 10) :: acc)
            = (ds ++ [48 + n mod 10]) ++ acc). rewrite Hd. now rewrite <- app_assoc. }
  split; [now destruct ds|]. split.
  - rewrite forallb_app, Hdig. cbn [forallb andb]. unfold is_digit.
    pose proof (Z.mod_pos_bound n 10 ltac:(lia)).
    replace (48 <=? 48 + n mod 10) with true by (symmetry; apply Z.leb_le; lia).
    replace (48 + n mod 10 <=? 57) with true by (symmetry; apply Z.leb_le; lia).
    reflexivity.
  - rewrite dval_snoc, Hval. pose proof (Z.div_mod n 10 ltac:(lia)). lia.
Qed.

Lemma dval_zeros (k : nat) (s : list byte) : dval (replicate k 48 ++ s) = dval s.
Proof.
  unfold dval. rewrite fold_left_app.
  assert (Hz : fold_left (fun acc b => acc * 10 + (b - 48)) (replicate k 48) 0 = 0).
  { induction k as [|k IH]; [reflexivity|]. cbn [replicate fold_left]. exact IH. }
  now rewrite Hz.
Qed.

Lemma forallb_zeros (k : nat) : forallb is_digit (replicate k 48) = true.
Proof. induction k as [|k IH]; [reflexivity|]. cbn [replicate forallb]. now rewrite IH. Qed.

(** [ParseUint] reads [%06d] back. *)
Lemma ParseUint32_Sprintf (fid0 : Z) :
  0 <= fid0 < 4294967296 -> ParseUint32 (Sprintf_06d fid0) = Some fid0.
Proof.
  intros Hf. unfold Sprintf_06d.
  destruct (decimal_spec 9 fid0 []) as (ds & Hd & Hne & Hdig & Hval).
  { change (10 ^ Z.of_nat 10) with 10000000000. lia. }
  rewrite app_nil_r in Hd. rewrite Hd.
  set (s := replicate (6 - length ds) 48 ++ ds).
  assert (Hs : s <> []) by (unfold s; destruct (replicate _ _); [exact Hne|discriminate]).
  unfold ParseUint32. destruct s as [|b s'] eqn:Hs'; [done|]. rewrite <- Hs'.
  unfold s. rewrite forallb_app, forallb_zeros, Hdig. cbn [andb].
  fold (dval (replicate (6 - length ds) 48 ++ ds)). rewrite dval_zeros, Hval.
  now replace (fid0 <? 4294967296) with true by (symmetry; apply Z.ltb_lt; lia).
Qed.

Lemma HasSuffix_app (x suf : list byte) : HasSuffix (x ++ suf) suf = true.
Proof.
  unfold HasSuffix. rewrite length_app.
  replace (length suf <=? length x + length suf)%nat with true
    by (symmetry; apply Nat.leb_le; lia).
  cbn [andb]. apply bool_decide_eq_true.
  replace (length x + length suf - length suf)%nat with (length x) by lia.
  apply drop_app_length.
Qed.

Lemma HasSuffix_last (s suf : list byte) :
  HasSuffix s suf = true -> suf <> [] -> last s = last suf.
Proof.
  unfold HasSuffix. intros H Hne. apply andb_true_iff in H as [Hl H].
  apply Nat.leb_le in Hl. apply bool_decide_eq_true in H.
  rewrite <- (take_drop (length s - length suf) s) at 1. rewrite H.
  rewrite last_app. destruct (last suf) eqn:Hlast; [reflexivity|].
  apply last_None in Hlast. done.
Qed.

Lemma not_vlog_suffix (x : list byte) : HasSuffix (x ++ walSuffix) vlogSuffix = false.
Proof.
  destruct (HasSuffix (x ++ walSuffix) vlogSuffix) eqn:H; [|reflexivity].
  apply HasSuffix_last in H; [|discriminate].
  rewrite last_app in H. cbn in H. discriminate.
Qed.

Lemma take_stem (x suf : list byte) : take (length (x ++ suf) - length suf) (x ++ suf) = x.
Proof.
  rewrite length_app. replace (length x + length suf - length suf)%nat with (length x) by lia.
  apply take_app_length.
Qed.

End NameFacts.

Section PopulateFacts.

Lemma fpath_baseName (dirPath : list byte) (fid0 : Z) (ft : fileType) :
  fpath dirPath fid0 ft = dirPath ++ [PathSeparator] ++ baseName ft fid0.
Proof. now destruct ft. Qed.

Lemma baseName_is_log (ft : fileType) (fid0 : Z) : is_log_name (baseName ft fid0) = true.
Proof.
  unfold is_log_name, baseName. destruct ft; cbn [suffix_of].
  - now rewrite HasSuffix_app.
  - rewrite (HasSuffix_app _ walSuffix). apply orb_true_r.
Qed.

(** One turn of the loop on the name of a log file not met before. *)
Lemma populate_loop_baseName (ft : fileType) (fid0 : Z) (rest : list (list byte))
    (vfound wfound : gset Z) (vl : valueLog) :
  0 <= fid0 < 4294967296 ->
  fid0 ∉ (match ft with vlogFile => vfound | walFile => wfound end) ->
  populate_loop (baseName ft fid0 :: rest) vfound wfound vl =
  populate_loop rest
    (match ft with vlogFile => {[fid0]} ∪ vfound | walFile => vfound end)
    (match ft with vlogFile => wfound | walFile => {[fid0]} ∪ wfound end)
    (set_lw ft (mkLogWrapper (<[fid0 := found_file (opt vl) ft fid0]> (filesMap (lw_of ft vl)))
                  (Z.max (maxFid (lw_of ft vl)) fid0)
                  (writableOffset (lw_of ft vl)) (numEntriesWritten (lw_of ft vl))
                  (numActiveIterators (lw_of ft vl)) (filesToBeDeleted (lw_of ft vl))) vl).
Proof.
  intros Hf Hnew. cbn [populate_loop]. unfold baseName.
  assert (Hmax : (if maxFid (lw_of ft vl) <? fid0 then fid0 else maxFid (lw_of ft vl))
                 = Z.max (maxFid (lw_of ft vl)) fid0).
  { destruct (Z.ltb_spec (maxFid (lw_of ft vl)) fid0); lia. }
  destruct ft; cbn [suffix_of].
  - rewrite HasSuffix_app, take_stem, ParseUint32_Sprintf by exact Hf.
    rewrite (bool_decide_eq_true_2 (vlogFile = vlogFile)) by reflexivity.
    rewrite (bool_decide_eq_false_2 (vlogFile = walFile)) by discriminate.
    rewrite (bool_decide_eq_false_2 (fid0 ∈ vfound)) by exact Hnew.
    cbn [andb]. rewrite Hmax. reflexivity.
  - rewrite not_vlog_suffix, HasSuffix_app, take_stem, ParseUint32_Sprintf by exact Hf.
    rewrite (bool_decide_eq_true_2 (walFile = walFile)) by reflexivity.
    rewrite (bool_decide_eq_false_2 (walFile = vlogFile)) by discriminate.
    rewrite (bool_decide_eq_false_2 (fid0 ∈ wfound)) by exact Hnew.
    cbn [andb]. rewrite Hmax. reflexivity.
Qed.

Lemma populate_loop_skip (name : list byte) (rest : list (list byte))
    (vfound wfound : gset Z) (vl : valueLog) :
  is_log_name name = false ->
  populate_loop (name :: rest) vfound wfound vl = populate_loop rest vfound wfound vl.
Proof.
  unfold is_log_name. intros H. apply orb_false_iff in H as [H1 H2].
  cbn [populate_loop]. now rewrite H1, H2.
Qed.

Lemma filter_cons_inv (name : list byte) (names : list (list byte))
    (keys : list (fileType * Z)) :
  is_log_name name = true ->
  List.filter is_log_name (name :: names) = map (fun k => baseName k.1 k.2) keys ->
  exists k keys', keys = k :: keys' /\ name = baseName k.1 k.2 /\
    List.filter is_log_name names = map (fun k => baseName k.1 k.2) keys'.
Proof.
  intros Hn H. cbn [List.filter] in H. rewrite Hn in H.
  destruct keys as [|k keys']; [discriminate|]. cbn [map] in H. injection H as H1 H2.
  now exists k, keys'.
Qed.

(** The loop over the first entries of a directory, whose log files are
    named after [keys]. *)
Lemma populate_loop_prefix (names : list (list byte)) :
  forall (keys : list (fileType * Z)) (vf wf : gset Z) (vl : valueLog)
         (rest : list (list byte)),
  List.filter is_log_name names = map (fun k => baseName k.1 k.2) keys ->
  NoDup keys -> Forall (fun k => 0 <= k.2 < 4294967296) keys ->
  vf = dom (filesMap (vlog vl)) -> wf = dom (filesMap (wal vl)) ->
  (forall k, k ∈ keys -> filesMap (lw_of k.1 vl) !! k.2 = None) ->
  exists vl',
    populate_loop (names ++ rest) vf wf vl
      = populate_loop rest (dom (filesMap (vlog vl'))) (dom (filesMap (wal vl'))) vl' /\
    (forall ft fid0, filesMap (lw_of ft vl') !! fid0 =
        if bool_decide ((ft, fid0) ∈ keys) then Some (found_file (opt vl) ft fid0)
        else filesMap (lw_of ft vl) !! fid0) /\
    (forall ft,
       maxFid (lw_of ft vl) <= maxFid (lw_of ft vl') /\
       (forall fid0, (ft, fid0) ∈ keys -> fid0 <= maxFid (lw_of ft vl')) /\
       (maxFid (lw_of ft vl') = maxFid (lw_of ft vl) \/
        (ft, maxFid (lw_of ft vl')) ∈ keys)) /\
    (forall ft,
       writableOffset (lw_of ft vl') = writableOffset (lw_of ft vl) /\
       numEntriesWritten (lw_of ft vl') = numEntriesWritten (lw_of ft vl) /\
       numActiveIterators (lw_of ft vl') = numActiveIterators (lw_of ft vl) /\
       filesToBeDeleted (lw_of ft vl') = filesToBeDeleted (lw_of ft vl)) /\
    opt vl' = opt vl /\ disk vl' = disk vl.
Proof.
  induction names as [|name names IH];
    intros keys vf wf vl rest Hfil Hnd Hrange Hvf Hwf Hfresh; cbn [app].
  - cbn [List.filter] in Hfil. destruct keys; [|discriminate].
    exists vl. split; [now subst vf wf|].
    split; [intros ft fid0; rewrite bool_decide_eq_false_2; [reflexivity|apply not_elem_of_nil]|].
    split.
    { intros ft. split; [lia|]. split; [|now left].
      intros fid0 Hin. now apply elem_of_nil in Hin. }
    split; [intros ft; now repeat split|]. now split.
  - destruct (is_log_name name) eqn:Hlog.
    2:{ rewrite populate_loop_skip by exact Hlog. apply IH; try assumption.
        cbn [List.filter] in Hfil. now rewrite Hlog in Hfil. }
    destruct (filter_cons_inv _ _ _ Hlog Hfil) as ([ft0 f0] & keys' & -> & -> & Hfil').
    cbn [fst snd] in *.
    apply NoDup_cons in Hnd as [Hnotin Hnd]. apply Forall_cons in Hrange as [Hr0 Hrange].
    cbn [fst snd] in Hr0.
    pose proof (Hfresh (ft0, f0) ltac:(left)) as Hf0. cbn [fst snd] in Hf0.
    rewrite populate_loop_baseName.
    2:{ exact Hr0. }
    2:{ destruct ft0; subst vf wf; cbn [lw_of] in Hf0; now apply not_elem_of_dom. }
    set (lw1 := mkLogWrapper _ _ _ _ _ _).
    set (vl1 := set_lw ft0 lw1 vl).
    assert (Hsame : lw_of ft0 vl1 = lw1) by apply lw_of_set_lw.
    assert (Hoth : lw_of (other ft0) vl1 = lw_of (other ft0) vl) by apply lw_of_set_lw_other.
    assert (Hopt1 : opt vl1 = opt vl) by (unfold vl1; destruct ft0, vl; reflexivity).
    assert (Hdisk1 : disk vl1 = disk vl) by apply disk_set_lw.
    destruct (IH keys'
                (match ft0 with vlogFile => {[f0]} ∪ vf | walFile => vf end)
                (match ft0 with vlogFile => wf | walFile => {[f0]} ∪ wf end) vl1 rest)
      as (vl' & Hrun & Hmap & Hmax & Hkeep & Hopt & Hdisk); try assumption.
    { subst vf. destruct ft0; unfold vl1, lw1; cbn [set_lw vlog filesMap lw_of];
        [now rewrite dom_insert_L|reflexivity]. }
    { subst wf. destruct ft0; unfold vl1, lw1; cbn [set_lw wal filesMap lw_of];
        [reflexivity|now rewrite dom_insert_L]. }
    { intros [ft1 f1] Hin. cbn [fst snd].
      pose proof (Hfresh (ft1, f1) ltac:(now right)) as Hf1. cbn [fst snd] in Hf1.
      destruct (decide (ft1 = ft0)) as [->|Hne].
      - rewrite Hsame. unfold lw1. cbn [filesMap]. rewrite lookup_insert_ne; [exact Hf1|].
        intros ->. apply Hnotin. exact Hin.
      - assert (ft1 = other ft0) as -> by (destruct ft0, ft1; done).
        now rewrite Hoth. }
    exists vl'. split; [exact Hrun|]. split.
    { intros ft fid0. rewrite Hmap, Hopt1.
      destruct (decide ((ft, fid0) ∈ keys')) as [Hin|Hnin].
      - rewrite !bool_decide_eq_true_2; [reflexivity|now right|exact Hin].
      - rewrite (bool_decide_eq_false_2 _ Hnin).
        destruct (decide ((ft, fid0) = (ft0, f0))) as [Heq|Hneq].
        + injection Heq as -> ->. rewrite bool_decide_eq_true_2 by left.
          rewrite Hsame. unfold lw1. cbn [filesMap]. apply lookup_insert_eq.
        + rewrite bool_decide_eq_false_2.
          2:{ intros Hin. apply elem_of_cons in Hin as [?|?]; done. }
          destruct (decide (ft = ft0)) as [->|Hne].
          * rewrite Hsame. unfold lw1. cbn [filesMap]. apply lookup_insert_ne. congruence.
          * assert (ft = other ft0) as -> by (destruct ft0, ft; done). now rewrite Hoth. }
    split.
    { intros ft. destruct (Hmax ft) as (M1 & M2 & M3).
      destruct (decide (ft = ft0)) as [->|Hne].
      - rewrite Hsame in M1, M3. unfold lw1 in M1, M3. cbn [maxFid] in M1, M3.
        split; [lia|]. split.
        + intros fid0 Hin. apply elem_of_cons in Hin as [Heq|Hin]; [|now apply M2].
          injection Heq as ->. lia.
        + destruct M3 as [M3|M3]; [|right; now right].
          destruct (Z.max_spec (maxFid (lw_of ft0 vl)) f0) as [[_ Hm]|[_ Hm]].
          * right. rewrite M3, Hm. left.
          * left. now rewrite M3, Hm.
      - assert (ft = other ft0) as -> by (destruct ft0, ft; done).
        rewrite Hoth in M1, M3. split; [exact M1|]. split.
        + intros fid0 Hin. apply elem_of_cons in Hin as [Heq|Hin]; [|now apply M2].
          injection Heq as Heq _. destruct ft0; discriminate.
        + destruct M3 as [M3|M3]; [now left|right; now right]. }
    split.
    { intros ft. destruct (Hkeep ft) as (K1 & K2 & K3 & K4).
      destruct (decide (ft = ft0)) as [->|Hne].
      - rewrite Hsame in K1, K2, K3, K4. now repeat split.
      - assert (ft = other ft0) as -> by (destruct ft0, ft; done).
        rewrite Hoth in K1, K2, K3, K4. now repeat split. }
    split; congruence.
Qed.

(** [populateFilesMap] on a directory whose log files are named after
    [keys]. *)
Lemma populateFilesMap_found (names : list (list byte))
    (keys : list (fileType * Z)) (vl : valueLog) :
  List.filter is_log_name names = map (fun k => baseName k.1 k.2) keys ->
  NoDup keys -> Forall (fun k => 0 <= k.2 < 4294967296) keys ->
  exists vl',
    populateFilesMap (Some names) vl = (vl', PopOk) /\
    (forall ft fid0, filesMap (lw_of ft vl') !! fid0 =
        if bool_decide ((ft, fid0) ∈ keys) then Some (found_file (opt vl) ft fid0)
        else None) /\
    (forall ft,
       maxFid (lw_of ft vl) <= maxFid (lw_of ft vl') /\
       (forall fid0, (ft, fid0) ∈ keys -> fid0 <= maxFid (lw_of ft vl')) /\
       (maxFid (lw_of ft vl') = maxFid (lw_of ft vl) \/
        (ft, maxFid (lw_of ft vl')) ∈ keys)) /\
    (forall ft,
       writableOffset (lw_of ft vl') = writableOffset (lw_of ft vl) /\
       numEntriesWritten (lw_of ft vl') = numEntriesWritten (lw_of ft vl) /\
       numActiveIterators (lw_of ft vl') = numActiveIterators (lw_of ft vl) /\
       filesToBeDeleted (lw_of ft vl') = filesToBeDeleted (lw_of ft vl)) /\
    opt vl' = opt vl /\ disk vl' = disk vl.
Proof.
  intros Hfil Hnd Hrange.
  unfold populateFilesMap.
  set (vl0 := set_lw walFile _ _).
  assert (H0 : forall ft, lw_of ft vl0 = set_filesMap ∅ (lw_of ft vl))
    by (intros ft; now destruct ft).
  destruct (populate_loop_prefix names keys ∅ ∅ vl0 [] Hfil Hnd Hrange)
    as (vl' & Hrun & Hmap & Hmax & Hkeep & Hopt & Hdisk).
  { pose proof (H0 vlogFile) as H. cbn [lw_of] in H. rewrite H. cbn [filesMap set_filesMap].
    now rewrite dom_empty_L. }
  { pose proof (H0 walFile) as H. cbn [lw_of] in H. rewrite H. cbn [filesMap set_filesMap].
    now rewrite dom_empty_L. }
  { intros k _. rewrite H0. apply lookup_empty. }
  exists vl'. rewrite app_nil_r in Hrun. split.
  { rewrite Hrun. cbn [populate_loop]. rewrite !size_dom.
    now rewrite !bool_decide_eq_true_2 by reflexivity. }
  split.
  { intros ft fid0. rewrite Hmap, H0. cbn [filesMap set_filesMap]. rewrite lookup_empty.
    now destruct vl. }
  split; [intros ft; specialize (Hmax ft); now rewrite H0 in Hmax|].
  split; [intros ft; specialize (Hkeep ft); now rewrite H0 in Hkeep|].
  split; [rewrite Hopt; now destruct vl|]. rewrite Hdisk. unfold vl0.
  now rewrite !disk_set_lw.
Qed.

(** X22.  [populateFilesMap] finds the files that [fpath] names.  When the
    entries of the directory that end in ".vlog" or ".wal" are the names
    [fpath] gives to the files of [keys] (each type and fid once, the fids
    32-bit numbers), whatever else the directory holds, [populateFilesMap]
    succeeds, and afterwards the files map of each type holds exactly the
    fids of [keys] of that type, each with a log file of that fid and type
    in the configured loading mode and with no key yet; the largest fid of
    a wrapper is the largest among its old value and the fids found; and
    nothing else of the value log has changed. *)
Theorem populateFilesMap_finds_files (names : list (list byte))
    (keys : list (fileType * Z)) (vl : valueLog) :
  List.filter is_log_name names = map (fun k => baseName k.1 k.2) keys ->
  NoDup keys -> Forall (fun k => 0 <= k.2 < 4294967296) keys ->
  (forall dirPath ft fid0,
     fpath dirPath fid0 ft = dirPath ++ [PathSeparator] ++ baseName ft fid0) /\
  exists vl',
    populateFilesMap (Some names) vl = (vl', PopOk) /\
    (forall ft fid0, filesMap (lw_of ft vl') !! fid0 =
        if bool_decide ((ft, fid0) ∈ keys) then Some (found_file (opt vl) ft fid0)
        else None) /\
    (forall ft,
       maxFid (lw_of ft vl) <= maxFid (lw_of ft vl') /\
       (forall fid0, (ft, fid0) ∈ keys -> fid0 <= maxFid (lw_of ft vl')) /\
       (maxFid (lw_of ft vl') = maxFid (lw_of ft vl) \/
        (ft, maxFid (lw_of ft vl')) ∈ keys)) /\
    (forall ft,
       writableOffset (lw_of ft vl') = writableOffset (lw_of ft vl) /\
       numEntriesWritten (lw_of ft vl') = numEntriesWritten (lw_of ft vl) /\
       numActiveIterators (lw_of ft vl') = numActiveIterators (lw_of ft vl) /\
       filesToBeDeleted (lw_of ft vl') = filesToBeDeleted (lw_of ft vl)) /\
    opt vl' = opt vl /\ disk vl' = disk vl.
Proof.
  intros Hfil Hnd Hrange. split; [intros; apply fpath_baseName|].
  exact (populateFilesMap_found names keys vl Hfil Hnd Hrange).
Qed.

(** X23.  [populateFilesMap] refuses a directory with a log file name it
    cannot read or has read before.  After entries named as in X22, an
    entry that ends in the suffix of a type and whose stem is not a decimal
    32-bit number makes it fail with the parse error for that name; one
    whose stem reads as a fid already found for that type, as "1.vlog"
    does next to "000001.vlog", makes it fail with the duplicate error; and
    a directory that cannot be read is an error after both files maps have
    been emptied. *)
Theorem populateFilesMap_rejects (good : list (list byte)) (bad : list byte)
    (rest : list (list byte)) (keys : list (fileType * Z)) (ft : fileType)
    (vl : valueLog) :
  List.filter is_log_name good = map (fun k => baseName k.1 k.2) keys ->
  NoDup keys -> Forall (fun k => 0 <= k.2 < 4294967296) keys ->
  HasSuffix bad (suffix_of ft) = true ->
  (ft = walFile -> HasSuffix bad vlogSuffix = false) ->
  (ParseUint32 (take (length bad - length (suffix_of ft)) bad) = None ->
   (populateFilesMap (Some (good ++ bad :: rest)) vl).2 = PopErr (ErrParseLogId bad)) /\
  (forall fid0,
     ParseUint32 (take (length bad - length (suffix_of ft)) bad) = Some fid0 ->
     (ft, fid0) ∈ keys ->
     (populateFilesMap (Some (good ++ bad :: rest)) vl).2 = PopErr (ErrDuplicateLog ft bad)) /\
  (populateFilesMap None vl).2 = PopErr ErrReadDir /\
  (forall ft', filesMap (lw_of ft' (populateFilesMap None vl).1) = ∅).
Proof.
  intros Hfil Hnd Hrange Hsuf Hnv.
  assert (Hrun : exists vl',
            populateFilesMap (Some (good ++ bad :: rest)) vl
              = populate_loop (bad :: rest) (dom (filesMap (vlog vl')))
                  (dom (filesMap (wal vl'))) vl' /\
            forall ft fid0, (ft, fid0) ∈ keys -> fid0 ∈ dom (filesMap (lw_of ft vl'))).
  { unfold populateFilesMap.
    set (vl0 := set_lw walFile _ _).
    assert (H0 : forall ft, lw_of ft vl0 = set_filesMap ∅ (lw_of ft vl))
      by (intros ft'; now destruct ft').
    destruct (populate_loop_prefix good keys ∅ ∅ vl0 (bad :: rest) Hfil Hnd Hrange)
      as (vl' & Hrun & Hmap & _).
    { pose proof (H0 vlogFile) as H. cbn [lw_of] in H. rewrite H.
      cbn [filesMap set_filesMap]. now rewrite dom_empty_L. }
    { pose proof (H0 walFile) as H. cbn [lw_of] in H. rewrite H.
      cbn [filesMap set_filesMap]. now rewrite dom_empty_L. }
    { intros k _. rewrite H0. apply lookup_empty. }
    exists vl'. split; [exact Hrun|]. intros ft' fid0 Hin. apply elem_of_dom.
    rewrite Hmap, bool_decide_eq_true_2 by exact Hin. eauto. }
  destruct Hrun as (vl' & Hrun & Hdom).
  assert (Hkind : (if HasSuffix bad vlogSuffix then Some (vlogSuffix, vlogFile)
                   else if HasSuffix bad walSuffix then Some (walSuffix, walFile)
                   else None) = Some (suffix_of ft, ft)).
  { destruct ft; cbn [suffix_of] in *; [now rewrite Hsuf|].
    now rewrite (Hnv eq_refl), Hsuf. }
  split; [|split; [|split]].
  - intros Hparse. rewrite Hrun. cbn [populate_loop]. rewrite Hkind, Hparse. reflexivity.
  - intros fid0 Hparse Hin. rewrite Hrun. cbn [populate_loop]. rewrite Hkind, Hparse.
    pose proof (Hdom ft fid0 Hin) as Hd.
    destruct ft; cbn [lw_of] in Hd.
    + rewrite (bool_decide_eq_true_2 (vlogFile = vlogFile)) by reflexivity.
      now rewrite (bool_decide_eq_true_2 _ Hd).
    + rewrite (bool_decide_eq_false_2 (walFile = vlogFile)) by discriminate.
      rewrite (bool_decide_eq_true_2 (walFile = walFile)) by reflexivity.
      now rewrite (bool_decide_eq_true_2 _ Hd).
  - reflexivity.
  - intros ft'. now destruct ft'.
Qed.

End PopulateFacts.

(** ** [valueLog.open] *)

Section OpenFiles.
Context `{E : Externals} {laws : HeaderCodecLaws E} `{D : DBInterface}.
Context {St : Type}.
Variable open_err : error.
Variable registry_dataKey : Z -> result (option DataKey).
Variable shouldEncrypt : bool.

(** The log file [logFile.open] makes of [lf] on a file with the contents
    [c], whose header names the key [dk]. *)
Lemma lf_open_header (lf : logFile) (vl : valueLog) (c : list byte) (k : Z)
    (dk : option DataKey) :
  disk vl !! fkey lf = Some c ->
  lfHeaderSize <= len c <= MaxUint32 ->
  Uint64 (take 8 c) = Some k -> registry_dataKey k = Ok dk ->
  lf_open open_err registry_dataKey lf vl =
    (mkLogFile (fid lf) (lf_fileType lf) (loadingMode lf) dk (drop 8 (take 20 c))
       (fmapLen lf) (len c), Ok tt).
Proof.
  intros Hc Hlen Hk Hreg. unfold lf_open. rewrite Hc.
  replace (len c <=? MaxUint32) with true by (symmetry; apply Z.leb_le; lia).
  replace (len c <? lfHeaderSize) with false by (symmetry; apply Z.ltb_ge; lia).
  cbn [negb]. change (Z.to_nat lfHeaderSize) with 20%nat.
  rewrite take_take. change (8 `min` 20)%nat with 8%nat. rewrite Hk, Hreg.
  cbn [fid lf_fileType loadingMode fmapLen lf_size set_size baseIV].
  rewrite wrap32_small by (unfold MaxUint32, lfHeaderSize in *; lia).
  assert (H12 : len (drop 8 (take 20 c)) = 12).
  { unfold len in *. rewrite length_drop, length_take. unfold lfHeaderSize in *. lia. }
  rewrite H12. reflexivity.
Qed.

Lemma openLogFile_header (lf : logFile) (vl : valueLog) (c : list byte) (k : Z)
    (dk : option DataKey) :
  disk vl !! fkey lf = Some c ->
  lfHeaderSize <= len c <= MaxUint32 ->
  Uint64 (take 8 c) = Some k -> registry_dataKey k = Ok dk ->
  let lf' := mkLogFile (fid lf) (lf_fileType lf) (loadingMode lf) dk (drop 8 (take 20 c))
               (fmapLen lf) (len c) in
  openLogFile open_err registry_dataKey lf vl = (store_lf lf' vl, Ok lf').
Proof.
  intros Hc Hlen Hk Hreg lf'. unfold openLogFile.
  now rewrite (lf_open_header lf vl c k dk).
Qed.

Lemma bind_run {S A B} (m : M S A) (k : A -> M S B) (s s1 : S) (a : A) :
  m s = (s1, Ok a) -> (m ≫= k) s = k a s1.
Proof. intros H. unfold mbind, M_bind. now rewrite H. Qed.

(** The state of a log file of the map after [open] and [init]. *)
Lemma lf_init_run (lf : logFile) (vl : valueLog) (c : list byte) :
  disk vl !! fkey lf = Some c -> 0 < len c <= MaxUint32 ->
  lf_init lf vl = (store_lf (lf_mmap (len c) (set_size (len c) lf)) vl,
                   Ok (lf_mmap (len c) (set_size (len c) lf))).
Proof.
  intros Hc Hlen. unfold lf_init.
  rewrite (bind_run _ _ vl vl (len c)) by (unfold fd_size, fd_content; now rewrite Hc).
  replace (len c =? 0) with false by (symmetry; apply Z.eqb_neq; lia).
  unfold assertM, lift.
  replace (len c <=? MaxUint32) with true by (symmetry; apply Z.leb_le; lia).
  rewrite wrap32_small by (unfold MaxUint32 in *; lia).
  reflexivity.
Qed.

(** The loop of [open] over vlog files that have their header. *)
Lemma open_vlog_files_run (o : Options) (fids : list Z) : forall vl : valueLog,
  NoDup fids ->
  (forall f, f ∈ fids ->
     filesMap (vlog vl) !! f = Some (found_file o vlogFile f) /\
     exists c k dk, disk vl !! (vlogFile, f) = Some c /\
       lfHeaderSize <= len c <= MaxUint32 /\
       Uint64 (take 8 c) = Some k /\ registry_dataKey k = Ok dk) ->
  exists vl',
    open_vlog_files open_err registry_dataKey fids vl = (vl', Ok tt) /\
    disk vl' = disk vl /\ opt vl' = opt vl /\ wal vl' = wal vl /\
    maxFid (vlog vl') = maxFid (vlog vl) /\
    writableOffset (vlog vl') = writableOffset (vlog vl) /\
    numEntriesWritten (vlog vl') = numEntriesWritten (vlog vl) /\
    filesToBeDeleted (vlog vl') = filesToBeDeleted (vlog vl) /\
    dom (filesMap (vlog vl')) = dom (filesMap (vlog vl)) /\
    (forall f, f ∉ fids -> filesMap (vlog vl') !! f = filesMap (vlog vl) !! f) /\
    (forall f c k dk, f ∈ fids -> disk vl !! (vlogFile, f) = Some c ->
       Uint64 (take 8 c) = Some k -> registry_dataKey k = Ok dk ->
       filesMap (vlog vl') !! f =
         Some (lf_mmap (len c)
                 (mkLogFile f vlogFile (ValueLogLoadingMode o) dk (drop 8 (take 20 c)) 0
                    (len c)))).
Proof.
  induction fids as [|f fids IH]; intros vl Hnd Hall.
  { exists vl. cbn [open_vlog_files]. repeat split; try reflexivity.
    intros f c k dk Hf. now apply elem_of_nil in Hf. }
  apply NoDup_cons in Hnd as [Hnotin Hnd].
  destruct (Hall f) as (Hmap & c & k & dk & Hc & Hlen & Hk & Hreg); [left|].
  set (lf := found_file o vlogFile f) in *.
  set (lf1 := mkLogFile f vlogFile (ValueLogLoadingMode o) dk (drop 8 (take 20 c)) 0 (len c)).
  set (lf2 := lf_mmap (len c) lf1).
  set (vl1 := store_lf lf1 vl).
  set (vl2 := store_lf lf2 vl1).
  assert (Hstep : open_vlog_files open_err registry_dataKey (f :: fids) vl
                  = open_vlog_files open_err registry_dataKey fids vl2).
  { cbn [open_vlog_files]. unfold mbind at 1, M_bind at 1, get_st at 1. rewrite Hmap.
    rewrite (bind_run _ _ vl vl1 lf1).
    2:{ apply (openLogFile_header lf vl c k dk); assumption. }
    rewrite (bind_run _ _ vl1 vl2 lf2).
    2:{ replace lf2 with (lf_mmap (len c) (set_size (len c) lf1)) by reflexivity.
        replace vl2 with (store_lf (lf_mmap (len c) (set_size (len c) lf1)) vl1)
          by reflexivity.
        apply lf_init_run; [|unfold lfHeaderSize in *; lia].
        unfold vl1. destruct vl; exact Hc. }
    reflexivity. }
  destruct (lf_mmap_fields (len c) lf1) as (M1 & M2 & _).
  fold lf2 in M1, M2. cbn [fid lf_fileType lf1] in M1, M2.
  assert (Hv2 : vlog vl2 = set_filesMap (<[f := lf2]> (<[f := lf1]> (filesMap (vlog vl))))
                  (vlog vl)).
  { unfold vl2, store_lf. rewrite M2, M1. unfold vl1, store_lf. cbn [lf_fileType fid lf1].
    destruct vl. reflexivity. }
  assert (Hd2 : disk vl2 = disk vl /\ opt vl2 = opt vl /\ wal vl2 = wal vl).
  { unfold vl2, store_lf. rewrite M2. unfold vl1, store_lf. cbn [lf_fileType fid lf1].
    destruct vl. repeat split. }
  destruct Hd2 as (Hdisk2 & Hopt2 & Hwal2).
  destruct (IH vl2 Hnd) as (vl' & Hrun & Hdisk & Hopt & Hwal & Hmx & Hwo & Hne & Hfd & Hdom
                            & Hout & Hin).
  { intros g Hg. destruct (Hall g) as (Hmg & Hrest); [now right|].
    assert (g <> f) by (intros ->; contradiction).
    split.
    - rewrite Hv2. cbn [filesMap set_filesMap]. now rewrite !lookup_insert_ne by congruence.
    - rewrite Hdisk2. exact Hrest. }
  exists vl'. rewrite Hstep, Hrun, Hdisk, Hopt, Hwal, Hmx, Hwo, Hne, Hfd, Hdom.
  rewrite Hv2. cbn [filesMap set_filesMap maxFid writableOffset numEntriesWritten
                    filesToBeDeleted].
  repeat split; try assumption.
  - rewrite !dom_insert_L. apply elem_of_dom_2 in Hmap. apply set_eq. intros x.
    rewrite !elem_of_union, elem_of_singleton.
    split; [intros [->|[->|Hx]]; assumption|intros Hx; right; right; exact Hx].
  - intros g Hg. apply not_elem_of_cons in Hg as [Hgf Hg].
    rewrite Hout by exact Hg. rewrite Hv2. cbn [filesMap set_filesMap].
    now rewrite !lookup_insert_ne by congruence.
  - intros g c' k' dk' Hg Hc' Hk' Hreg'. apply elem_of_cons in Hg as [->|Hg].
    + rewrite Hout by exact Hnotin. rewrite Hv2. cbn [filesMap set_filesMap].
      rewrite lookup_insert_eq. rewrite Hc in Hc'. injection Hc' as <-.
      rewrite Hk in Hk'. injection Hk' as <-. rewrite Hreg in Hreg'. injection Hreg' as <-.
      reflexivity.
    + apply (Hin g c' k' dk' Hg); [|exact Hk'|exact Hreg']. now rewrite Hdisk2.
Qed.

End OpenFiles.

Section OpenLoops.
Context `{E : Externals} {laws : HeaderCodecLaws E} `{D : DBInterface}.
Context {St : Type}.
Variable open_err : error.
Variable registry_dataKey : Z -> result (option DataKey).
Variable shouldEncrypt : bool.

(** [initLastFile] on a last file whose encryption is the one of the DB. *)
Lemma initLastFile_run (ft : fileType) (vl : valueLog) (last : logFile) (c : list byte) :
  filesMap (lw_of ft vl) !! maxFid (lw_of ft vl) = Some last ->
  encryptionEnabled last = shouldEncrypt ->
  disk vl !! fkey last = Some c ->
  initLastFile shouldEncrypt ft vl =
    (store_lf (lf_mmap (2 * ValueLogFileSize (opt vl)) last)
       (set_lw ft (set_writableOffset (wrap32 (len c)) (lw_of ft vl)) vl), Ok tt).
Proof.
  intros Hmap Henc Hc. unfold initLastFile.
  unfold mbind at 1, M_bind at 1, get_st at 1. rewrite Hmap, Henc.
  rewrite eqb_reflx. cbn [negb].
  rewrite (bind_run _ _ vl vl last) by reflexivity.
  rewrite (bind_run _ _ vl vl (len c)) by (unfold fd_size, fd_content; now rewrite Hc).
  reflexivity.
Qed.

Lemma records_ext (lf' lf : logFile) (off : Z) (es : list Entry) :
  dataKey lf' = dataKey lf -> baseIV lf' = baseIV lf ->
  records lf' off es = records lf off es.
Proof.
  intros Hk Hiv. revert off.
  induction es as [|e es IH]; intros off; cbn [records]; [reflexivity|].
  now rewrite IH, (record_bytes_cipher lf lf') by done.
Qed.

Lemma deliveries_ext (lf' lf : logFile) (off : Z) (es : list Entry) :
  fid lf' = fid lf -> deliveries lf' off es = deliveries lf off es.
Proof.
  intros Hf. revert off.
  induction es as [|e es IH]; intros off; cbn [deliveries]; [reflexivity|].
  now rewrite IH, Hf.
Qed.

Lemma list_singleton (l : list Z) (w : Z) :
  NoDup l -> (forall x, x ∈ l <-> x = w) -> l = [w].
Proof.
  intros Hnd Hl. destruct l as [|a l].
  { assert (H : w ∈ @nil Z) by now apply Hl. now apply elem_of_nil in H. }
  assert (a = w) as -> by (apply Hl; left).
  apply NoDup_cons in Hnd as [Hn Hnd].
  destruct l as [|b l]; [reflexivity|].
  assert (b = w) as -> by (apply Hl; right; left).
  exfalso. apply Hn. left.
Qed.

(** The loop of [open] over one WAL file whose replay changes nothing of
    the value log. *)
Lemma open_wal_files_step (w : Z) (ptr : valuePointer) (fn : @logEntry St) (s s' : St)
    (vl : valueLog) (lf0 : logFile) (c : list byte) (k : Z) (dk : option DataKey) :
  filesMap (wal vl) !! w = Some lf0 -> fkey lf0 = (walFile, w) ->
  Fid ptr <= w -> (Fid ptr = w -> wrap32 (Offset ptr + Len ptr) = 0) ->
  disk vl !! (walFile, w) = Some c -> lfHeaderSize <= len c <= MaxUint32 ->
  Uint64 (take 8 c) = Some k -> registry_dataKey k = Ok dk ->
  let lf1 := mkLogFile w walFile (loadingMode lf0) dk (drop 8 (take 20 c))
               (fmapLen lf0) (len c) in
  replayLog lf1 0 fn s (store_lf lf1 vl) = Some (s', store_lf lf1 vl, Ok tt) ->
  open_wal_files open_err registry_dataKey [w] ptr fn s vl
    = Some (s', store_lf lf1 vl, Ok tt).
Proof.
  intros Hmap Hkey Hle Hoff Hdisk Hlen Hk Hreg lf1 Hrep.
  injection Hkey as Hty Hf0.
  cbn [open_wal_files]. rewrite Hmap.
  rewrite (openLogFile_header open_err registry_dataKey lf0 vl c k dk).
  2:{ unfold fkey. rewrite Hty, Hf0. exact Hdisk. }
  2:{ exact Hlen. }
  2:{ exact Hk. }
  2:{ exact Hreg. }
  rewrite Hty, Hf0. fold lf1.
  replace (w <? Fid ptr) with false by (symmetry; apply Z.ltb_ge; lia).
  assert (Hoff0 : (if w =? Fid ptr then wrap32 (Offset ptr + Len ptr) else 0) = 0).
  { destruct (Z.eqb_spec w (Fid ptr)) as [Heq|]; [|reflexivity]. apply Hoff. congruence. }
  rewrite Hoff0, Hrep. reflexivity.
Qed.

(** The loop of [open] over one WAL file of committed writes. *)
Lemma open_wal_files_one (w : Z) (ptr : valuePointer) (fn : @logEntry St) (s : St)
    (vl : valueLog) (lf0 lf : logFile) (hdr : list byte) (cs : list Entry) (k : Z) :
  filesMap (wal vl) !! w = Some lf0 -> fkey lf0 = (walFile, w) ->
  ReadOnly (opt vl) = false ->
  Fid ptr <= w -> (Fid ptr = w -> wrap32 (Offset ptr + Len ptr) = 0) ->
  fid lf = w -> baseIV lf = drop 8 hdr -> len hdr = lfHeaderSize ->
  Uint64 (take 8 hdr) = Some k -> registry_dataKey k = Ok (dataKey lf) ->
  disk vl !! (walFile, w) = Some (hdr ++ records lf lfHeaderSize cs) ->
  committed cs -> Forall readable cs ->
  lfHeaderSize + total_len cs < 4294967296 ->
  (forall o, cipher_ready lf o) ->
  (forall e vp s0, (fn e vp s0).2 = Ok tt) ->
  open_wal_files open_err registry_dataKey [w] ptr fn s vl =
    Some (run_handler fn (deliveries lf lfHeaderSize cs) s,
          store_lf (mkLogFile w walFile (loadingMode lf0) (dataKey lf) (baseIV lf)
                      (fmapLen lf0) (lfHeaderSize + total_len cs)) vl,
          Ok tt).
Proof.
  intros Hmap Hkey Hro Hle Hoff Hfid Hiv Hhdr Hk Hreg Hdisk Hc Hr Hb Hcipher Hfn.
  pose proof (len_records lf lfHeaderSize cs Hr Hcipher) as Hlc.
  pose proof (total_len_nonneg cs) as Hnn.
  set (c := hdr ++ records lf lfHeaderSize cs) in *.
  assert (Hlen : len c = lfHeaderSize + total_len cs)
    by (unfold c; now rewrite len_app, Hhdr, Hlc).
  assert (Ht8 : take 8 c = take 8 hdr).
  { unfold c. rewrite take_app_le; [reflexivity|].
    unfold len, lfHeaderSize in Hhdr. lia. }
  assert (Ht20 : take 20 c = hdr).
  { unfold c. apply take_app_length'. unfold len, lfHeaderSize in Hhdr. lia. }
  set (lf1 := mkLogFile w walFile (loadingMode lf0) (dataKey lf) (baseIV lf)
                (fmapLen lf0) (lfHeaderSize + total_len cs)).
  pose proof (open_wal_files_step w ptr fn s
                (run_handler fn (deliveries lf lfHeaderSize cs) s) vl lf0 c k (dataKey lf)
                Hmap Hkey Hle Hoff Hdisk) as Hstep.
  rewrite Ht8, Ht20, <- Hiv, Hlen in Hstep. fold lf1 in Hstep.
  apply Hstep; [unfold MaxUint32; lia|exact Hk|exact Hreg|].
  assert (Hd1 : disk (store_lf lf1 vl) = disk vl /\ opt (store_lf lf1 vl) = opt vl)
    by (unfold store_lf; cbn [lf_fileType lf1]; destruct vl; now split).
  destruct Hd1 as [Hd1 Ho1].
  rewrite (replayLog_committed (store_lf lf1 vl) lf1 fn s hdr cs).
  - rewrite (deliveries_ext lf1 lf) by (symmetry; exact Hfid). reflexivity.
  - reflexivity.
  - now rewrite Ho1.
  - exact Hhdr.
  - rewrite Hd1. change (fkey lf1) with (walFile, w).
    rewrite (records_ext lf1 lf) by reflexivity. exact Hdisk.
  - exact Hc.
  - exact Hr.
  - exact Hb.
  - intros o. exact (Hcipher o).
  - exact Hfn.
Qed.

End OpenLoops.

Section OpenSteps.
Context `{E : Externals} {laws : HeaderCodecLaws E} `{D : DBInterface}.
Context {St : Type}.
Variable open_err : error.
Variable registry_dataKey : Z -> result (option DataKey).
Variable shouldEncrypt : bool.

Lemma lf_mmap_size sz lf : lf_size (lf_mmap sz lf) = lf_size lf.
Proof. unfold lf_mmap. now repeat case_match. Qed.

Lemma encryptionEnabled_key (lf : logFile) :
  encryptionEnabled lf = bool_decide (is_Some (dataKey lf)).
Proof.
  unfold encryptionEnabled. destruct (dataKey lf).
  - symmetry. now apply bool_decide_eq_true_2.
  - symmetry. apply bool_decide_eq_false_2. now intros [x Hx].
Qed.

(** [open] up to [initLastFile] on the vlog files, when the WAL has a file
    and every vlog file has its header. *)
Lemma open_vlogs_run (o : Options) (vl1 : valueLog) :
  size (filesMap (wal vl1)) <> 0%nat ->
  filesToBeDeleted (vlog vl1) = [] ->
  (forall f, is_Some (filesMap (vlog vl1) !! f) ->
     filesMap (vlog vl1) !! f = Some (found_file o vlogFile f) /\
     exists c k dk, disk vl1 !! (vlogFile, f) = Some c /\
       lfHeaderSize <= len c <= MaxUint32 /\
       Uint64 (take 8 c) = Some k /\ registry_dataKey k = Ok dk /\
       (f = maxFid (vlog vl1) -> bool_decide (is_Some dk) = shouldEncrypt)) ->
  (filesMap (vlog vl1) <> ∅ -> is_Some (filesMap (vlog vl1) !! maxFid (vlog vl1))) ->
  exists vl2,
    open_vlogs open_err registry_dataKey shouldEncrypt vl1 = (vl2, Ok tt) /\
    disk vl2 = disk vl1 /\ opt vl2 = opt vl1 /\ wal vl2 = wal vl1 /\
    maxFid (vlog vl2) = maxFid (vlog vl1) /\
    dom (filesMap (vlog vl2)) = dom (filesMap (vlog vl1)) /\
    (forall f c k dk, is_Some (filesMap (vlog vl1) !! f) ->
       disk vl1 !! (vlogFile, f) = Some c ->
       Uint64 (take 8 c) = Some k -> registry_dataKey k = Ok dk ->
       exists lf', filesMap (vlog vl2) !! f = Some lf' /\
         fid lf' = f /\ lf_fileType lf' = vlogFile /\ dataKey lf' = dk /\
         baseIV lf' = drop 8 (take 20 c) /\ lf_size lf' = len c /\
         loadingMode lf' = ValueLogLoadingMode o) /\
    (forall c, is_Some (filesMap (vlog vl1) !! maxFid (vlog vl1)) ->
       disk vl1 !! (vlogFile, maxFid (vlog vl1)) = Some c ->
       writableOffset (vlog vl2) = len c) /\
    (filesMap (vlog vl1) = ∅ -> writableOffset (vlog vl2) = writableOffset (vlog vl1)).
Proof.
  intros Hw Hdel Hfiles Hlast.
  unfold open_vlogs.
  rewrite (bind_run _ _ vl1 vl1 vl1) by reflexivity.
  rewrite bool_decide_eq_false_2 by exact Hw.
  rewrite (bind_run _ _ vl1 vl1 tt) by reflexivity.
  rewrite (bind_run _ _ vl1 vl1 vl1) by reflexivity.
  assert (Hin : forall f, f ∈ sortedFids (vlog vl1) <-> is_Some (filesMap (vlog vl1) !! f)).
  { intros f. rewrite elem_of_sortedFids, Hdel. split; [tauto|].
    intros Hf. split; [exact Hf|apply not_elem_of_nil]. }
  destruct (open_vlog_files_run open_err registry_dataKey o (sortedFids (vlog vl1)) vl1)
    as (vl2 & Hrun & Hdisk & Hopt & Hwal & Hmx & Hwo & Hne & Hfd & Hdom & Hout & Hopen).
  { apply NoDup_sortedFids. }
  { intros f Hf. apply Hin in Hf. destruct (Hfiles f Hf) as (Hm & c & k & dk & H1 & H2 & H3 & H4 & _).
    split; [exact Hm|]. now exists c, k, dk. }
  rewrite (bind_run _ _ vl1 vl2 tt) by exact Hrun.
  rewrite (bind_run _ _ vl2 vl2 vl2) by reflexivity.
  assert (Hfields : forall f c k dk, is_Some (filesMap (vlog vl1) !! f) ->
       disk vl1 !! (vlogFile, f) = Some c ->
       Uint64 (take 8 c) = Some k -> registry_dataKey k = Ok dk ->
       exists lf', filesMap (vlog vl2) !! f = Some lf' /\
         fid lf' = f /\ lf_fileType lf' = vlogFile /\ dataKey lf' = dk /\
         baseIV lf' = drop 8 (take 20 c) /\ lf_size lf' = len c /\
         loadingMode lf' = ValueLogLoadingMode o).
  { intros f c k dk Hf Hc Hk Hreg. eexists. split.
    - apply (Hopen f c k dk); [now apply Hin|assumption..].
    - destruct (lf_mmap_fields (len c)
        (mkLogFile f vlogFile (ValueLogLoadingMode o) dk (drop 8 (take 20 c)) 0 (len c)))
        as (M1 & M2 & M3 & M4 & M5).
      rewrite M1, M2, M3, M4, M5, lf_mmap_size. repeat split. }
  destruct (decide (size (filesMap (vlog vl2)) = 0%nat)) as [Hz|Hnz].
  - rewrite bool_decide_eq_true_2 by exact Hz.
    apply map_size_empty_inv in Hz.
    assert (Hz1 : filesMap (vlog vl1) = ∅).
    { apply dom_empty_inv_L. rewrite <- Hdom, Hz. apply dom_empty_L. }
    exists vl2. repeat split; try assumption.
    + intros c [x Hx]. rewrite Hz1, lookup_empty in Hx. discriminate.
    + intros _. exact Hwo.
  - rewrite bool_decide_eq_false_2 by exact Hnz.
    assert (Hne1 : filesMap (vlog vl1) <> ∅).
    { intros He. apply Hnz. rewrite <- size_dom, Hdom, He, dom_empty_L. apply size_empty. }
    pose proof (Hlast Hne1) as Hl.
    destruct (Hfiles _ Hl) as (Hm & c & k & dk & Hc & Hlen & Hk & Hreg & Henc).
    destruct (Hfields _ c k dk Hl Hc Hk Hreg) as (last & Hlm & L1 & L2 & L3 & L4 & L5 & L6).
    set (vl3 := store_lf (lf_mmap (2 * ValueLogFileSize (opt vl2)) last)
       (set_lw vlogFile (set_writableOffset (wrap32 (len c)) (lw_of vlogFile vl2)) vl2)).
    assert (Hi : initLastFile shouldEncrypt vlogFile vl2 = (vl3, Ok tt)).
    { apply initLastFile_run.
      - cbn [lw_of]. rewrite Hmx. exact Hlm.
      - rewrite encryptionEnabled_key, L3. now apply Henc.
      - unfold fkey. rewrite L1, L2, Hdisk. exact Hc. }
    rewrite Hi.
    destruct (lf_mmap_fields (2 * ValueLogFileSize (opt vl2)) last)
      as (M1 & M2 & M3 & M4 & M5).
    assert (Hv3 : vlog vl3 =
      mkLogWrapper (<[maxFid (vlog vl1) := lf_mmap (2 * ValueLogFileSize (opt vl2)) last]>
                      (filesMap (vlog vl2)))
        (maxFid (vlog vl2)) (wrap32 (len c)) (numEntriesWritten (vlog vl2))
        (numActiveIterators (vlog vl2)) (filesToBeDeleted (vlog vl2))).
    { unfold vl3, store_lf. rewrite M2, M1, L1, L2. destruct vl2. reflexivity. }
    assert (Hr3 : disk vl3 = disk vl2 /\ opt vl3 = opt vl2 /\ wal vl3 = wal vl2).
    { unfold vl3, store_lf. rewrite M2, L2. destruct vl2. repeat split. }
    destruct Hr3 as (Hd3 & Ho3 & Hw3).
    exists vl3. rewrite Hd3, Ho3, Hw3, Hv3.
    cbn [filesMap maxFid writableOffset].
    repeat split; try assumption.
    + rewrite dom_insert_L, Hdom. apply elem_of_dom in Hl. apply set_eq. intros x.
      rewrite elem_of_union, elem_of_singleton.
      split; [intros [->|Hx]; assumption|intros Hx; right; exact Hx].
    + intros f c' k' dk' Hf Hc' Hk' Hreg'.
      destruct (decide (f = maxFid (vlog vl1))) as [->|Hfne].
      * rewrite lookup_insert_eq. eexists. split; [reflexivity|].
        rewrite Hc in Hc'. injection Hc' as <-.
        rewrite Hk in Hk'. injection Hk' as <-.
        rewrite Hreg in Hreg'. injection Hreg' as <-.
        rewrite M1, M2, M3, M4, M5, lf_mmap_size. repeat split; assumption.
      * rewrite lookup_insert_ne by congruence. now apply (Hfields f c' k' dk').
    + intros c' _ Hc'. rewrite Hc in Hc'. injection Hc' as <-.
      apply wrap32_small. pose proof (len_nonneg c). unfold MaxUint32 in *. lia.
    + intros He. contradiction.
Qed.

(** The end of [open], on a last WAL file whose encryption is the one of
    the DB and of the last vlog file. *)
Lemma open_finish_run (vl3 : valueLog) (lastw : logFile) (c : list byte) :
  filesMap (wal vl3) !! maxFid (wal vl3) = Some lastw ->
  encryptionEnabled lastw = shouldEncrypt ->
  lf_fileType lastw = walFile -> fid lastw = maxFid (wal vl3) ->
  disk vl3 !! (walFile, maxFid (wal vl3)) = Some c -> len c < 4294967296 ->
  (filesMap (vlog vl3) <> ∅ ->
     exists lv, filesMap (vlog vl3) !! maxFid (vlog vl3) = Some lv /\
                encryptionEnabled lv = shouldEncrypt) ->
  open_finish shouldEncrypt vl3 =
    (store_lf (lf_mmap (2 * ValueLogFileSize (opt vl3)) lastw)
       (set_lw walFile (set_writableOffset (len c) (wal vl3)) vl3),
     Ok {| Fid := maxFid (wal vl3); Offset := len c; Len := 0 |}).
Proof.
  intros Hmap Henc Hty Hfid Hc Hlen Hv.
  pose proof (len_nonneg c) as Hnn.
  set (vl4 := store_lf (lf_mmap (2 * ValueLogFileSize (opt vl3)) lastw)
       (set_lw walFile (set_writableOffset (len c) (wal vl3)) vl3)).
  assert (Hi : initLastFile shouldEncrypt walFile vl3 = (vl4, Ok tt)).
  { rewrite (initLastFile_run shouldEncrypt walFile vl3 lastw c).
    - cbn [lw_of]. rewrite wrap32_small by lia. reflexivity.
    - exact Hmap.
    - exact Henc.
    - unfold fkey. rewrite Hty, Hfid. exact Hc. }
  destruct (lf_mmap_fields (2 * ValueLogFileSize (opt vl3)) lastw)
    as (M1 & M2 & M3 & M4 & M5).
  assert (H4 : vlog vl4 = vlog vl3 /\ maxFid (wal vl4) = maxFid (wal vl3) /\
               writableOffset (wal vl4) = len c /\
               filesMap (wal vl4) !! maxFid (wal vl3)
                 = Some (lf_mmap (2 * ValueLogFileSize (opt vl3)) lastw)).
  { unfold vl4, store_lf. rewrite M2, M1, Hty, Hfid. destruct vl3.
    cbn. repeat split. apply lookup_insert_eq. }
  destruct H4 as (Hv4 & Hm4 & Hw4 & Hf4).
  unfold open_finish.
  rewrite (bind_run _ _ vl3 vl4 tt) by exact Hi.
  rewrite (bind_run _ _ vl4 vl4 vl4) by reflexivity.
  rewrite Hv4, Hm4, Hw4, wrap32_small by lia.
  destruct (decide (size (filesMap (vlog vl3)) = 0%nat)) as [Hz|Hnz].
  - rewrite bool_decide_eq_true_2 by exact Hz.
    rewrite (bind_run _ _ vl4 vl4 tt) by reflexivity. reflexivity.
  - rewrite bool_decide_eq_false_2 by exact Hnz.
    destruct Hv as (lv & Hlv & Hencv).
    { intros He. apply Hnz. rewrite He. apply map_size_empty. }
    unfold getCurrentFile. rewrite Hlv, Hm4, Hf4.
    rewrite Hencv, encryptionEnabled_key, M3, <- encryptionEnabled_key, Henc.
    rewrite eqb_reflx.
    rewrite (bind_run _ _ vl4 vl4 tt) by reflexivity. reflexivity.
Qed.

End OpenSteps.

Section OpenEmpty.
Context `{E : Externals} {laws : HeaderCodecLaws E} `{D : DBInterface}.
Context {St : Type}.
Variable open_err : error.
Variable registry_dataKey : Z -> result (option DataKey).
Variable shouldEncrypt : bool.

Lemma bootstrap_runs (lf : logFile) (vl : valueLog) (c : list byte) (dk : option DataKey) :
  disk vl !! fkey lf = Some c -> latestDataKey = Ok dk ->
  exists vl' lf1, bootstrap lf vl = (vl', Ok lf1).
Proof.
  intros Hc Hdk. unfold bootstrap.
  set (s1 := set_disk (<[fkey lf := []]> (disk vl)) vl).
  rewrite (bind_run _ _ vl s1 tt) by (unfold fd_update; now rewrite Hc).
  rewrite (bind_run _ _ s1 s1 dk) by (unfold wrap_err, lift; now rewrite Hdk).
  rewrite (bind_run _ _ s1 s1 s1) by reflexivity.
  rewrite (bind_run _ _ s1 (set_ivDrawn (ivDrawn s1 + 1) s1) tt) by reflexivity.
  match goal with |- context [store_lf ?l] => set (lf1 := l) end.
  rewrite (bind_run _ _ _ (store_lf lf1 (set_ivDrawn (ivDrawn s1 + 1) s1)) tt) by reflexivity.
  unfold mbind, M_bind, fd_update. rewrite disk_store_lf.
  change (fkey lf1) with (fkey lf). cbn [disk set_ivDrawn set_disk s1].
  rewrite lookup_insert_eq. eexists _, _. reflexivity.
Qed.

Lemma createLogFile_runs (fid0 : Z) (ft : fileType) (vl : valueLog) (dk : option DataKey) :
  disk vl !! (ft, fid0) = None -> latestDataKey = Ok dk ->
  fid0 = 0 \/ maxFid (lw_of ft vl) < fid0 ->
  exists vl' lf, createLogFile fid0 ft vl = (vl', Ok lf).
Proof.
  intros Hnone Hdk Hfid. unfold createLogFile.
  rewrite (bind_run _ _ vl vl vl) by reflexivity. cbv zeta.
  match goal with |- context [bootstrap ?l] => set (lf := l) end.
  change (fkey lf) with (ft, fid0). rewrite Hnone.
  set (s1 := set_disk (<[(ft, fid0) := []]> (disk vl)) vl).
  rewrite (bind_run _ _ vl s1 tt) by reflexivity.
  destruct (bootstrap_runs lf s1 [] dk) as (s2 & lf1 & Hb).
  { change (fkey lf) with (ft, fid0). unfold s1. destruct vl. cbn. apply lookup_insert_eq. }
  { exact Hdk. }
  rewrite (bind_run _ _ s1 s2 lf1) by now rewrite Hb.
  destruct (bootstrap_inv _ _ _ _ Hb) as (_ & _ & _ & _ & _ & _ & _ & _ & Hkeep & _).
  set (g := fun s : valueLog =>
              set_lw ft (set_filesMap
                (<[fid0 := lf_mmap (2 * ValueLogFileSize (opt vl)) lf1]>
                   (filesMap (lw_of ft s))) (lw_of ft s)) s).
  rewrite (bind_run _ _ s2 (g s2) tt) by reflexivity.
  rewrite (bind_run _ _ (g s2) (g s2) (g s2)) by reflexivity.
  assert (Hmx : maxFid (lw_of ft (g s2)) = maxFid (lw_of ft vl)).
  { unfold g. rewrite lw_of_set_lw. cbn [maxFid set_filesMap].
    destruct (Hkeep ft) as [-> _]. unfold s1. now destruct vl, ft. }
  rewrite Hmx.
  assert (Hb0 : (fid0 =? 0) || (maxFid (lw_of ft vl) <? fid0) = true).
  { apply orb_true_iff. destruct Hfid as [->|Hlt]; [now left|right; now apply Z.ltb_lt]. }
  rewrite Hb0. unfold assertM, lift.
  rewrite (bind_run _ _ (g s2) (g s2) tt) by reflexivity.
  match goal with |- context [modify_st ?f] => set (h := f) end.
  rewrite (bind_run _ _ (g s2) (h (g s2)) tt) by reflexivity.
  unfold mbind, M_bind, purgeOldFiles.
  destruct getPersistedHead; eexists _, _; reflexivity.
Qed.

Lemma sortedFids_empty (lw : logWrapper) : filesMap lw = ∅ -> sortedFids lw = [].
Proof.
  intros He. apply elem_of_nil_inv. intros x Hx.
  apply elem_of_sortedFids in Hx as [[y Hy] _]. rewrite He, lookup_empty in Hy. discriminate.
Qed.

(** The replay of a WAL file that holds its header and nothing else. *)
Lemma replayLog_header_only (lf : logFile) (vl : valueLog) (fn : @logEntry St) (s : St)
    (c : list byte) :
  lf_fileType lf = walFile -> disk vl !! fkey lf = Some c -> len c = lfHeaderSize ->
  replayLog lf 0 fn s vl = Some (s, vl, Ok tt).
Proof.
  intros Hty Hc Hlen. unfold replayLog, iterate, fd_content.
  rewrite bool_decide_eq_true_2 by exact Hty. rewrite Hc. cbn [AssertTrue Z.eqb].
  rewrite Hlen, Z.eqb_refl. now rewrite Z.eqb_refl.
Qed.

(** X24.  [open] on a directory without log files.  On a value log as
    [init] leaves it (largest fids 0, nothing to be deleted), outside
    in-memory mode, with a directory that has no entry ending in ".vlog"
    or ".wal" and no file of the name of WAL file 0, a key registry whose
    latest key it also returns for that key's id, a DB that encrypts
    exactly when there is such a key, and the zero value head, [open]
    succeeds without calling the handler: it creates the WAL file 0 with
    its 20-byte header and nothing else on disk, the WAL files map holds
    that one file, opened in file-I/O mode with the latest key, a 12-byte
    base IV and the size 20, the vlog files map is empty, the WAL is
    writable at offset 20, and the value head becomes (0, 20). *)
Theorem open_empty_dir (names : list (list byte)) (ptr : valuePointer)
    (fn : @logEntry St) (s : St) (vl : valueLog) (dk : option DataKey) :
  InMemory (opt vl) = false ->
  (forall ft, maxFid (lw_of ft vl) = 0 /\ filesToBeDeleted (lw_of ft vl) = []) ->
  List.filter is_log_name names = [] ->
  disk vl !! (walFile, 0) = None ->
  latestDataKey = Ok dk ->
  0 <= match dk with Some d => KeyId d | None => 0 end < 18446744073709551616 ->
  registry_dataKey (match dk with Some d => KeyId d | None => 0 end) = Ok dk ->
  bool_decide (is_Some dk) = shouldEncrypt ->
  Fid ptr = 0 -> wrap32 (Offset ptr + Len ptr) = 0 ->
  exists vl' lf,
    valueLog_open open_err registry_dataKey shouldEncrypt (Some names) ptr fn s vl =
      Some (s, vl', OpenOk (Some {| Fid := 0; Offset := lfHeaderSize; Len := 0 |})) /\
    disk vl' = <[(walFile, 0) := PutUint64 (keyID lf) ++ baseIV lf]> (disk vl) /\
    filesMap (wal vl') = {[0 := lf]} /\ filesMap (vlog vl') = ∅ /\
    fid lf = 0 /\ lf_fileType lf = walFile /\ dataKey lf = dk /\
    len (baseIV lf) = 12 /\ lf_size lf = lfHeaderSize /\ loadingMode lf = FileIO /\
    maxFid (wal vl') = 0 /\ writableOffset (wal vl') = lfHeaderSize /\
    opt vl' = opt vl.
Proof.
  intros Hmem Hfresh Hfil Hnone Hdk Hid Hreg Henc Hp0 Hp1.
  destruct (populateFilesMap_found names [] vl)
    as (vl1 & Hpop & Hmap1 & Hmax1 & Hkeep1 & Hopt1 & Hdisk1).
  { now rewrite Hfil. }
  { apply NoDup_nil_2. }
  { apply Forall_nil_2. }
  assert (Hemp : forall ft, filesMap (lw_of ft vl1) = ∅).
  { intros ft. apply map_empty. intros f. rewrite Hmap1.
    rewrite bool_decide_eq_false_2; [reflexivity|apply not_elem_of_nil]. }
  assert (Hmx1 : forall ft, maxFid (lw_of ft vl1) = 0).
  { intros ft. destruct (Hmax1 ft) as (_ & _ & [->|Hin]); [apply Hfresh|].
    now apply elem_of_nil in Hin. }
  assert (Hdel1 : forall ft, filesToBeDeleted (lw_of ft vl1) = []).
  { intros ft. destruct (Hkeep1 ft) as (_ & _ & _ & ->). apply Hfresh. }
  pose proof (Hemp vlogFile) as Hev. pose proof (Hemp walFile) as Hew. cbn [lw_of] in Hev, Hew.
  (* the WAL file 0 *)
  destruct (createLogFile_runs 0 walFile vl1 dk) as (vl2 & lfc & Hcr).
  { now rewrite Hdisk1. }
  { exact Hdk. }
  { now left. }
  destruct (createLogFile_inv 0 walFile vl1) as [_ Hpost].
  destruct (Hpost _ _ Hcr)
    as (_ & _ & Hfid & Hty & Hkey & Hlm & Hdisk2 & Hlen2 & Hlw2 & _ & Hoth2 & Hopt2 & _).
  cbn [lw_of other] in Hlw2, Hoth2.
  rewrite bool_decide_eq_true_2 in Hlm by reflexivity.
  rewrite Hdk in Hkey. injection Hkey as Hkey.
  set (c := PutUint64 (keyID lfc) ++ baseIV lfc) in *.
  assert (Hiv : len (baseIV lfc) = 12).
  { unfold c in Hlen2. rewrite len_app, len_PutUint64 in Hlen2. unfold lfHeaderSize in Hlen2.
    lia. }
  assert (Hrun2 : open_vlogs open_err registry_dataKey shouldEncrypt vl1 = (vl2, Ok tt)).
  { unfold open_vlogs.
    rewrite (bind_run _ _ vl1 vl1 vl1) by reflexivity.
    rewrite bool_decide_eq_true_2 by (rewrite Hew; apply map_size_empty).
    rewrite (bind_run _ _ vl1 vl2 tt).
    2:{ rewrite (bind_run _ _ vl1 vl2 lfc) by (unfold wrap_err; now rewrite Hcr).
        reflexivity. }
    rewrite (bind_run _ _ vl2 vl2 vl2) by reflexivity.
    rewrite Hoth2, (sortedFids_empty _ Hev). cbn [open_vlog_files].
    rewrite (bind_run _ _ vl2 vl2 tt) by reflexivity.
    rewrite (bind_run _ _ vl2 vl2 vl2) by reflexivity.
    rewrite Hoth2. rewrite bool_decide_eq_true_2 by (rewrite Hev; apply map_size_empty).
    reflexivity. }
  assert (Hs2 : sortedFids (wal vl2) = [0]).
  { apply list_singleton; [apply NoDup_sortedFids|]. intros x.
    pose proof (Hdel1 walFile) as Hdw. cbn [lw_of] in Hdw.
    rewrite elem_of_sortedFids, Hlw2. cbn [filesMap filesToBeDeleted]. rewrite Hdw, Hew.
    split.
    - intros [[y Hy] _]. destruct (decide (x = 0)) as [->|Hx]; [reflexivity|].
      rewrite lookup_insert_ne, lookup_empty in Hy by congruence. discriminate.
    - intros ->. split; [rewrite lookup_insert_eq; now eexists|apply not_elem_of_nil]. }
  assert (Hc2 : disk vl2 !! (walFile, 0) = Some c).
  { rewrite Hdisk2. apply lookup_insert_eq. }
  assert (Ht8 : take 8 c = PutUint64 (keyID lfc) ++ []).
  { rewrite app_nil_r. apply take_app_length'.
    pose proof (len_PutUint64 (keyID lfc)) as H8. unfold len in H8. lia. }
  assert (Ht20 : drop 8 (take 20 c) = baseIV lfc).
  { rewrite take_ge by (unfold len, lfHeaderSize in Hlen2; lia).
    apply drop_app_length'.
    pose proof (len_PutUint64 (keyID lfc)) as H8. unfold len in H8. lia. }
  assert (Hkid : keyID lfc = match dk with Some d => KeyId d | None => 0 end).
  { unfold keyID. now rewrite <- Hkey. }
  set (lf1 := mkLogFile 0 walFile FileIO dk (baseIV lfc) (fmapLen lfc) lfHeaderSize).
  assert (Hrun3 : open_wal_files open_err registry_dataKey [0] ptr fn s vl2 =
                    Some (s, store_lf lf1 vl2, Ok tt)).
  { pose proof (open_wal_files_step open_err registry_dataKey 0 ptr fn s s vl2 lfc c
                  (keyID lfc) dk) as Hstep.
    rewrite Ht20, Hlen2, Hlm in Hstep. fold lf1 in Hstep. apply Hstep.
    - rewrite Hlw2. cbn [filesMap]. apply lookup_insert_eq.
    - unfold fkey. now rewrite Hty, Hfid.
    - lia.
    - intros _. exact Hp1.
    - exact Hc2.
    - unfold MaxUint32, lfHeaderSize. lia.
    - rewrite Ht8. apply Uint64_PutUint64. now rewrite Hkid.
    - now rewrite Hkid.
    - apply (replayLog_header_only lf1 _ fn s c); [reflexivity| |exact Hlen2].
      rewrite disk_store_lf. exact Hc2. }
  set (vl3 := store_lf lf1 vl2) in *.
  destruct (store_lf_frame lf1 vl2) as (Hd3 & Hm3 & Hx3 & Hoth3 & Ho3 & _).
  fold vl3 in Hd3, Hm3, Hx3, Hoth3, Ho3. cbn [lf_fileType lf1 fid lw_of other] in Hm3, Hoth3.
  assert (Hmw3 : maxFid (wal vl3) = 0).
  { pose proof (proj1 (Hx3 walFile)) as H. cbn [lw_of] in H. rewrite H, Hlw2. reflexivity. }
  assert (Hmm : lf_mmap (2 * ValueLogFileSize (opt vl3)) lf1 = lf1) by reflexivity.
  set (vl4 := store_lf lf1 (set_lw walFile (set_writableOffset (len c) (wal vl3)) vl3)).
  assert (Hrun4 : open_finish shouldEncrypt vl3 =
            (vl4, Ok {| Fid := maxFid (wal vl3); Offset := len c; Len := 0 |})).
  { unfold vl4. rewrite <- Hmm at 1.
    apply (open_finish_run shouldEncrypt vl3 lf1 c).
    - rewrite Hm3, Hmw3. apply lookup_insert_eq.
    - rewrite encryptionEnabled_key. exact Henc.
    - reflexivity.
    - now rewrite Hmw3.
    - now rewrite Hmw3, Hd3.
    - rewrite Hlen2. reflexivity.
    - rewrite Hoth3, Hoth2, Hev. intros Hne. contradiction. }
  assert (H4 : disk vl4 = disk vl3 /\ opt vl4 = opt vl3 /\ vlog vl4 = vlog vl3 /\
               maxFid (wal vl4) = maxFid (wal vl3) /\ writableOffset (wal vl4) = len c /\
               filesMap (wal vl4) = <[0 := lf1]> (filesMap (wal vl3))).
  { unfold vl4, store_lf. cbn [lf_fileType fid lf1]. destruct vl3. cbn. repeat split. }
  destruct H4 as (Hd4 & Ho4 & Hv4 & Hx4 & Hw4 & Hm4).
  exists vl4, lf1. split.
  { unfold valueLog_open. rewrite Hmem, Hpop, Hrun2, Hs2, Hrun3, Hrun4, Hmw3, Hlen2.
    reflexivity. }
  split.
  { rewrite Hd4, Hd3, Hdisk2, Hdisk1. unfold c. f_equal. unfold keyID. cbn [dataKey lf1].
    now rewrite <- Hkey. }
  split.
  { rewrite Hm4, Hm3, Hlw2. cbn [filesMap]. rewrite Hew.
    now rewrite !insert_insert_eq, insert_empty. }
  split; [now rewrite Hv4, Hoth3, Hoth2|].
  split; [reflexivity|]. split; [reflexivity|]. split; [reflexivity|].
  split; [exact Hiv|]. split; [reflexivity|]. split; [reflexivity|].
  split; [now rewrite Hx4|].
  split; [now rewrite Hw4|].
  now rewrite Ho4, Ho3, Hopt2.
Qed.

End OpenEmpty.

Section OpenReplay.
Context `{E : Externals} {laws : HeaderCodecLaws E} `{D : DBInterface}.
Context {St : Type}.
Variable open_err : error.
Variable registry_dataKey : Z -> result (option DataKey).
Variable shouldEncrypt : bool.

(** X25.  [open] replays the WAL and positions both logs at their ends.
    On a value log as [init] leaves it, not in memory and not read-only,
    with a directory whose log file names are those of [keys]: one WAL
    file [w] and any vlog files; every vlog file on disk with its header
    and at most 2^32-1 bytes, of a key id the registry knows, and the last
    one encrypted exactly when the DB encrypts; the WAL file holding,
    behind its header, the records of the committed writes [cs] under the
    key the registry returns for its header (again encrypted exactly when
    the DB encrypts); a handler that accepts every entry; and a value head
    not behind the start of that file.  Then [open] succeeds: the handler
    has been given every entry of [cs] in order, with its pointer into the
    WAL file; the disk is untouched; the files maps hold exactly the files
    of the directory; every vlog file has got its size, and the key and
    base IV of its header; the WAL is writable at the end of its file and
    the vlog at the end of its last file; and the value head is the end of
    the WAL file. *)
Theorem open_replays_wal (names : list (list byte)) (keys : list (fileType * Z)) (w : Z)
    (ptr : valuePointer) (fn : @logEntry St) (s : St) (vl : valueLog)
    (lf : logFile) (hdr : list byte) (cs : list Entry) (kw : Z) :
  InMemory (opt vl) = false -> ReadOnly (opt vl) = false ->
  (forall ft, maxFid (lw_of ft vl) = 0 /\ filesToBeDeleted (lw_of ft vl) = []) ->
  List.filter is_log_name names = map (fun k => baseName k.1 k.2) keys ->
  NoDup keys -> Forall (fun k => 0 <= k.2 < 4294967296) keys ->
  (forall f, (walFile, f) ∈ keys <-> f = w) ->
  (forall f, (vlogFile, f) ∈ keys ->
     exists c k dk, disk vl !! (vlogFile, f) = Some c /\
       lfHeaderSize <= len c <= MaxUint32 /\
       Uint64 (take 8 c) = Some k /\ registry_dataKey k = Ok dk /\
       ((forall g, (vlogFile, g) ∈ keys -> g <= f) ->
        bool_decide (is_Some dk) = shouldEncrypt)) ->
  fid lf = w -> baseIV lf = drop 8 hdr -> len hdr = lfHeaderSize ->
  Uint64 (take 8 hdr) = Some kw -> registry_dataKey kw = Ok (dataKey lf) ->
  bool_decide (is_Some (dataKey lf)) = shouldEncrypt ->
  disk vl !! (walFile, w) = Some (hdr ++ records lf lfHeaderSize cs) ->
  committed cs -> Forall readable cs ->
  lfHeaderSize + total_len cs < 4294967296 ->
  (forall o, cipher_ready lf o) ->
  (forall e vp s0, (fn e vp s0).2 = Ok tt) ->
  Fid ptr <= w -> (Fid ptr = w -> wrap32 (Offset ptr + Len ptr) = 0) ->
  exists vl',
    valueLog_open open_err registry_dataKey shouldEncrypt (Some names) ptr fn s vl =
      Some (run_handler fn (deliveries lf lfHeaderSize cs) s, vl',
            OpenOk (Some {| Fid := w; Offset := lfHeaderSize + total_len cs; Len := 0 |})) /\
    disk vl' = disk vl /\ opt vl' = opt vl /\
    (forall ft f, is_Some (filesMap (lw_of ft vl') !! f) <-> (ft, f) ∈ keys) /\
    maxFid (wal vl') = w /\ writableOffset (wal vl') = lfHeaderSize + total_len cs /\
    (exists lfw, filesMap (wal vl') !! w = Some lfw /\ fid lfw = w /\
       lf_fileType lfw = walFile /\ dataKey lfw = dataKey lf /\ baseIV lfw = baseIV lf) /\
    (forall f c k dk, (vlogFile, f) ∈ keys -> disk vl !! (vlogFile, f) = Some c ->
       Uint64 (take 8 c) = Some k -> registry_dataKey k = Ok dk ->
       (exists lf', filesMap (vlog vl') !! f = Some lf' /\ fid lf' = f /\
          lf_fileType lf' = vlogFile /\ dataKey lf' = dk /\
          baseIV lf' = drop 8 (take 20 c) /\ lf_size lf' = len c) /\
       ((forall g, (vlogFile, g) ∈ keys -> g <= f) ->
        maxFid (vlog vl') = f /\ writableOffset (vlog vl') = len c)).
Proof.
  intros Hmem Hro Hfresh Hfil Hnd Hrange Hwal Hvl Hfid Hiv Hhdr Hkw Hregw Hencw Hdisk
    Hc Hr Hb Hcipher Hfn Hle Hoff.
  pose proof (len_records lf lfHeaderSize cs Hr Hcipher) as Hlc.
  pose proof (total_len_nonneg cs) as Hnn.
  set (c := hdr ++ records lf lfHeaderSize cs) in *.
  assert (Hlen : len c = lfHeaderSize + total_len cs)
    by (unfold c; now rewrite len_app, Hhdr, Hlc).
  destruct (populateFilesMap_found names keys vl Hfil Hnd Hrange)
    as (vl1 & Hpop & Hmap1 & Hmax1 & Hkeep1 & Hopt1 & Hdisk1).
  (* the largest fid among the files found *)
  assert (Hmx : forall ft f, (ft, f) ∈ keys ->
            (ft, maxFid (lw_of ft vl1)) ∈ keys /\
            forall g, (ft, g) ∈ keys -> g <= maxFid (lw_of ft vl1)).
  { intros ft f Hf. destruct (Hmax1 ft) as (H0 & Hub & Hor). split; [|exact Hub].
    destruct Hor as [Hold|Hin]; [|exact Hin].
    rewrite Hold, (proj1 (Hfresh ft)) in *.
    pose proof (Hub f Hf) as Hf0.
    rewrite Forall_forall in Hrange. pose proof (Hrange _ Hf) as Hrf. cbn in Hrf.
    now replace 0 with f by lia. }
  assert (Hww : (walFile, w) ∈ keys) by now apply Hwal.
  assert (Hmw : maxFid (wal vl1) = w).
  { destruct (Hmx walFile w Hww) as [Hin _]. now apply Hwal in Hin. }
  assert (Hdel : forall ft, filesToBeDeleted (lw_of ft vl1) = []).
  { intros ft. destruct (Hkeep1 ft) as (_ & _ & _ & ->). apply Hfresh. }
  assert (Hsome : forall ft f, is_Some (filesMap (lw_of ft vl1) !! f) <-> (ft, f) ∈ keys).
  { intros ft f. rewrite Hmap1. destruct (decide ((ft, f) ∈ keys)) as [Hk|Hk].
    - rewrite bool_decide_eq_true_2 by exact Hk. split; [intros _; exact Hk|now eexists].
    - rewrite bool_decide_eq_false_2 by exact Hk.
      split; [intros [x Hx]; discriminate|contradiction]. }
  assert (Hfw : filesMap (wal vl1) !! w = Some (found_file (opt vl) walFile w)).
  { pose proof (Hmap1 walFile w) as H. cbn [lw_of] in H.
    now rewrite bool_decide_eq_true_2 in H by exact Hww. }
  (* the vlog files *)
  destruct (open_vlogs_run open_err registry_dataKey shouldEncrypt (opt vl) vl1)
    as (vl2 & Hrun2 & Hdisk2 & Hopt2 & Hwal2 & Hmx2 & Hdom2 & Hfields2 & Hoff2 & Hemp2).
  { intros Hz. apply map_size_empty_inv in Hz. rewrite Hz, lookup_empty in Hfw. discriminate. }
  { apply (Hdel vlogFile). }
  { intros f Hf. pose proof (proj1 (Hsome vlogFile f) Hf) as Hk.
    split.
    - pose proof (Hmap1 vlogFile f) as H. cbn [lw_of] in H.
      now rewrite bool_decide_eq_true_2 in H by exact Hk.
    - destruct (Hvl f Hk) as (c' & k & dk & H1 & H2 & H3 & H4 & H5).
      exists c', k, dk. rewrite Hdisk1. repeat split; try assumption; try apply H2.
      intros ->. apply H5. apply (Hmx vlogFile _ Hk). }
  { intros Hne. apply map_choose in Hne as (f & x & Hx).
    apply (Hsome vlogFile). apply (Hmx vlogFile f). apply (Hsome vlogFile). now exists x. }
  (* the WAL file *)
  assert (Hs2 : sortedFids (wal vl2) = [w]).
  { apply list_singleton; [apply NoDup_sortedFids|]. intros x.
    pose proof (Hdel walFile) as Hdw. pose proof (Hsome walFile x) as Hsx.
    cbn [lw_of] in Hdw, Hsx.
    rewrite elem_of_sortedFids, Hwal2, Hdw, Hsx, Hwal.
    split; [tauto|]. intros ->. split; [reflexivity|apply not_elem_of_nil]. }
  set (lfw := mkLogFile w walFile (ValueLogLoadingMode (opt vl)) (dataKey lf) (baseIV lf)
                0 (lfHeaderSize + total_len cs)).
  assert (Hrun3 : open_wal_files open_err registry_dataKey [w] ptr fn s vl2 =
            Some (run_handler fn (deliveries lf lfHeaderSize cs) s, store_lf lfw vl2, Ok tt)).
  { apply (open_wal_files_one open_err registry_dataKey w ptr fn s vl2
             (found_file (opt vl) walFile w) lf hdr cs kw); try assumption.
    - now rewrite Hwal2.
    - reflexivity.
    - now rewrite Hopt2, Hopt1.
    - now rewrite Hdisk2, Hdisk1. }
  set (vl3 := store_lf lfw vl2) in *.
  destruct (store_lf_frame lfw vl2) as (Hd3 & Hm3 & Hx3 & Hoth3 & Ho3 & _).
  fold vl3 in Hd3, Hm3, Hx3, Hoth3, Ho3. cbn [lf_fileType lfw fid lw_of other] in Hm3, Hoth3.
  assert (Hmw3 : maxFid (wal vl3) = w).
  { pose proof (proj1 (Hx3 walFile)) as H. cbn [lw_of] in H. now rewrite H, Hwal2. }
  (* the end *)
  set (vl4 := store_lf (lf_mmap (2 * ValueLogFileSize (opt vl3)) lfw)
                (set_lw walFile (set_writableOffset (len c) (wal vl3)) vl3)).
  assert (Hrun4 : open_finish shouldEncrypt vl3 =
            (vl4, Ok {| Fid := maxFid (wal vl3); Offset := len c; Len := 0 |})).
  { apply (open_finish_run shouldEncrypt vl3 lfw c).
    - rewrite Hm3, Hmw3. apply lookup_insert_eq.
    - rewrite encryptionEnabled_key. exact Hencw.
    - reflexivity.
    - now rewrite Hmw3.
    - now rewrite Hmw3, Hd3, Hdisk2, Hdisk1.
    - rewrite Hlen. exact Hb.
    - rewrite Hoth3. intros Hne.
      assert (Hne1 : filesMap (vlog vl1) <> ∅).
      { intros He. apply Hne. apply dom_empty_inv_L. rewrite Hdom2, He. apply dom_empty_L. }
      apply map_choose in Hne1 as (f & x & Hx).
      assert (Hk : (vlogFile, f) ∈ keys) by (apply (Hsome vlogFile); now exists x).
      destruct (Hmx vlogFile f Hk) as [Hin Hub]. cbn [lw_of] in Hin, Hub.
      destruct (Hvl _ Hin) as (c' & k & dk & H1 & H2 & H3 & H4 & H5).
      destruct (Hfields2 (maxFid (vlog vl1)) c' k dk) as (lv & Hlv & _ & _ & Hdk & _);
        try assumption.
      { now apply (Hsome vlogFile). }
      { now rewrite Hdisk1. }
      exists lv. rewrite Hmx2. split; [exact Hlv|].
      rewrite encryptionEnabled_key, Hdk. now apply H5. }
  destruct (lf_mmap_fields (2 * ValueLogFileSize (opt vl3)) lfw) as (M1 & M2 & M3 & M4 & M5).
  cbn [fid lf_fileType dataKey baseIV lfw] in M1, M2, M3, M4.
  assert (H4 : disk vl4 = disk vl3 /\ opt vl4 = opt vl3 /\ vlog vl4 = vlog vl3 /\
               maxFid (wal vl4) = maxFid (wal vl3) /\ writableOffset (wal vl4) = len c /\
               filesMap (wal vl4) =
                 <[w := lf_mmap (2 * ValueLogFileSize (opt vl3)) lfw]> (filesMap (wal vl3))).
  { unfold vl4, store_lf. rewrite M2, M1. destruct vl3. cbn. repeat split. }
  destruct H4 as (Hd4 & Ho4 & Hv4 & Hx4 & Hw4 & Hm4).
  exists vl4. split.
  { unfold valueLog_open. rewrite Hmem, Hpop, Hrun2, Hs2, Hrun3, Hrun4, Hmw3, Hlen.
    reflexivity. }
  split; [now rewrite Hd4, Hd3, Hdisk2, Hdisk1|].
  split; [now rewrite Ho4, Ho3, Hopt2, Hopt1|].
  split.
  { intros ft f. rewrite <- Hsome. destruct ft; cbn [lw_of].
    - rewrite Hv4, Hoth3, <- !elem_of_dom, Hdom2. reflexivity.
    - rewrite Hm4, Hm3, Hwal2, <- !elem_of_dom, !dom_insert_L.
      apply elem_of_dom_2 in Hfw. rewrite !elem_of_union, elem_of_singleton.
      split; [intros [->|[->|Hx]]; assumption|intros Hx; right; right; exact Hx]. }
  split; [now rewrite Hx4|].
  split; [now rewrite Hw4|].
  split.
  { eexists. split; [rewrite Hm4; apply lookup_insert_eq|]. now rewrite M1, M2, M3, M4. }
  intros f c' k dk Hk Hc' Hk' Hreg'. rewrite Hv4, Hoth3.
  assert (Hf1 : is_Some (filesMap (vlog vl1) !! f)) by now apply (Hsome vlogFile).
  destruct (Hfields2 f c' k dk Hf1) as (lf' & Hlf' & F1 & F2 & F3 & F4 & F5 & _);
    try assumption.
  { now rewrite Hdisk1. }
  split.
  { exists lf'. repeat split; assumption. }
  intros Hmaxf.
  assert (Hfm : maxFid (vlog vl1) = f).
  { destruct (Hmx vlogFile f Hk) as [Hin Hub]. cbn [lw_of] in Hin, Hub.
    pose proof (Hmaxf _ Hin). pose proof (Hub _ Hk). lia. }
  split; [now rewrite Hmx2|].
  apply Hoff2.
  - now rewrite Hfm.
  - now rewrite Hfm, Hdisk1.
Qed.

End OpenReplay.

Section OpenJunk.
Context `{E : Externals} {laws : HeaderCodecLaws E} `{D : DBInterface}.
Context {St : Type}.
Variable open_err : error.
Variable registry_dataKey : Z -> result (option DataKey).
Variable shouldEncrypt : bool.

(** X26.  [open] and a WAL file whose first record cannot be read.  When
    the loop over the WAL files reaches a file that has its header, of a
    key the registry knows, followed by bytes on which [safeRead.Entry]
    reports the end of the input, an unexpected end or [errTruncate], and
    the replay starts at the beginning of that file, the handler is never
    called for it, and: without [Truncate], [open] fails with
    [ErrTruncateNeeded] and the file stays; with [Truncate], a file that is
    not the last WAL file is taken out of the files map and removed from
    disk, all of it, and the loop goes on with the next file; the last WAL
    file is kept and written anew, its contents replaced by a fresh
    20-byte header with the latest key. *)
Theorem open_unreadable_wal (w : Z) (rest : list Z) (ptr : valuePointer)
    (fn : @logEntry St) (s : St) (vl : valueLog) (lf0 : logFile)
    (hdr junk : list byte) (k : Z) (dk : option DataKey) (err : error) :
  filesMap (wal vl) !! w = Some lf0 -> fkey lf0 = (walFile, w) ->
  disk vl !! (walFile, w) = Some (hdr ++ junk) ->
  len hdr = lfHeaderSize -> junk <> [] -> len (hdr ++ junk) <= MaxUint32 ->
  Uint64 (take 8 hdr) = Some k -> registry_dataKey k = Ok dk ->
  ReadOnly (opt vl) = false ->
  Fid ptr <= w -> (Fid ptr = w -> wrap32 (Offset ptr + Len ptr) = 0) ->
  let lf1 := mkLogFile w walFile (loadingMode lf0) dk (drop 8 hdr) (fmapLen lf0)
               (len (hdr ++ junk)) in
  safeRead_Entry lf1 lfHeaderSize junk = Err err ->
  err = io_EOF \/ err = io_ErrUnexpectedEOF \/ err = errTruncate ->
  (Truncate (opt vl) = false ->
   open_wal_files open_err registry_dataKey (w :: rest) ptr fn s vl =
     Some (s, store_lf lf1 vl, Err ErrTruncateNeeded)) /\
  (Truncate (opt vl) = true -> w <> maxFid (wal vl) ->
   open_wal_files open_err registry_dataKey (w :: rest) ptr fn s vl =
     open_wal_files open_err registry_dataKey rest ptr fn s
       (set_disk (delete (walFile, w) (disk vl))
          (set_lw walFile (set_filesMap (delete w (filesMap (wal vl))) (wal vl)) vl))) /\
  (Truncate (opt vl) = true -> w = maxFid (wal vl) ->
   forall dk', latestDataKey = Ok dk' ->
   exists vl' lf2,
     open_wal_files open_err registry_dataKey (w :: rest) ptr fn s vl =
       open_wal_files open_err registry_dataKey rest ptr fn s vl' /\
     disk vl' = <[(walFile, w) := PutUint64 (keyID lf2) ++ baseIV lf2]> (disk vl) /\
     dataKey lf2 = dk' /\ len (baseIV lf2) = 12 /\
     filesMap (wal vl') = <[w := lf2]> (filesMap (wal vl)) /\
     vlog vl' = vlog vl /\ maxFid (wal vl') = maxFid (wal vl) /\ opt vl' = opt vl).
Proof.
  intros Hmap Hkey Hdisk Hhdr Hjunk Hmax Hk Hreg Hro Hle Hoff lf1 Hread Herr.
  pose proof (len_nonneg junk) as Hj.
  assert (Hjl : 0 < len junk).
  { destruct junk; [done|]. unfold len. cbn [length]. lia. }
  set (c := hdr ++ junk) in *.
  assert (Hlen : len c = lfHeaderSize + len junk) by (unfold c; now rewrite len_app, Hhdr).
  assert (Ht8 : take 8 c = take 8 hdr).
  { unfold c. rewrite take_app_le; [reflexivity|]. unfold len, lfHeaderSize in Hhdr. lia. }
  assert (Ht20 : take 20 c = hdr).
  { unfold c. apply take_app_length'. unfold len, lfHeaderSize in Hhdr. lia. }
  injection Hkey as Hty Hf0.
  set (vl1 := store_lf lf1 vl).
  assert (Hopen : openLogFile open_err registry_dataKey lf0 vl = (vl1, Ok lf1)).
  { pose proof (openLogFile_header open_err registry_dataKey lf0 vl c k dk) as H.
    cbv zeta in H. rewrite Ht20, Hty, Hf0 in H. apply H.
    - unfold fkey. now rewrite Hty, Hf0.
    - lia.
    - now rewrite Ht8.
    - exact Hreg. }
  destruct (store_lf_frame lf1 vl) as (Hd1 & Hm1 & Hx1 & Hoth1 & Ho1 & _).
  fold vl1 in Hd1, Hm1, Hx1, Hoth1, Ho1. cbn [lf_fileType lf1 fid lw_of other] in Hm1, Hoth1.
  assert (Hmw1 : maxFid (wal vl1) = maxFid (wal vl)) by apply (Hx1 walFile).
  assert (Hit : iterate vl1 lf1 0 fn s = Some (s, Ok lfHeaderSize)).
  { unfold iterate, fd_content. change (fkey lf1) with (walFile, w).
    rewrite Hd1, Hdisk, Ho1, Hro. cbn [Z.eqb]. rewrite Hlen.
    replace (lfHeaderSize =? lfHeaderSize + len junk) with false
      by (symmetry; apply Z.eqb_neq; lia).
    assert (Hdrop : drop (Z.to_nat lfHeaderSize) c = junk).
    { unfold c. rewrite <- Hhdr, to_nat_len. apply drop_app_length. }
    rewrite Hdrop. cbn [iterate_loop]. rewrite Hread.
    destruct Herr as [->|[->| ->]]; reflexivity. }
  assert (Hstep : forall r,
     replayLog lf1 0 fn s vl1 = r ->
     open_wal_files open_err registry_dataKey (w :: rest) ptr fn s vl =
       match r with
       | None => None
       | Some (s', vl2, Ok _) => open_wal_files open_err registry_dataKey rest ptr fn s' vl2
       | Some (s', vl2, Err errDeleteVlogFile) =>
           let vl3 := set_lw walFile
                        (set_filesMap (delete w (filesMap (wal vl2))) (wal vl2)) vl2 in
           match disk vl3 !! (walFile, w) with
           | Some _ =>
               open_wal_files open_err registry_dataKey rest ptr fn s'
                 (set_disk (delete (walFile, w) (disk vl3)) vl3)
           | None => Some (s', vl3, Err (ErrWrapped ErrRemove))
           end
       | Some (s', vl2, Err e) => Some (s', vl2, Err e)
       | Some (s', vl2, Panic) => Some (s', vl2, Panic)
       end).
  { intros r Hr. cbn [open_wal_files]. rewrite Hmap, Hopen.
    replace (w <? Fid ptr) with false by (symmetry; apply Z.ltb_ge; lia).
    assert (Hoff0 : (if w =? Fid ptr then wrap32 (Offset ptr + Len ptr) else 0) = 0).
    { destruct (Z.eqb_spec w (Fid ptr)) as [Heq|]; [|reflexivity]. apply Hoff. congruence. }
    rewrite Hoff0, Hr. reflexivity. }
  assert (Hrep : forall r,
     (if negb (Truncate (opt vl)) then Some (s, vl1, Err ErrTruncateNeeded)
      else if negb (w =? maxFid (wal vl)) then Some (s, vl1, Err errDeleteVlogFile)
      else match bootstrap lf1 vl1 with
           | (vl', Ok _) => Some (s, vl', Ok tt)
           | (vl', Err e) => Some (s, vl', Err e)
           | (vl', Panic) => Some (s, vl', Panic)
           end) = r ->
     replayLog lf1 0 fn s vl1 = r).
  { intros r <-. unfold replayLog, fd_content. change (fkey lf1) with (walFile, w).
    rewrite Hd1, Hdisk, Hit. rewrite bool_decide_eq_true_2 by reflexivity.
    cbn [AssertTrue]. rewrite Hlen, Ho1, Hmw1.
    replace (lfHeaderSize =? lfHeaderSize + len junk) with false
      by (symmetry; apply Z.eqb_neq; lia).
    rewrite Z.leb_refl. reflexivity. }
  split; [|split].
  - intros Htr. rewrite (Hstep _ (Hrep _ eq_refl)), Htr. reflexivity.
  - intros Htr Hne. rewrite (Hstep _ (Hrep _ eq_refl)), Htr. cbn [negb].
    replace (w =? maxFid (wal vl)) with false by (symmetry; now apply Z.eqb_neq).
    cbn [negb]. cbv zeta.
    assert (Hd3 : disk (set_lw walFile
                    (set_filesMap (delete w (filesMap (wal vl1))) (wal vl1)) vl1)
                  = disk vl) by (rewrite disk_set_lw; exact Hd1).
    rewrite Hd3, Hdisk. f_equal.
    rewrite Hm1, delete_insert_eq.
    unfold vl1, store_lf. cbn [lf_fileType lf1 fid]. destruct vl. reflexivity.
  - intros Htr -> dk' Hdk'.
    destruct (bootstrap_runs lf1 vl1 c dk') as (vl2 & lf2 & Hb).
    { change (fkey lf1) with (walFile, maxFid (wal vl)). now rewrite Hd1. }
    { exact Hdk'. }
    destruct (bootstrap_inv _ _ _ _ Hb)
      as (_ & _ & _ & _ & Hkey2 & Hiv2 & Hdisk2 & Hmap2 & Hkeep2 & Hoth2 & Hopt2 & _).
    cbn [lf_fileType lf1 fid lw_of other] in Hmap2, Hoth2.
    change (fkey lf1) with (walFile, maxFid (wal vl)) in Hdisk2.
    exists vl2, lf2. split.
    { rewrite (Hstep _ (Hrep _ eq_refl)), Htr. cbn [negb]. rewrite Z.eqb_refl. cbn [negb].
      now rewrite Hb. }
    split; [rewrite Hdisk2, Hd1; reflexivity|].
    split; [rewrite Hdk' in Hkey2; now injection Hkey2|].
    split; [exact Hiv2|].
    split; [rewrite Hmap2, Hm1; apply insert_insert_eq|].
    split; [now rewrite Hoth2|].
    split; [|now rewrite Hopt2].
    destruct (Hkeep2 walFile) as [Hk2 _]. cbn [lw_of] in Hk2. now rewrite Hk2.
Qed.

End OpenJunk.

(** ** The extra properties at concrete inputs *)

Lemma iterator_open_close_witness :
  (_ ← incrIteratorCount; decrIteratorCount) MoreEx.vl_one_iter
    = (MoreEx.vl_one_iter, Ok tt).
Proof.
  apply (iterator_open_close MoreEx.vl_one_iter).
  - split; vm_compute; [discriminate|reflexivity].
  - intros H. vm_compute in H. discriminate H.
Defined.

Lemma safeRead_Entry_bad_checksum_witness :
  @safeRead_Entry concreteExt Ex.lf_plain 20
    (@header_Encode concreteExt (entry_header Ex.e_hello)
       ++ (Key Ex.e_hello ++ Value Ex.e_hello) ++ PutUint32 0 ++ [1; 2; 3])
    = Err errTruncate.
Proof.
  apply (@safeRead_Entry_bad_checksum concreteExt InstanceFacts.concreteExt_laws).
  - apply entry_header_wf. unfold wf_entry, is_byte; simpl; lia.
  - vm_compute. discriminate.
  - vm_compute. reflexivity.
  - vm_compute. reflexivity.
  - exact I.
  - lia.
  - vm_compute. discriminate.
Defined.

Lemma safeRead_Entry_short_record_witness :
  @safeRead_Entry concreteExt Ex.lf_plain 20
    (@header_Encode concreteExt (entry_header Ex.e_hello) ++ [107; 0; 0])
    = Err io_ErrUnexpectedEOF.
Proof.
  apply (@safeRead_Entry_short_record concreteExt InstanceFacts.concreteExt_laws
           Ex.lf_plain 20 (entry_header Ex.e_hello) [107; 0; 0]).
  - apply entry_header_wf. unfold wf_entry, is_byte; simpl; lia.
  - vm_compute. discriminate.
  - vm_compute. reflexivity.
  - exact I.
  - vm_compute. reflexivity.
Defined.

Lemma safeRead_Entry_long_key_witness :
  @safeRead_Entry concreteExt Ex.lf_plain 20
    (@record_bytes concreteExt Ex.lf_plain MoreEx.e_long_key 20 ++ []) = Err errTruncate.
Proof.
  apply (@safeRead_Entry_long_key concreteExt InstanceFacts.concreteExt_laws
           Ex.lf_plain MoreEx.e_long_key 20 []).
  - unfold wf_entry, is_byte; simpl; lia.
  - exact I.
  - vm_compute. reflexivity.
  - vm_compute. reflexivity.
Defined.

Lemma rotateFile_post_witness :
  exists c,
    disk Scenario.vl_torn !! (walFile, 0) = Some c /\
    maxFid (wal MoreEx.rotate_run.1) = 1 /\
    logRotates MoreEx.rotate_run.1 = wrap_int32 (logRotates Scenario.vl_torn + 1) /\
    disk MoreEx.rotate_run.1 !! (walFile, 0) = Some (truncate_to 142 c).
Proof.
  destruct (@rotateFile_post TestDB.db walFile Scenario.wal0 Scenario.vl_torn
              MoreEx.rotate_run.1
              {| fid := 1; lf_fileType := walFile; loadingMode := FileIO; dataKey := None;
                 baseIV := replicate 12 3; fmapLen := 0; lf_size := 0 |})
    as (c & _ & _ & Hc & Hf & _ & _ & Hd & _ & Hm & _ & _ & _ & _ & Hr & _).
  - vm_compute. reflexivity.
  - reflexivity.
  - exists c. split; [exact Hc|]. split; [exact Hm|]. split; [exact Hr|].
    rewrite Hd. cbn [fid]. rewrite lookup_insert_ne by discriminate.
    change (fid Scenario.wal0) with 0. now rewrite lookup_insert_eq.
Defined.

Lemma replay_keeps_log_when_not_allowed_witness :
  MoreEx.vl_read_only = MoreEx.vl_read_only /\
  ([] : list (Entry * valuePointer)) = [] /\
  (forall c, disk MoreEx.vl_read_only !! fkey Scenario.wal0 = Some c ->
     lf_fileType Scenario.wal0 = walFile ->
     Err (ErrWrapped ErrReplayNeeded) =
       if (if 0 =? 0 then lfHeaderSize else 0) =? len c then Ok tt
       else Err (ErrWrapped ErrReplayNeeded)).
Proof.
  destruct (@replay_keeps_log_when_not_allowed concreteExt TestDB.db _
              MoreEx.vl_read_only MoreEx.vl_read_only Scenario.wal0 0
              Scenario.record_all [] [] (Err (ErrWrapped ErrReplayNeeded)))
    as [_ Hro].
  - vm_compute. reflexivity.
  - apply Hro. reflexivity.
Defined.

Lemma replay_cuts_unreadable_tail_witness :
  exists vl',
    @replayLog concreteExt TestDB.db _ Scenario.wal0 0 Scenario.record_all [] MoreEx.vl_cut =
      Some (run_handler Scenario.record_all
              (@deliveries concreteExt Scenario.wal0 lfHeaderSize
                 [Scenario.k1; Scenario.k2; Scenario.commit10]) [],
            vl', Ok tt) /\
    disk vl' !! fkey Scenario.wal0 =
      Some (Scenario.wal0_header ++
            @records concreteExt Scenario.wal0 lfHeaderSize
              [Scenario.k1; Scenario.k2; Scenario.commit10]).
Proof.
  destruct (@replay_cuts_unreadable_tail concreteExt TestDB.db
              InstanceFacts.concreteExt_laws _
              MoreEx.vl_cut Scenario.wal0 Scenario.record_all []
              Scenario.wal0_header
              [Scenario.k1; Scenario.k2; Scenario.commit10]
              (take 10 (@record_bytes concreteExt Scenario.wal0 Scenario.k3 121))
              io_ErrUnexpectedEOF)
    as (vl' & Hrun & Hdisk & _).
  - reflexivity.
  - reflexivity.
  - reflexivity.
  - vm_compute. reflexivity.
  - vm_compute. reflexivity.
  - apply (committed_txn 10 [Scenario.k1; Scenario.k2] Scenario.commit10 []).
    + discriminate.
    + repeat (apply Forall_cons; split; [split; vm_compute; reflexivity|]).
      apply Forall_nil_2.
    + reflexivity.
    + vm_compute. reflexivity.
    + apply committed_nil.
  - discriminate.
  - repeat (apply Forall_cons; split;
      [split; [unfold wf_entry, is_byte; simpl; unfold bitTxn, bitFinTxn; lia
              |vm_compute; discriminate]|]).
    apply Forall_nil_2.
  - vm_compute. reflexivity.
  - intros o. exact I.
  - reflexivity.
  - vm_compute. reflexivity.
  - right. now left.
  - exists vl'. split; [exact Hrun|exact Hdisk].
Defined.

Lemma Read_after_rewrite_remove_witness :
  @Read concreteExt (rewrite_remove (GCEx.vfile 0) (RewriteEx.vl_gc 0 [])).1
    {| Fid := 0; Offset := 20; Len := 17 |} = Err ErrRetry.
Proof.
  destruct (@Read_after_rewrite_remove concreteExt (GCEx.vfile 0) (RewriteEx.vl_gc 0 [])
              (rewrite_remove (GCEx.vfile 0) (RewriteEx.vl_gc 0 [])).1) as [Hidle _].
  - vm_compute. reflexivity.
  - apply Hidle; reflexivity.
Defined.

Lemma write_then_Read_witness :
  MoreEx.rt_ptr = {| Fid := 0; Offset := 20; Len := 59 |} /\
  @Read concreteExt MoreEx.rt_run.1 MoreEx.rt_ptr = Ok (Value Scenario.k2).
Proof.
  split; [vm_compute; reflexivity|].
  assert (H := @write_then_Read concreteExt TestDB.db InstanceFacts.concreteExt_laws
                 Scenario.vl_fresh MoreEx.rt_run.1 [Scenario.req10] MoreEx.rt_reqs).
  refine (Forall2_lookup_lr _ _ _ 1%nat Scenario.k2 MoreEx.rt_ptr
            (Forall2_lookup_lr _ _ _ 0%nat Scenario.req10 MoreEx.rt_req
               (H _ _ _ _ _ _ _ _ _ _) _ _) _ _ _ _).
  - reflexivity.
  - reflexivity.
  - vm_compute. reflexivity.
  - split; [reflexivity|]. split; [reflexivity|]. eexists. split; vm_compute; reflexivity.
  - intros lf Hlf. vm_compute in Hlf. discriminate.
  - vm_compute. discriminate.
  - vm_compute. discriminate.
  - vm_compute. reflexivity.
  - repeat constructor; unfold is_byte; simpl; unfold bitTxn, bitFinTxn; lia.
  - vm_compute. reflexivity.
  - reflexivity.
  - vm_compute. reflexivity.
  - reflexivity.
  - vm_compute. reflexivity.
  - reflexivity.
  - vm_compute. reflexivity.
Defined.

Lemma write_appends_to_wal_witness :
  disk MoreEx.rt_run.1 !! (walFile, fid MoreEx.wal_fresh) =
    Some (MoreEx.hdr_fresh ++
          @records concreteExt MoreEx.wal_fresh (len MoreEx.hdr_fresh)
            (logged [Scenario.req10])) /\
  logged [Scenario.req10] = [Scenario.k1; Scenario.k2; Scenario.commit10] /\
  writableOffset (wal MoreEx.rt_run.1) = 121.
Proof.
  destruct (@write_appends_to_wal concreteExt TestDB.db Scenario.vl_fresh MoreEx.rt_run.1
              [Scenario.req10] MoreEx.rt_reqs MoreEx.wal_fresh MoreEx.hdr_fresh)
    as (Hd & Hwo & _).
  - reflexivity.
  - vm_compute. reflexivity.
  - reflexivity.
  - reflexivity.
  - vm_compute. reflexivity.
  - vm_compute. reflexivity.
  - intros lfv Hlfv. vm_compute in Hlfv. discriminate.
  - vm_compute. discriminate.
  - vm_compute. discriminate.
  - vm_compute. discriminate.
  - vm_compute. reflexivity.
  - split; [exact Hd|]. split; [reflexivity|]. rewrite Hwo. vm_compute. reflexivity.
Defined.

Lemma write_then_replay_witness :
  exists lf',
    getCurrentFile (wal MoreEx.rt_run.1) = Some lf' /\
    @replayLog concreteExt TestDB.db _ lf' 0 Scenario.record_all [] MoreEx.rt_run.1 =
      Some (run_handler Scenario.record_all
              (@deliveries concreteExt MoreEx.wal_fresh lfHeaderSize
                 ([] ++ logged [Scenario.req10])) [],
            MoreEx.rt_run.1, Ok tt).
Proof.
  apply (@write_then_replay concreteExt TestDB.db InstanceFacts.concreteExt_laws _
           Scenario.vl_fresh MoreEx.rt_run.1 [Scenario.req10] MoreEx.rt_reqs
           MoreEx.wal_fresh MoreEx.hdr_fresh [] Scenario.record_all []).
  - reflexivity.
  - reflexivity.
  - vm_compute. reflexivity.
  - reflexivity.
  - reflexivity.
  - vm_compute. reflexivity.
  - vm_compute. reflexivity.
  - vm_compute. reflexivity.
  - intros lfv Hlfv. vm_compute in Hlfv. discriminate.
  - vm_compute. discriminate.
  - vm_compute. discriminate.
  - vm_compute. discriminate.
  - apply (committed_txn 10 [Scenario.k1; Scenario.k2] Scenario.commit10 []).
    + discriminate.
    + repeat (apply Forall_cons; split; [split; vm_compute; reflexivity|]).
      apply Forall_nil_2.
    + reflexivity.
    + vm_compute. reflexivity.
    + apply committed_nil.
  - repeat (apply Forall_cons; split;
      [split; [unfold wf_entry, is_byte; simpl; unfold bitTxn, bitFinTxn; lia
              |vm_compute; discriminate]|]).
    apply Forall_nil_2.
  - intros o. exact I.
  - reflexivity.
  - vm_compute. reflexivity.
Defined.

Lemma deleteMove_batches_stuck_witness :
  @deleteMove_batches MoreEx.db_tiny 50 [Scenario.k1] 0 10240
    (([] : TestDB.lsm), Scenario.vl_fresh) = None.
Proof.
  refine (proj2 (@deleteMove_batches_stuck MoreEx.db_tiny [Scenario.k1] _) _ _ _ _).
  - intros s0. left. reflexivity.
  - intros part s0 Hpart. cbn. now rewrite bool_decide_eq_false_2.
  - discriminate.
Defined.

Lemma dropAll_post_witness :
  MoreEx.drop_run.2 = (2, Ok tt) /\
  filesMap (vlog MoreEx.drop_run.1) = ∅ /\
  disk MoreEx.drop_run.1 !! fkey MoreEx.vfile_torn = None /\
  fkey MoreEx.vfile_torn = (vlogFile, 0) /\
  (len <$> disk MoreEx.drop_run.1 !! (walFile, 0)) = Some 20.
Proof.
  destruct (@dropAll_post TestDB.db MoreEx.drop_vorder MoreEx.drop_worder Scenario.vl_torn
              MoreEx.drop_run.1 2) as [_ H]; [reflexivity|reflexivity|].
  destruct H as (_ & Hv & (lf & _ & _ & _ & Hd & Hl) & Hgone & _).
  - vm_compute; reflexivity.
  - vm_compute; reflexivity.
  - split; [vm_compute; reflexivity|]. split; [now rewrite Hv|]. split.
    + apply Hgone; [vm_compute; left|vm_compute; discriminate].
    + split; [vm_compute; reflexivity|].
      rewrite Hd. cbn [fmap option_fmap option_map]. now rewrite Hl.
Defined.

Lemma dropAll_missing_file_witness :
  (@dropAll TestDB.db MoreEx.drop_vorder MoreEx.drop_worder MoreEx.vl_lost).2
    = (0, Err ErrRemove).
Proof.
  destruct (@dropAll_missing_file TestDB.db MoreEx.drop_vorder MoreEx.drop_worder
              MoreEx.vl_lost) as (vl' & done & rest & Hrun & Hsplit & Hne & _).
  - vm_compute; reflexivity.
  - exists MoreEx.vfile_torn. split; [vm_compute; left|]. vm_compute; reflexivity.
  - rewrite Hrun. cbn [snd]. destruct done as [|d done']; [reflexivity|].
    exfalso.
    assert (H1 : length MoreEx.drop_vorder = 1%nat) by (vm_compute; reflexivity).
    pose proof (eq_trans (eq_sym (f_equal length Hsplit)) H1) as Hlen. clear Hsplit H1 Hrun.
    rewrite length_app in Hlen. cbn [length] in Hlen.
    destruct rest; [done|]. cbn [length] in Hlen. lia.
Defined.

Lemma open_after_bootstrap_witness :
  (lf_open (ErrHandler 2) MoreEx.reg7 Ex.lf_plain MoreEx.boot_run.1 =
     ({| fid := 0; lf_fileType := walFile; loadingMode := FileIO;
         dataKey := Some MoreEx.dk7; baseIV := baseIV MoreEx.boot_lf;
         fmapLen := 0; lf_size := 20 |}, Ok tt) /\
   len (baseIV MoreEx.boot_lf) = 12) /\
  lf_open (ErrHandler 2) MoreEx.reg7 Ex.lf_plain MoreEx.vl_short =
    (set_size 3 Ex.lf_plain, Ok tt) /\
  lf_open (ErrHandler 2) MoreEx.reg7 Ex.lf_plain Scenario.vl_empty =
    (Ex.lf_plain, Err (ErrWrapped (ErrHandler 2))).
Proof.
  destruct (@open_after_bootstrap (TestDB.db_with (Some MoreEx.dk7)) (ErrHandler 2)
              MoreEx.reg7 Ex.lf_plain) as (Hopen & Hshort & Hnone).
  split; [|split].
  - split; [|vm_compute; reflexivity].
    rewrite (Hopen Ex.lf_plain MoreEx.boot_lf Scenario.vl_fresh MoreEx.boot_run.1).
    + vm_compute. reflexivity.
    + vm_compute. reflexivity.
    + reflexivity.
    + vm_compute. split; [discriminate|reflexivity].
    + vm_compute. reflexivity.
  - apply (Hshort MoreEx.vl_short [1; 2; 3]).
    + vm_compute. reflexivity.
    + vm_compute. reflexivity.
  - apply (Hnone Scenario.vl_empty). vm_compute. reflexivity.
Defined.

Lemma populateFilesMap_finds_files_witness :
  baseName vlogFile 12 = [48; 48; 48; 48; 49; 50; 46; 118; 108; 111; 103] /\
  exists vl',
    populateFilesMap (Some MoreEx.dir_names) Scenario.vl_empty = (vl', PopOk) /\
    filesMap (vlog vl') !! 12 = Some (found_file Scenario.options vlogFile 12) /\
    filesMap (vlog vl') !! 1 = None.
Proof.
  split; [vm_compute; reflexivity|].
  destruct (populateFilesMap_finds_files MoreEx.dir_names MoreEx.dir_keys Scenario.vl_empty)
    as (_ & vl' & Hrun & Hmap & _).
  - vm_compute. reflexivity.
  - repeat (apply NoDup_cons; split;
      [rewrite ?elem_of_cons, elem_of_nil; intuition discriminate|]).
    apply NoDup_nil_2.
  - repeat constructor; cbn; lia.
  - exists vl'. split; [exact Hrun|].
    pose proof (Hmap vlogFile 12) as H12. pose proof (Hmap vlogFile 1) as H1.
    cbn [lw_of] in H12, H1. rewrite H12, H1. split; vm_compute; reflexivity.
Defined.

Lemma populateFilesMap_rejects_witness :
  (populateFilesMap (Some ([baseName vlogFile 1] ++ MoreEx.name_1_vlog :: []))
     Scenario.vl_empty).2 = PopErr (ErrDuplicateLog vlogFile MoreEx.name_1_vlog).
Proof.
  refine (proj1 (proj2 (populateFilesMap_rejects [baseName vlogFile 1] MoreEx.name_1_vlog []
                          [(vlogFile, 1)] vlogFile Scenario.vl_empty _ _ _ _ _)) 1 _ _).
  - vm_compute. reflexivity.
  - repeat (apply NoDup_cons; split;
      [rewrite ?elem_of_cons, elem_of_nil; intuition discriminate|]).
    apply NoDup_nil_2.
  - repeat constructor; cbn; lia.
  - vm_compute. reflexivity.
  - discriminate.
  - vm_compute. reflexivity.
  - left.
Defined.

Lemma open_empty_dir_witness :
  exists vl' lf,
    @valueLog_open concreteExt (TestDB.db_with (Some MoreEx.dk7)) _ (ErrHandler 2)
      MoreEx.reg7 true (Some [MoreEx.manifest]) zeroVP Scenario.record_all []
      Scenario.vl_empty =
      Some ([], vl', OpenOk (Some {| Fid := 0; Offset := 20; Len := 0 |})) /\
    filesMap (wal vl') = {[0 := lf]} /\ dataKey lf = Some MoreEx.dk7.
Proof.
  destruct (@open_empty_dir concreteExt (TestDB.db_with (Some MoreEx.dk7)) _ (ErrHandler 2)
              MoreEx.reg7 true [MoreEx.manifest] zeroVP Scenario.record_all []
              Scenario.vl_empty (Some MoreEx.dk7))
    as (vl' & lf & Hrun & _ & Hmap & _ & _ & _ & Hkey & _).
  - reflexivity.
  - intros ft. destruct ft; split; reflexivity.
  - vm_compute. reflexivity.
  - vm_compute. reflexivity.
  - reflexivity.
  - vm_compute. split; [discriminate|reflexivity].
  - reflexivity.
  - vm_compute. reflexivity.
  - reflexivity.
  - reflexivity.
  - exists vl', lf. split; [exact Hrun|]. split; [exact Hmap|exact Hkey].
Defined.

Lemma open_replays_wal_witness :
  exists vl',
    @valueLog_open concreteExt TestDB.db _ (ErrHandler 2) MoreEx.reg7 false
      (Some MoreEx.reopen_names) zeroVP Scenario.record_all [] MoreEx.vl_reopen =
      Some (run_handler Scenario.record_all
              (@deliveries concreteExt MoreEx.wal_fresh lfHeaderSize
                 [Scenario.k1; Scenario.k2; Scenario.commit10]) [],
            vl', OpenOk (Some {| Fid := 0; Offset := 121; Len := 0 |})) /\
    writableOffset (vlog vl') = 79.
Proof.
  destruct (@open_replays_wal concreteExt InstanceFacts.concreteExt_laws TestDB.db _
              (ErrHandler 2) MoreEx.reg7 false MoreEx.reopen_names MoreEx.reopen_keys 0
              zeroVP Scenario.record_all [] MoreEx.vl_reopen MoreEx.wal_fresh
              MoreEx.hdr_fresh [Scenario.k1; Scenario.k2; Scenario.commit10] 0)
    as (vl' & Hrun & _ & _ & _ & _ & _ & _ & Hv).
  - reflexivity.
  - reflexivity.
  - intros ft. destruct ft; split; reflexivity.
  - vm_compute. reflexivity.
  - repeat (apply NoDup_cons; split;
      [rewrite ?elem_of_cons, elem_of_nil; intuition discriminate|]).
    apply NoDup_nil_2.
  - repeat (apply Forall_cons; split; [vm_compute; split; [discriminate|reflexivity]|]).
    apply Forall_nil_2.
  - intros f. unfold MoreEx.reopen_keys. rewrite !elem_of_cons, elem_of_nil. split.
    + intros [H|[H|[]]]; [discriminate|now injection H].
    + intros ->. right. left. reflexivity.
  - intros f Hf. unfold MoreEx.reopen_keys in Hf.
    rewrite !elem_of_cons, elem_of_nil in Hf. destruct Hf as [H|[H|[]]]; [|discriminate].
    injection H as ->.
    exists (default [] (disk MoreEx.vl_reopen !! (vlogFile, 0))), 0, None.
    split; [vm_compute; reflexivity|].
    split; [vm_compute; split; discriminate|].
    split; [vm_compute; reflexivity|].
    split; [reflexivity|]. intros _. vm_compute. reflexivity.
  - vm_compute. reflexivity.
  - vm_compute. reflexivity.
  - vm_compute. reflexivity.
  - vm_compute. reflexivity.
  - vm_compute. reflexivity.
  - vm_compute. reflexivity.
  - vm_compute. reflexivity.
  - apply (committed_txn 10 [Scenario.k1; Scenario.k2] Scenario.commit10 []).
    + discriminate.
    + repeat (apply Forall_cons; split; [split; vm_compute; reflexivity|]).
      apply Forall_nil_2.
    + reflexivity.
    + vm_compute. reflexivity.
    + apply committed_nil.
  - repeat (apply Forall_cons; split;
      [split; [unfold wf_entry, is_byte; simpl; unfold bitTxn, bitFinTxn; lia
              |vm_compute; discriminate]|]).
    apply Forall_nil_2.
  - vm_compute. reflexivity.
  - intros o. exact I.
  - reflexivity.
  - vm_compute. discriminate.
  - intros _. vm_compute. reflexivity.
  - exists vl'. split.
    + rewrite Hrun. vm_compute. reflexivity.
    + destruct (Hv 0 (default [] (disk MoreEx.vl_reopen !! (vlogFile, 0))) 0 None)
        as [_ Hlast].
      * unfold MoreEx.reopen_keys. left.
      * vm_compute. reflexivity.
      * vm_compute. reflexivity.
      * reflexivity.
      * destruct Hlast as [_ Hoff].
        { intros g Hg. unfold MoreEx.reopen_keys in Hg.
          rewrite !elem_of_cons, elem_of_nil in Hg. destruct Hg as [H|[H|[]]];
            [injection H as ->; lia|discriminate]. }
        rewrite Hoff. vm_compute. reflexivity.
Defined.

Lemma open_unreadable_wal_witness :
  @open_wal_files concreteExt TestDB.db _ (ErrHandler 2) MoreEx.reg7 [0; 1] zeroVP
    Scenario.record_all [] MoreEx.vl_junk =
  @open_wal_files concreteExt TestDB.db _ (ErrHandler 2) MoreEx.reg7 [1] zeroVP
    Scenario.record_all []
    (set_disk (delete (walFile, 0) (disk MoreEx.vl_junk))
       (set_lw walFile
          (set_filesMap (delete 0 (filesMap (wal MoreEx.vl_junk))) (wal MoreEx.vl_junk))
          MoreEx.vl_junk)).
Proof.
  refine (proj1 (proj2 (@open_unreadable_wal concreteExt TestDB.db _ (ErrHandler 2) MoreEx.reg7 0 [1] zeroVP Scenario.record_all []
            MoreEx.vl_junk (found_file Scenario.options walFile 0) MoreEx.hdr_fresh
            [1; 2; 3] 0 None io_EOF _ _ _ _ _ _ _ _ _ _ _ _ _)) _ _).
  - vm_compute. reflexivity.
  - reflexivity.
  - vm_compute. reflexivity.
  - vm_compute. reflexivity.
  - discriminate.
  - vm_compute. discriminate.
  - vm_compute. reflexivity.
  - reflexivity.
  - reflexivity.
  - vm_compute. discriminate.
  - intros _. vm_compute. reflexivity.
  - vm_compute. reflexivity.
  - left. reflexivity.
  - reflexivity.
  - vm_compute. discriminate.
Defined.

Lemma walCleaner_drops_before_head_witness :
  exists vl',
    walCleaner_recv MoreEx.vl_clean = (vl', Ok tt) /\
    filesMap (wal vl') !! 0 = None /\ disk vl' !! (walFile, 0) = None /\
    getCurrentFile (wal vl') = getCurrentFile (wal MoreEx.vl_clean).
Proof.
  assert (Hty : forall f lf, filesMap (wal MoreEx.vl_clean) !! f = Some lf ->
                  fkey lf = (walFile, f)).
  { intros f lf H.
    destruct (decide (f = 0)) as [->|H0]; [vm_compute in H; now injection H as <-|].
    destruct (decide (f = 1)) as [->|H1]; [vm_compute in H; now injection H as <-|].
    unfold MoreEx.vl_clean, MoreEx.vl_junk in H. cbn [wal filesMap set_delChan] in H.
    rewrite lookup_insert_ne, lookup_singleton_ne in H by congruence. discriminate. }
  destruct (proj2 (walCleaner_drops_before_head MoreEx.vl_clean 1 [] eq_refl Hty))
    as (vl' & Hrun & _ & Hmap & Hdisk & Hcur & _).
  - vm_compute. discriminate.
  - exists vl'. split; [exact Hrun|]. split; [|split; [|exact Hcur]].
    + rewrite Hmap. vm_compute. reflexivity.
    + rewrite Hdisk. vm_compute. reflexivity.
Defined.
